(** * TokenWise backend: a shallow embedding and its verified properties

    The development follows the three back-end sources

    - [backend/src/services/solanaService.ts]  (RateLimiter, SolanaService),
    - [backend/src/server.ts]                  (broadcast hub, RealTimeMonitor,
                                                WebSocket message handler,
                                                TransactionService),
    - [backend/src/controllers/walletController.ts] (historical and bulk sync),

    with [services/walletService.ts] for the wallet store and
    [utils/serialization.ts] for [serializeBigInt].  Asynchronous code
    is embedded as explicit state passing over a world that also records a
    trace of the effects performed; everything the code does not control
    (the clock, the ledger, the database, the sockets) is an oracle.  Where
    a property depends on how callers interleave (the rate limiter), the
    code is embedded turn by turn on the event loop. *)

From Stdlib Require Import String Ascii ZArith QArith Qround Lia Lqa Bool Arith DecimalString.
From Stdlib Require Import List Sorted Permutation.
Import ListNotations.
Close Scope Q_scope.

Set Implicit Arguments.
Set Warnings "-register-all".

(* ===================================================================== *)
(** * Part I. Definitions                                                 *)
(* ===================================================================== *)

(** ** JavaScript values and built-ins used by the sources *)

Module JS.

(** Errors are tagged by the call that raised them. *)
Inductive JsError : Type :=
| SendError (ws : nat)                 (* ws.send(...) threw *)
| SubscribeError (address : string)    (* subscribeToAccountChanges threw *)
| UnsubscribeError (id : nat)          (* removeAccountChangeListener rejected *)
| DatabaseError                        (* a prisma query rejected *)
| TypeError                            (* property access on null, conversion of an object *)
| SyntaxError                          (* JSON.parse threw *)
| FetchError (message : option string) (* an upstream call rejected *).

(** [error.message] *)
Definition error_message (e : JsError) : option string :=
  match e with
  | SendError _ => Some "WebSocket is not open"%string
  | SubscribeError _ => Some "Invalid public key input"%string
  | UnsubscribeError _ => Some "Subscription not found"%string
  | DatabaseError => Some "Database query failed"%string
  | TypeError => Some "Cannot read properties of null"%string
  | SyntaxError => Some "Unexpected token in JSON"%string
  | FetchError m => m
  end.

(** How a statement or call completes. *)
Inductive Completion (A : Type) : Type :=
| Normal (a : A)
| Throw (e : JsError).
Arguments Throw {A} e.

(** [Array.prototype.slice(start, end)]: negative indices count from the
    end, everything is clamped to the array. *)
Definition relativeIndex (len k : Z) : Z :=
  if (k <? 0)%Z then Z.max (len + k) 0 else Z.min k len.

Definition slice {A : Type} (arr : list A) (start end_ : Z) : list A :=
  let len := Z.of_nat (length arr) in
  let k := relativeIndex len start in
  let final := relativeIndex len end_ in
  firstn (Z.to_nat (final - k)) (skipn (Z.to_nat k) arr).

(** [for (let i = i0; i < len; i += step) body(i)] over a loop state [S].
    The loop need not terminate ([step <= 0]), hence the fuel: [None] means
    that [fuel] iterations did not reach the exit test. *)
Fixpoint forStep {S : Type} (fuel : nat) (len step : Z)
         (body : Z -> S -> S) (i : Z) (s : S) : option S :=
  match fuel with
  | O => None
  | Datatypes.S fuel' =>
      if (i <? len)%Z
      then forStep fuel' len step body (i + step)%Z (body i s)
      else Some s
  end.

(** [haystack.includes(needle)] *)
Fixpoint includes (needle haystack : string) : bool :=
  if String.prefix needle haystack then true
  else match haystack with
       | EmptyString => false
       | String _ rest => includes needle rest
       end.

End JS.
Import JS.

(** ** Batch synchronisation
    [TransactionService.syncAllWalletTransactions] (server.ts) and
    [WalletController.performBulkSync] (walletController.ts). *)

Module Sync.

(** What one mapped promise of a batch resolves to:
    [{ success, address }]. *)
Record BatchItem : Type := { success : bool; address : string }.

(** An entry of the array returned by [Promise.allSettled]. *)
Inductive PromiseSettledResult (A : Type) : Type :=
| fulfilled (value : A)
| rejected (reason : JsError).
Arguments rejected {A} reason.

Inductive LogMsg : Type :=
| StartingBulkSync (syncId : string) (wallets : nat)
| BulkSyncProgress (syncId : string) (current : Z) (total : nat)
| BulkSyncCompleted (syncId : string) (ok failed : nat)
| BulkSyncFailed (syncId : string)
| StartingSync (wallets : nat)
| SyncCompleted (ok failed : nat)
| FailedToSyncWallet (address : string)
| ErrorSyncingAll.

(** Effects in the order they happen. *)
Inductive Event : Type :=
| SyncCall (address : string) (limit : Z)   (* syncWalletTransactions(address, limit) *)
| Sleep (ms : Z)                            (* setTimeout(resolve, ms) *)
| LogInfo (m : LogMsg)
| LogError (m : LogMsg).

(** The local variables of a run together with the effect trace.
    [settled] collects the [results] arrays of all batches. *)
Record Run : Type := {
  successCount : nat;
  failedCount : nat;
  calls : nat;
  settled : list (PromiseSettledResult BatchItem);
  events : list Event
}.

Definition emit (e : Event) (r : Run) : Run :=
  {| successCount := successCount r; failedCount := failedCount r;
     calls := calls r; settled := settled r; events := events r ++ [e] |}.

Definition start : Run :=
  {| successCount := 0; failedCount := 0; calls := 0; settled := []; events := [] |}.

(** The [{ success, failed }] object returned by [syncAllWalletTransactions]. *)
Record SyncSummary : Type := { summary_success : nat; summary_failed : nat }.

Section WithLedger.

(** [syncWalletTransactions n address limit]: whether the [n]-th call of
    [transactionService.syncWalletTransactions(address, limit)] resolves
    ([true]) or rejects ([false]). *)
Variable syncWalletTransactions : nat -> string -> Z -> bool.

(** One element of [batch.map(async (address) => { try ... catch ... })].
    The calls of a batch are all started before any of them settles; the
    trace has the error line of a failed call right after its call, so only
    the events and their number, not their order within a batch, are those
    of a run. *)
Definition syncOne (limit : Z) (addr : string) (r : Run) : Run * BatchItem :=
  let ok := syncWalletTransactions (calls r) addr limit in
  let r1 := emit (SyncCall addr limit)
              {| successCount := successCount r; failedCount := failedCount r;
                 calls := S (calls r); settled := settled r; events := events r |} in
  if ok then (r1, {| success := true; address := addr |})
  else (emit (LogError (FailedToSyncWallet addr)) r1,
        {| success := false; address := addr |}).

Fixpoint mapBatch (limit : Z) (batch : list string) (r : Run)
  : Run * list BatchItem :=
  match batch with
  | [] => (r, [])
  | addr :: rest =>
      let '(r1, item) := syncOne limit addr r in
      let '(r2, items) := mapBatch limit rest r1 in
      (r2, item :: items)
  end.

(** [Promise.allSettled]: the mapped promises never reject, since their
    bodies catch every error. *)
Definition allSettled (items : list BatchItem)
  : list (PromiseSettledResult BatchItem) :=
  map (@fulfilled BatchItem) items.

Definition record (results : list (PromiseSettledResult BatchItem)) (r : Run) : Run :=
  {| successCount := successCount r; failedCount := failedCount r;
     calls := calls r; settled := settled r ++ results; events := events r |}.

Definition incSuccess (r : Run) : Run :=
  {| successCount := S (successCount r); failedCount := failedCount r;
     calls := calls r; settled := settled r; events := events r |}.

Definition incFailed (r : Run) : Run :=
  {| successCount := successCount r; failedCount := S (failedCount r);
     calls := calls r; settled := settled r; events := events r |}.

(** *** walletController.ts, [performBulkSync] *)

(** [results.forEach] of [performBulkSync]. *)
Definition tallyBulk (r : Run) (result : PromiseSettledResult BatchItem) : Run :=
  match result with
  | fulfilled v => if success v then incSuccess r else incFailed r
  | rejected _ => incFailed r
  end.

Definition bulkBody (syncId : string) (walletAddresses : list string)
           (transactionsPerWallet batchSize : Z) (i : Z) (r : Run) : Run :=
  let len := Z.of_nat (length walletAddresses) in
  let batch := slice walletAddresses i (i + batchSize) in
  let '(r1, batchPromises) := mapBatch transactionsPerWallet batch r in
  let results := allSettled batchPromises in
  let r2 := fold_left tallyBulk results (record results r1) in
  let r3 := if (i + batchSize <? len)%Z then emit (Sleep 2000) r2 else r2 in
  emit (LogInfo (BulkSyncProgress syncId (i + Z.of_nat (length batch))
                                  (length walletAddresses))) r3.

(** The function resolves to [undefined]; its counts are only logged, so
    the embedding returns the final run.  [batchSize] comes from the request
    body unchecked; it is taken to be an integer, of any sign. *)
Definition performBulkSync (fuel : nat) (syncId : string)
           (walletAddresses : list string)
           (transactionsPerWallet batchSize : Z) : option Run :=
  let r0 := emit (LogInfo (StartingBulkSync syncId (length walletAddresses))) start in
  match forStep fuel (Z.of_nat (length walletAddresses)) batchSize
                (bulkBody syncId walletAddresses transactionsPerWallet batchSize)
                0%Z r0 with
  | None => None
  | Some r =>
      Some (emit (LogInfo (BulkSyncCompleted syncId (successCount r) (failedCount r))) r)
  end.

(** *** server.ts, [TransactionService.syncAllWalletTransactions] *)

(** [results.forEach] of [syncAllWalletTransactions]. *)
Definition tallyAll (r : Run) (result : PromiseSettledResult BatchItem) : Run :=
  match result with
  | fulfilled v => if success v then incSuccess r else incFailed r
  | rejected _ => incFailed r
  end.

Definition batchSizeAll : Z := 5.

Definition allBody (wallets : list string) (i : Z) (r : Run) : Run :=
  let len := Z.of_nat (length wallets) in
  let batch := slice wallets i (i + batchSizeAll) in
  let '(r1, batchPromises) := mapBatch 5 batch r in
  let results := allSettled batchPromises in
  let r2 := fold_left tallyAll results (record results r1) in
  if (i + batchSizeAll <? len)%Z then emit (Sleep 2000) r2 else r2.

(** [findMany] is what [prisma.wallet.findMany({ where: { isActive: true },
    select: { address: true } })] yields: the addresses, or [None] when
    the query rejects. *)
Definition syncAllWalletTransactions (fuel : nat) (findMany : option (list string))
  : option (Run * Completion SyncSummary) :=
  match findMany with
  | None => Some (emit (LogError ErrorSyncingAll) start, Throw DatabaseError)
  | Some wallets =>
      let r0 := emit (LogInfo (StartingSync (length wallets))) start in
      match forStep fuel (Z.of_nat (length wallets)) batchSizeAll
                    (allBody wallets) 0%Z r0 with
      | None => None
      | Some r =>
          Some (emit (LogInfo (SyncCompleted (successCount r) (failedCount r))) r,
                Normal {| summary_success := successCount r;
                          summary_failed := failedCount r |})
      end
  end.

End WithLedger.

(** Addresses for which [syncWalletTransactions] was invoked, in order. *)
Fixpoint attempted (evs : list Event) : list string :=
  match evs with
  | [] => []
  | SyncCall a _ :: rest => a :: attempted rest
  | _ :: rest => attempted rest
  end.

Fixpoint sleeps (evs : list Event) : list Z :=
  match evs with
  | [] => []
  | Sleep ms :: rest => ms :: sleeps rest
  | _ :: rest => sleeps rest
  end.

(** The item an outcome refers to, and whether it counts as a success. *)
Definition outcomeAddress (o : PromiseSettledResult BatchItem) : option string :=
  match o with fulfilled v => Some (address v) | rejected _ => None end.

Definition outcomeOk (o : PromiseSettledResult BatchItem) : bool :=
  match o with fulfilled v => success v | rejected _ => false end.

Definition outcomeFailed (o : PromiseSettledResult BatchItem) : bool :=
  negb (outcomeOk o).

(** The outcomes a ledger dictates for the items of a worklist when they
    are processed in order, the first of them by call number [n]. *)
Fixpoint outcomesFrom (ledger : nat -> string -> Z -> bool) (limit : Z)
         (n : nat) (items : list string) : list (PromiseSettledResult BatchItem) :=
  match items with
  | [] => []
  | a :: rest =>
      fulfilled {| success := ledger n a limit; address := a |}
        :: outcomesFrom ledger limit (S n) rest
  end.

Definition countIf {A : Type} (p : A -> bool) (l : list A) : nat :=
  length (filter p l).

(** The state of a run that has dealt with the first [n] items. *)
Definition processed (ledger : nat -> string -> Z -> bool) (limit : Z) (worklist : list string) (n : nat) (r : Run) : Prop :=
  calls r = n /\
  settled r = outcomesFrom ledger limit 0 (firstn n worklist) /\
  attempted (events r) = firstn n worklist /\
  successCount r = countIf outcomeOk (settled r) /\
  failedCount r = countIf outcomeFailed (settled r).

(** A worklist of [n] one-letter addresses, [A], [B], ... *)
Definition sampleWorklist (n : nat) : list string :=
  map (fun k => String (ascii_of_nat (65 + k)) EmptyString) (seq 0 n).

(** A ledger on which exactly the calls numbered 3, 9 and 20 reject. *)
Definition ledger_3_9_20 (n : nat) (_ : string) (_ : Z) : bool :=
  negb ((n =? 3) || (n =? 9) || (n =? 20))%nat.

Definition upTo (worklist : list string) (i : Z) : nat :=
  Z.to_nat (Z.min i (Z.of_nat (length worklist))).

End Sync.

(** ** The rate limiter
    [class RateLimiter] of solanaService.ts, as one activation of its worker
    loop sees it: a call of [execute] that finds the limiter idle runs the
    loop to its end.  How calls of other callers interleave with the awaits
    of the loop is the subject of [EventLoop] below. *)

Module RateLimiter.

(** [private readonly minInterval = 100], [private readonly maxRetries = 3]. *)
Definition minInterval : Z := 100.
Definition maxRetries : nat := 3.
Arguments minInterval : simpl never.
Arguments maxRetries : simpl never.

(** What the promise returned by [fn()] settles to. *)
Inductive Settled : Type :=
| Resolved (value : nat)
| Rejected (error : JsError).

(** [fn : () => Promise<T>].  Its outcome may differ from call to call; the
    argument is the number of upstream calls made before this one. *)
Definition Fn : Type := nat -> Settled.

(** The closure that [execute] pushes on the queue; [caller] names the
    promise that [execute] handed out. *)
Record Task : Type := { caller : nat; task_fn : Fn }.

Inductive Event : Type :=
| Dispatch (time : Z)                 (* this.lastRequestTime = Date.now(); fn() *)
| PacingSleep (ms : Z)                (* sleep(minInterval - timeSinceLastRequest) *)
| Backoff (delay : Z) (attempt : nat) (* logger.warn(...); sleep(delay) *)
| Settle (caller : nat) (result : Settled) (* resolve(result) or reject(error) *).

(** The fields of the class, the clock, and the trace. *)
Record State : Type := {
  queue : list Task;
  processing : bool;
  lastRequestTime : Z;
  now : Z;              (* Date.now() *)
  awaits : nat;         (* suspension points passed *)
  invocations : nat;    (* upstream calls made *)
  trace : list Event
}.

(** [new RateLimiter()] at time [t]. *)
Definition create (t : Z) : State :=
  {| queue := []; processing := false; lastRequestTime := 0; now := t;
     awaits := 0; invocations := 0; trace := [] |}.

Definition set_queue (q : list Task) (st : State) : State :=
  {| queue := q; processing := processing st; lastRequestTime := lastRequestTime st;
     now := now st; awaits := awaits st; invocations := invocations st;
     trace := trace st |}.

Definition set_processing (b : bool) (st : State) : State :=
  {| queue := queue st; processing := b; lastRequestTime := lastRequestTime st;
     now := now st; awaits := awaits st; invocations := invocations st;
     trace := trace st |}.

Definition set_lastRequestTime (t : Z) (st : State) : State :=
  {| queue := queue st; processing := processing st; lastRequestTime := t;
     now := now st; awaits := awaits st; invocations := invocations st;
     trace := trace st |}.

Definition emit (e : Event) (st : State) : State :=
  {| queue := queue st; processing := processing st; lastRequestTime := lastRequestTime st;
     now := now st; awaits := awaits st; invocations := invocations st;
     trace := trace st ++ [e] |}.

Section WithClock.

(** [lag n]: the time that passes at the [n]-th suspension point beyond what
    was asked for (a timer firing late, the duration of an upstream call).
    Timers never fire early and the clock never runs backwards. *)
Variable lag : nat -> nat.

(** Time passing while the worker is suspended. *)
Definition suspend (ms : Z) (st : State) : State :=
  {| queue := queue st; processing := processing st; lastRequestTime := lastRequestTime st;
     now := (now st + ms + Z.of_nat (lag (awaits st)))%Z; awaits := S (awaits st);
     invocations := invocations st; trace := trace st |}.

(** [await fn()] *)
Definition call (fn : Fn) (st : State) : State * Settled :=
  let st1 := suspend 0 st in
  ({| queue := queue st1; processing := processing st1;
      lastRequestTime := lastRequestTime st1; now := now st1; awaits := awaits st1;
      invocations := S (invocations st); trace := trace st1 |},
   fn (invocations st)).

(** [error.message?.includes('429')] *)
Definition isRateLimit (e : JsError) : bool :=
  match error_message e with
  | Some m => includes "429" m
  | None => false
  end.

(** The wait at the top of [executeWithRetry]:
    [if (timeSinceLastRequest < this.minInterval) await this.sleep(...)]. *)
Definition pace (st : State) : State :=
  let timeSinceLastRequest := (now st - lastRequestTime st)%Z in
  if (timeSinceLastRequest <? minInterval)%Z
  then suspend (minInterval - timeSinceLastRequest)
               (emit (PacingSleep (minInterval - timeSinceLastRequest)) st)
  else st.

(** [this.lastRequestTime = Date.now()], just before [fn()] is called. *)
Definition dispatch (st : State) : State :=
  emit (Dispatch (now st)) (set_lastRequestTime (now st) st).

(** [const delay = Math.pow(2, retries) * 1000; logger.warn(...);
    await this.sleep(delay)]. *)
Definition backoff (retries : nat) (st : State) : State :=
  let delay := (2 ^ Z.of_nat retries * 1000)%Z in
  suspend delay (emit (Backoff delay (retries + 1)) st).

(** [executeWithRetry(fn, retries)].  The recursion is on the retries left;
    [fuel] bounds its depth and [None] means the bound was hit. *)
Fixpoint executeWithRetry_aux (fuel : nat) (fn : Fn) (retries : nat) (st : State)
  : option (State * Settled) :=
  match fuel with
  | O => None
  | S fuel' =>
      let '(st1, result) := call fn (dispatch (pace st)) in
      match result with
      | Resolved v => Some (st1, Resolved v)
      | Rejected error =>
          if isRateLimit error && (retries <? maxRetries)%nat
          then executeWithRetry_aux fuel' fn (retries + 1) (backoff retries st1)
          else Some (st1, Rejected error)
      end
  end.

(** The depth never exceeds [maxRetries - retries + 1]. *)
Definition executeWithRetry (fn : Fn) (retries : nat) (st : State)
  : option (State * Settled) :=
  executeWithRetry_aux (S (maxRetries - retries)) fn retries st.

(** How far [processQueue] got. *)
Inductive Progress : Type :=
| Drained (st : State)      (* the loop ended, [processing] is false again *)
| Running (st : State)      (* the loop is still at work *).

Definition stateOf (p : Progress) : State :=
  match p with Drained st => st | Running st => st end.

(** The [while (this.queue.length > 0)] loop of [processQueue].
    [arrivals k] are the tasks pushed by other callers of [execute] while
    the [k]-th task of this loop was awaited; their own [processQueue] call
    returned at once because [processing] was set. *)
Fixpoint processLoop (fuel : nat) (arrivals : nat -> list Task) (k : nat) (st : State)
  : Progress :=
  match fuel with
  | O => Running st
  | S fuel' =>
      match queue st with
      | [] => Drained (set_processing false st)
      | task :: rest =>
          match executeWithRetry (task_fn task) 0 (set_queue rest st) with
          | None => Running st
          | Some (st1, result) =>
              let st2 := emit (Settle (caller task) result) st1 in
              processLoop fuel' arrivals (S k) (set_queue (queue st2 ++ arrivals k) st2)
          end
      end
  end.

Definition processQueue (fuel : nat) (arrivals : nat -> list Task) (st : State)
  : Progress :=
  if processing st || (length (queue st) =? 0)%nat then Drained st
  else processLoop fuel arrivals 0 (set_processing true st).

(** [execute(fn)] *)
Definition execute (fuel : nat) (arrivals : nat -> list Task) (task : Task) (st : State)
  : Progress :=
  processQueue fuel arrivals (set_queue (queue st ++ [task]) st).

End WithClock.

Fixpoint dispatchTimes (evs : list Event) : list Z :=
  match evs with
  | [] => []
  | Dispatch t :: rest => t :: dispatchTimes rest
  | _ :: rest => dispatchTimes rest
  end.

Fixpoint backoffs (evs : list Event) : list Z :=
  match evs with
  | [] => []
  | Backoff d _ :: rest => d :: backoffs rest
  | _ :: rest => backoffs rest
  end.

Fixpoint settlements (evs : list Event) : list (nat * Settled) :=
  match evs with
  | [] => []
  | Settle c r :: rest => (c, r) :: settlements rest
  | _ :: rest => settlements rest
  end.

(** Consecutive entries of [ts] are at least [m] apart. *)
Definition Paced (m : Z) (ts : list Z) : Prop :=
  forall i t1 t2,
    nth_error ts i = Some t1 -> nth_error ts (S i) = Some t2 -> (m <= t2 - t1)%Z.

Definition lastOpt {A : Type} (l : list A) : option A :=
  match rev l with [] => None | x :: _ => Some x end.

(** The pacing invariant of a limiter: its dispatches are paced and
    [lastRequestTime] is the time of the latest one. *)
Definition WellPacedAt (evs : list Event) (last : Z) : Prop :=
  Paced minInterval (dispatchTimes evs) /\
  forall t, lastOpt (dispatchTimes evs) = Some t -> last = t.

Definition WellPaced (st : State) : Prop :=
  WellPacedAt (trace st) (lastRequestTime st).

(** The [k]-th gap of [ts] is at least the [k]-th backoff delay, counting
    from retry number [retries]. *)
Fixpoint BackedOff (retries : nat) (ts : list Z) : Prop :=
  match ts with
  | t :: (t' :: _) as rest =>
      (2 ^ Z.of_nat retries * 1000 <= t' - t)%Z /\ BackedOff (S retries) rest
  | _ => True
  end.

(** A function that is always turned away with HTTP 429. *)
Definition tooManyRequests : Fn :=
  fun _ => Rejected (FetchError (Some "429 Too Many Requests"%string)).

Definition notFound : Fn :=
  fun _ => Rejected (FetchError (Some "404 Not Found"%string)).

Definition alwaysFine : Fn := fun n => Resolved n.

(** Every await runs 7 ms late. *)
Definition late7 : nat -> nat := fun _ => 7.

End RateLimiter.

(** ** The rate limiter on the event loop
    The same class, one turn of the event loop at a time.  A turn is a call
    of [execute] by some caller, or the continuation of an activation of
    [processQueue] whose awaited promise has settled; a turn runs to its
    next [await] before another turn starts.  Any number of callers may take
    their turn while an activation is suspended; nothing but the
    [processing] flag that the code tests stands in the way of a second
    activation of the loop. *)

Module EventLoop.

(** Where an activation of [processQueue] is suspended. *)
Inductive Await : Type :=
| Sleeping (deadline : Z)
    (* await this.sleep(minInterval - timeSinceLastRequest), due at [deadline] *)
| Calling (result : RateLimiter.Settled)
    (* await fn(), and what its promise settles to *)
| BackingOff (delay : Z)
    (* await this.sleep(delay) *).

(** A suspended activation: the task it took off the queue and the
    [retries] of the [executeWithRetry] call that is waiting. *)
Record Activation : Type := {
  task : RateLimiter.Task;
  retries : nat;
  awaiting : Await
}.

(** The fields of the class, the suspended activations of [processQueue],
    the number of [Date.now()] calls and of upstream calls made, and the
    trace. *)
Record Limiter : Type := {
  queue : list RateLimiter.Task;
  processing : bool;
  lastRequestTime : Z;
  suspended : list Activation;
  reads : nat;
  invocations : nat;
  trace : list RateLimiter.Event
}.

(** [new RateLimiter()] *)
Definition create : Limiter :=
  {| queue := []; processing := false; lastRequestTime := 0; suspended := [];
     reads := 0; invocations := 0; trace := [] |}.

Definition set_queue (q : list RateLimiter.Task) (st : Limiter) : Limiter :=
  {| queue := q; processing := processing st; lastRequestTime := lastRequestTime st;
     suspended := suspended st; reads := reads st; invocations := invocations st;
     trace := trace st |}.

Definition set_processing (b : bool) (st : Limiter) : Limiter :=
  {| queue := queue st; processing := b; lastRequestTime := lastRequestTime st;
     suspended := suspended st; reads := reads st; invocations := invocations st;
     trace := trace st |}.

Definition set_lastRequestTime (t : Z) (st : Limiter) : Limiter :=
  {| queue := queue st; processing := processing st; lastRequestTime := t;
     suspended := suspended st; reads := reads st; invocations := invocations st;
     trace := trace st |}.

Definition set_suspended (l : list Activation) (st : Limiter) : Limiter :=
  {| queue := queue st; processing := processing st; lastRequestTime := lastRequestTime st;
     suspended := l; reads := reads st; invocations := invocations st;
     trace := trace st |}.

Definition emit (e : RateLimiter.Event) (st : Limiter) : Limiter :=
  {| queue := queue st; processing := processing st; lastRequestTime := lastRequestTime st;
     suspended := suspended st; reads := reads st; invocations := invocations st;
     trace := trace st ++ [e] |}.

Definition tick (st : Limiter) : Limiter :=
  {| queue := queue st; processing := processing st; lastRequestTime := lastRequestTime st;
     suspended := suspended st; reads := S (reads st); invocations := invocations st;
     trace := trace st |}.

Definition called (st : Limiter) : Limiter :=
  {| queue := queue st; processing := processing st; lastRequestTime := lastRequestTime st;
     suspended := suspended st; reads := reads st; invocations := S (invocations st);
     trace := trace st |}.

(** One turn of the event loop. *)
Inductive Turn : Type :=
| Execute (submitted : RateLimiter.Task)
    (* a caller calls execute(fn) *)
| Resume (i : nat)
    (* the promise that the [i]-th suspended activation awaits has settled *).

Section WithClock.

(** [clock n] is what the [n]-th call of [Date.now()] returns.  Nothing is
    assumed of it here. *)
Variable clock : nat -> Z.

(** [Date.now()] *)
Definition dateNow (st : Limiter) : Z * Limiter := (clock (reads st), tick st).

(** [this.lastRequestTime = Date.now(); return await fn()]: the upstream
    call is made and the activation waits for its promise. *)
Definition dispatch (t : RateLimiter.Task) (retries : nat) (st : Limiter)
  : Limiter * Activation :=
  let '(now, st1) := dateNow st in
  let st2 := emit (RateLimiter.Dispatch now) (set_lastRequestTime now st1) in
  (called st2,
   {| task := t; retries := retries;
      awaiting := Calling (RateLimiter.task_fn t (invocations st2)) |}).

(** [executeWithRetry(fn, retries)], up to its first [await]. *)
Definition executeWithRetry (t : RateLimiter.Task) (retries : nat) (st : Limiter)
  : Limiter * Activation :=
  let '(now, st1) := dateNow st in
  let timeSinceLastRequest := (now - lastRequestTime st1)%Z in
  if (timeSinceLastRequest <? RateLimiter.minInterval)%Z
  then (emit (RateLimiter.PacingSleep (RateLimiter.minInterval - timeSinceLastRequest)) st1,
        {| task := t; retries := retries;
           awaiting := Sleeping (now + (RateLimiter.minInterval - timeSinceLastRequest)) |})
  else dispatch t retries st1.

(** The [while] loop of [processQueue], from its test to the next [await]:
    [None] when the loop ended. *)
Definition loop (st : Limiter) : Limiter * option Activation :=
  match queue st with
  | [] => (set_processing false st, None)
  | t :: rest =>
      let '(st1, a) := executeWithRetry t 0 (set_queue rest st) in (st1, Some a)
  end.

(** [resolve(result)] or [reject(error)] in the closure that [execute]
    pushed; [await task()] returns and the loop goes on. *)
Definition settle (t : RateLimiter.Task) (result : RateLimiter.Settled) (st : Limiter)
  : Limiter * option Activation :=
  loop (emit (RateLimiter.Settle (RateLimiter.caller t) result) st).

(** The continuation of a suspended activation, up to its next [await]. *)
Definition resume (a : Activation) (st : Limiter) : Limiter * option Activation :=
  match awaiting a with
  | Sleeping _ =>
      let '(st1, a1) := dispatch (task a) (retries a) st in (st1, Some a1)
  | Calling (RateLimiter.Resolved value) =>
      settle (task a) (RateLimiter.Resolved value) st
  | Calling (RateLimiter.Rejected error) =>
      if RateLimiter.isRateLimit error && (retries a <? RateLimiter.maxRetries)%nat
      then
        let delay := (2 ^ Z.of_nat (retries a) * 1000)%Z in
        (emit (RateLimiter.Backoff delay (retries a + 1)) st,
         Some {| task := task a; retries := retries a; awaiting := BackingOff delay |})
      else settle (task a) (RateLimiter.Rejected error) st
  | BackingOff _ =>
      let '(st1, a1) := executeWithRetry (task a) (retries a + 1) st in (st1, Some a1)
  end.

(** An activation that reached an [await] joins the suspended ones. *)
Definition park (r : Limiter * option Activation) : Limiter :=
  match snd r with
  | Some a => set_suspended (suspended (fst r) ++ [a]) (fst r)
  | None => fst r
  end.

(** [processQueue()], up to its first [await]. *)
Definition processQueue (st : Limiter) : Limiter :=
  if processing st || (length (queue st) =? 0)%nat then st
  else park (loop (set_processing true st)).

(** [execute(fn)]: the promise is handed out, the closure pushed and
    [processQueue] called. *)
Definition execute (submitted : RateLimiter.Task) (st : Limiter) : Limiter :=
  processQueue (set_queue (queue st ++ [submitted]) st).

Definition turn (t : Turn) (st : Limiter) : Limiter :=
  match t with
  | Execute submitted => execute submitted st
  | Resume i =>
      match nth_error (suspended st) i with
      | None => st
      | Some a =>
          park (resume a (set_suspended (firstn i (suspended st) ++ skipn (S i) (suspended st))
                                        st))
      end
  end.

Definition run (turns : list Turn) (st : Limiter) : Limiter :=
  fold_left (fun st t => turn t st) turns st.

(** The timer of the activation that [t] resumes has not fired early: when
    it waits for the pacing sleep, [Date.now()] has reached the time the
    sleep was due. *)
Definition due (t : Turn) (st : Limiter) : Prop :=
  match t with
  | Execute _ => True
  | Resume i =>
      match nth_error (suspended st) i with
      | Some {| awaiting := Sleeping deadline |} => (deadline <= clock (reads st))%Z
      | _ => True
      end
  end.

(** No pacing timer fires early in the course of [turns]. *)
Fixpoint Timely (turns : list Turn) (st : Limiter) : Prop :=
  match turns with
  | [] => True
  | t :: rest => due t st /\ Timely rest (turn t st)
  end.

(** [Date.now()] never decreases. *)
Definition Monotone : Prop := forall n, (clock n <= clock (S n))%Z.

End WithClock.

(** The tasks that the callers of [turns] submitted, in order. *)
Fixpoint submissions (turns : list Turn) : list RateLimiter.Task :=
  match turns with
  | [] => []
  | Execute submitted :: rest => submitted :: submissions rest
  | Resume _ :: rest => submissions rest
  end.

(** The tasks that suspended activations hold. *)
Definition inFlight (st : Limiter) : list RateLimiter.Task := map task (suspended st).

(** The callers settled so far, then those whose task an activation holds,
    then those still queued. *)
Definition served (st : Limiter) : list nat :=
  map fst (RateLimiter.settlements (trace st))
  ++ map RateLimiter.caller (inFlight st) ++ map RateLimiter.caller (queue st).

(** At most one activation of the loop, and [processing] tells whether
    there is one. *)
Definition SingleWorker (st : Limiter) : Prop :=
  (processing st = true /\ exists a, suspended st = [a]) \/
  (processing st = false /\ suspended st = [] /\ queue st = []).

(** The limiter is paced so far, and an activation in its pacing sleep is
    not due before [minInterval] has passed since the last dispatch. *)
Definition Pacing (st : Limiter) : Prop :=
  RateLimiter.WellPacedAt (trace st) (lastRequestTime st) /\
  forall a deadline,
    In a (suspended st) -> awaiting a = Sleeping deadline ->
    (lastRequestTime st + RateLimiter.minInterval <= deadline)%Z.

(** How often an activation is resumed, at most, before its task settles:
    once per upstream call, and for every retry once more for the backoff
    and once for a pacing sleep. *)
Definition attemptsLeft (retries : nat) : nat :=
  1 + 3 * (RateLimiter.maxRetries - retries).

Definition budget (a : Activation) : nat :=
  match awaiting a with
  | Sleeping _ => 1 + attemptsLeft (retries a)
  | Calling _ => attemptsLeft (retries a)
  | BackingOff _ => 2 + attemptsLeft (retries a + 1)
  end.

Definition resumptions (st : Limiter) : nat :=
  list_sum (map budget (suspended st)) + 11 * length (queue st).

(** The turns in which the only activation is resumed [n] times. *)
Definition resumes (n : nat) : list Turn := repeat (Resume 0) n.

(** A clock that advances by 53 ms from one reading to the next. *)
Definition steadyClock (n : nat) : Z := (5000 + 53 * Z.of_nat n)%Z.

(** Three callers in the same tick, then the worker until the queue is
    empty. *)
Definition threeCallers : list Turn :=
  [ Execute {| RateLimiter.caller := 1; RateLimiter.task_fn := RateLimiter.alwaysFine |};
    Execute {| RateLimiter.caller := 2; RateLimiter.task_fn := RateLimiter.alwaysFine |};
    Execute {| RateLimiter.caller := 3; RateLimiter.task_fn := RateLimiter.alwaysFine |} ]
  ++ resumes 5.

(** The readings 5000, 5000, 5007 and then 5099: the clock never goes back,
    but the fourth reading, taken when the pacing timer set at 5007 for
    93 ms fires, comes 1 ms before the time the timer was set for. *)
Definition earlyTimer (n : nat) : Z :=
  match n with
  | O => 5000%Z
  | S O => 5000%Z
  | S (S O) => 5007%Z
  | _ => 5099%Z
  end.

(** Two callers in the same tick; the first call returns; the pacing timer
    of the second fires. *)
Definition twoCallers : list Turn :=
  [ Execute {| RateLimiter.caller := 1; RateLimiter.task_fn := RateLimiter.alwaysFine |};
    Execute {| RateLimiter.caller := 2; RateLimiter.task_fn := RateLimiter.alwaysFine |};
    Resume 0; Resume 0 ].

End EventLoop.

(** ** Holder discovery
    [SolanaService.getTopTokenHolders] with its fallbacks and sample data
    (solanaService.ts), and [WalletService.discoverTopHolders]
    (walletService.ts). *)

Module Discovery.

(** [interface TokenHolderInfo].  [amount] is an integer; [uiAmount], a
    quotient, is kept exact. *)
Record TokenHolderInfo : Type := {
  owner : string;
  amount : Z;
  uiAmount : Q;
  decimals : nat
}.

(** [Array.prototype.sort(compareFn)] is stable; an insertion sort that
    puts an element before the first one it does not compare greater
    than gives the same array. *)
Fixpoint insertBy {A : Type} (compareFn : A -> A -> Z) (x : A) (sorted : list A) : list A :=
  match sorted with
  | [] => [x]
  | y :: rest =>
      if (compareFn x y <=? 0)%Z then x :: y :: rest
      else y :: insertBy compareFn x rest
  end.

Definition sortBy {A : Type} (compareFn : A -> A -> Z) (arr : list A) : list A :=
  fold_right (insertBy compareFn) [] arr.

(** [(a, b) => b.amount - a.amount] *)
Definition byAmountDescending (a b : TokenHolderInfo) : Z := (amount b - amount a)%Z.

(** [s.charAt(i)]: the empty string when [i] is out of range. *)
Definition charAt (s : string) (i : nat) : string :=
  match String.get i s with
  | Some c => String c EmptyString
  | None => EmptyString
  end.

Definition chars : string :=
  "ABCDEFGHJKMNPQRSTUVWXYZabcdefghjkmnpqrstuvwxyz123456789".

(** What the ledger answers, as seen through [rateLimiter.execute].  The
    accounts are given as the [TokenHolderInfo] objects that the methods map
    them to. *)
Record Ledger : Type := {
  getTokenLargestAccounts : Completion (list TokenHolderInfo);
  getTokenSupply : Completion unit;
  (* per account, what getParsedAccountInfo gave: parsed info or nothing usable *)
  getProgramAccounts : Completion (list (option TokenHolderInfo))
}.

(** The rows of the [wallets] table, with the columns whose values the code
    chooses.  The columns [id], [createdAt] and [updatedAt] are left out:
    every update sets [updatedAt] to [new Date()], so two rows that are
    equal here may differ in it. *)
Record Wallet : Type := {
  address : string;
  balance : Q;
  tokenAmount : Q;
  rank : option nat;
  isActive : bool
}.

Section WithRandomness.

(** [random k]: what the [k]-th call of [Math.random()] leads to.
    [Math.floor(Math.random() * n)] is some integer of [[0, n)]; the
    embedding takes [random k mod n]. *)
Variable random : nat -> Z.

Definition floorRandomTimes (n : Z) (k : nat) : Z := (random k mod n)%Z.

(** [for (let j = 0; j < 44; j++) address += chars.charAt(...)], with [j]
    iterations left and [k] random numbers drawn so far. *)
Fixpoint randomChars (j : nat) (addr : string) (k : nat) : string :=
  match j with
  | O => addr
  | S j' =>
      let c := charAt chars (Z.to_nat (floorRandomTimes (Z.of_nat (String.length chars)) k)) in
      randomChars j' (String.append addr c) (S k)
  end.

(** The body of the outer loop of [createSampleTokenHolders]: 44 draws for
    the address, one for the amount. *)
Definition sampleHolder (k : nat) : TokenHolderInfo :=
  let addr := randomChars 44 EmptyString k in
  let baseAmount := floorRandomTimes 1000000000 (k + 44) in
  {| owner := addr; amount := baseAmount;
     uiAmount := Qmake baseAmount 1000000000; decimals := 9 |}.

Fixpoint sampleLoop (n : nat) (k : nat) (sampleHolders : list TokenHolderInfo)
  : list TokenHolderInfo :=
  match n with
  | O => sampleHolders
  | S n' => sampleLoop n' (k + 45) (sampleHolders ++ [sampleHolder k])
  end.

(** [createSampleTokenHolders(limit)], with [k] random numbers drawn so far.
    [limit] is a count. *)
Definition createSampleTokenHolders (limit : nat) (k : nat) : list TokenHolderInfo :=
  sortBy byAmountDescending (sampleLoop limit k []).

Definition getTokenHoldersViaTokenAccounts (ledger : Ledger) (limit : nat)
  : Completion (list TokenHolderInfo) :=
  match getTokenLargestAccounts ledger with
  | Normal value => Normal (slice value 0 (Z.of_nat limit))
  | Throw e => Throw e
  end.

Definition getTokenHoldersViaLargestAccounts (ledger : Ledger) (limit : nat)
  : Completion (list TokenHolderInfo) :=
  match getTokenSupply ledger with
  | Normal _ => Normal []
  | Throw e => Throw e
  end.

Fixpoint parsedHolders (accounts : list (option TokenHolderInfo)) : list TokenHolderInfo :=
  match accounts with
  | [] => []
  | Some info :: rest => info :: parsedHolders rest
  | None :: rest => parsedHolders rest
  end.

Definition getTokenHoldersViaProgramAccounts (ledger : Ledger) (limit : nat)
  : Completion (list TokenHolderInfo) :=
  match getProgramAccounts ledger with
  | Normal accounts =>
      let holders := parsedHolders (slice accounts 0 (Z.of_nat limit)) in
      Normal (slice (sortBy byAmountDescending holders) 0 (Z.of_nat limit))
  | Throw e => Throw e
  end.

(** [for (const method of methods) { try { ... if (result.length > 0) return
    result } catch { continue } } return []]. *)
Fixpoint firstNonEmpty (methods : list (Completion (list TokenHolderInfo)))
  : list TokenHolderInfo :=
  match methods with
  | [] => []
  | Normal result :: rest =>
      if (0 <? length result)%nat then result else firstNonEmpty rest
  | Throw _ :: rest => firstNonEmpty rest
  end.

Definition methods (ledger : Ledger) (limit : nat)
  : list (Completion (list TokenHolderInfo)) :=
  [ getTokenHoldersViaTokenAccounts ledger limit;
    getTokenHoldersViaLargestAccounts ledger limit;
    getTokenHoldersViaProgramAccounts ledger limit ].

Definition getTokenHoldersWithFallback (ledger : Ledger) (limit : nat)
  : list TokenHolderInfo :=
  firstNonEmpty (methods ledger limit).

(** The [try] block of [getTopTokenHolders]. *)
Definition getTopTokenHolders_try (ledger : Ledger) (limit k : nat)
  : Completion (list TokenHolderInfo) :=
  let holders := getTokenHoldersWithFallback ledger limit in
  if (length holders =? 0)%nat then Normal (createSampleTokenHolders limit k)
  else Normal holders.

(** Its [catch] block; [nodeEnv] is [process.env.NODE_ENV]. *)
Definition getTopTokenHolders_catch (nodeEnv : option string) (limit k : nat)
           (error : JsError) : Completion (list TokenHolderInfo) :=
  match nodeEnv with
  | Some env =>
      if (env =? "development")%string then Normal (createSampleTokenHolders limit k)
      else Throw error
  | None => Throw error
  end.

Definition getTopTokenHolders (nodeEnv : option string) (ledger : Ledger) (limit k : nat)
  : Completion (list TokenHolderInfo) :=
  match getTopTokenHolders_try ledger limit k with
  | Normal holders => Normal holders
  | Throw error => getTopTokenHolders_catch nodeEnv limit k error
  end.

(** [prisma.wallet.upsert({ where: { address }, update, create })] on the
    table; the stored or updated row is returned with the table. *)
Fixpoint upsert (holder : TokenHolderInfo) (rnk : nat) (table : list Wallet)
  : list Wallet * Wallet :=
  let row := {| address := owner holder; balance := uiAmount holder;
                tokenAmount := uiAmount holder; rank := Some rnk; isActive := true |} in
  match table with
  | [] => ([row], row)
  | w :: rest =>
      if (address w =? owner holder)%string then (row :: rest, row)
      else let '(rest', stored) := upsert holder rnk rest in (w :: rest', stored)
  end.

(** The loop [for (let i = 0; i < topHolders.length; i++)] of
    [discoverTopHolders], from index [i] on. *)
Fixpoint storeHolders (topHolders : list TokenHolderInfo) (i : nat)
         (table wallets : list Wallet) : list Wallet * list Wallet :=
  match topHolders with
  | [] => (table, wallets)
  | holder :: rest =>
      let '(table', wallet) := upsert holder (i + 1) table in
      storeHolders rest (S i) table' (wallets ++ [wallet])
  end.

(** [walletService.discoverTopHolders(limit)]: the table afterwards and the
    completion. *)
Definition discoverTopHolders (nodeEnv : option string) (ledger : Ledger)
           (limit k : nat) (table : list Wallet)
  : list Wallet * Completion (list Wallet) :=
  match getTopTokenHolders nodeEnv ledger limit k with
  | Normal topHolders =>
      let '(table', wallets) := storeHolders topHolders 0 table [] in
      (table', Normal wallets)
  | Throw error => (table, Throw error)
  end.

End WithRandomness.

(** A method that came back without a single holder: with an empty array,
    or with an error. *)
Definition yieldsNothing (c : Completion (list TokenHolderInfo)) : Prop :=
  match c with
  | Normal [] => True
  | Normal (_ :: _) => False
  | Throw _ => True
  end.

(** A ledger that knows no holder of the token. *)
Definition emptyLedger : Ledger :=
  {| getTokenLargestAccounts := Normal [];
     getTokenSupply := Normal tt;
     getProgramAccounts := Normal [] |}.

(** A source of randomness for the examples. *)
Definition lcg (k : nat) : Z := (Z.of_nat k * 1103515245 + 12345)%Z.

Definition amountsDescending (a b : TokenHolderInfo) : Prop := (amount b <= amount a)%Z.

(** What a fabricated holder looks like. *)
Definition looksSampled (h : TokenHolderInfo) : Prop :=
  String.length (owner h) = 44 /\
  (forall c, In c (list_ascii_of_string (owner h)) -> In c (list_ascii_of_string chars)) /\
  (0 <= amount h < 1000000000)%Z /\
  uiAmount h = Qmake (amount h) 1000000000 /\
  decimals h = 9.

(** The holder that the draws [k], ..., [k + 44] of [random] describe: the
    [j]-th character of its address is the character of the alphabet at the
    place that draw [k + j] picks, and its amount is what draw [k + 44]
    picks below 10^9. *)
Definition drawnHolder (random : nat -> Z) (k : nat) (h : TokenHolderInfo) : Prop :=
  String.length (owner h) = 44 /\
  (forall j, j < 44 ->
     String.get j (owner h)
     = String.get (Z.to_nat (random (k + j) mod Z.of_nat (String.length chars))) chars) /\
  amount h = (random (k + 44)%nat mod 1000000000)%Z /\
  uiAmount h = Qmake (amount h) 1000000000 /\
  decimals h = 9.

(** A ledger on which every call fails. *)
Definition failingLedger : Ledger :=
  {| getTokenLargestAccounts := Throw (FetchError (Some "503 Service Unavailable"%string));
     getTokenSupply := Throw (FetchError (Some "503 Service Unavailable"%string));
     getProgramAccounts := Throw (FetchError (Some "503 Service Unavailable"%string)) |}.

(** Another source of randomness. *)
Definition squares (k : nat) : Z := (Z.of_nat k * Z.of_nat k + 7)%Z.

(** The table has an active row for this address. *)
Definition tracked (a : string) (table : list Wallet) : Prop :=
  exists w, In w table /\ address w = a /\ isActive w = true.

End Discovery.

(** ** The server
    server.ts: the set of live connections, [broadcastToClients],
    [class RealTimeMonitor] and the WebSocket message handler; with
    [subscribeToAccountChanges] and [unsubscribeFromAccountChanges] of
    solanaService.ts and [getAllWallets] of walletService.ts. *)

Module Server.

(** *** Values that arrive in messages *)

(** A JSON number: its value and what [String(n)] gives for it. *)
Record JsNumber : Type := { numberValue : Q; numberText : string }.

(** What [JSON.parse] returns. *)
Inductive Json : Type :=
| JNull
| JBool (b : bool)
| JNumber (n : JsNumber)
| JString (s : string)
| JArray (elements : list Json)
| JObject (members : list (string * Json)).

Inductive JsValue : Type :=
| Undefined
| Val (j : Json).

(** The last member with a given key is the one [JSON.parse] keeps. *)
Fixpoint lookupMember (key : string) (members : list (string * Json)) : JsValue :=
  match members with
  | [] => Undefined
  | (k, v) :: rest =>
      match lookupMember key rest with
      | Undefined => if (k =? key)%string then Val v else Undefined
      | found => found
      end
  end.

(** [data.key] for the keys the server reads ([type], [walletAddress],
    [limit]): a [TypeError] on [null], [undefined] on other primitives and
    on arrays, the member on objects. *)
Definition getProp (data : Json) (key : string) : Completion JsValue :=
  match data with
  | JNull => Throw TypeError
  | JObject members => Normal (lookupMember key members)
  | _ => Normal Undefined
  end.

(** Whether an object has an own member [key]. *)
Definition hasOwn (key : string) (members : list (string * Json)) : bool :=
  existsb (fun member => (fst member =? key)%string) members.

(** [String(v)], as a template literal applies it.  An object that
    [JSON.parse] built is converted by the [toString] it finds:
    [Object.prototype.toString], which gives [[object Object]], unless the
    object has an own member of that name.  Such a member is never a
    function, so the conversion goes on to [valueOf], which (own member or
    [Object.prototype.valueOf]) yields no primitive, and a [TypeError] is
    thrown.  [Array.prototype.toString] joins the converted elements, with
    nothing for [null]. *)
Fixpoint jsonToString (j : Json) : Completion string :=
  match j with
  | JNull => Normal "null"%string
  | JBool true => Normal "true"%string
  | JBool false => Normal "false"%string
  | JNumber n => Normal (numberText n)
  | JString s => Normal s
  | JArray elements =>
      (fix join (l : list Json) : Completion string :=
         match l with
         | [] => Normal EmptyString
         | x :: rest =>
             match (match x with JNull => Normal EmptyString | _ => jsonToString x end) with
             | Throw e => Throw e
             | Normal item =>
                 match rest with
                 | [] => Normal item
                 | _ =>
                     match join rest with
                     | Throw e => Throw e
                     | Normal others => Normal (String.append item (String.append "," others))
                     end
                 end
             end
         end) elements
  | JObject members =>
      if hasOwn "toString" members then Throw TypeError
      else Normal "[object Object]"%string
  end.

Definition toString (v : JsValue) : Completion string :=
  match v with
  | Undefined => Normal "undefined"%string
  | Val j => jsonToString j
  end.

(** [!!v] *)
Definition truthy (v : JsValue) : bool :=
  match v with
  | Undefined => false
  | Val JNull => false
  | Val (JBool b) => b
  | Val (JNumber n) => negb (Qeq_bool (numberValue n) 0)
  | Val (JString s) => negb (s =? EmptyString)%string
  | Val _ => true
  end.

(** *** Sockets, messages, the log *)

(** [WebSocket.readyState] *)
Inductive ReadyState : Type := CONNECTING | OPEN | CLOSING | CLOSED.

Definition isOpen (r : ReadyState) : bool :=
  match r with OPEN => true | _ => false end.

(** A socket object: its state, and whether its [send] throws. *)
Record WebSocket : Type := { readyState : ReadyState; sendThrows : bool }.

(** Sockets are compared by reference. *)
Definition WsRef : Type := nat.

(** A stored transaction, as far as the server looks into it. *)
Record Transaction : Type := { signature : string; slot : option Z }.

(** [{ ...tx, slot: tx.slot?.toString() || '0' }] *)
Record SerializedTransaction : Type := { s_signature : string; s_slot : string }.

Definition serializeTransaction (tx : Transaction) : SerializedTransaction :=
  {| s_signature := signature tx;
     s_slot := match slot tx with
               | Some z => NilZero.string_of_int (Z.to_int z)
               | None => "0"
               end |}.

(** [getStatus()] *)
Record Status : Type := { status_isMonitoring : bool; walletsCount : nat }.

(** The [data] member of an outbound message. *)
Inductive Data : Type :=
| StatusData (status : Status)
| NoWalletsData (walletsCount : nat) (message : string)
| StartedData (walletsCount totalWallets : nat)
| EmptyData
| ActivityData (walletAddress : JsValue) (transactions : list SerializedTransaction)
| RecentData (transactions : list SerializedTransaction) (count : nat).

(** An outbound message [{ type, data?, message?, error?, timestamp? }].
    [JSON.stringify] is kept symbolic: the outbox holds the object. *)
Record Message : Type := {
  type : string;
  data : option Data;
  message : option string;
  error : option string;
  timestamp : option Z
}.

Inductive Level : Type := info | warn | error_.

Inductive LogMsg : Type :=
| Broadcasted (clientCount : nat)
| StartingMonitoring
| ErrorFetchingWallets
| NoWalletsFound
| SubscribedToAccountChanges (address : string)
| ErrorSubscribing (address : string)
| SubscribedToWallet (address : string)
| FailedToSubscribe (address : string)
| StartedMonitoring (subscriptionCount : nat)
| ErrorStartingMonitoring
| StoppingMonitoring
| UnsubscribedFromAccountChanges (id : nat)
| ErrorUnsubscribing
| UnsubscribedFromWallet (address : string)
| FailedToUnsubscribe (address : string)
| MonitoringStopped
| ErrorStoppingMonitoring
| NewConnection
| ConnectionClosed
| MessageReceived
| UnknownMessageType (type : JsValue)
| ErrorProcessingMessage
| SentActivity (walletAddress : string)
| ErrorHandlingActivity
| SentRecent (count : nat)
| ErrorHandlingRecent.

(** Calls that reached the ledger's WebSocket connection. *)
Inductive UpstreamCall : Type :=
| Subscribed (address : string) (id : nat)   (* onAccountChange returned id *)
| SubscribeFailed (address : string)         (* PublicKey or onAccountChange threw *)
| Unsubscribed (id : nat)                    (* removeAccountChangeListener resolved *)
| UnsubscribeFailed (id : nat).

(** *** The world *)

(** What the server does not control. *)
Record Env : Type := {
  (* prisma.wallet.findMany of getAllWallets, by the number of queries made *)
  findWallets : nat -> Completion (list Discovery.Wallet);
  (* new PublicKey(address); wsConnection.onAccountChange(...): an id, or a throw *)
  onAccountChange : list UpstreamCall -> string -> option nat;
  (* wsConnection.removeAccountChangeListener(id): resolves or rejects *)
  removeAccountChangeListener : list UpstreamCall -> nat -> bool;
  (* transactionService.getTransactions({ walletAddress, limit }) *)
  getTransactions : nat -> JsValue -> nat -> Completion (list Transaction);
  (* transactionService.getRecentTransactions(limit) *)
  getRecentTransactions : nat -> JsValue -> Completion (list Transaction)
}.

(** The module-level state of server.ts, the sockets it refers to, and the
    traces of what it did. *)
Record World : Type := {
  wsConnections : list WsRef;             (* Set<WebSocket>, in insertion order *)
  subscriptions : list (string * nat);    (* Map<string, number>, in insertion order *)
  isMonitoring : bool;
  sockets : WsRef -> WebSocket;
  clock : Z;                              (* new Date() *)
  queries : nat;                          (* database queries made *)
  upstream : list UpstreamCall;
  outbox : list (WsRef * Message);        (* calls of ws.send that returned *)
  log : list (Level * LogMsg)
}.

Definition set_wsConnections (c : list WsRef) (w : World) : World :=
  {| wsConnections := c; subscriptions := subscriptions w; isMonitoring := isMonitoring w;
     sockets := sockets w; clock := clock w; queries := queries w;
     upstream := upstream w; outbox := outbox w; log := log w |}.

Definition set_subscriptions (m : list (string * nat)) (w : World) : World :=
  {| wsConnections := wsConnections w; subscriptions := m; isMonitoring := isMonitoring w;
     sockets := sockets w; clock := clock w; queries := queries w;
     upstream := upstream w; outbox := outbox w; log := log w |}.

Definition set_isMonitoring (b : bool) (w : World) : World :=
  {| wsConnections := wsConnections w; subscriptions := subscriptions w; isMonitoring := b;
     sockets := sockets w; clock := clock w; queries := queries w;
     upstream := upstream w; outbox := outbox w; log := log w |}.

Definition count_query (w : World) : World :=
  {| wsConnections := wsConnections w; subscriptions := subscriptions w;
     isMonitoring := isMonitoring w;
     sockets := sockets w; clock := clock w; queries := S (queries w);
     upstream := upstream w; outbox := outbox w; log := log w |}.

Definition push_upstream (c : UpstreamCall) (w : World) : World :=
  {| wsConnections := wsConnections w; subscriptions := subscriptions w;
     isMonitoring := isMonitoring w;
     sockets := sockets w; clock := clock w; queries := queries w;
     upstream := upstream w ++ [c]; outbox := outbox w; log := log w |}.

Definition push_outbox (ws : WsRef) (m : Message) (w : World) : World :=
  {| wsConnections := wsConnections w; subscriptions := subscriptions w;
     isMonitoring := isMonitoring w;
     sockets := sockets w; clock := clock w; queries := queries w;
     upstream := upstream w; outbox := outbox w ++ [(ws, m)]; log := log w |}.

Definition push_log (l : Level) (m : LogMsg) (w : World) : World :=
  {| wsConnections := wsConnections w; subscriptions := subscriptions w;
     isMonitoring := isMonitoring w;
     sockets := sockets w; clock := clock w; queries := queries w;
     upstream := upstream w; outbox := outbox w; log := log w ++ [(l, m)] |}.

(** Code that runs on the world and completes normally or throws. *)
Definition M (A : Type) : Type := World -> World * Completion A.

Definition ret {A : Type} (a : A) : M A := fun w => (w, Normal a).

Definition throw {A : Type} (e : JsError) : M A := fun w => (w, Throw e).

Definition bind {A B : Type} (m : M A) (k : A -> M B) : M B :=
  fun w => match m w with
           | (w1, Normal a) => k a w1
           | (w1, Throw e) => (w1, Throw e)
           end.

(** [try { body } catch (error) { handler }] *)
Definition tryCatch {A : Type} (body : M A) (handler : JsError -> M A) : M A :=
  fun w => match body w with
           | (w1, Normal a) => (w1, Normal a)
           | (w1, Throw e) => handler e w1
           end.

(** A promise that nobody awaits: its rejection does not reach the caller. *)
Definition detach (m : M unit) : M unit :=
  fun w => (fst (m w), Normal tt).

Definition lift {A : Type} (c : Completion A) : M A := fun w => (w, c).

Definition modify (f : World -> World) : M unit := fun w => (f w, Normal tt).

Definition logger (l : Level) (m : LogMsg) : M unit := modify (push_log l m).

Notation "x <- m ;; k" := (bind m (fun x => k))
  (at level 61, m at next level, right associativity).
Notation "m ;; k" := (bind m (fun _ => k))
  (at level 61, right associativity).

(** [ws.send(JSON.stringify(m))] *)
Definition send (ws : WsRef) (m : Message) : M unit :=
  fun w => if sendThrows (sockets w ws) then (w, Throw (SendError ws))
           else (push_outbox ws m w, Normal tt).

(** [new Date().toISOString()] *)
Definition stamp (w : World) : option Z := Some (clock w).

(** [Set.prototype.delete] *)
Definition setDelete (ws : WsRef) (s : list WsRef) : list WsRef :=
  filter (fun x => negb (x =? ws)%nat) s.

(** [Set.prototype.add] *)
Definition setAdd (ws : WsRef) (s : list WsRef) : list WsRef :=
  if existsb (Nat.eqb ws) s then s else s ++ [ws].

(** [Map.prototype.set]: a present key keeps its place. *)
Fixpoint mapSet (key : string) (value : nat) (m : list (string * nat))
  : list (string * nat) :=
  match m with
  | [] => [(key, value)]
  | (k, v) :: rest =>
      if (k =? key)%string then (key, value) :: rest
      else (k, v) :: mapSet key value rest
  end.

(** *** [broadcastToClients] *)

(** [wsConnections.forEach((ws) => { ... })] over the connections still to
    visit.  Only the connection being visited is ever deleted, so the
    iteration visits what was in the set when it began. *)
Fixpoint forEachConnection (messageStr : Message) (pending : list WsRef)
         (clientCount : nat) : M nat :=
  match pending with
  | [] => ret clientCount
  | ws :: rest =>
      fun w =>
        if isOpen (readyState (sockets w ws))
        then (send ws messageStr ;;
              forEachConnection messageStr rest (S clientCount)) w
        else (modify (fun w0 => set_wsConnections (setDelete ws (wsConnections w0)) w0) ;;
              forEachConnection messageStr rest clientCount) w
  end.

(** The function returns nothing; the count goes to the log. *)
Definition broadcastToClients (message : Message) : M unit :=
  fun w =>
    (clientCount <- forEachConnection message (wsConnections w) 0 ;;
     logger info (Broadcasted clientCount)) w.

(** *** solanaService.ts: account subscriptions *)

Definition subscribeToAccountChanges (env : Env) (walletAddress : string) : M nat :=
  fun w =>
    match onAccountChange env (upstream w) walletAddress with
    | Some subscriptionId =>
        (modify (push_upstream (Subscribed walletAddress subscriptionId)) ;;
         logger info (SubscribedToAccountChanges walletAddress) ;;
         ret subscriptionId) w
    | None =>
        (modify (push_upstream (SubscribeFailed walletAddress)) ;;
         logger error_ (ErrorSubscribing walletAddress) ;;
         throw (SubscribeError walletAddress)) w
    end.

Definition unsubscribeFromAccountChanges (env : Env) (subscriptionId : nat) : M unit :=
  fun w =>
    if removeAccountChangeListener env (upstream w) subscriptionId
    then (modify (push_upstream (Unsubscribed subscriptionId)) ;;
          logger info (UnsubscribedFromAccountChanges subscriptionId)) w
    else (modify (push_upstream (UnsubscribeFailed subscriptionId)) ;;
          logger error_ ErrorUnsubscribing ;;
          throw (UnsubscribeError subscriptionId)) w.

(** *** walletService.ts: [getAllWallets] *)

Definition getAllWallets (env : Env) : M (list Discovery.Wallet) :=
  fun w =>
    match findWallets env (queries w) with
    | Normal wallets => (count_query w, Normal wallets)
    | Throw e => (logger error_ ErrorFetchingWallets ;; throw e) (count_query w)
    end.

(** *** [class RealTimeMonitor] *)

(** [for (const wallet of wallets) { try { ... } catch (error) { ... } }] *)
Fixpoint subscribeEach (env : Env) (wallets : list Discovery.Wallet)
         (subscriptionCount : nat) : M nat :=
  match wallets with
  | [] => ret subscriptionCount
  | wallet :: rest =>
      count <- tryCatch
                 (subscriptionId <- subscribeToAccountChanges env (Discovery.address wallet) ;;
                  modify (fun w => set_subscriptions
                                     (mapSet (Discovery.address wallet) subscriptionId
                                             (subscriptions w)) w) ;;
                  logger info (SubscribedToWallet (Discovery.address wallet)) ;;
                  ret (S subscriptionCount))
                 (fun _ =>
                    logger error_ (FailedToSubscribe (Discovery.address wallet)) ;;
                    ret subscriptionCount) ;;
      subscribeEach env rest count
  end.

Definition startMonitoring (env : Env) : M unit :=
  tryCatch
    (logger info StartingMonitoring ;;
     wallets <- getAllWallets env ;;
     if (length wallets =? 0)%nat
     then
       logger warn NoWalletsFound ;;
       modify (set_isMonitoring true) ;;
       broadcastToClients
         {| type := "monitoring_started";
            data := Some (NoWalletsData 0
                     "Monitoring started but no wallets found. Discover wallets first.");
            message := None; error := None; timestamp := None |}
     else
       subscriptionCount <- subscribeEach env wallets 0 ;;
       modify (set_isMonitoring true) ;;
       logger info (StartedMonitoring subscriptionCount) ;;
       broadcastToClients
         {| type := "monitoring_started";
            data := Some (StartedData subscriptionCount (length wallets));
            message := None; error := None; timestamp := None |})
    (fun e => logger error_ ErrorStartingMonitoring ;; throw e).

(** [for (const [walletAddress, subscriptionId] of this.subscriptions)] *)
Fixpoint unsubscribeEach (env : Env) (entries : list (string * nat)) : M unit :=
  match entries with
  | [] => ret tt
  | (walletAddress, subscriptionId) :: rest =>
      tryCatch
        (unsubscribeFromAccountChanges env subscriptionId ;;
         logger info (UnsubscribedFromWallet walletAddress))
        (fun _ => logger error_ (FailedToUnsubscribe walletAddress)) ;;
      unsubscribeEach env rest
  end.

Definition stopMonitoring (env : Env) : M unit :=
  tryCatch
    (logger info StoppingMonitoring ;;
     (fun w => unsubscribeEach env (subscriptions w) w) ;;
     modify (set_subscriptions []) ;;
     modify (set_isMonitoring false) ;;
     logger info MonitoringStopped ;;
     broadcastToClients
       {| type := "monitoring_stopped"; data := Some EmptyData;
          message := None; error := None; timestamp := None |})
    (fun e => logger error_ ErrorStoppingMonitoring ;; throw e).

Definition getStatus (w : World) : Status :=
  {| status_isMonitoring := isMonitoring w; walletsCount := length (subscriptions w) |}.

(** *** The message handler *)

(** [ws.send(JSON.stringify({ ..., timestamp: new Date().toISOString() }))] *)
Definition sendStamped (ws : WsRef) (make : option Z -> Message) : M unit :=
  fun w => send ws (make (stamp w)) w.

Definition errorMessage (text : string) (detail : option string) (t : option Z) : Message :=
  {| type := "error"; data := None; message := Some text; error := detail;
     timestamp := t |}.

(** [async function handleActivityRequest(ws, data)] *)
Definition handleActivityRequest (env : Env) (ws : WsRef) (data : Json) : M unit :=
  tryCatch
    (walletAddress <- lift (getProp data "walletAddress") ;;
     if negb (truthy walletAddress)
     then sendStamped ws (errorMessage "walletAddress is required for activity request" None)
     else
       recentTransactions <-
         (fun w => (count_query w, getTransactions env (queries w) walletAddress 10)) ;;
       sendStamped ws (fun t =>
         {| type := "wallet_activity";
            data := Some (ActivityData walletAddress
                            (map serializeTransaction recentTransactions));
            message := None; error := None; timestamp := t |}) ;;
       text <- lift (toString walletAddress) ;;
       logger info (SentActivity text))
    (fun _ =>
       logger error_ ErrorHandlingActivity ;;
       sendStamped ws (errorMessage "Failed to fetch wallet activity" None)).

(** [async function handleRecentTransactionsRequest(ws, data)] *)
Definition handleRecentTransactionsRequest (env : Env) (ws : WsRef) (data : Json) : M unit :=
  tryCatch
    (given <- lift (getProp data "limit") ;;
     let limit := if truthy given then given
                  else Val (JNumber {| numberValue := 20; numberText := "20" |}) in
     recentTransactions <-
       (fun w => (count_query w, getRecentTransactions env (queries w) limit)) ;;
     let serializedTransactions := map serializeTransaction recentTransactions in
     sendStamped ws (fun t =>
       {| type := "recent_transactions";
          data := Some (RecentData serializedTransactions (length serializedTransactions));
          message := None; error := None; timestamp := t |}) ;;
     logger info (SentRecent (length serializedTransactions)))
    (fun _ =>
       logger error_ ErrorHandlingRecent ;;
       sendStamped ws (errorMessage "Failed to fetch recent transactions" None)).

(** [case 'label':] of a [switch]: strict equality with a string literal. *)
Definition isCase (v : JsValue) (label : string) : bool :=
  match v with
  | Val (JString s) => (s =? label)%string
  | _ => false
  end.

Definition supportedTypes : list string :=
  ["ping"; "subscribe"; "request_activity"; "get_recent_transactions"; "get_status";
   "start_monitoring"; "stop_monitoring"]%string.

(** The text of the [default:] reply, a template literal over [data.type]. *)
Definition unknownTypeText (given : JsValue) : Completion string :=
  match toString given with
  | Normal text =>
      Normal (String.append "Unknown message type: "
                (String.append text
                   ". Supported types: ping, subscribe, request_activity, get_recent_transactions, get_status, start_monitoring, stop_monitoring"))
  | Throw e => Throw e
  end.

(** The text of the reply of the [catch] block of the message handler. *)
Definition invalidFormatText : string :=
  "Invalid message format. Please send valid JSON.".

Definition statusMessage (kind : string) (t : option Z) (w : World) : Message :=
  {| type := kind; data := Some (StatusData (getStatus w));
     message := None; error := None; timestamp := t |}.

(** [ws.on('message', (message) => { try { ... } catch (error) { ... } })].
    [parsed] is what [JSON.parse(message)] gave, [None] when it threw. *)
Definition onMessage (env : Env) (ws : WsRef) (parsed : option Json) : M unit :=
  tryCatch
    (data <- match parsed with
             | Some d => ret d
             | None => throw SyntaxError
             end ;;
     logger info MessageReceived ;;
     given <- lift (getProp data "type") ;;
     if isCase given "ping" then
       sendStamped ws (fun t =>
         {| type := "pong"; data := None; message := None; error := None;
            timestamp := t |})
     else if isCase given "subscribe" then
       (fun w => sendStamped ws (fun t => statusMessage "subscribed" t w) w)
     else if isCase given "request_activity" then
       detach (handleActivityRequest env ws data)
     else if isCase given "get_recent_transactions" then
       detach (handleRecentTransactionsRequest env ws data)
     else if isCase given "get_status" then
       (fun w => sendStamped ws (fun t => statusMessage "status_update" t w) w)
     else if isCase given "start_monitoring" then
       detach (tryCatch
                 (startMonitoring env ;;
                  (fun w => sendStamped ws (fun t => statusMessage "monitoring_started" t w) w))
                 (fun e => sendStamped ws
                             (errorMessage "Failed to start monitoring" (error_message e))))
     else if isCase given "stop_monitoring" then
       detach (tryCatch
                 (stopMonitoring env ;;
                  (fun w => sendStamped ws (fun t => statusMessage "monitoring_stopped" t w) w))
                 (fun e => sendStamped ws
                             (errorMessage "Failed to stop monitoring" (error_message e))))
     else
       logger warn (UnknownMessageType given) ;;
       text <- lift (unknownTypeText given) ;;
       sendStamped ws (errorMessage text None))
    (fun _ =>
       logger error_ ErrorProcessingMessage ;;
       sendStamped ws (errorMessage invalidFormatText None)).

(** [wss.on('connection', (ws, req) => { ... })], up to the welcome. *)
Definition onConnection (ws : WsRef) : M unit :=
  logger info NewConnection ;;
  modify (fun w => set_wsConnections (setAdd ws (wsConnections w)) w) ;;
  sendStamped ws (fun t =>
    {| type := "connected"; data := None;
       message := Some "Connected to TokenWise WebSocket"%string; error := None;
       timestamp := t |}).

(** [ws.on('close', ...)] *)
Definition onClose (ws : WsRef) : M unit :=
  modify (fun w => set_wsConnections (setDelete ws (wsConnections w)) w) ;;
  logger info ConnectionClosed.

(** *** Worlds and environments for the examples *)

Definition newWorld (conns : list WsRef) (heap : WsRef -> WebSocket) : World :=
  {| wsConnections := conns; subscriptions := []; isMonitoring := false;
     sockets := heap; clock := 1700000000000; queries := 0;
     upstream := []; outbox := []; log := [] |}.

Definition healthy : WebSocket := {| readyState := OPEN; sendThrows := false |}.

(** Five open connections; the sends of 2 and 4 throw. *)
Definition twoThrowing (ws : WsRef) : WebSocket :=
  if ((ws =? 2) || (ws =? 4))%nat then {| readyState := OPEN; sendThrows := true |}
  else healthy.

(** Five connections; 2 and 4 are closed. *)
Definition twoClosed (ws : WsRef) : WebSocket :=
  if ((ws =? 2) || (ws =? 4))%nat then {| readyState := CLOSED; sendThrows := false |}
  else healthy.


(** Connection 1 is open but its send throws; connection 2 is closed. *)
Definition throwingThenClosed (ws : WsRef) : WebSocket :=
  if (ws =? 1)%nat then {| readyState := OPEN; sendThrows := true |}
  else {| readyState := CLOSED; sendThrows := false |}.

Definition walletAt (a : string) : Discovery.Wallet :=
  {| Discovery.address := a; Discovery.balance := 0; Discovery.tokenAmount := 0;
     Discovery.rank := None; Discovery.isActive := true |}.

(** An environment with the given wallets, in which subscribing fails
    exactly for the addresses in [bad] and subscription ids count up. *)
Definition envWith (wallets bad : list string) : Env :=
  {| findWallets := fun _ => Normal (map walletAt wallets);
     onAccountChange := fun history a =>
       if existsb (String.eqb a) bad then None else Some (length history);
     removeAccountChangeListener := fun _ _ => true;
     getTransactions := fun _ _ _ => Normal [];
     getRecentTransactions := fun _ _ => Normal [] |}.

(** Ten wallets [A] to [J]; subscribing to [C] and to [H] fails. *)
Definition tenWallets : Env := envWith (Sync.sampleWorklist 10) ["C"; "H"]%string.

(** A single wallet [x]; every subscription succeeds. *)
Definition oneWallet : Env := envWith ["x"%string] [].

Definition announcement : Message :=
  {| type := "sync_completed"; data := None; message := None;
     error := None; timestamp := None |}.

Definition pingMessage : Json := JObject [("type"%string, JString "ping")].
Definition bogusMessage : Json := JObject [("type"%string, JString "bogus")].

(** [{"type":{"toString":0}}] *)
Definition unprintableType : Json :=
  JObject [("toString"%string, JNumber {| numberValue := 0; numberText := "0" |})].
Definition unprintableMessage : Json := JObject [("type"%string, unprintableType)].

(** *** Reading the traces *)

Definition isSubscribed (address : string) (c : UpstreamCall) : bool :=
  match c with
  | Subscribed a _ => (a =? address)%string
  | _ => false
  end.

Definition isFailedToSubscribe (entry : Level * LogMsg) : bool :=
  match entry with
  | (error_, FailedToSubscribe _) => true
  | _ => false
  end.

Definition countIf {A : Type} (p : A -> bool) (l : list A) : nat :=
  length (filter p l).

Definition openConnections (w : World) : list WsRef :=
  filter (fun ws => isOpen (readyState (sockets w ws))) (wsConnections w).

(** Everything but the connection set, the outbox and the log is as before. *)
Definition sameMonitor (w w' : World) : Prop :=
  subscriptions w' = subscriptions w /\ isMonitoring w' = isMonitoring w /\
  upstream w' = upstream w /\ sockets w' = sockets w /\
  queries w' = queries w /\ clock w' = clock w.

(** The connection set of [w'] is that of [w] without some connections
    that were not open. *)
Definition pruned (w w' : World) : Prop :=
  exists deleted,
    wsConnections w' = filter (fun x => negb (existsb (Nat.eqb x) deleted)) (wsConnections w) /\
    forall d, In d deleted -> isOpen (readyState (sockets w d)) = false.

Definition isSubscribeFailed (c : UpstreamCall) : bool :=
  match c with SubscribeFailed _ => true | _ => false end.

Definition isSubscribedCall (c : UpstreamCall) : bool :=
  match c with Subscribed _ _ => true | _ => false end.

(** The handler returned, having sent [m] on [ws] and nothing else, and
    left the connection registered and its socket as it was. *)
Definition repliesWith (w : World) (ws : WsRef) (r : World * Completion unit)
           (m : Message) : Prop :=
  snd r = Normal tt /\
  outbox (fst r) = outbox w ++ [(ws, m)] /\
  wsConnections (fst r) = wsConnections w /\
  sockets (fst r) = sockets w.

Definition pong (t : option Z) : Message :=
  {| type := "pong"; data := None; message := None; error := None; timestamp := t |}.

(** Code that leaves every socket as it was and only adds to the outbox. *)
Definition steady {A : Type} (m : M A) : Prop :=
  forall w, sockets (fst (m w)) = sockets w /\
            exists more, outbox (fst (m w)) = outbox w ++ more.

(** Code that, when it completes normally, has sent something on [ws]. *)
Definition attempts (ws : WsRef) {A : Type} (m : M A) : Prop :=
  forall w, sendThrows (sockets w ws) = false ->
    sockets (fst (m w)) = sockets w /\
    (exists more, outbox (fst (m w)) = outbox w ++ more) /\
    (forall a, snd (m w) = Normal a ->
               exists before reply after,
                 outbox (fst (m w)) = outbox w ++ before ++ (ws, reply) :: after).

(** Code that always completes normally and has sent something on [ws]. *)
Definition answers (ws : WsRef) (m : M unit) : Prop :=
  forall w, sendThrows (sockets w ws) = false ->
    snd (m w) = Normal tt /\
    sockets (fst (m w)) = sockets w /\
    exists before reply after,
      outbox (fst (m w)) = outbox w ++ before ++ (ws, reply) :: after.

(** The subscription id an unsubscribe call was made for. *)
Definition unsubscribedId (c : UpstreamCall) : option nat :=
  match c with
  | Unsubscribed id => Some id
  | UnsubscribeFailed id => Some id
  | _ => None
  end.

(** No registered open connection throws on [send]. *)
Definition sendsSucceed (w : World) : Prop :=
  forall ws, In ws (wsConnections w) ->
             isOpen (readyState (sockets w ws)) = true ->
             sendThrows (sockets w ws) = false.

End Server.

(** ** The historical-sync endpoint
    walletController.ts, [syncHistoricalData]: the request handler that
    starts [performBulkSync] in the background. *)

Module SyncApi.

(** The fields of [req.body] that the handler reads; [None] is a field
    that is absent ([undefined]), for which the destructuring default
    applies. *)
Record Body : Type := {
  transactionsPerWallet : option Z;
  batchSize : option Z;
  walletAddresses : option (list string)
}.

Definition orDefault {A : Type} (default : A) (field : option A) : A :=
  match field with Some v => v | None => default end.

(** What the handler answers. *)
Inductive Reply : Type :=
| Started (syncId : string) (walletsCount : nat)
    (* res.json({ success: true, data: { syncId, walletsCount,
                                          message: 'Historical sync started' } }) *)
| NoWalletsFound     (* res.status(400): 'No wallets found to sync' *)
| FailedToStart      (* res.status(500): 'Failed to start historical sync' *).

(** The arguments of the [performBulkSync] call handed to [setImmediate]. *)
Record Job : Type := {
  job_syncId : string;
  job_walletAddresses : list string;
  job_transactionsPerWallet : Z;
  job_batchSize : Z
}.

(** [`sync_${Date.now()}`] *)
Definition syncIdAt (now : Z) : string :=
  String.append "sync_" (NilZero.string_of_int (Z.to_int now)).

(** [syncHistoricalData(req, res)].  [getAllWallets] is what
    [walletService.getAllWallets()] yields if it is asked; the third
    component tells whether it was asked. *)
Definition syncHistoricalData (now : Z)
           (getAllWallets : Completion (list Discovery.Wallet)) (body : Body)
  : Reply * option Job * bool :=
  let transactionsPerWallet := orDefault 100%Z (transactionsPerWallet body) in
  let batchSize := orDefault 5%Z (batchSize body) in
  let walletAddresses := orDefault [] (walletAddresses body) in
  let respond (walletsToSync : list string) (asked : bool) :=
    if (length walletsToSync =? 0)%nat then (NoWalletsFound, None, asked)
    else
      let syncId := syncIdAt now in
      (Started syncId (length walletsToSync),
       Some {| job_syncId := syncId; job_walletAddresses := walletsToSync;
               job_transactionsPerWallet := transactionsPerWallet;
               job_batchSize := batchSize |},
       asked) in
  if (0 <? length walletAddresses)%nat then respond walletAddresses false
  else
    match getAllWallets with
    | Normal walletsResponse => respond (map Discovery.address walletsResponse) true
    | Throw _ => (FailedToStart, None, true)
    end.

(** The background job, once the event loop runs it. *)
Definition run (ledger : nat -> string -> Z -> bool) (fuel : nat) (job : Job)
  : option Sync.Run :=
  Sync.performBulkSync ledger fuel (job_syncId job) (job_walletAddresses job)
                       (job_transactionsPerWallet job) (job_batchSize job).

(** The number of batches of size [batchSize] that [len] items make. *)
Definition batches (len batchSize : Z) : Z := ((len + batchSize - 1) / batchSize)%Z.

End SyncApi.

(** ** The wallet store
    walletService.ts: the queries and updates on the [wallets] table other
    than discovery.  [address] carries a unique index. *)

Module WalletService.
Import Discovery.

(** [prisma.wallet.findUnique({ where: { address } })] *)
Definition getWalletByAddress (a : string) (table : list Wallet) : option Wallet :=
  find (fun w => (address w =? a)%string) table.

(** [prisma.wallet.update({ where: { address }, data })]: the row with this
    address is changed and returned; the call rejects when there is none. *)
Fixpoint update (a : string) (data : Wallet -> Wallet) (table : list Wallet)
  : list Wallet * Completion Wallet :=
  match table with
  | [] => ([], Throw DatabaseError)
  | w :: rest =>
      if (address w =? a)%string then (data w :: rest, Normal (data w))
      else let '(rest', updated) := update a data rest in (w :: rest', updated)
  end.

Definition set_isActive (b : bool) (w : Wallet) : Wallet :=
  {| address := address w; balance := balance w; tokenAmount := tokenAmount w;
     rank := rank w; isActive := b |}.

Definition set_balance (bal amt : Q) (w : Wallet) : Wallet :=
  {| address := address w; balance := bal; tokenAmount := amt;
     rank := rank w; isActive := isActive w |}.

(** [activateWallet(address)], [deactivateWallet(address)] and
    [updateWalletBalance(address, balance, tokenAmount)]: the [catch] blocks
    log and rethrow.  The [updatedAt: new Date()] of their [data] falls on a
    column that the rows here do not keep. *)
Definition activateWallet (a : string) (table : list Wallet)
  : list Wallet * Completion Wallet :=
  update a (set_isActive true) table.

Definition deactivateWallet (a : string) (table : list Wallet)
  : list Wallet * Completion Wallet :=
  update a (set_isActive false) table.

Definition updateWalletBalance (a : string) (bal amt : Q) (table : list Wallet)
  : list Wallet * Completion Wallet :=
  update a (set_balance bal amt) table.

(** [prisma.wallet.delete({ where: { address } })] rejects when there is
    no such row. *)
Fixpoint deleteWallet (a : string) (table : list Wallet)
  : list Wallet * Completion unit :=
  match table with
  | [] => ([], Throw DatabaseError)
  | w :: rest =>
      if (address w =? a)%string then (rest, Normal tt)
      else let '(rest', done) := deleteWallet a rest in (w :: rest', done)
  end.

(** [orderBy: { rank: 'asc' }]: rows without a rank come last.  The order
    among rows of equal rank is the database's; here they keep the order
    of the table. *)
Definition byRankAscending (a b : Wallet) : Z :=
  match rank a, rank b with
  | Some x, Some y => (Z.of_nat x - Z.of_nat y)%Z
  | Some _, None => (-1)%Z
  | None, Some _ => 1%Z
  | None, None => 0%Z
  end.

(** [prisma.wallet.findMany({ where: { isActive: true }, orderBy: { rank:
    'asc' } })] *)
Definition getAllWallets (table : list Wallet) : list Wallet :=
  sortBy byRankAscending (filter isActive table).

(** [prisma.wallet.count({ where: { isActive: true } })] *)
Definition getWalletCount (table : list Wallet) : nat :=
  length (filter isActive table).

(** The row that discovery writes for the holder found at position
    [rnk - 1]. *)
Definition rowOf (holder : TokenHolderInfo) (rnk : nat) : Wallet :=
  {| address := owner holder; balance := uiAmount holder;
     tokenAmount := uiAmount holder; rank := Some rnk; isActive := true |}.

Definition sampleTable : list Wallet :=
  [ {| address := "W1"; balance := 5 # 1; tokenAmount := 5 # 1; rank := Some 1;
       isActive := true |};
    {| address := "W2"; balance := 3 # 1; tokenAmount := 3 # 1; rank := Some 2;
       isActive := true |};
    {| address := "W3"; balance := 1 # 1; tokenAmount := 1 # 1; rank := None;
       isActive := false |} ].

Definition holderOf (a : string) (amt : Z) : TokenHolderInfo :=
  {| owner := a; amount := amt; uiAmount := Qmake amt 1000000000; decimals := 9 |}.

End WalletService.

(** ** Reading the upstream trace of the monitor *)

Module Monitor.
Import Server.

(** The [address, id] pairs of the subscribe calls that returned an id. *)
Fixpoint subscribedPairs (calls : list UpstreamCall) : list (string * nat) :=
  match calls with
  | [] => []
  | Subscribed a id :: rest => (a, id) :: subscribedPairs rest
  | _ :: rest => subscribedPairs rest
  end.

(** The addresses for which a subscribe call was made, whatever came of it. *)
Fixpoint subscribeAttempts (calls : list UpstreamCall) : list string :=
  match calls with
  | [] => []
  | Subscribed a _ :: rest => a :: subscribeAttempts rest
  | SubscribeFailed a :: rest => a :: subscribeAttempts rest
  | _ :: rest => subscribeAttempts rest
  end.

(** The connection set together with the sockets on which the connection
    handler has installed its listeners.  The handler calls [ws.on('close')]
    only after the welcome [ws.send]: when that throws, the socket is
    registered but has no listener. *)
Record Hub : Type := { world : World; listening : list WsRef }.

(** [wss.on('connection', (ws, req) => { ... })] *)
Definition connect (ws : WsRef) (hub : Hub) : Hub :=
  let r := onConnection ws (world hub) in
  {| world := fst r;
     listening := match snd r with
                  | Normal _ => setAdd ws (listening hub)
                  | Throw _ => listening hub
                  end |}.

(** The socket [ws] emits 'close': its listener runs, if it has one. *)
Definition close (ws : WsRef) (hub : Hub) : Hub :=
  if existsb (Nat.eqb ws) (listening hub)
  then {| world := fst (onClose ws (world hub)); listening := listening hub |}
  else hub.

(** Connections [conns], each with its listeners, on the sockets [heap]. *)
Definition newHub (conns : list WsRef) (heap : WsRef -> WebSocket) : Hub :=
  {| world := newWorld conns heap; listening := conns |}.

(** An environment whose store cannot be reached. *)
Definition storeDown : Env :=
  {| findWallets := fun _ => Throw DatabaseError;
     onAccountChange := fun history _ => Some (length history);
     removeAccountChangeListener := fun _ _ => true;
     getTransactions := fun _ _ _ => Throw DatabaseError;
     getRecentTransactions := fun _ _ => Throw DatabaseError |}.

(** An environment in which removing a listener always fails. *)
Definition stuckListeners (wallets : list string) : Env :=
  {| findWallets := fun _ => Normal (map walletAt wallets);
     onAccountChange := fun history _ => Some (length history);
     removeAccountChangeListener := fun _ _ => false;
     getTransactions := fun _ _ _ => Normal [];
     getRecentTransactions := fun _ _ => Normal [] |}.

Definition startMessage : Json := JObject [("type"%string, JString "start_monitoring")].

Definition activityRequest (walletAddress : Json) : Json :=
  JObject [("type"%string, JString "request_activity");
           ("walletAddress"%string, walletAddress)].

Definition recentRequest (limit : Json) : Json :=
  JObject [("type"%string, JString "get_recent_transactions"); ("limit"%string, limit)].

Definition number (n : Z) : Json :=
  JNumber {| numberValue := inject_Z n;
             numberText := NilZero.string_of_int (Z.to_int n) |}.

End Monitor.

(** ** The transaction store
    server.ts, [class TransactionService]: [storeTransaction],
    [createSampleTransactions] and its random helpers,
    [syncWalletTransactions], [syncWalletTransactionsEnhanced],
    [exportHistoricalTransactions] and the two cleanups; with
    [parseTransaction] of solanaService.ts.  The database is taken to
    answer every query; what can fail is the ledger and the file system. *)

Module Transactions.

Inductive TransactionType : Type := BUY | SELL | TRANSFER.

(** [interface TransactionInfo] of solanaService.ts; amounts are kept
    exact. *)
Record TransactionInfo : Type := {
  info_signature : string;
  info_walletAddress : string;
  info_type : TransactionType;
  info_amount : Q;
  info_tokenAmount : Q;
  info_protocol : option string;
  info_blockTime : option Z;
  info_slot : Z;
  info_fee : option Q
}.

(** A row of the [transactions] table.  [signature] carries a unique
    index; every row is created with status [CONFIRMED]; times are in
    milliseconds. *)
Record Transaction : Type := {
  walletAddress : string;
  signature : string;
  type : TransactionType;
  amount : Q;
  tokenAmount : Q;
  protocol : string;
  timestamp : Z;
  blockTime : option Z;
  slot : Z;
  fee : option Q
}.

Inductive Thrown : Type :=
| WalletNotFound (walletAddress : string)  (* new Error(`Wallet ${...} not found`) *)
| Rejected (e : JsError)                   (* what an awaited call rejected with *)
| DevelopmentOnly   (* new Error('Sample data population only allowed in development mode') *).

Inductive Result (A : Type) : Type :=
| Returned (a : A)
| Threw (e : Thrown).
Arguments Threw {A} e.

(** The two tables, the clock, the number of [Math.random()] calls made so
    far, and the delays awaited.  Time passes in the awaited delays. *)
Record World : Type := {
  wallets : list Discovery.Wallet;
  transactions : list Transaction;
  clock : Z;
  draws : nat;
  pauses : list Z
}.

(** [prisma.transaction.create({ data })] *)
Definition insert (tx : Transaction) (w : World) : World :=
  {| wallets := wallets w; transactions := transactions w ++ [tx]; clock := clock w;
     draws := draws w; pauses := pauses w |}.

Definition draw (n : nat) (w : World) : World :=
  {| wallets := wallets w; transactions := transactions w; clock := clock w;
     draws := draws w + n; pauses := pauses w |}.

(** [await new Promise(resolve => setTimeout(resolve, ms))] *)
Definition sleep (ms : Z) (w : World) : World :=
  {| wallets := wallets w; transactions := transactions w; clock := (clock w + ms)%Z;
     draws := draws w; pauses := pauses w ++ [ms] |}.

Definition set_transactions (table : list Transaction) (w : World) : World :=
  {| wallets := wallets w; transactions := table; clock := clock w;
     draws := draws w; pauses := pauses w |}.

(** [prisma.transaction.findUnique({ where: { signature } })] *)
Definition findUnique (sig : string) (table : list Transaction) : option Transaction :=
  find (fun tx => (signature tx =? sig)%string) table.

(** [storeTransaction(transactionInfo)].  The row also holds [wallet.id],
    which nothing here reads. *)
Definition storeTransaction (transactionInfo : TransactionInfo) (w : World)
  : World * Result Transaction :=
  match WalletService.getWalletByAddress (info_walletAddress transactionInfo) (wallets w) with
  | None => (w, Threw (WalletNotFound (info_walletAddress transactionInfo)))
  | Some wallet =>
      match findUnique (info_signature transactionInfo) (transactions w) with
      | Some existingTransaction => (w, Returned existingTransaction)
      | None =>
          let transaction :=
            {| walletAddress := info_walletAddress transactionInfo;
               signature := info_signature transactionInfo;
               type := info_type transactionInfo;
               amount := info_amount transactionInfo;
               tokenAmount := info_tokenAmount transactionInfo;
               (* transactionInfo.protocol || 'Unknown' *)
               protocol := match info_protocol transactionInfo with
                           | Some p => if (p =? EmptyString)%string then "Unknown"%string else p
                           | None => "Unknown"%string
                           end;
               (* blockTime ? blockTime * 1000 : Date.now() *)
               timestamp := match info_blockTime transactionInfo with
                            | Some t => if (t =? 0)%Z then clock w else (t * 1000)%Z
                            | None => clock w
                            end;
               blockTime := match info_blockTime transactionInfo with
                            | Some t => if (t =? 0)%Z then None else Some (t * 1000)%Z
                            | None => None
                            end;
               slot := info_slot transactionInfo;
               fee := info_fee transactionInfo |} in
          (insert transaction w, Returned transaction)
      end
  end.

(** What [connection.getParsedTransaction] yields, as far as
    [parseTransaction] reads it. *)
Record ParsedTransaction : Type := {
  feePayer : string;        (* transaction.message.accountKeys[0].pubkey *)
  tx_blockTime : option Z;
  tx_slot : Z;
  meta_fee : option Z       (* meta.fee; None when meta is missing *)
}.

(** The ledger as seen through the rate limiter. *)
Record Chain : Type := {
  getSignaturesForAddress : string -> Z -> Completion (list string);
  getParsedTransaction : string -> Completion (option ParsedTransaction)
}.

(** [process.env]: [USE_SAMPLE_DATA === 'true' || SKIP_REAL_TRANSACTIONS ===
    'true'], and [NODE_ENV === 'development']. *)
Record Settings : Type := { useSampleData : bool; development : bool }.


(** What [syncWalletTransactionsEnhanced] collects. *)
Inductive SyncError : Type :=
| FailedToProcess (signature : string) (e : Thrown)
| FailedToFetch (walletAddress : string) (e : JsError).

Record Report : Type := {
  processed : nat;
  errors : list SyncError;
  progress : list (nat * nat)    (* the calls of onProgress(current, total) *)
}.

Definition Qltb (x y : Q) : bool := negb (Qle_bool y x).

Section WithRandomness.

(** [Math.random()] yields a number of [[0, 1)]: the [k]-th call yields the
    fractional part of [random k]. *)
Variable random : nat -> Q.

Definition mathRandom (k : nat) : Q := (random k - inject_Z (Qfloor (random k)))%Q.

(** [Math.floor(Math.random() * n)] at the [k]-th call. *)
Definition randomIndex (n : Z) (k : nat) : nat :=
  Z.to_nat (Qfloor (mathRandom k * inject_Z n)%Q).

(** [generateRandomSignature()]: 88 characters, with [j] still to draw. *)
Fixpoint randomSignature (j : nat) (sig : string) (k : nat) : string :=
  match j with
  | O => sig
  | S j' =>
      randomSignature j'
        (String.append sig
           (Discovery.charAt Discovery.chars
              (randomIndex (Z.of_nat (String.length Discovery.chars)) k)))
        (S k)
  end.

Definition generateRandomSignature (k : nat) : string := randomSignature 88 EmptyString k.

(** [getRandomTransactionType()] of the transaction service: weights 0.4,
    0.35, 0.25, taken as exact decimals. *)
Definition getRandomTransactionType (k : nat) : TransactionType :=
  let random_ := mathRandom k in
  if Qltb random_ (4 # 10) then BUY
  else if Qltb random_ ((4 # 10) + (35 # 100))%Q then SELL
  else TRANSFER.

Fixpoint pickProtocol (random_ cumulativeWeight : Q) (weighted : list (string * Q))
  : string :=
  match weighted with
  | [] => "Unknown"
  | (name, weight) :: rest =>
      let cumulativeWeight' := (cumulativeWeight + weight)%Q in
      if Qltb random_ cumulativeWeight' then name
      else pickProtocol random_ cumulativeWeight' rest
  end.

(** [getRandomProtocol()] of the transaction service. *)
Definition getRandomProtocol (k : nat) : string :=
  pickProtocol (mathRandom k) 0
    [("Jupiter"%string, (35 # 100)%Q); ("Raydium"%string, (25 # 100)%Q);
     ("Orca"%string, (2 # 10)%Q); ("Serum"%string, (1 # 10)%Q);
     ("Unknown"%string, (1 # 10)%Q)].

(** The loop of [createSampleTransactions]: [remaining] iterations to go,
    the loop variable at [i]. *)
Fixpoint sampleLoop (remaining : nat) (i : Z) (walletAddress : string) (now : Z)
         (createdCount : nat) (w : World) : World * nat :=
  match remaining with
  | O => (w, createdCount)
  | S remaining' =>
      let sig := generateRandomSignature (draws w) in
      let w1 := draw 88 w in
      match findUnique sig (transactions w1) with
      | Some existing => sampleLoop remaining' (i + 1) walletAddress now createdCount w1
      | None =>
          let k := draws w1 in
          let tx :=
            {| walletAddress := walletAddress;
               signature := sig;
               type := getRandomTransactionType k;
               protocol := getRandomProtocol (k + 1);
               amount := (mathRandom (k + 2) * 10)%Q;
               tokenAmount := (mathRandom (k + 3) * 1000)%Q;
               timestamp := (now - i * 3600000)%Z;
               blockTime := Some (now - i * 3600000)%Z;
               slot := (Qfloor (mathRandom (k + 4) * 1000000)%Q + 100000000)%Z;
               fee := Some (mathRandom (k + 5) * (1 # 1000))%Q |} in
          sampleLoop remaining' (i + 1) walletAddress now (S createdCount)
                     (insert tx (draw 6 w1))
      end
  end.

(** [createSampleTransactions(walletAddress, count)]; [count] is an
    integer.  Its [catch] block, which returns 0, is not reached when the
    database answers. *)
Definition createSampleTransactions (walletAddress : string) (count : Z) (w : World)
  : World * nat :=
  match WalletService.getWalletByAddress walletAddress (wallets w) with
  | None => (w, 0)
  | Some wallet => sampleLoop (Z.to_nat count) 0 walletAddress (clock w) 0 w
  end.

(** solanaService.ts, [parseTransaction(signature)]: [null] when the ledger
    has no such transaction, when it has no [meta], and when the call
    fails; the type, the amounts and the protocol are drawn. *)
Definition parseTransaction (chain : Chain) (sig : string) (w : World)
  : World * option TransactionInfo :=
  match getParsedTransaction chain sig with
  | Normal (Some transaction) =>
      match meta_fee transaction with
      | None => (w, None)
      | Some lamports =>
          let k := draws w in
          (draw 4 w,
           Some {| info_signature := sig;
                   info_walletAddress := feePayer transaction;
                   info_type := nth (randomIndex 3 k) [BUY; SELL; TRANSFER] TRANSFER;
                   info_amount := (mathRandom (k + 1) * 10)%Q;
                   info_tokenAmount := (mathRandom (k + 2) * 1000)%Q;
                   info_protocol :=
                     Some (nth (randomIndex 5 (k + 3))
                               ["Jupiter"; "Raydium"; "Orca"; "Serum"; "Unknown"]%string
                               "Unknown"%string);
                   info_blockTime := tx_blockTime transaction;
                   info_slot := tx_slot transaction;
                   (* meta.fee ? meta.fee / 1000000000 : null *)
                   info_fee := if (lamports =? 0)%Z then None
                               else Some (inject_Z lamports / 1000000000)%Q |})
      end
  | Normal None => (w, None)
  | Throw _ => (w, None)
  end.

(** [for (const signatureInfo of signatures) { try { ... } catch { } await
    delay(100) }] of [syncWalletTransactions]. *)
Fixpoint syncLoop (chain : Chain) (signatures : list string) (processedCount : nat)
         (w : World) : World * nat :=
  match signatures with
  | [] => (w, processedCount)
  | sig :: rest =>
      let '(w1, transactionInfo) := parseTransaction chain sig w in
      let '(w2, processedCount') :=
        match transactionInfo with
        | Some info =>
            match storeTransaction info w1 with
            | (w2, Returned _) => (w2, S processedCount)
            | (w2, Threw _) => (w2, processedCount)
            end
        | None => (w1, processedCount)
        end in
      syncLoop chain rest processedCount' (sleep 100 w2)
  end.

(** [syncWalletTransactions(walletAddress, limit)] *)
Definition syncWalletTransactions (settings : Settings) (chain : Chain)
           (walletAddress : string) (limit : Z) (w : World) : World * Result nat :=
  if useSampleData settings then
    let '(w', created) := createSampleTransactions walletAddress (Z.min limit 10) w in
    (w', Returned created)
  else
    match getSignaturesForAddress chain walletAddress limit with
    | Normal signatures =>
        let '(w', processedCount) := syncLoop chain signatures 0 w in
        (w', Returned processedCount)
    | Throw e =>
        if development settings then
          let '(w', created) := createSampleTransactions walletAddress 5 w in
          (w', Returned created)
        else (w, Threw (Rejected e))
    end.

(** The indexed loop of [syncWalletTransactionsEnhanced], at index [i]. *)
Fixpoint enhancedLoop (chain : Chain) (signatures : list string) (i total : nat)
         (report : Report) (w : World) : World * Report :=
  match signatures with
  | [] => (w, report)
  | sig :: rest =>
      let '(w1, transactionInfo) := parseTransaction chain sig w in
      let '(w2, report') :=
        match transactionInfo with
        | Some info =>
            match storeTransaction info w1 with
            | (w2, Returned _) =>
                (w2, {| processed := S (processed report); errors := errors report;
                        progress := progress report ++ [(i + 1, total)] |})
            | (w2, Threw e) =>
                (w2, {| processed := processed report;
                        errors := errors report ++ [FailedToProcess sig e];
                        progress := progress report |})
            end
        | None =>
            (w1, {| processed := processed report; errors := errors report;
                    progress := progress report ++ [(i + 1, total)] |})
        end in
      (* if (i % 10 === 0 && i > 0) await delay(200) *)
      let w3 := if ((i mod 10 =? 0) && (0 <? i))%nat then sleep 200 w2 else w2 in
      enhancedLoop chain rest (S i) total report' w3
  end.

(** [syncWalletTransactionsEnhanced(walletAddress, limit, onProgress)];
    [limit] is a non-negative integer. *)
Definition syncWalletTransactionsEnhanced (settings : Settings) (chain : Chain)
           (walletAddress : string) (limit : Z) (w : World) : World * Report :=
  if useSampleData settings then
    let sampleCount := Z.min limit 20 in
    let '(w', processedCount) := createSampleTransactions walletAddress sampleCount w in
    (w', {| processed := processedCount; errors := [];
            progress := [(processedCount, Z.to_nat sampleCount)] |})
  else
    match getSignaturesForAddress chain walletAddress limit with
    | Normal signatures =>
        enhancedLoop chain signatures 0 (length signatures)
                     {| processed := 0; errors := [];
                        progress := [(0, length signatures)] |} w
    | Throw e =>
        (w, {| processed := 0; errors := [FailedToFetch walletAddress e];
               progress := [] |})
    end.



End WithRandomness.

(** *** Queries *)

Definition typeEqb (a b : TransactionType) : bool :=
  match a, b with
  | BUY, BUY | SELL, SELL | TRANSFER, TRANSFER => true
  | _, _ => false
  end.

(** The [filters] argument of [getTransactions]; [None] is a field that
    is absent.  [limit] and [offset] are non-negative integers. *)
Record Filters : Type := {
  f_walletAddress : option string;
  f_type : option TransactionType;
  f_protocol : option string;
  f_startDate : option Z;
  f_endDate : option Z;
  f_limit : option nat;
  f_offset : option nat
}.

(** [if (filters.field) where.field = filters.field] for a string: the
    empty string is falsy. *)
Definition givenText (field : option string) : option string :=
  match field with
  | Some text => if (text =? EmptyString)%string then None else Some text
  | None => None
  end.

(** The [where] clause that [getTransactions] builds. *)
Definition matches (filters : Filters) (tx : Transaction) : bool :=
  match givenText (f_walletAddress filters) with
  | Some a => (walletAddress tx =? a)%string
  | None => true
  end
  && match f_type filters with
     | Some kind => typeEqb (type tx) kind
     | None => true
     end
  && match givenText (f_protocol filters) with
     | Some p => (protocol tx =? p)%string
     | None => true
     end
  && match f_startDate filters with
     | Some startDate => (startDate <=? timestamp tx)%Z
     | None => true
     end
  && match f_endDate filters with
     | Some endDate => (timestamp tx <=? endDate)%Z
     | None => true
     end.

(** [orderBy: { timestamp: 'desc' }]; rows of equal time keep the order of
    the table. *)
Definition byTimestampDescending (a b : Transaction) : Z := (timestamp b - timestamp a)%Z.

(** [take: filters.limit || 100] and [skip: filters.offset || 0] *)
Definition takeOf (filters : Filters) : nat :=
  match f_limit filters with
  | Some (S n) => S n
  | _ => 100
  end.

Definition skipOf (filters : Filters) : nat :=
  match f_offset filters with
  | Some n => n
  | None => 0
  end.

(** [getTransactions(filters)]; the included [wallet: { address, rank }] of
    each row is left out. *)
Definition getTransactions (filters : Filters) (w : World) : list Transaction :=
  firstn (takeOf filters)
    (skipn (skipOf filters)
       (Discovery.sortBy byTimestampDescending
          (filter (matches filters) (transactions w)))).

Definition noFilters : Filters :=
  {| f_walletAddress := None; f_type := None; f_protocol := None;
     f_startDate := None; f_endDate := None; f_limit := None; f_offset := None |}.

(** [getRecentTransactions(limit = 20)]: the default applies when the
    argument is absent. *)
Definition getRecentTransactions (limit : option nat) (w : World) : list Transaction :=
  getTransactions
    {| f_walletAddress := None; f_type := None; f_protocol := None;
       f_startDate := None; f_endDate := None;
       f_limit := Some (match limit with Some n => n | None => 20 end);
       f_offset := None |} w.

Definition newestFirst (a b : Transaction) : Prop := (timestamp b <= timestamp a)%Z.

(** *** Cleaning up and archiving *)

Definition millisPerDay : Z := (24 * 60 * 60 * 1000)%Z.

(** [prisma.transaction.deleteMany({ where: { timestamp: { lt: cutoffDate }
    } })]: the world afterwards and [result.count]. *)
Definition deleteOlderThan (cutoffDate : Z) (w : World) : World * nat :=
  (set_transactions (filter (fun tx => (cutoffDate <=? timestamp tx)%Z) (transactions w)) w,
   length (filter (fun tx => (timestamp tx <? cutoffDate)%Z) (transactions w))).

(** [cleanupOldTransactions(daysToKeep)] *)
Definition cleanupOldTransactions (daysToKeep : Z) (w : World) : World * nat :=
  deleteOlderThan (clock w - daysToKeep * millisPerDay)%Z w.

Definition newline : string := String (ascii_of_nat 10) EmptyString.
Definition doubleQuote : string := String (ascii_of_nat 34) EmptyString.

(** [parts.join(sep)] *)
Fixpoint join (sep : string) (parts : list string) : string :=
  match parts with
  | [] => EmptyString
  | [part] => part
  | part :: rest => String.append part (String.append sep (join sep rest))
  end.

(** [s.split(sep)] for a separator of one character. *)
Fixpoint split (sep : ascii) (s : string) : list string :=
  match s with
  | EmptyString => [EmptyString]
  | String c rest =>
      if Ascii.eqb c sep then EmptyString :: split sep rest
      else match split sep rest with
           | [] => [String c EmptyString]
           | first :: others => String c first :: others
           end
  end.

Definition csvHeader : string :=
  String.append
    (join ","
       ["Timestamp"; "Date"; "Time"; "Wallet Address"; "Wallet Rank"; "Transaction Type";
        "Token Amount"; "SOL Amount"; "Protocol"; "Transaction Signature"; "Fee (SOL)";
        "Status"; "Block Time"; "Slot"]%string)
    newline.

Section WithFormatting.

(** The fields of a transaction as [exportHistoricalTransactions] renders
    them, in column order; the formatting of dates and numbers is the
    platform's. *)
Variable fields : Transaction -> list string.

Definition csvRow (tx : Transaction) : string :=
  join "," (map (fun field => String.append doubleQuote (String.append field doubleQuote))
                (fields tx)).

(** The rows that [exportHistoricalTransactions({ endDate })] finds. *)
Definition exported (endDate : Z) (table : list Transaction) : list Transaction :=
  firstn (Z.to_nat 50000)
    (Discovery.sortBy byTimestampDescending
       (filter (fun tx => (timestamp tx <=? endDate)%Z) table)).

(** [exportHistoricalTransactions({ endDate })] *)
Definition exportHistoricalTransactions (endDate : Z) (w : World) : string :=
  String.append csvHeader (join newline (map csvRow (exported endDate (transactions w)))).

(** What [cleanupOldTransactionsWithArchive] returns, and the archive it
    wrote. *)
Record Cleanup : Type := {
  deleted : nat;
  archived : Z;
  written : option string
}.

(** [cleanupOldTransactionsWithArchive(daysToKeep, archiveBeforeDelete)];
    [writeFile] tells whether [fs.writeFile] resolves. *)
Definition cleanupOldTransactionsWithArchive (daysToKeep : Z) (archiveBeforeDelete : bool)
           (writeFile : bool) (w : World) : World * Result Cleanup :=
  let cutoffDate := (clock w - daysToKeep * millisPerDay)%Z in
  if archiveBeforeDelete then
    let archiveData := exportHistoricalTransactions cutoffDate w in
    if writeFile then
      let archivedCount :=
        (Z.of_nat (length (split (ascii_of_nat 10) archiveData)) - 2)%Z in
      let '(w', count) := deleteOlderThan cutoffDate w in
      (w', Returned {| deleted := count; archived := archivedCount;
                       written := Some archiveData |})
    else (w, Threw (Rejected (FetchError None)))
  else
    let '(w', count) := deleteOlderThan cutoffDate w in
    (w', Returned {| deleted := count; archived := 0; written := None |}).

End WithFormatting.

(** *** Reading a sync off the ledger's answers *)

(** Whether [parseTransaction] yields a transaction for this signature. *)
Definition parses (chain : Chain) (sig : string) : option string :=
  match getParsedTransaction chain sig with
  | Normal (Some transaction) =>
      match meta_fee transaction with
      | Some _ => Some (feePayer transaction)
      | None => None
      end
  | _ => None
  end.

(** The signature parses and its fee payer is a wallet of the table. *)
Definition storable (chain : Chain) (table : list Discovery.Wallet) (sig : string) : bool :=
  match parses chain sig with
  | Some payer =>
      match WalletService.getWalletByAddress payer table with
      | Some _ => true
      | None => false
      end
  | None => false
  end.

(** The signature parses but its fee payer is not a wallet of the table. *)
Definition orphaned (chain : Chain) (table : list Discovery.Wallet) (sig : string) : bool :=
  match parses chain sig with
  | Some payer =>
      match WalletService.getWalletByAddress payer table with
      | Some _ => false
      | None => true
      end
  | None => false
  end.

(** The signature that a collected error is about. *)
Definition failedSignature (e : SyncError) : option string :=
  match e with
  | FailedToProcess sig _ => Some sig
  | FailedToFetch _ _ => None
  end.

Definition stored (sig : string) (w : World) : Prop :=
  findUnique sig (transactions w) <> None.

Definition signatures (w : World) : list string := map signature (transactions w).

(** The four ways in which one signature is dealt with: it does not
    parse; it parses but its fee payer is not a wallet of the table; it is
    in the table already; it is stored. *)
Inductive Dealt (chain : Chain) (sig : string) (w : World)
  : World -> option (Result Transaction) -> Prop :=
| NotParsed :
    parses chain sig = None ->
    Dealt chain sig w w None
| Orphan payer :
    parses chain sig = Some payer ->
    WalletService.getWalletByAddress payer (wallets w) = None ->
    Dealt chain sig w (draw 4 w) (Some (Threw (WalletNotFound payer)))
| Known payer wallet row :
    parses chain sig = Some payer ->
    WalletService.getWalletByAddress payer (wallets w) = Some wallet ->
    findUnique sig (transactions w) = Some row ->
    Dealt chain sig w (draw 4 w) (Some (Returned row))
| Stored payer wallet row :
    parses chain sig = Some payer ->
    WalletService.getWalletByAddress payer (wallets w) = Some wallet ->
    findUnique sig (transactions w) = None ->
    signature row = sig -> walletAddress row = payer ->
    Dealt chain sig w (insert row (draw 4 w)) (Some (Returned row)).

(** *** Worlds for the examples *)

Definition sampleWorld : World :=
  {| wallets := WalletService.sampleTable; transactions := [];
     clock := 1700000000000; draws := 0; pauses := [] |}.

Definition sampleChain : Chain :=
  {| getSignaturesForAddress := fun _ _ => Normal ["s1"; "s2"; "s3"; "s4"]%string;
     getParsedTransaction := fun sig =>
       if (sig =? "s2")%string then Normal None
       else if (sig =? "s3")%string
       then Normal (Some {| feePayer := "W7"; tx_blockTime := Some 1690000000%Z;
                            tx_slot := 5; meta_fee := Some 5000%Z |})
       else Normal (Some {| feePayer := "W1"; tx_blockTime := Some 1690000000%Z;
                            tx_slot := 5; meta_fee := Some 5000%Z |}) |}.

Definition realData : Settings := {| useSampleData := false; development := false |}.

Definition infoFor (sig payer : string) (kind : TransactionType) : TransactionInfo :=
  {| info_signature := sig; info_walletAddress := payer; info_type := kind;
     info_amount := 1; info_tokenAmount := 2; info_protocol := None;
     info_blockTime := None; info_slot := 9; info_fee := None |}.

Definition halves : nat -> Q := fun k => (Z.of_nat k # 2)%Q.

Definition squares : nat -> Q := fun k => (Z.of_nat (k * k) # 97)%Q.

Definition rowAt (sig : string) (time : Z) : Transaction :=
  {| walletAddress := "W1"; signature := sig; type := BUY; amount := 1; tokenAmount := 1;
     protocol := "Orca"; timestamp := time; blockTime := None; slot := 1; fee := None |}.

Definition signatureOnly (tx : Transaction) : list string := [signature tx].

Definition noNewline (s : string) : Prop :=
  ~ In (ascii_of_nat 10) (list_ascii_of_string s).

(** How often a character occurs in a string. *)
Fixpoint occurrences (c : ascii) (s : string) : nat :=
  match s with
  | EmptyString => 0
  | String c' rest => (if Ascii.eqb c' c then 1 else 0) + occurrences c rest
  end.

End Transactions.

(** ** Serialization
    utils/serialization.ts, [serializeBigInt]. *)

Module Serialization.

(** The name of the one property that an assignment [serialized[key] = ...]
    does not create: on a fresh object it reaches the [__proto__] setter of
    [Object.prototype]. *)
Definition isProto (s : string) : bool := (s =? "__proto__")%string.

(** The keys of the objects considered here: any string but [__proto__]. *)
Record Key : Type := { name : string; ordinary : isProto name = false }.

Definition key (s : string) (H : isProto s = false) : Key :=
  {| name := s; ordinary := H |}.

(** The values that reach [serializeBigInt]: what a query of the store
    returns.  An object is an ordinary object (its prototype is
    [Object.prototype]), given by its own enumerable properties in the order
    in which [for ... in] visits them, none of them named [__proto__]; a
    [Date] is an object that has none.  There are no functions, so a
    property is never callable. *)
Inductive Value : Type :=
| Null
| Undefined
| Bool (b : bool)
| Number (n : Q)
| Text (s : string)
| BigInt (n : Z)
| DateTime (time : Z)
| Array (items : list Value)
| Object (members : list (Key * Value)).

(** [n.toString()] of a bigint. *)
Definition bigintToString (n : Z) : string := NilZero.string_of_int (Z.to_int n).

(** A loop whose body may throw: the first exception ends it. *)
Definition traverse {A B : Type} (f : A -> Completion B) : list A -> Completion (list B) :=
  fix each (l : list A) : Completion (list B) :=
    match l with
    | [] => Normal []
    | x :: rest =>
        match f x with
        | Throw e => Throw e
        | Normal y =>
            match each rest with
            | Throw e => Throw e
            | Normal ys => Normal (y :: ys)
            end
        end
    end.

(** Whether [obj.hasOwnProperty] finds an own property of [obj] instead of
    the method of [Object.prototype]. *)
Definition shadowsHasOwnProperty (members : list (Key * Value)) : bool :=
  existsb (fun member => (name (fst member) =? "hasOwnProperty")%string) members.

(** [serialized[key] = serialize(obj[key])] *)
Definition serializeMember (serialize : Value -> Completion Value) (member : Key * Value)
  : Completion (Key * Value) :=
  match serialize (snd member) with
  | Normal value => Normal (fst member, value)
  | Throw e => Throw e
  end.

(** [serializeBigInt(obj)].  In the loop over an object the test
    [obj.hasOwnProperty(key)] comes first: when the object has an own
    property of that name, the call of a value that is no function throws a
    [TypeError] in the first iteration. *)
Fixpoint serializeBigInt (obj : Value) : Completion Value :=
  match obj with
  | Null => Normal Null
  | Undefined => Normal Undefined
  | BigInt n => Normal (Text (bigintToString n))
  | Array items =>
      match traverse serializeBigInt items with
      | Normal items' => Normal (Array items')
      | Throw e => Throw e
      end
  | Object members =>
      if shadowsHasOwnProperty members then Throw TypeError
      else
        match traverse (serializeMember serializeBigInt) members with
        | Normal members' => Normal (Object members')
        | Throw e => Throw e
        end
  | DateTime _ => Normal (Object [])
  | Bool b => Normal (Bool b)
  | Number n => Normal (Number n)
  | Text s => Normal (Text s)
  end.

Definition isBigInt (v : Value) : bool :=
  match v with BigInt _ => true | _ => false end.

Definition isDate (v : Value) : bool :=
  match v with DateTime _ => true | _ => false end.

(** An object with an own property named [hasOwnProperty]. *)
Definition isShadowing (v : Value) : bool :=
  match v with Object members => shadowsHasOwnProperty members | _ => false end.

(** Some value inside [v], or [v] itself, satisfies [p]. *)
Fixpoint anywhere (p : Value -> bool) (v : Value) : bool :=
  p v
  || match v with
     | Array items => existsb (anywhere p) items
     | Object members =>
         existsb (fun member => match member with (_, value) => anywhere p value end)
                 members
     | _ => false
     end.

(** A row as [prisma.transaction.findMany] returns it to [getWalletStats]. *)
Definition sampleRow : Value :=
  Object [(key "signature" eq_refl, Text "5Kd3");
          (key "slot" eq_refl, BigInt 250000001);
          (key "timestamp" eq_refl, DateTime 1700000000000);
          (key "wallet" eq_refl,
           Object [(key "address" eq_refl, Text "W1"); (key "rank" eq_refl, Number 1)])].

(** A row with a column named [hasOwnProperty]. *)
Definition shadowingRow : Value :=
  Object [(key "slot" eq_refl, BigInt 7); (key "hasOwnProperty" eq_refl, Bool true)].

End Serialization.

(** ** Account changes
    server.ts, [RealTimeMonitor.handleAccountChange]: the callback that
    [startMonitoring] registers for every wallet. *)

Module AccountChanges.
Import Server.

(** The log lines of [handleAccountChange]. *)
Inductive Logged : Type :=
| AccountChangeDetected (walletAddress : string)
| ErrorHandlingAccountChange (walletAddress : string).

(** The message that is broadcast. *)
Definition walletActivity (walletAddress : string) (recentTransactions : list Transaction)
  : Message :=
  {| type := "wallet_activity";
     data := Some (ActivityData (Val (JString walletAddress))
                                (map serializeTransaction recentTransactions));
     message := None; error := None; timestamp := None |}.

(** [handleAccountChange(walletAddress, accountInfo)].
    [syncWalletTransactions] is what
    [transactionService.syncWalletTransactions(walletAddress, 5)] comes to;
    the lines that the function logs are returned. *)
Definition handleAccountChange (env : Env)
           (syncWalletTransactions : string -> Z -> Completion nat)
           (walletAddress : string) : M (list Logged) :=
  tryCatch
    (lift (syncWalletTransactions walletAddress 5%Z) ;;
     recentTransactions <-
       (fun w => (count_query w,
                  getTransactions env (queries w) (Val (JString walletAddress)) 5)) ;;
     broadcastToClients (walletActivity walletAddress recentTransactions) ;;
     ret [AccountChangeDetected walletAddress])
    (fun _ =>
       ret [AccountChangeDetected walletAddress; ErrorHandlingAccountChange walletAddress]).

End AccountChanges.

(* ===================================================================== *)
(** * Part II. Properties                                                 *)
(* ===================================================================== *)

(** ** The rate limiter *)

Section RateLimiterFacts.
Import RateLimiter.
Variable lag : nat -> nat.

Lemma dispatchTimes_app evs1 evs2 :
  dispatchTimes (evs1 ++ evs2) = dispatchTimes evs1 ++ dispatchTimes evs2.
Proof.
  induction evs1 as [|e evs1 IH]; simpl; [reflexivity|].
  destruct e; simpl; now rewrite IH.
Qed.

Lemma backoffs_app evs1 evs2 :
  backoffs (evs1 ++ evs2) = backoffs evs1 ++ backoffs evs2.
Proof.
  induction evs1 as [|e evs1 IH]; simpl; [reflexivity|].
  destruct e; simpl; now rewrite IH.
Qed.

Lemma settlements_app evs1 evs2 :
  settlements (evs1 ++ evs2) = settlements evs1 ++ settlements evs2.
Proof.
  induction evs1 as [|e evs1 IH]; simpl; [reflexivity|].
  destruct e; simpl; now rewrite IH.
Qed.

Lemma lastOpt_snoc (A : Type) (l : list A) (x : A) : lastOpt (l ++ [x]) = Some x.
Proof. unfold lastOpt. now rewrite rev_unit. Qed.

Lemma lastOpt_nth (A : Type) (l : list A) :
  lastOpt l = nth_error l (pred (length l)).
Proof.
  destruct l as [|y l'] using rev_ind; [reflexivity|].
  rewrite lastOpt_snoc, length_app, Nat.add_1_r. simpl.
  rewrite nth_error_app2 by lia. now rewrite Nat.sub_diag.
Qed.

Lemma Paced_snoc (m : Z) (ts : list Z) (t : Z) :
  Paced m ts ->
  (forall t0, lastOpt ts = Some t0 -> (m <= t - t0)%Z) ->
  Paced m (ts ++ [t]).
Proof.
  intros Hp Hlast i t1 t2 H1 H2.
  destruct (Nat.lt_ge_cases (S i) (length ts)) as [Hlt|Hge].
  - rewrite nth_error_app1 in H1, H2 by lia. eauto.
  - assert (Hlen : S i = length ts).
    { assert (Hs : nth_error (ts ++ [t]) (S i) <> None) by congruence.
      apply nth_error_Some in Hs. rewrite length_app in Hs. simpl in Hs. lia. }
    rewrite nth_error_app1 in H1 by lia.
    rewrite nth_error_app2 in H2 by lia.
    replace (S i - length ts) with 0 in H2 by lia. simpl in H2. injection H2 as <-.
    apply Hlast. rewrite lastOpt_nth, <- Hlen. exact H1.
Qed.

Lemma wellPaced_quiet evs last e :
  dispatchTimes [e] = [] -> WellPacedAt evs last -> WellPacedAt (evs ++ [e]) last.
Proof.
  intros He Hw. unfold WellPacedAt in *.
  now rewrite dispatchTimes_app, He, app_nil_r.
Qed.

Lemma wellPaced_dispatch evs last t :
  (last + minInterval <= t)%Z -> WellPacedAt evs last ->
  WellPacedAt (evs ++ [Dispatch t]) t.
Proof.
  intros Ht [Hp Hl]. unfold WellPacedAt. rewrite dispatchTimes_app. simpl. split.
  - apply Paced_snoc; [assumption|]. intros t0 H0. apply Hl in H0. lia.
  - intros t0. rewrite lastOpt_snoc. congruence.
Qed.

(** Projections of updated states, without touching the arithmetic. *)
Ltac rl_simpl :=
  cbn [now lastRequestTime trace queue processing awaits invocations
       suspend emit set_lastRequestTime set_queue set_processing call
       fst snd stateOf dispatchTimes backoffs settlements app].
Ltac rl_simpl_in H :=
  cbn [now lastRequestTime trace queue processing awaits invocations
       suspend emit set_lastRequestTime set_queue set_processing call
       fst snd stateOf dispatchTimes backoffs settlements app] in H.

Lemma pace_frame st :
  (lastRequestTime st + minInterval <= now (pace lag st))%Z /\
  (now st <= now (pace lag st))%Z /\
  lastRequestTime (pace lag st) = lastRequestTime st /\
  queue (pace lag st) = queue st /\ processing (pace lag st) = processing st /\
  invocations (pace lag st) = invocations st /\
  dispatchTimes (trace (pace lag st)) = dispatchTimes (trace st) /\
  backoffs (trace (pace lag st)) = backoffs (trace st) /\
  settlements (trace (pace lag st)) = settlements (trace st).
Proof.
  unfold pace.
  destruct (Z.ltb_spec (now st - lastRequestTime st) minInterval); rl_simpl.
  - rewrite dispatchTimes_app, backoffs_app, settlements_app. rl_simpl.
    repeat rewrite app_nil_r.
    split; [lia|]. split; [lia|]. repeat split; reflexivity.
  - split; [lia|]. split; [lia|]. repeat split; reflexivity.
Qed.

Lemma pace_paced st :
  WellPaced st -> WellPacedAt (trace (pace lag st)) (lastRequestTime st).
Proof.
  intros Hw. unfold pace.
  destruct (Z.ltb_spec (now st - lastRequestTime st) minInterval); rl_simpl.
  - apply wellPaced_quiet; [reflexivity | assumption].
  - assumption.
Qed.

(** A dispatch keeps the limiter paced, whatever the clock does. *)
Lemma dispatch_paced st :
  WellPaced st -> WellPaced (dispatch (pace lag st)).
Proof.
  intros Hw. pose proof (pace_paced Hw) as Hw1.
  destruct (pace_frame st) as (Ht & _).
  unfold WellPaced, dispatch. rl_simpl.
  eapply wellPaced_dispatch; eassumption.
Qed.

Lemma backoff_paced retries st : WellPaced st -> WellPaced (backoff lag retries st).
Proof.
  intros Hw. unfold WellPaced, backoff. rl_simpl.
  apply wellPaced_quiet; [reflexivity | assumption].
Qed.

(** An attempt, with its retries, keeps the limiter paced. *)
Lemma executeWithRetry_aux_paced fn : forall fuel retries st st' result,
  executeWithRetry_aux lag fuel fn retries st = Some (st', result) ->
  WellPaced st ->
  WellPaced st' /\ queue st' = queue st /\ processing st' = processing st.
Proof.
  induction fuel as [|fuel IH]; intros retries st st' result H Hw; [discriminate|].
  cbn [executeWithRetry_aux] in H.
  pose proof (dispatch_paced Hw) as Hd.
  destruct (pace_frame st) as (_ & _ & _ & Hq & Hp & _).
  unfold call in H.
  assert (Hc : WellPaced
                 {| queue := queue (dispatch (pace lag st));
                    processing := processing (dispatch (pace lag st));
                    lastRequestTime := lastRequestTime (suspend lag 0 (dispatch (pace lag st)));
                    now := now (suspend lag 0 (dispatch (pace lag st)));
                    awaits := awaits (suspend lag 0 (dispatch (pace lag st)));
                    invocations := S (invocations (dispatch (pace lag st)));
                    trace := trace (suspend lag 0 (dispatch (pace lag st))) |}).
  { exact Hd. }
  rl_simpl_in H.
  destruct (fn _) as [v|error].
  - injection H as <- <-. split; [exact Hc | split; assumption].
  - destruct (isRateLimit error && (retries <? maxRetries)%nat).
    + apply IH in H.
      * destruct H as (Hw' & Hq' & Hp').
        unfold backoff, dispatch in Hq', Hp'. rl_simpl_in Hq'. rl_simpl_in Hp'.
        split; [exact Hw' | split; congruence].
      * apply backoff_paced. exact Hc.
    + injection H as <- <-. split; [exact Hc | split; assumption].
Qed.

(** The recursion never needs more than [maxRetries - retries + 1] levels. *)
Lemma executeWithRetry_aux_total fn : forall fuel retries st,
  (maxRetries - retries < fuel)%nat ->
  exists st' result, executeWithRetry_aux lag fuel fn retries st = Some (st', result).
Proof.
  induction fuel as [|fuel IH]; intros retries st Hfuel; [lia|].
  cbn [executeWithRetry_aux]. unfold call.
  destruct (fn _) as [v|error]; [eauto|].
  destruct (isRateLimit error); cbn [andb]; [|eauto].
  destruct (Nat.ltb_spec retries maxRetries); [|eauto].
  apply IH. lia.
Qed.

(** What one attempt (wait, dispatch, call) does. *)
Lemma attempt_spec fn st st1 result :
  call lag fn (dispatch (pace lag st)) = (st1, result) ->
  result = fn (invocations st) /\
  dispatchTimes (trace st1) = dispatchTimes (trace st) ++ [now (pace lag st)] /\
  backoffs (trace st1) = backoffs (trace st) /\
  settlements (trace st1) = settlements (trace st) /\
  (now st <= now (pace lag st))%Z /\ (now (pace lag st) <= now st1)%Z /\
  invocations st1 = S (invocations st) /\
  queue st1 = queue st /\ processing st1 = processing st.
Proof.
  intros Hcall.
  destruct (pace_frame st) as (_ & Hn & _ & Hq & Hp & Hi & Hd & Hb & Hs).
  unfold call, dispatch in Hcall. rl_simpl_in Hcall. injection Hcall as <- <-.
  rl_simpl. rewrite dispatchTimes_app, backoffs_app, settlements_app. rl_simpl.
  rewrite Hd, Hb, Hs, Hi, Hq, Hp, !app_nil_r.
  repeat split; try reflexivity; lia.
Qed.

Lemma backoff_spec retries st :
  dispatchTimes (trace (backoff lag retries st)) = dispatchTimes (trace st) /\
  backoffs (trace (backoff lag retries st))
  = backoffs (trace st) ++ [(2 ^ Z.of_nat retries * 1000)%Z] /\
  settlements (trace (backoff lag retries st)) = settlements (trace st) /\
  (now st + 2 ^ Z.of_nat retries * 1000 <= now (backoff lag retries st))%Z /\
  invocations (backoff lag retries st) = invocations st /\
  queue (backoff lag retries st) = queue st /\
  processing (backoff lag retries st) = processing st.
Proof.
  unfold backoff. rl_simpl.
  rewrite dispatchTimes_app, backoffs_app, settlements_app. rl_simpl.
  rewrite !app_nil_r. repeat split; try reflexivity; lia.
Qed.

(** A function that is turned away with a rate-limit error on every call
    is called once per retry level, with the backoff delays in between. *)
Lemma always_rate_limited fn :
  (forall n, exists e, fn n = Rejected e /\ isRateLimit e = true) ->
  forall n retries st,
    retries + n = maxRetries ->
    exists st' e ts,
      executeWithRetry_aux lag (S n) fn retries st = Some (st', Rejected e) /\
      isRateLimit e = true /\
      dispatchTimes (trace st') = dispatchTimes (trace st) ++ ts /\
      length ts = S n /\ BackedOff retries ts /\
      (forall t, hd_error ts = Some t -> (now st <= t)%Z) /\
      backoffs (trace st')
      = backoffs (trace st) ++ map (fun k => (2 ^ Z.of_nat k * 1000)%Z) (seq retries n) /\
      settlements (trace st') = settlements (trace st) /\
      invocations st' = invocations st + S n /\
      queue st' = queue st /\ processing st' = processing st.
Proof.
  intros Hfn. induction n as [|n IH]; intros retries st Hr;
    cbn [executeWithRetry_aux];
    destruct (call lag fn (dispatch (pace lag st))) as [st1 result] eqn:Hcall;
    destruct (@attempt_spec _ _ _ _ Hcall) as (Hres & Hd & Hb & Hs & Hn0 & Hn1 & Hi & Hq & Hp);
    destruct (Hfn (invocations st)) as (e & He & Hrate);
    rewrite Hres, He, Hrate; cbn [andb].
  - destruct (Nat.ltb_spec retries maxRetries) as [Hlt|_]; [lia|].
    exists st1, e, [now (pace lag st)]. cbn [seq map length BackedOff hd_error].
    rewrite app_nil_r.
    repeat split; try assumption; try lia.
    intros t [= <-]. assumption.
  - destruct (Nat.ltb_spec retries maxRetries) as [_|Hge]; [|lia].
    destruct (backoff_spec retries st1) as (Bd & Bb & Bs & Bn & Bi & Bq & Bp).
    destruct (IH (retries + 1) (backoff lag retries st1)) as
        (st' & e' & ts & Hrun & Hrate' & Hd' & Hlen & Hgap & Hhd & Hb' & Hs' & Hi' & Hq' & Hp');
      [lia |].
    exists st', e', (now (pace lag st) :: ts).
    split; [exact Hrun|]. split; [exact Hrate'|].
    split; [rewrite Hd', Bd, Hd, <- app_assoc; reflexivity|].
    split; [simpl; lia|].
    split.
    { destruct ts as [|t' ts']; [discriminate|]. cbn [BackedOff].
      rewrite Nat.add_1_r in Hgap. split; [|exact Hgap].
      specialize (Hhd t' eq_refl). lia. }
    split; [intros t [= <-]; assumption|].
    split.
    { rewrite Hb', Bb, Hb, <- app_assoc. cbn [seq map app].
      now rewrite Nat.add_1_r. }
    split; [congruence|]. split; [lia|]. split; congruence.
Qed.

(** An error that is not a rate-limit error ends the call at once. *)
Lemma other_error_not_retried fn st e fuel retries :
  fn (invocations st) = Rejected e -> isRateLimit e = false ->
  exists st',
    executeWithRetry_aux lag (S fuel) fn retries st = Some (st', Rejected e) /\
    dispatchTimes (trace st') = dispatchTimes (trace st) ++ [now (pace lag st)] /\
    backoffs (trace st') = backoffs (trace st) /\
    settlements (trace st') = settlements (trace st) /\
    invocations st' = S (invocations st) /\
    queue st' = queue st /\ processing st' = processing st.
Proof.
  intros He Hrate. cbn [executeWithRetry_aux].
  destruct (call lag fn (dispatch (pace lag st))) as [st1 result] eqn:Hcall.
  destruct (@attempt_spec _ _ _ _ Hcall) as (Hres & Hd & Hb & Hs & _ & _ & Hi & Hq & Hp).
  rewrite Hres, He, Hrate. cbn [andb].
  exists st1. repeat split; assumption.
Qed.

(** The worker loop keeps the limiter paced. *)
Lemma processLoop_paced : forall fuel arrivals k st,
  WellPaced st -> WellPaced (stateOf (processLoop lag fuel arrivals k st)).
Proof.
  induction fuel as [|fuel IH]; intros arrivals k st Hw; cbn [processLoop stateOf];
    [assumption|].
  destruct (queue st) as [|task rest] eqn:Hq; [exact Hw|].
  destruct (executeWithRetry lag (task_fn task) 0 (set_queue rest st))
    as [[st1 result]|] eqn:Hrun; [|exact Hw].
  apply IH. apply executeWithRetry_aux_paced in Hrun; [|exact Hw].
  destruct Hrun as (Hw1 & _). unfold WellPaced. rl_simpl.
  apply wellPaced_quiet; [reflexivity | exact Hw1].
Qed.

Lemma execute_paced fuel arrivals task st :
  WellPaced st -> WellPaced (stateOf (execute lag fuel arrivals task st)).
Proof.
  intros Hw. unfold execute, processQueue.
  destruct (_ || _); [exact Hw|].
  apply processLoop_paced. exact Hw.
Qed.

Lemma create_paced t : WellPaced (create t).
Proof.
  split.
  - intros [|i] t1 t2 H; discriminate.
  - intros t0 H; discriminate.
Qed.

(** A single call through [execute] on an idle limiter: the loop runs the
    task, settles its promise and drains. *)
Lemma execute_alone fuel task st st1 result :
  processing st = false -> queue st = [] ->
  executeWithRetry lag (task_fn task) 0
                   (set_queue [] (set_processing true (set_queue (queue st ++ [task]) st)))
  = Some (st1, result) ->
  queue st1 = [] ->
  execute lag (S (S fuel)) (fun _ => []) task st
  = Drained (set_processing false
               (set_queue [] (emit (Settle (caller task) result) st1))).
Proof.
  intros Hp Hq Hrun Hq1. unfold execute, processQueue. rl_simpl.
  rewrite Hp, Hq. cbn [app length Nat.eqb orb processLoop]. rl_simpl.
  rewrite Hq in Hrun. cbn [app] in Hrun. rewrite Hrun. rl_simpl.
  rewrite Hq1. reflexivity.
Qed.

End RateLimiterFacts.

(** ** Batch synchronisation *)

Section ListFacts.
Context {A : Type}.

Lemma firstn_then_firstn_skipn (l : list A) (n m : nat) :
  firstn n l ++ firstn m (skipn n l) = firstn (n + m) l.
Proof.
  revert n; induction l as [|x l IH]; intros [|n]; simpl.
  - now rewrite firstn_nil.
  - now rewrite firstn_nil.
  - reflexivity.
  - now rewrite IH.
Qed.

(** A slice that starts inside the array and has a positive width is the
    expected window. *)
Lemma slice_window (l : list A) (i w : Z) :
  (0 <= i < Z.of_nat (length l))%Z -> (0 < w)%Z ->
  slice l i (i + w) =
  firstn (Z.to_nat (Z.min (i + w) (Z.of_nat (length l))) - Z.to_nat i)
         (skipn (Z.to_nat i) l).
Proof.
  intros Hi Hw. unfold slice, relativeIndex.
  destruct (Z.ltb_spec i 0); [lia|].
  destruct (Z.ltb_spec (i + w) 0); [lia|].
  rewrite (Z.min_l i) by lia.
  f_equal. lia.
Qed.

Lemma firstn_slice (l : list A) (i w : Z) :
  (0 <= i < Z.of_nat (length l))%Z -> (0 < w)%Z ->
  firstn (Z.to_nat i) l ++ slice l i (i + w) =
  firstn (Z.to_nat (Z.min (i + w) (Z.of_nat (length l)))) l.
Proof.
  intros Hi Hw. rewrite slice_window by assumption.
  rewrite firstn_then_firstn_skipn. f_equal. lia.
Qed.

Lemma slice_length (l : list A) (i w : Z) :
  (0 <= i < Z.of_nat (length l))%Z -> (0 < w)%Z ->
  Z.of_nat (length (slice l i (i + w))) =
  (Z.min (i + w) (Z.of_nat (length l)) - i)%Z.
Proof.
  intros Hi Hw. rewrite slice_window by assumption.
  rewrite length_firstn, length_skipn. lia.
Qed.

(** The loop rule for [forStep] with a positive step: an invariant carried
    by the body holds at the exit, and the exit is reached with any fuel
    above the distance to the bound. *)
Lemma forStep_rule (S : Type) (Inv : Z -> S -> Prop) (len step : Z)
      (body : Z -> S -> S) :
  (0 < step)%Z ->
  (forall i s, (0 <= i < len)%Z -> Inv i s -> Inv (i + step)%Z (body i s)) ->
  forall fuel i s,
    (0 <= i)%Z -> (Z.to_nat (len - i) < fuel)%nat -> Inv i s ->
    exists j s', forStep fuel len step body i s = Some s' /\
                 (len <= j)%Z /\ Inv j s'.
Proof.
  intros Hstep Hbody fuel.
  induction fuel as [|fuel IH]; intros i s Hi Hfuel Hinv; [lia|].
  simpl. destruct (Z.ltb_spec i len) as [Hlt|Hge].
  - apply IH; [lia | lia | apply Hbody; [lia | assumption]].
  - exists i, s. auto.
Qed.

(** More fuel never changes a finished loop. *)
Lemma forStep_fuel_mono (S : Type) (len step : Z) (body : Z -> S -> S) :
  forall fuel fuel' i s s',
    forStep fuel len step body i s = Some s' -> (fuel <= fuel')%nat ->
    forStep fuel' len step body i s = Some s'.
Proof.
  induction fuel as [|fuel IH]; intros fuel' i s s' H Hle; [discriminate|].
  destruct fuel' as [|fuel']; [lia|].
  simpl in *. destruct (i <? len)%Z; [|assumption].
  apply IH with (fuel' := fuel') in H; [assumption | lia].
Qed.

End ListFacts.

Section SyncFacts.
Import Sync.
Variable ledger : nat -> string -> Z -> bool.

Lemma outcomesFrom_app limit n l1 l2 :
  outcomesFrom ledger limit n (l1 ++ l2) =
  outcomesFrom ledger limit n l1 ++ outcomesFrom ledger limit (n + length l1) l2.
Proof.
  revert n; induction l1 as [|a l1 IH]; intros n; simpl.
  - now rewrite Nat.add_0_r.
  - rewrite IH. do 3 f_equal. lia.
Qed.

Lemma outcomesFrom_length limit n l :
  length (outcomesFrom ledger limit n l) = length l.
Proof. revert n; induction l; intros; simpl; auto. Qed.

Lemma outcomesFrom_address limit n l :
  map outcomeAddress (outcomesFrom ledger limit n l) = map Some l.
Proof. revert n; induction l; intros; simpl; f_equal; auto. Qed.

Lemma countIf_app (B : Type) (p : B -> bool) l1 l2 :
  countIf p (l1 ++ l2) = countIf p l1 + countIf p l2.
Proof. unfold countIf. now rewrite filter_app, length_app. Qed.

Lemma countIf_split (l : list (PromiseSettledResult BatchItem)) :
  countIf outcomeOk l + countIf outcomeFailed l = length l.
Proof.
  unfold countIf, outcomeFailed. induction l as [|o l IH]; simpl; [reflexivity|].
  destruct (outcomeOk o); simpl; lia.
Qed.

Lemma attempted_app evs1 evs2 :
  attempted (evs1 ++ evs2) = attempted evs1 ++ attempted evs2.
Proof.
  induction evs1 as [|e evs1 IH]; simpl; [reflexivity|].
  destruct e; simpl; now rewrite IH.
Qed.

Lemma sleeps_app evs1 evs2 :
  sleeps (evs1 ++ evs2) = sleeps evs1 ++ sleeps evs2.
Proof.
  induction evs1 as [|e evs1 IH]; simpl; [reflexivity|].
  destruct e; simpl; now rewrite IH.
Qed.

(** What one batch item does to a run. *)
Lemma syncOne_spec limit a r :
  let '(r', item) := syncOne ledger limit a r in
  item = {| success := ledger (calls r) a limit; address := a |} /\
  calls r' = S (calls r) /\
  attempted (events r') = attempted (events r) ++ [a] /\
  sleeps (events r') = sleeps (events r) /\
  successCount r' = successCount r /\ failedCount r' = failedCount r /\
  settled r' = settled r.
Proof.
  unfold syncOne. destruct (ledger (calls r) a limit); simpl;
    repeat rewrite attempted_app; repeat rewrite sleeps_app; simpl;
    repeat rewrite app_nil_r; repeat split; reflexivity.
Qed.

(** What mapping one batch does to a run. *)
Lemma mapBatch_spec limit batch : forall r,
  let '(r', items) := mapBatch ledger limit batch r in
  allSettled items = outcomesFrom ledger limit (calls r) batch /\
  calls r' = calls r + length batch /\
  attempted (events r') = attempted (events r) ++ batch /\
  sleeps (events r') = sleeps (events r) /\
  successCount r' = successCount r /\ failedCount r' = failedCount r /\
  settled r' = settled r.
Proof.
  induction batch as [|a batch IH]; intros r; simpl.
  - rewrite app_nil_r, Nat.add_0_r. repeat split; reflexivity.
  - pose proof (syncOne_spec limit a r) as H1.
    destruct (syncOne ledger limit a r) as [r1 item].
    destruct H1 as (Hitem & Hc & Ha & Hs & Hok & Hko & Hset).
    specialize (IH r1).
    destruct (mapBatch ledger limit batch r1) as [r2 items].
    destruct IH as (Hitems & Hc2 & Ha2 & Hs2 & Hok2 & Hko2 & Hset2).
    unfold allSettled in *. simpl. rewrite Hitems, Hitem, Hc.
    repeat split; try congruence; try lia.
    rewrite Ha2, Ha, <- app_assoc. reflexivity.
Qed.

(** Tallying adds every outcome to exactly one of the two counters. *)
Lemma tallyBulk_spec results : forall r,
  let r' := fold_left tallyBulk results r in
  successCount r' = successCount r + countIf outcomeOk results /\
  failedCount r' = failedCount r + countIf outcomeFailed results /\
  calls r' = calls r /\ settled r' = settled r /\ events r' = events r.
Proof.
  unfold countIf, outcomeFailed.
  induction results as [|o results IH]; intros r; simpl.
  - repeat split; lia.
  - specialize (IH (tallyBulk r o)). simpl in IH.
    destruct IH as (H1 & H2 & H3 & H4 & H5).
    rewrite H1, H2, H3, H4, H5.
    destruct o as [v|e]; simpl; [destruct (success v)|]; simpl;
      repeat split; lia.
Qed.

Lemma tallyAll_spec results : forall r,
  let r' := fold_left tallyAll results r in
  successCount r' = successCount r + countIf outcomeOk results /\
  failedCount r' = failedCount r + countIf outcomeFailed results /\
  calls r' = calls r /\ settled r' = settled r /\ events r' = events r.
Proof.
  unfold countIf, outcomeFailed.
  induction results as [|o results IH]; intros r; simpl.
  - repeat split; lia.
  - specialize (IH (tallyAll r o)). simpl in IH.
    destruct IH as (H1 & H2 & H3 & H4 & H5).
    rewrite H1, H2, H3, H4, H5.
    destruct o as [v|e]; simpl; [destruct (success v)|]; simpl;
      repeat split; lia.
Qed.

Lemma emit_quiet (e : Event) limit worklist n r :
  (forall a l, e <> SyncCall a l) ->
  processed ledger limit worklist n r ->
  processed ledger limit worklist n (emit e r).
Proof.
  intros He (H1 & H2 & H3 & H4 & H5). unfold processed, emit; simpl.
  rewrite attempted_app. repeat split; try assumption.
  destruct e; simpl; try (now rewrite app_nil_r).
  exfalso. eapply He. reflexivity.
Qed.

Lemma upTo_inside worklist i :
  (0 <= i < Z.of_nat (length worklist))%Z -> upTo worklist i = Z.to_nat i.
Proof. intros H. unfold upTo. f_equal. lia. Qed.

Lemma upTo_outside worklist j :
  (Z.of_nat (length worklist) <= j)%Z -> upTo worklist j = length worklist.
Proof. intros H. unfold upTo. rewrite Z.min_r by lia. apply Nat2Z.id. Qed.

(** One batch: mapped, settled, tallied. *)
Lemma batch_step limit worklist (w i : Z)
      (tally : Run -> PromiseSettledResult BatchItem -> Run) r :
  (forall results r0,
      let r' := fold_left tally results r0 in
      successCount r' = successCount r0 + countIf outcomeOk results /\
      failedCount r' = failedCount r0 + countIf outcomeFailed results /\
      calls r' = calls r0 /\ settled r' = settled r0 /\ events r' = events r0) ->
  (0 <= i < Z.of_nat (length worklist))%Z -> (0 < w)%Z ->
  processed ledger limit worklist (upTo worklist i) r ->
  processed ledger limit worklist (upTo worklist (i + w))
    (let '(r1, batchPromises) := mapBatch ledger limit (slice worklist i (i + w)) r in
     fold_left tally (allSettled batchPromises) (record (allSettled batchPromises) r1)).
Proof.
  intros Htally Hi Hw (Hc & Hs & Ha & Hok & Hko).
  rewrite upTo_inside in * by assumption.
  pose proof (mapBatch_spec limit (slice worklist i (i + w)) r) as Hm.
  destruct (mapBatch ledger limit (slice worklist i (i + w)) r) as [r1 items].
  destruct Hm as (Hitems & Hc1 & Ha1 & _ & Hok1 & Hko1 & Hs1).
  destruct (Htally (allSettled items) (record (allSettled items) r1))
    as (T1 & T2 & T3 & T4 & T5).
  assert (Hn : upTo worklist (i + w) = Z.to_nat i + length (slice worklist i (i + w))).
  { unfold upTo. pose proof (slice_length worklist Hi Hw). lia. }
  assert (Hf : firstn (upTo worklist (i + w)) worklist =
               firstn (Z.to_nat i) worklist ++ slice worklist i (i + w)).
  { unfold upTo. now rewrite firstn_slice. }
  assert (Hlen : length (firstn (Z.to_nat i) worklist) = Z.to_nat i).
  { rewrite length_firstn. lia. }
  assert (Hsettled : settled r1 ++ allSettled items =
                     outcomesFrom ledger limit 0 (firstn (upTo worklist (i + w)) worklist)).
  { rewrite Hf, outcomesFrom_app, Hlen, Hs1, Hs, Hitems, Hc. reflexivity. }
  unfold processed. simpl in *.
  rewrite T1, T2, T3, T4, T5. simpl.
  rewrite Hok1, Hko1, Hok, Hko, Hs, <- Hsettled, Hs1, Hs.
  repeat rewrite countIf_app.
  repeat split; try lia.
  rewrite Ha1, Ha, Hf. reflexivity.
Qed.

Lemma bulkBody_step syncId worklist limit (w i : Z) r :
  (0 <= i < Z.of_nat (length worklist))%Z -> (0 < w)%Z ->
  processed ledger limit worklist (upTo worklist i) r ->
  processed ledger limit worklist (upTo worklist (i + w))
            (bulkBody ledger syncId worklist limit w i r).
Proof.
  intros Hi Hw Hp. unfold bulkBody.
  pose proof (batch_step tallyBulk tallyBulk_spec Hi Hw Hp) as Hb.
  destruct (mapBatch ledger limit (slice worklist i (i + w)) r) as [r1 items].
  apply emit_quiet; [discriminate|].
  destruct (i + w <? Z.of_nat (length worklist))%Z; [|assumption].
  apply emit_quiet; [discriminate | assumption].
Qed.

Lemma allBody_step worklist (i : Z) r :
  (0 <= i < Z.of_nat (length worklist))%Z ->
  processed ledger 5 worklist (upTo worklist i) r ->
  processed ledger 5 worklist (upTo worklist (i + batchSizeAll))
            (allBody ledger worklist i r).
Proof.
  intros Hi Hp. unfold allBody.
  assert (Hw : (0 < batchSizeAll)%Z) by reflexivity.
  pose proof (batch_step tallyAll tallyAll_spec Hi Hw Hp) as Hb.
  destruct (mapBatch ledger 5 (slice worklist i (i + batchSizeAll)) r) as [r1 items].
  destruct (i + batchSizeAll <? Z.of_nat (length worklist))%Z; [|assumption].
  apply emit_quiet; [discriminate | assumption].
Qed.

Lemma processed_start limit worklist (e : Event) :
  (forall a l, e <> SyncCall a l) ->
  processed ledger limit worklist (upTo worklist 0) (emit e start).
Proof.
  intros He. apply emit_quiet; [assumption|].
  unfold upTo. rewrite Z.min_l by lia. simpl. repeat split.
Qed.

(** A run that has dealt with the whole worklist. *)
Lemma processed_all limit worklist r :
  processed ledger limit worklist (length worklist) r ->
  settled r = outcomesFrom ledger limit 0 worklist /\
  attempted (events r) = worklist /\
  successCount r + failedCount r = length worklist /\
  successCount r = countIf outcomeOk (settled r) /\
  failedCount r = countIf outcomeFailed (settled r).
Proof.
  intros (Hc & Hs & Ha & Hok & Hko). rewrite firstn_all in *.
  repeat split; try assumption.
  rewrite Hok, Hko, countIf_split, Hs. apply outcomesFrom_length.
Qed.

(** With a positive batch size and fuel above the length of the worklist
    the bulk loop reaches its exit, having dealt with every item. *)
Lemma bulk_loop_total syncId worklist limit (w : Z) fuel :
  (0 < w)%Z -> (length worklist < fuel)%nat ->
  exists r, forStep fuel (Z.of_nat (length worklist)) w
                    (bulkBody ledger syncId worklist limit w) 0%Z
                    (emit (LogInfo (StartingBulkSync syncId (length worklist))) start)
            = Some r /\
            processed ledger limit worklist (length worklist) r.
Proof.
  intros Hw Hfuel.
  destruct (@forStep_rule Run (fun i r => processed ledger limit worklist (upTo worklist i) r)
              (Z.of_nat (length worklist)) w
              (bulkBody ledger syncId worklist limit w) Hw) with
      (fuel := fuel) (i := 0%Z)
      (s := emit (LogInfo (StartingBulkSync syncId (length worklist))) start)
    as (j & r & Hrun & Hj & Hinv).
  - intros i s Hi Hp. now apply bulkBody_step.
  - lia.
  - lia.
  - apply processed_start. discriminate.
  - exists r. split; [assumption|]. now rewrite upTo_outside in Hinv.
Qed.

Lemma all_loop_total worklist fuel :
  (length worklist < fuel)%nat ->
  exists r, forStep fuel (Z.of_nat (length worklist)) batchSizeAll
                    (allBody ledger worklist) 0%Z
                    (emit (LogInfo (StartingSync (length worklist))) start)
            = Some r /\
            processed ledger 5 worklist (length worklist) r.
Proof.
  intros Hfuel.
  destruct (@forStep_rule Run (fun i r => processed ledger 5 worklist (upTo worklist i) r)
              (Z.of_nat (length worklist)) batchSizeAll
              (allBody ledger worklist) eq_refl) with
      (fuel := fuel) (i := 0%Z)
      (s := emit (LogInfo (StartingSync (length worklist))) start)
    as (j & r & Hrun & Hj & Hinv).
  - intros i s Hi Hp. now apply allBody_step.
  - lia.
  - lia.
  - apply processed_start. discriminate.
  - exists r. split; [assumption|]. now rewrite upTo_outside in Hinv.
Qed.

(** A loop whose step is not positive never leaves a non-empty range. *)
Lemma forStep_stuck (S : Type) (len step : Z) (body : Z -> S -> S) :
  (step <= 0)%Z -> forall fuel i s, (i < len)%Z ->
  forStep fuel len step body i s = None.
Proof.
  intros Hstep fuel. induction fuel as [|fuel IH]; intros i s Hi; simpl; [reflexivity|].
  destruct (Z.ltb_spec i len); [|lia]. apply IH. lia.
Qed.

Lemma performBulkSync_returns syncId worklist limit (w : Z) fuel :
  (0 < w)%Z -> (length worklist < fuel)%nat ->
  exists r, performBulkSync ledger fuel syncId worklist limit w = Some r.
Proof.
  intros Hw Hfuel. unfold performBulkSync.
  destruct (bulk_loop_total syncId worklist limit Hw Hfuel) as (r & -> & _).
  eauto.
Qed.

(** The counts of a bulk sync are what its last log line reports. *)
Lemma performBulkSync_logs syncId worklist limit (w : Z) fuel r :
  performBulkSync ledger fuel syncId worklist limit w = Some r ->
  exists evs, events r
              = evs ++ [LogInfo (BulkSyncCompleted syncId (successCount r) (failedCount r))].
Proof.
  unfold performBulkSync. intros H.
  destruct (forStep fuel _ w _ 0%Z _) as [r1|]; [|discriminate].
  injection H as <-. exists (events r1). reflexivity.
Qed.

(** Whatever the batch size and the fuel, a bulk sync that returns has dealt
    with every item of its worklist. *)
Lemma performBulkSync_complete syncId worklist limit (w : Z) fuel r :
  performBulkSync ledger fuel syncId worklist limit w = Some r ->
  processed ledger limit worklist (length worklist) r.
Proof.
  unfold performBulkSync. intros H.
  destruct (forStep fuel _ w _ 0%Z _) as [r1|] eqn:Hrun; [|discriminate].
  injection H as <-. apply emit_quiet; [discriminate|].
  destruct (Z.ltb_spec 0 w) as [Hw|Hw].
  - destruct (@bulk_loop_total syncId worklist limit w (S (length worklist + fuel)) Hw)
      as (r2 & Hrun2 & Hp); [lia|].
    apply forStep_fuel_mono with (fuel' := S (length worklist + fuel)) in Hrun; [|lia].
    congruence.
  - destruct worklist as [|a worklist].
    + destruct fuel; simpl in Hrun; [discriminate|]. injection Hrun as <-.
      apply (@processed_start limit []). discriminate.
    + rewrite forStep_stuck in Hrun; [discriminate | lia | simpl; lia].
Qed.

Lemma syncAll_returns worklist fuel :
  (length worklist < fuel)%nat ->
  exists r, syncAllWalletTransactions ledger fuel (Some worklist)
            = Some (r, Normal {| summary_success := successCount r;
                                 summary_failed := failedCount r |}) /\
            processed ledger 5 worklist (length worklist) r.
Proof.
  intros Hfuel. unfold syncAllWalletTransactions.
  destruct (all_loop_total worklist Hfuel) as (r & -> & Hp).
  exists (emit (LogInfo (SyncCompleted (successCount r) (failedCount r))) r).
  split; [reflexivity|]. apply emit_quiet; [discriminate | assumption].
Qed.

End SyncFacts.

(** The worklist of 23 items on which items 3, 9 and 20 fail, in batches of 5. *)
Example sync_23_items :
  option_map (fun rc => snd rc)
             (Sync.syncAllWalletTransactions Sync.ledger_3_9_20 24
                (Some (Sync.sampleWorklist 23)))
  = Some (Normal {| Sync.summary_success := 20; Sync.summary_failed := 3 |}).
Proof. vm_compute. reflexivity. Qed.

Example sync_23_items_failed :
  option_map (fun r => map Sync.outcomeAddress (filter Sync.outcomeFailed (Sync.settled r)))
             (Sync.performBulkSync Sync.ledger_3_9_20 24 "sync_1" (Sync.sampleWorklist 23) 100 5)
  = Some [Some "D"; Some "J"; Some "U"]%string.
Proof. vm_compute. reflexivity. Qed.

(** A batch size of 0 keeps the bulk loop on its first, empty batch. *)
Example bulk_sync_zero_batch :
  Sync.performBulkSync Sync.ledger_3_9_20 1000 "sync_1" (Sync.sampleWorklist 3) 100 0 = None.
Proof. vm_compute. reflexivity. Qed.

(** C2. Sync accounting: for every worklist and every ledger, a batch sync
    ([syncAllWalletTransactions] in batches of 5, [performBulkSync] in
    batches of any positive size) returns; its counts add up to the length
    of the worklist; the recorded outcomes are exactly one per item, in
    worklist order, each holding what the ledger answered for that item;
    every item was attempted, so no failure stopped the run.
    [syncAllWalletTransactions] returns the counts, [performBulkSync] writes
    them to its last log line. *)
Theorem sync_accounting
        (ledger : nat -> string -> Z -> bool) (worklist : list string)
        (syncId : string) (transactionsPerWallet batchSize : Z) (fuel : nat) :
  (0 < batchSize)%Z -> (length worklist < fuel)%nat ->
  (exists r summary,
      Sync.syncAllWalletTransactions ledger fuel (Some worklist)
      = Some (r, Normal summary) /\
      Sync.summary_success summary + Sync.summary_failed summary = length worklist /\
      Sync.settled r = Sync.outcomesFrom ledger 5 0 worklist /\
      map Sync.outcomeAddress (Sync.settled r) = map Some worklist /\
      Sync.attempted (Sync.events r) = worklist /\
      Sync.summary_success summary = Sync.countIf Sync.outcomeOk (Sync.settled r) /\
      Sync.summary_failed summary = Sync.countIf Sync.outcomeFailed (Sync.settled r))
  /\
  (exists r,
      Sync.performBulkSync ledger fuel syncId worklist transactionsPerWallet batchSize
      = Some r /\
      Sync.successCount r + Sync.failedCount r = length worklist /\
      Sync.settled r = Sync.outcomesFrom ledger transactionsPerWallet 0 worklist /\
      map Sync.outcomeAddress (Sync.settled r) = map Some worklist /\
      Sync.attempted (Sync.events r) = worklist /\
      Sync.successCount r = Sync.countIf Sync.outcomeOk (Sync.settled r) /\
      Sync.failedCount r = Sync.countIf Sync.outcomeFailed (Sync.settled r) /\
      exists evs,
        Sync.events r
        = evs ++ [Sync.LogInfo (Sync.BulkSyncCompleted syncId (Sync.successCount r)
                                                       (Sync.failedCount r))]).
Proof.
  intros Hw Hfuel. split.
  - destruct (syncAll_returns ledger worklist Hfuel) as (r & Hrun & Hp).
    apply processed_all in Hp. destruct Hp as (Hs & Ha & Hsum & Hok & Hko).
    exists r, {| Sync.summary_success := Sync.successCount r;
                 Sync.summary_failed := Sync.failedCount r |}.
    simpl. repeat split; try assumption.
    rewrite Hs. apply outcomesFrom_address.
  - destruct (performBulkSync_returns ledger syncId worklist transactionsPerWallet Hw Hfuel)
      as (r & Hrun).
    pose proof (performBulkSync_complete _ _ _ _ _ _ Hrun) as Hp.
    apply processed_all in Hp. destruct Hp as (Hs & Ha & Hsum & Hok & Hko).
    exists r. repeat split; try assumption.
    + rewrite Hs. apply outcomesFrom_address.
    + eapply performBulkSync_logs. exact Hrun.
Qed.

Lemma sync_accounting_witness :
  (0 < 5)%Z /\ (length (Sync.sampleWorklist 23) < 24)%nat /\
  (exists r summary,
      Sync.syncAllWalletTransactions Sync.ledger_3_9_20 24 (Some (Sync.sampleWorklist 23))
      = Some (r, Normal summary) /\
      Sync.summary_success summary + Sync.summary_failed summary = 23).
Proof.
  assert (H1 : (0 < 5)%Z) by lia.
  assert (H2 : (length (Sync.sampleWorklist 23) < 24)%nat) by (simpl; lia).
  split; [exact H1 | split; [exact H2 |]].
  destruct (@sync_accounting Sync.ledger_3_9_20 (Sync.sampleWorklist 23)
              "sync_1"%string 100%Z 5%Z 24 H1 H2) as [(r & summary & Hrun & Hsum & _) _].
  exists r, summary. split; [exact Hrun | exact Hsum].
Defined.

(** C7 (as the code has it). [performBulkSync] has no cancellation input:
    with a positive batch size it returns, and whenever it returns it has
    attempted every item of the worklist, so that its counts add up to the
    length of the worklist and are never strictly less. *)
Theorem bulk_sync_runs_to_completion
        (ledger : nat -> string -> Z -> bool) (worklist : list string)
        (syncId : string) (transactionsPerWallet batchSize : Z) :
  (0 < batchSize)%Z ->
  (forall fuel, (length worklist < fuel)%nat ->
     exists r, Sync.performBulkSync ledger fuel syncId worklist
                                    transactionsPerWallet batchSize = Some r) /\
  (forall fuel r,
     Sync.performBulkSync ledger fuel syncId worklist transactionsPerWallet batchSize
     = Some r ->
     Sync.attempted (Sync.events r) = worklist /\
     Sync.successCount r + Sync.failedCount r = length worklist /\
     ~ (Sync.successCount r + Sync.failedCount r < length worklist)%nat).
Proof.
  intros Hw. split.
  - intros fuel Hfuel. now apply performBulkSync_returns.
  - intros fuel r Hrun. apply performBulkSync_complete in Hrun.
    apply processed_all in Hrun. destruct Hrun as (_ & Ha & Hsum & _).
    repeat split; [assumption | assumption | lia].
Qed.

Lemma bulk_sync_runs_to_completion_witness :
  (0 < 5)%Z /\
  exists r, Sync.performBulkSync Sync.ledger_3_9_20 8 "sync_1" (Sync.sampleWorklist 7) 100 5
            = Some r /\
            Sync.successCount r + Sync.failedCount r = 7.
Proof.
  assert (H1 : (0 < 5)%Z) by lia.
  split; [exact H1|].
  destruct (@bulk_sync_runs_to_completion Sync.ledger_3_9_20 (Sync.sampleWorklist 7)
              "sync_1"%string 100%Z 5%Z H1) as [Hret Hall].
  destruct (Hret 8) as (r & Hrun); [simpl; lia|].
  exists r. split; [exact Hrun|].
  exact (proj1 (proj2 (Hall 8 r Hrun))).
Defined.

(** C7 as stated fails: no ledger behaviour and no amount of fuel make the
    bulk sync of seven wallets in batches of five return with fewer than
    seven items accounted for. *)
Lemma bulk_sync_never_stops_early :
  ~ (exists (ledger : nat -> string -> Z -> bool) (fuel : nat) (r : Sync.Run),
        Sync.performBulkSync ledger fuel "sync_1" (Sync.sampleWorklist 7) 100 5 = Some r /\
        (Sync.successCount r + Sync.failedCount r < 7)%nat).
Proof.
  intros (ledger & fuel & r & Hrun & Hlt).
  apply performBulkSync_complete in Hrun. apply processed_all in Hrun.
  destruct Hrun as (_ & _ & Hsum & _). simpl in Hsum. lia.
Qed.

(** ** The rate limiter: retry budget and pacing *)

(** With no lag, a call that is always answered 429 is dispatched at
    5000, 6000, 8000 and 12000 ms, then rejected. *)
Example always_429_schedule :
  let st := RateLimiter.stateOf
              (RateLimiter.execute (fun _ => 0) 2 (fun _ => [])
                 {| RateLimiter.caller := 1;
                    RateLimiter.task_fn := RateLimiter.tooManyRequests |}
                 (RateLimiter.create 5000)) in
  RateLimiter.dispatchTimes (RateLimiter.trace st) = [5000; 6000; 8000; 12000]%Z /\
  RateLimiter.backoffs (RateLimiter.trace st) = [1000; 2000; 4000]%Z /\
  RateLimiter.settlements (RateLimiter.trace st)
  = [(1, RateLimiter.Rejected (FetchError (Some "429 Too Many Requests"%string)))].
Proof. vm_compute. repeat split; reflexivity. Qed.

(** C5. Backoff bound: on an idle limiter, a call submitted through
    [execute] whose function is rejected with a rate-limit (429) error on
    every call is dispatched exactly [maxRetries + 1 = 4] times; the delays
    asked for between the attempts are 1000, 2000 and 4000 ms and the
    attempts are at least that far apart; then the caller's promise is
    rejected with the rate-limit error.  A call rejected with any other
    error is dispatched once, with no backoff, and rejected with that
    error. *)
Theorem backoff_bound
        (lag : nat -> nat) (st : RateLimiter.State) (fuel who : nat)
        (limited other : RateLimiter.Fn) (err : JsError) :
  RateLimiter.processing st = false -> RateLimiter.queue st = [] -> 2 <= fuel ->
  (forall n, exists e, limited n = RateLimiter.Rejected e /\
                       RateLimiter.isRateLimit e = true) ->
  other (RateLimiter.invocations st) = RateLimiter.Rejected err ->
  RateLimiter.isRateLimit err = false ->
  (exists st' e t0 t1 t2 t3,
      RateLimiter.execute lag fuel (fun _ => [])
        {| RateLimiter.caller := who; RateLimiter.task_fn := limited |} st
      = RateLimiter.Drained st' /\
      RateLimiter.isRateLimit e = true /\
      RateLimiter.settlements (RateLimiter.trace st')
      = RateLimiter.settlements (RateLimiter.trace st) ++ [(who, RateLimiter.Rejected e)] /\
      RateLimiter.dispatchTimes (RateLimiter.trace st')
      = RateLimiter.dispatchTimes (RateLimiter.trace st) ++ [t0; t1; t2; t3] /\
      length [t0; t1; t2; t3] = RateLimiter.maxRetries + 1 /\
      RateLimiter.invocations st' = RateLimiter.invocations st + 4 /\
      RateLimiter.backoffs (RateLimiter.trace st')
      = RateLimiter.backoffs (RateLimiter.trace st) ++ [1000; 2000; 4000]%Z /\
      (1000 <= t1 - t0)%Z /\ (2000 <= t2 - t1)%Z /\ (4000 <= t3 - t2)%Z)
  /\
  (exists st' t,
      RateLimiter.execute lag fuel (fun _ => [])
        {| RateLimiter.caller := who; RateLimiter.task_fn := other |} st
      = RateLimiter.Drained st' /\
      RateLimiter.settlements (RateLimiter.trace st')
      = RateLimiter.settlements (RateLimiter.trace st) ++ [(who, RateLimiter.Rejected err)] /\
      RateLimiter.dispatchTimes (RateLimiter.trace st')
      = RateLimiter.dispatchTimes (RateLimiter.trace st) ++ [t] /\
      RateLimiter.invocations st' = S (RateLimiter.invocations st) /\
      RateLimiter.backoffs (RateLimiter.trace st')
      = RateLimiter.backoffs (RateLimiter.trace st)).
Proof.
  intros Hp Hq Hfuel Hlimited Hother Hrate.
  destruct fuel as [|[|fuel]]; try lia. split.
  - set (task := {| RateLimiter.caller := who; RateLimiter.task_fn := limited |}).
    set (st0 := RateLimiter.set_queue []
                  (RateLimiter.set_processing true
                     (RateLimiter.set_queue (RateLimiter.queue st ++ [task]) st))).
    destruct (@always_rate_limited lag limited Hlimited 3 0 st0 eq_refl)
      as (st1 & e & ts & Hrun & He & Hd & Hlen & Hgap & _ & Hb & Hs & Hi & Hq1 & _).
    destruct ts as [|t0 [|t1 [|t2 [|t3 [|t4 ts]]]]]; try discriminate.
    cbn [RateLimiter.BackedOff] in Hgap. destruct Hgap as (G0 & G1 & G2 & _).
    exists (RateLimiter.set_processing false
              (RateLimiter.set_queue [] (RateLimiter.emit (RateLimiter.Settle who (RateLimiter.Rejected e)) st1))),
      e, t0, t1, t2, t3.
    split; [apply (@execute_alone lag fuel task st st1 _ Hp Hq Hrun Hq1)|].
    cbn [RateLimiter.trace RateLimiter.set_processing RateLimiter.set_queue
         RateLimiter.emit RateLimiter.invocations].
    rewrite settlements_app, dispatchTimes_app, backoffs_app, Hs, Hd, Hb, Hi.
    cbn [RateLimiter.settlements RateLimiter.dispatchTimes RateLimiter.backoffs].
    rewrite !app_nil_r.
    repeat split; try reflexivity; try assumption; simpl in *; lia.
  - set (task := {| RateLimiter.caller := who; RateLimiter.task_fn := other |}).
    set (st0 := RateLimiter.set_queue []
                  (RateLimiter.set_processing true
                     (RateLimiter.set_queue (RateLimiter.queue st ++ [task]) st))).
    destruct (@other_error_not_retried lag other st0 err 3 0 Hother Hrate)
      as (st1 & Hrun & Hd & Hb & Hs & Hi & Hq1 & _).
    exists (RateLimiter.set_processing false
              (RateLimiter.set_queue [] (RateLimiter.emit (RateLimiter.Settle who (RateLimiter.Rejected err)) st1))),
      (RateLimiter.now (RateLimiter.pace lag st0)).
    split; [apply (@execute_alone lag fuel task st st1 _ Hp Hq Hrun Hq1)|].
    cbn [RateLimiter.trace RateLimiter.set_processing RateLimiter.set_queue
         RateLimiter.emit RateLimiter.invocations].
    rewrite settlements_app, dispatchTimes_app, backoffs_app, Hs, Hd, Hb, Hi.
    cbn [RateLimiter.settlements RateLimiter.dispatchTimes RateLimiter.backoffs].
    rewrite !app_nil_r. repeat split; reflexivity.
Qed.

Lemma backoff_bound_witness :
  exists st' e,
    RateLimiter.execute RateLimiter.late7 2 (fun _ => [])
      {| RateLimiter.caller := 1; RateLimiter.task_fn := RateLimiter.tooManyRequests |}
      (RateLimiter.create 5000)
    = RateLimiter.Drained st' /\
    RateLimiter.settlements (RateLimiter.trace st') = [(1, RateLimiter.Rejected e)] /\
    RateLimiter.backoffs (RateLimiter.trace st') = [1000; 2000; 4000]%Z /\
    length (RateLimiter.dispatchTimes (RateLimiter.trace st')) = 4.
Proof.
  destruct (@backoff_bound RateLimiter.late7 (RateLimiter.create 5000) 2 1
              RateLimiter.tooManyRequests RateLimiter.notFound
              (FetchError (Some "404 Not Found"%string))
              eq_refl eq_refl (le_n 2)
              (fun n => ex_intro _ (FetchError (Some "429 Too Many Requests"%string))
                                 (conj eq_refl eq_refl))
              eq_refl eq_refl)
    as [(st' & e & t0 & t1 & t2 & t3 & Hrun & _ & Hs & Hd & _ & _ & Hb & _) _].
  exists st', e. split; [exact Hrun|]. split; [exact Hs|]. split; [exact Hb|].
  rewrite Hd. reflexivity.
Defined.

(** ** The rate limiter on the event loop *)

Section EventLoopFacts.
Import RateLimiter.
Variable clock : nat -> Z.

Ltac el_simpl :=
  cbn [EventLoop.queue EventLoop.processing EventLoop.lastRequestTime EventLoop.suspended
       EventLoop.reads EventLoop.invocations EventLoop.trace
       EventLoop.set_queue EventLoop.set_processing EventLoop.set_lastRequestTime
       EventLoop.set_suspended EventLoop.emit EventLoop.tick EventLoop.called
       EventLoop.task EventLoop.retries EventLoop.awaiting
       EventLoop.dateNow EventLoop.park fst snd].
Ltac el_simpl_in H :=
  cbn [EventLoop.queue EventLoop.processing EventLoop.lastRequestTime EventLoop.suspended
       EventLoop.reads EventLoop.invocations EventLoop.trace
       EventLoop.set_queue EventLoop.set_processing EventLoop.set_lastRequestTime
       EventLoop.set_suspended EventLoop.emit EventLoop.tick EventLoop.called
       EventLoop.task EventLoop.retries EventLoop.awaiting
       EventLoop.dateNow EventLoop.park fst snd] in H.

(** The pacing of a dispatch: under a clock that never decreases, an
    activation that leaves [executeWithRetry] for its first [await] has
    dispatched at least [minInterval] after the last dispatch, or sleeps
    until then. *)
Lemma loop_executeWithRetry_paced t retries st :
  EventLoop.Monotone clock ->
  WellPacedAt (EventLoop.trace st) (EventLoop.lastRequestTime st) ->
  let r := EventLoop.executeWithRetry clock t retries st in
  WellPacedAt (EventLoop.trace (fst r)) (EventLoop.lastRequestTime (fst r)) /\
  forall deadline,
    EventLoop.awaiting (snd r) = EventLoop.Sleeping deadline ->
    (EventLoop.lastRequestTime (fst r) + minInterval <= deadline)%Z.
Proof.
  intros Hmono Hw. cbn zeta. unfold EventLoop.executeWithRetry. el_simpl.
  destruct (Z.ltb_spec (clock (EventLoop.reads st) - EventLoop.lastRequestTime st)
                       minInterval) as [Hlt|Hge].
  - el_simpl. split.
    + apply wellPaced_quiet; [reflexivity | exact Hw].
    + intros deadline Hd.
      assert (E : (clock (EventLoop.reads st)
                   + (minInterval
                      - (clock (EventLoop.reads st) - EventLoop.lastRequestTime st)))%Z
                  = deadline) by congruence.
      lia.
  - unfold EventLoop.dispatch. el_simpl. split.
    + refine (wellPaced_dispatch _ Hw).
      specialize (Hmono (EventLoop.reads st)). lia.
    + intros deadline Hd. discriminate Hd.
Qed.

Lemma loop_dispatch_paced t retries st :
  WellPacedAt (EventLoop.trace st) (EventLoop.lastRequestTime st) ->
  (EventLoop.lastRequestTime st + minInterval <= clock (EventLoop.reads st))%Z ->
  let r := EventLoop.dispatch clock t retries st in
  WellPacedAt (EventLoop.trace (fst r)) (EventLoop.lastRequestTime (fst r)).
Proof.
  intros Hw Hd. cbn zeta. unfold EventLoop.dispatch. el_simpl.
  exact (wellPaced_dispatch Hd Hw).
Qed.

(** The loop, from its test: it ends with the flag cleared on an empty
    queue, or takes the head of the queue to its first [await]. *)
Lemma loop_cases st :
  (EventLoop.queue st = [] /\
   EventLoop.loop clock st = (EventLoop.set_processing false st, None)) \/
  (exists t rest,
      EventLoop.queue st = t :: rest /\
      EventLoop.loop clock st
      = (fst (EventLoop.executeWithRetry clock t 0 (EventLoop.set_queue rest st)),
         Some (snd (EventLoop.executeWithRetry clock t 0 (EventLoop.set_queue rest st))))).
Proof.
  unfold EventLoop.loop. destruct (EventLoop.queue st) as [|t rest].
  - left. split; reflexivity.
  - right. exists t, rest. split; [reflexivity|].
    destruct (EventLoop.executeWithRetry clock t 0 (EventLoop.set_queue rest st)).
    reflexivity.
Qed.


Ltac el_unfold :=
  unfold EventLoop.turn, EventLoop.execute, EventLoop.processQueue, EventLoop.resume,
    EventLoop.settle, EventLoop.loop, EventLoop.executeWithRetry, EventLoop.dispatch,
    EventLoop.park; el_simpl.

Ltac el_break :=
  repeat (el_simpl;
          match goal with
          | |- context [match EventLoop.awaiting ?a with _ => _ end] =>
              let E := fresh "Hawait" in
              destruct (EventLoop.awaiting a) as [?|[?|?]|?] eqn:E
          | |- context [match EventLoop.queue ?s with _ => _ end] =>
              let E := fresh "Hqueue" in destruct (EventLoop.queue s) eqn:E
          | |- context [(?x <? minInterval)%Z] =>
              let E := fresh "Hsince" in destruct (Z.ltb_spec x minInterval) as [E|E]
          | |- context [if ?b then _ else _] =>
              let E := fresh "Hif" in destruct b eqn:E
          end).

Lemma nth_error_single (A : Type) (a b : A) i :
  nth_error [a] i = Some b -> i = 0 /\ b = a.
Proof.
  destruct i as [|[|i]]; cbn; intros H; try discriminate. injection H as <-. now split.
Qed.

(** Every turn keeps a single worker, and accounts for every task: the
    callers settled so far, then the one being served, then those queued,
    are the callers that submitted, in the order they submitted. *)
Lemma turn_served t st :
  EventLoop.SingleWorker st ->
  EventLoop.SingleWorker (EventLoop.turn clock t st) /\
  EventLoop.served (EventLoop.turn clock t st)
  = EventLoop.served st ++ map caller (EventLoop.submissions [t]).
Proof.
  unfold EventLoop.SingleWorker, EventLoop.served, EventLoop.inFlight.
  intros [(Hp & a & Ha)|(Hp & Ha & Hq)]; destruct t as [submitted|i];
    cbn [EventLoop.submissions map].
  - el_unfold. rewrite Hp. cbn [orb]. el_simpl. rewrite Hp, Ha.
    split; [left; split; [reflexivity | eauto]|].
    rewrite map_app, !app_assoc. reflexivity.
  - rewrite app_nil_r. cbn [EventLoop.turn]. rewrite Ha.
    destruct (nth_error [a] i) as [b|] eqn:Hnth.
    + apply nth_error_single in Hnth. destruct Hnth as [-> ->].
      cbn [firstn skipn app].
      el_unfold; el_break; el_simpl; rewrite ?Hp, ?Ha, ?Hqueue;
        rewrite ?settlements_app; cbn [settlements map app];
        rewrite ?app_nil_r, ?map_app; cbn [map app fst];
        (split; [first [ left; split; [reflexivity | eauto]
                       | right; repeat split; reflexivity ]
                | rewrite <- ?app_assoc; reflexivity ]).
    + rewrite Hp, Ha. split; [left; split; [reflexivity | eauto] | reflexivity].
  - el_unfold. rewrite Hp, Hq. cbn [app length Nat.eqb orb]. el_simpl.
    el_break; el_simpl; rewrite ?Ha;
      rewrite ?settlements_app; cbn [settlements map app];
      rewrite ?app_nil_r;
      (split; [left; split; [reflexivity | eauto] | reflexivity ]).
  - rewrite app_nil_r. cbn [EventLoop.turn]. rewrite Ha.
    destruct i; cbn [nth_error]; rewrite Hp, Ha, Hq;
      (split; [right; repeat split; reflexivity | reflexivity]).
Qed.


Lemma run_served : forall turns st,
  EventLoop.SingleWorker st ->
  EventLoop.SingleWorker (EventLoop.run clock turns st) /\
  EventLoop.served (EventLoop.run clock turns st)
  = EventLoop.served st ++ map caller (EventLoop.submissions turns).
Proof.
  induction turns as [|t turns IH]; intros st Hs; cbn [EventLoop.run fold_left].
  - split; [exact Hs|]. cbn [EventLoop.submissions map]. now rewrite app_nil_r.
  - destruct (turn_served t Hs) as (Hs1 & Hv1).
    destruct (IH _ Hs1) as (Hs2 & Hv2). split; [exact Hs2|].
    unfold EventLoop.run in Hv2. rewrite Hv2, Hv1, <- app_assoc, <- map_app.
    destruct t; reflexivity.
Qed.

Lemma create_single : EventLoop.SingleWorker EventLoop.create.
Proof. right. repeat split. Qed.

Ltac quiet Hw := repeat (apply wellPaced_quiet; [reflexivity|]); exact Hw.

(** A turn keeps the limiter paced, provided the clock never decreases and
    the pacing timer it resumes, if any, is not early. *)
Lemma turn_paced t st :
  EventLoop.Monotone clock ->
  EventLoop.SingleWorker st ->
  EventLoop.Pacing st ->
  EventLoop.due clock t st ->
  EventLoop.Pacing (EventLoop.turn clock t st).
Proof.
  unfold EventLoop.SingleWorker, EventLoop.Pacing.
  intros Hmono [(Hp & a & Ha)|(Hp & Ha & Hq)] (Hw & Hsleep) Hdue;
    destruct t as [submitted|i].
  - el_unfold. rewrite Hp. cbn [orb]. el_simpl. split; assumption.
  - cbn [EventLoop.turn EventLoop.due] in *. rewrite Ha in *.
    destruct (nth_error [a] i) as [b|] eqn:Hnth; [|split; [exact Hw|]; now rewrite Ha].
    apply nth_error_single in Hnth. destruct Hnth as [-> ->].
    specialize (Hsleep a). destruct a as [tk r [d|[v|e]|d]].
    all: cbn [firstn skipn app EventLoop.awaiting] in *.
    all: pose proof (Hmono (EventLoop.reads st)) as Hm.
    all: el_unfold; el_break; el_simpl;
      (split;
       [ first [ quiet Hw
               | refine (wellPaced_dispatch _ _); [| quiet Hw];
                 first [ lia | specialize (Hsleep _ (or_introl eq_refl) eq_refl); lia ] ]
       | intros a' deadline Hin Hd; cbn [app In] in Hin;
         first [ contradiction
               | destruct Hin as [<-|[]]; el_simpl_in Hd;
                 first [ discriminate Hd
                       | assert (E : forall x y,
                                    EventLoop.Sleeping x = EventLoop.Sleeping y -> x = y)
                           by (intros x y Hxy; congruence);
                         apply E in Hd; lia ] ] ]).
  - el_unfold. rewrite Hp, Hq. cbn [app length Nat.eqb orb]. el_simpl.
    pose proof (Hmono (EventLoop.reads st)) as Hm.
    el_break; el_simpl;
      (split;
       [ first [ quiet Hw
               | refine (wellPaced_dispatch _ _); [| quiet Hw]; lia ]
       | rewrite Ha; intros a' deadline Hin Hd; cbn [app In] in Hin;
         first [ contradiction
               | destruct Hin as [<-|[]]; el_simpl_in Hd;
                 first [ discriminate Hd
                       | assert (E : forall x y,
                                    EventLoop.Sleeping x = EventLoop.Sleeping y -> x = y)
                           by (intros x y Hxy; congruence);
                         apply E in Hd; lia ] ] ]).
  - cbn [EventLoop.turn]. rewrite Ha. destruct i; cbn [nth_error]; split;
      try exact Hw; rewrite Ha; intros a' deadline [].
Qed.

Lemma create_paced_loop : EventLoop.Pacing EventLoop.create.
Proof.
  split.
  - split; [intros i t1 t2 H; destruct i; discriminate H | intros t H; discriminate H].
  - intros a deadline [].
Qed.

Lemma run_paced : forall turns st,
  EventLoop.Monotone clock ->
  EventLoop.SingleWorker st ->
  EventLoop.Pacing st ->
  EventLoop.Timely clock turns st ->
  EventLoop.Pacing (EventLoop.run clock turns st).
Proof.
  induction turns as [|t turns IH]; intros st Hmono Hs Hp Ht;
    cbn [EventLoop.run fold_left]; [exact Hp|].
  destruct Ht as [Hdue Ht].
  apply IH; [exact Hmono | apply turn_served; exact Hs
            | apply turn_paced; assumption | exact Ht].
Qed.

(** Resuming the worker brings it nearer to the end of its queue. *)
Lemma budget_bounds a : 1 <= EventLoop.budget a <= 11.
Proof.
  unfold EventLoop.budget, EventLoop.attemptsLeft, maxRetries.
  destruct (EventLoop.awaiting a); lia.
Qed.

Lemma resume_decreases st :
  EventLoop.SingleWorker st -> EventLoop.suspended st <> [] ->
  EventLoop.resumptions (EventLoop.turn clock (EventLoop.Resume 0) st)
  < EventLoop.resumptions st.
Proof.
  unfold EventLoop.SingleWorker, EventLoop.resumptions.
  intros [(Hp & a & Ha)|(Hp & Ha & Hq)] Hne; [|congruence].
  cbn [EventLoop.turn]. rewrite Ha. cbn [nth_error firstn skipn app map list_sum].
  destruct a as [tk r [d|[v|e]|d]]; unfold EventLoop.budget at 2; el_simpl;
  el_unfold; el_break; el_simpl;
    try match goal with H : EventLoop.queue _ = _ |- _ => rewrite H end;
    cbn [app map list_sum length EventLoop.budget EventLoop.attemptsLeft
         EventLoop.awaiting EventLoop.retries];
    repeat match goal with
           | H : (_ && _)%bool = true |- _ => apply andb_prop in H; destruct H
           | H : (_ <? _)%nat = true |- _ => apply Nat.ltb_lt in H
           end;
    unfold EventLoop.attemptsLeft, maxRetries, list_sum in *; cbn [fold_right]; lia.
Qed.

Lemma run_resumes_succ n st :
  EventLoop.run clock (EventLoop.resumes (S n)) st
  = EventLoop.run clock (EventLoop.resumes n) (EventLoop.turn clock (EventLoop.Resume 0) st).
Proof. reflexivity. Qed.

Lemma worker_drains : forall n st,
  EventLoop.SingleWorker st -> EventLoop.resumptions st <= n ->
  exists k, k <= n /\ EventLoop.suspended (EventLoop.run clock (EventLoop.resumes k) st) = [].
Proof.
  induction n as [|n IH]; intros st Hs Hn;
    (destruct (EventLoop.suspended st) as [|a l] eqn:Ha;
     [exists 0; split; [lia | exact Ha]|]).
  - exfalso. unfold EventLoop.resumptions in Hn. rewrite Ha in Hn.
    unfold list_sum in Hn. cbn [map fold_right] in Hn. pose proof (budget_bounds a). lia.
  - assert (Hne : EventLoop.suspended st <> []) by (rewrite Ha; discriminate).
    pose proof (resume_decreases Hs Hne) as Hdec.
    destruct (IH (EventLoop.turn clock (EventLoop.Resume 0) st)) as (k & Hk & Hdone);
      [apply turn_served; exact Hs | lia |].
    exists (S k). split; [lia|]. rewrite run_resumes_succ. exact Hdone.
Qed.

Lemma resumptions_bound st :
  EventLoop.resumptions st
  <= 11 * (length (EventLoop.suspended st) + length (EventLoop.queue st)).
Proof.
  unfold EventLoop.resumptions.
  assert (H : list_sum (map EventLoop.budget (EventLoop.suspended st))
              <= 11 * length (EventLoop.suspended st)).
  { unfold list_sum. induction (EventLoop.suspended st) as [|a l IH]; cbn [map fold_right length]; [lia|].
    pose proof (budget_bounds a). lia. }
  lia.
Qed.

Lemma run_app turns1 turns2 st :
  EventLoop.run clock (turns1 ++ turns2) st
  = EventLoop.run clock turns2 (EventLoop.run clock turns1 st).
Proof. unfold EventLoop.run. apply fold_left_app. Qed.

End EventLoopFacts.

(** Three callers in the same tick, on the steady clock. *)
Example three_callers_on_the_event_loop :
  let st := EventLoop.run EventLoop.steadyClock EventLoop.threeCallers EventLoop.create in
  RateLimiter.dispatchTimes (EventLoop.trace st) = [5053; 5159; 5265]%Z /\
  map fst (RateLimiter.settlements (EventLoop.trace st)) = [1; 2; 3] /\
  EventLoop.suspended st = [] /\ EventLoop.processing st = false.
Proof. vm_compute. repeat split; reflexivity. Qed.

(** C6 as stated fails.  Two callers call [execute] in the same tick; the
    first call is dispatched at 5000 and has returned by 5007, so the
    second sleeps for 93 ms.  The clock never goes back, but its timer fires
    when [Date.now()] reads 5099, 1 ms short of the time it was set for.
    [executeWithRetry] stamps [lastRequestTime] after the sleep without
    testing the interval again: the second call is dispatched 99 ms after
    the first. *)
Lemma early_timer_breaks_pacing :
  let st := EventLoop.run EventLoop.earlyTimer EventLoop.twoCallers EventLoop.create in
  EventLoop.Monotone EventLoop.earlyTimer /\
  EventLoop.trace st
  = [ RateLimiter.Dispatch 5000;
      RateLimiter.Settle 1 (RateLimiter.Resolved 0);
      RateLimiter.PacingSleep 93;
      RateLimiter.Dispatch 5099 ] /\
  RateLimiter.dispatchTimes (EventLoop.trace st) = [5000; 5099]%Z /\
  ~ RateLimiter.Paced 100 (RateLimiter.dispatchTimes (EventLoop.trace st)).
Proof.
  cbn zeta. split.
  { intros [|[|[|n]]]; cbn [EventLoop.earlyTimer]; lia. }
  split; [vm_compute; reflexivity|]. split; [vm_compute; reflexivity|].
  intros Hp. specialize (Hp 0 5000%Z 5099%Z eq_refl eq_refl). lia.
Qed.

(** C6 (as the code has it).  Pacing invariant on the event loop: whatever
    the callers submit, however many of them call [execute] and in whatever
    turns between the awaits of the loop, however long upstream calls and
    backoff timers take, and at whatever point the limiter is observed,
    there is at most one activation of [processQueue], and the dispatch
    times of the i-th and the (i+1)-th dispatched call differ by at least
    [minInterval = 100] ms, provided [Date.now()] never decreases and no
    pacing timer fires before [Date.now()] has reached the time it was set
    for. *)
Theorem pacing_invariant
        (clock : nat -> Z) (turns : list EventLoop.Turn) (i : nat) (t1 t2 : Z) :
  EventLoop.Monotone clock ->
  EventLoop.Timely clock turns EventLoop.create ->
  let st := EventLoop.run clock turns EventLoop.create in
  let dispatched := RateLimiter.dispatchTimes (EventLoop.trace st) in
  length (EventLoop.suspended st) <= 1 /\
  (EventLoop.processing st = false -> EventLoop.suspended st = []) /\
  (nth_error dispatched i = Some t1 ->
   nth_error dispatched (S i) = Some t2 ->
   (100 <= t2 - t1)%Z).
Proof.
  intros Hmono Htimely st dispatched.
  destruct (@run_served clock turns EventLoop.create create_single) as [Hs _].
  destruct (@run_paced clock turns EventLoop.create Hmono create_single
                       create_paced_loop Htimely) as [[Hp _] _].
  fold st in Hs, Hp. split; [|split].
  - destruct Hs as [(_ & a & ->)|(_ & -> & _)]; cbn [length]; lia.
  - intros Hoff. destruct Hs as [(Hon & _)|(_ & Hnone & _)]; [congruence | exact Hnone].
  - intros H1 H2. exact (Hp i t1 t2 H1 H2).
Qed.

Lemma pacing_invariant_witness :
  let st := EventLoop.run EventLoop.steadyClock EventLoop.threeCallers EventLoop.create in
  let dispatched := RateLimiter.dispatchTimes (EventLoop.trace st) in
  EventLoop.Monotone EventLoop.steadyClock /\
  EventLoop.Timely EventLoop.steadyClock EventLoop.threeCallers EventLoop.create /\
  nth_error dispatched 1 = Some 5159%Z /\
  nth_error dispatched 2 = Some 5265%Z /\
  (100 <= 5265 - 5159)%Z.
Proof.
  cbn zeta.
  assert (Hmono : EventLoop.Monotone EventLoop.steadyClock).
  { intros n. unfold EventLoop.steadyClock. lia. }
  assert (Htimely : EventLoop.Timely EventLoop.steadyClock EventLoop.threeCallers
                                     EventLoop.create).
  { vm_compute. repeat split; intros H; discriminate H. }
  split; [exact Hmono|]. split; [exact Htimely|].
  split; [reflexivity|]. split; [reflexivity|].
  exact (proj2 (proj2 (@pacing_invariant EventLoop.steadyClock EventLoop.threeCallers
                         1 5159 5265 Hmono Htimely)) eq_refl eq_refl).
Defined.

(** ** Holder discovery *)

Section DiscoveryFacts.
Import Discovery.
Variable random : nat -> Z.

Lemma insertBy_length (A : Type) (cmp : A -> A -> Z) x l :
  length (insertBy cmp x l) = S (length l).
Proof.
  induction l as [|y l IH]; simpl; [reflexivity|].
  destruct (cmp x y <=? 0)%Z; simpl; [reflexivity | now rewrite IH].
Qed.

Lemma insertBy_perm (A : Type) (cmp : A -> A -> Z) x l :
  Permutation (x :: l) (insertBy cmp x l).
Proof.
  induction l as [|y l IH]; simpl; [reflexivity|].
  destruct (cmp x y <=? 0)%Z; [reflexivity|].
  rewrite perm_swap. now apply perm_skip.
Qed.

Lemma sortBy_perm (A : Type) (cmp : A -> A -> Z) l : Permutation l (sortBy cmp l).
Proof.
  induction l as [|x l IH]; simpl; [constructor|].
  rewrite <- insertBy_perm. now apply perm_skip.
Qed.

Lemma sortBy_length (A : Type) (cmp : A -> A -> Z) l : length (sortBy cmp l) = length l.
Proof. symmetry. apply Permutation_length, sortBy_perm. Qed.

Lemma insertBy_sorted x l :
  Sorted amountsDescending l -> Sorted amountsDescending (insertBy byAmountDescending x l).
Proof.
  induction 1 as [|y l Hs IH Hhd]; simpl; [repeat constructor|].
  unfold byAmountDescending at 1.
  destruct (Z.leb_spec (amount y - amount x) 0) as [Hle|Hgt].
  - constructor; [now constructor|]. constructor. unfold amountsDescending. lia.
  - constructor; [exact IH|].
    destruct l as [|z l]; simpl.
    + constructor. unfold amountsDescending. lia.
    + destruct (byAmountDescending x z <=? 0)%Z; constructor.
      * unfold amountsDescending. lia.
      * now inversion Hhd.
Qed.

Lemma sortBy_sorted l : Sorted amountsDescending (sortBy byAmountDescending l).
Proof.
  induction l as [|x l IH]; simpl; [constructor|]. now apply insertBy_sorted.
Qed.

Lemma string_length_append s1 s2 :
  String.length (String.append s1 s2) = String.length s1 + String.length s2.
Proof. induction s1 as [|c s1 IH]; simpl; [reflexivity | now rewrite IH]. Qed.

Lemma list_ascii_append s1 s2 :
  list_ascii_of_string (String.append s1 s2)
  = list_ascii_of_string s1 ++ list_ascii_of_string s2.
Proof. induction s1 as [|c s1 IH]; simpl; [reflexivity | now rewrite IH]. Qed.

Lemma get_inside s : forall i, i < String.length s ->
  exists c, String.get i s = Some c /\ In c (list_ascii_of_string s).
Proof.
  induction s as [|c s IH]; intros i Hi; simpl in Hi; [lia|].
  destruct i as [|i]; simpl.
  - exists c. auto.
  - destruct (IH i) as (c' & Hget & Hin); [lia|]. exists c'. auto.
Qed.

(** A drawn character is one character of the alphabet. *)
Lemma drawn_char k :
  exists c, charAt chars (Z.to_nat (floorRandomTimes random (Z.of_nat (String.length chars)) k))
            = String c EmptyString /\
            In c (list_ascii_of_string chars).
Proof.
  unfold charAt, floorRandomTimes.
  destruct (@get_inside chars (Z.to_nat (random k mod Z.of_nat (String.length chars))))
    as (c & Hget & Hin).
  - pose proof (Z.mod_pos_bound (random k) (Z.of_nat (String.length chars))) as Hb.
    assert (0 < Z.of_nat (String.length chars))%Z by (vm_compute; reflexivity).
    lia.
  - rewrite Hget. eauto.
Qed.

Lemma randomChars_spec : forall j addr k,
  String.length (randomChars random j addr k) = String.length addr + j /\
  ((forall c, In c (list_ascii_of_string addr) -> In c (list_ascii_of_string chars)) ->
   forall c, In c (list_ascii_of_string (randomChars random j addr k)) ->
             In c (list_ascii_of_string chars)).
Proof.
  induction j as [|j IH]; intros addr k; cbn [randomChars].
  - split; [lia | auto].
  - destruct (drawn_char k) as (c & Hc & Hin). rewrite Hc.
    destruct (IH (String.append addr (String c EmptyString)) (S k)) as (Hlen & Hall).
    split.
    + rewrite Hlen, string_length_append. simpl. lia.
    + intros Haddr. apply Hall. intros c'. rewrite list_ascii_append, in_app_iff.
      intros [H|Hc']; [auto|]. destruct Hc' as [<-|[]]. exact Hin.
Qed.

Lemma sampleHolder_looksSampled k : looksSampled (sampleHolder random k).
Proof.
  unfold looksSampled, sampleHolder. cbn [owner amount uiAmount decimals].
  destruct (randomChars_spec 44 EmptyString k) as (Hlen & Hall).
  split; [exact Hlen|]. split; [apply Hall; intros c []|].
  split; [apply Z.mod_pos_bound; lia|]. split; reflexivity.
Qed.

Lemma sampleLoop_spec : forall n k acc,
  length (sampleLoop random n k acc) = length acc + n /\
  (Forall looksSampled acc -> Forall looksSampled (sampleLoop random n k acc)).
Proof.
  induction n as [|n IH]; intros k acc; cbn [sampleLoop].
  - split; [lia | auto].
  - destruct (IH (k + 45) (acc ++ [sampleHolder random k])) as (Hlen & Hall).
    split.
    + rewrite Hlen, length_app. simpl. lia.
    + intros Hacc. apply Hall. apply Forall_app. split; [assumption|].
      constructor; [apply sampleHolder_looksSampled | constructor].
Qed.

(** A drawn character is the character of the alphabet at the drawn place. *)
Lemma drawn_get k :
  exists c,
    String.get (Z.to_nat (random k mod Z.of_nat (String.length chars))) chars = Some c /\
    charAt chars (Z.to_nat (floorRandomTimes random (Z.of_nat (String.length chars)) k))
    = String c EmptyString.
Proof.
  unfold charAt, floorRandomTimes.
  destruct (@get_inside chars (Z.to_nat (random k mod Z.of_nat (String.length chars))))
    as (c & Hget & _).
  - pose proof (Z.mod_pos_bound (random k) (Z.of_nat (String.length chars))) as Hb.
    assert (0 < Z.of_nat (String.length chars))%Z by (vm_compute; reflexivity).
    lia.
  - exists c. rewrite Hget. split; reflexivity.
Qed.

(** The characters of a generated address, place by place: what was there
    stays, and the [i]-th character added is the one that draw [k + i]
    picks. *)
Lemma randomChars_get : forall j addr k,
  (forall i, i < String.length addr ->
             String.get i (randomChars random j addr k) = String.get i addr) /\
  (forall i, i < j ->
             String.get (String.length addr + i) (randomChars random j addr k)
             = String.get (Z.to_nat (random (k + i) mod Z.of_nat (String.length chars)))
                          chars).
Proof.
  induction j as [|j IH]; intros addr k; cbn [randomChars].
  - split; [reflexivity | intros i Hi; lia].
  - destruct (drawn_get k) as (c & Hget & Hc). rewrite Hc.
    destruct (IH (String.append addr (String c EmptyString)) (S k)) as (Hkept & Hadded).
    rewrite string_length_append in Hkept, Hadded. cbn [String.length] in Hkept, Hadded.
    split.
    + intros i Hi. rewrite Hkept by lia. symmetry. now apply append_correct1.
    + intros [|i] Hi.
      * rewrite !Nat.add_0_r. rewrite Hkept by lia.
        pose proof (append_correct2 addr (String c EmptyString) 0) as Hlast.
        cbn [Nat.add String.get] in Hlast. rewrite <- Hlast. now rewrite Hget.
      * replace (String.length addr + S i) with (String.length addr + 1 + i) by lia.
        rewrite Hadded by lia. now replace (S k + i) with (k + S i) by lia.
Qed.

Lemma sampleHolder_drawn k : drawnHolder random k (sampleHolder random k).
Proof.
  unfold drawnHolder, sampleHolder. cbn [owner amount uiAmount decimals].
  destruct (randomChars_spec 44 EmptyString k) as (Hlen & _).
  destruct (randomChars_get 44 EmptyString k) as (_ & Hadded).
  split; [exact Hlen|]. split; [intros j Hj; exact (Hadded j Hj)|].
  repeat split.
Qed.

(** The loop generates one holder after the other, 45 draws each. *)
Lemma sampleLoop_generates : forall n k acc,
  sampleLoop random n k acc
  = acc ++ map (fun i => sampleHolder random (k + 45 * i)) (seq 0 n).
Proof.
  induction n as [|n IH]; intros k acc; cbn [sampleLoop seq map].
  - now rewrite app_nil_r.
  - rewrite IH, <- app_assoc, <- seq_shift, map_map. cbn [app].
    rewrite Nat.mul_0_r, Nat.add_0_r. do 2 f_equal. apply map_ext.
    intros i. f_equal. lia.
Qed.

Lemma sampleLoop_drawn limit k :
  Forall2 (fun i h => drawnHolder random (k + 45 * i) h)
          (seq 0 limit) (sampleLoop random limit k []).
Proof.
  rewrite sampleLoop_generates. cbn [app].
  induction (seq 0 limit) as [|i l IH]; cbn [map]; constructor;
    [apply sampleHolder_drawn | exact IH].
Qed.

(** The sample data: [limit] holders, each looking sampled, by descending
    amount. *)
Lemma createSampleTokenHolders_spec limit k :
  length (createSampleTokenHolders random limit k) = limit /\
  Forall looksSampled (createSampleTokenHolders random limit k) /\
  Sorted amountsDescending (createSampleTokenHolders random limit k).
Proof.
  unfold createSampleTokenHolders.
  destruct (sampleLoop_spec limit k []) as (Hlen & Hall).
  split; [now rewrite sortBy_length|].
  split; [|apply sortBy_sorted].
  eapply Permutation_Forall; [apply sortBy_perm | apply Hall; constructor].
Qed.

Lemma firstNonEmpty_nothing methods :
  Forall yieldsNothing methods -> firstNonEmpty methods = [].
Proof.
  induction 1 as [|c methods Hc _ IH]; simpl; [reflexivity|].
  destruct c as [[|h l]|e]; simpl; [exact IH | destruct Hc | exact IH].
Qed.

Lemma upsert_tracks holder rnk table :
  tracked (owner holder) (fst (upsert holder rnk table)) /\
  address (snd (upsert holder rnk table)) = owner holder.
Proof.
  induction table as [|w table IH]; cbn [upsert].
  - split; [|reflexivity]. eexists. split; [left; reflexivity|]. split; reflexivity.
  - destruct (String.eqb_spec (address w) (owner holder)) as [Heq|Hne].
    + split; [|reflexivity]. eexists. split; [left; reflexivity|]. split; reflexivity.
    + destruct (upsert holder rnk table) as [rest' stored]. cbn [fst snd] in *.
      destruct IH as ((w' & Hin & Ha & Hact) & Hs). split; [|exact Hs].
      exists w'. split; [right; exact Hin | split; assumption].
Qed.

Lemma upsert_keeps a holder rnk table :
  tracked a table -> tracked a (fst (upsert holder rnk table)).
Proof.
  induction table as [|w table IH]; intros (w0 & Hin & Ha & Hact); [destruct Hin|].
  cbn [upsert].
  destruct (String.eqb_spec (address w) (owner holder)) as [Heq|Hne]; cbn [fst].
  - destruct Hin as [<-|Hin].
    + eexists. split; [left; reflexivity|]. split; [cbn; congruence | reflexivity].
    + exists w0. split; [right; exact Hin | split; assumption].
  - destruct (upsert holder rnk table) as [rest' stored] eqn:Hu. cbn [fst] in *.
    destruct Hin as [<-|Hin].
    + exists w. split; [left; reflexivity | split; assumption].
    + destruct IH as (w' & Hin' & Ha' & Hact'); [exists w0; auto|].
      exists w'. split; [right; exact Hin' | split; assumption].
Qed.

Lemma storeHolders_spec : forall topHolders i table wallets,
  let '(table', wallets') := storeHolders topHolders i table wallets in
  map address wallets' = map address wallets ++ map owner topHolders /\
  (forall a, tracked a table -> tracked a table') /\
  (forall h, In h topHolders -> tracked (owner h) table').
Proof.
  induction topHolders as [|holder rest IH]; intros i table wallets; cbn [storeHolders].
  - rewrite app_nil_r. split; [reflexivity|]. split; [auto | intros h []].
  - pose proof (upsert_tracks holder (i + 1) table) as (Ht & Hs).
    pose proof (fun a => @upsert_keeps a holder (i + 1) table) as Hk.
    destruct (upsert holder (i + 1) table) as [table1 wallet]. cbn [fst snd] in *.
    specialize (IH (S i) table1 (wallets ++ [wallet])).
    destruct (storeHolders rest (S i) table1 (wallets ++ [wallet])) as [table' wallets'].
    destruct IH as (Hmap & Hkeep & Hall).
    split; [rewrite Hmap, map_app, <- app_assoc; simpl; now rewrite Hs|].
    split; [auto|].
    intros h [<-|Hin]; auto.
Qed.

End DiscoveryFacts.

(** Three fabricated holders. *)
Example three_sample_holders :
  map (fun h => (Discovery.owner h, Discovery.amount h))
      (Discovery.createSampleTokenHolders Discovery.lcg 3 0)
  = [("hFpMuSzX5cAhFpMuSzX5cAhFpMuSzX5cAhFpMuSzX5cA"%string, 871055175%Z);
     ("cAhFpMuSzX5cAhFpMuSzX5cAhFpMuSzX5cAhFpMuSzX5"%string, 554683125%Z);
     ("AhFpMuSzX5cAhFpMuSzX5cAhFpMuSzX5cAhFpMuSzX5c"%string, 212869150%Z)].
Proof. vm_compute. reflexivity. Qed.

(** C4. When every fetch method comes back with zero holders (or fails),
    [getTopTokenHolders] answers with fabricated data, whatever the
    environment: exactly [limit] holders (so not an empty list, for a
    positive limit), by descending amount.  They are the holders that the
    loop generated one after the other from 45 calls of [Math.random()]
    each: the [j]-th character of the [i]-th address generated is the
    character of the alphabet that draw [45 i + j] picks, for each of its
    44 places, and the [i]-th amount is what draw [45 i + 44] picks below
    10^9.  Upstream errors do not reach the [catch] block, they end in the
    same data in every environment; the [catch] block itself returns that
    data in development and throws again otherwise.  Discovery stores
    every fabricated holder as an active wallet. *)
Theorem fabricated_holders_when_ledger_is_empty
        (random : nat -> Z) (nodeEnv : option string) (ledger : Discovery.Ledger)
        (limit k : nat) (table : list Discovery.Wallet) (error : JsError) :
  Forall Discovery.yieldsNothing (Discovery.methods ledger limit) ->
  let fabricated := Discovery.createSampleTokenHolders random limit k in
  Discovery.getTopTokenHolders random nodeEnv ledger limit k = Normal fabricated /\
  length fabricated = limit /\
  (0 < limit -> fabricated <> []) /\
  (exists generated,
      Permutation generated fabricated /\
      Forall2 (fun i h => Discovery.drawnHolder random (k + 45 * i) h)
              (seq 0 limit) generated) /\
  Forall Discovery.looksSampled fabricated /\
  Sorted Discovery.amountsDescending fabricated /\
  Discovery.getTopTokenHolders random (Some "development"%string)
                               Discovery.failingLedger limit k
  = Normal fabricated /\
  Discovery.getTopTokenHolders_catch random (Some "development"%string) limit k error
  = Normal fabricated /\
  (nodeEnv <> Some "development"%string ->
   Discovery.getTopTokenHolders_catch random nodeEnv limit k error = Throw error) /\
  (exists wallets,
      snd (Discovery.discoverTopHolders random nodeEnv ledger limit k table)
      = Normal wallets /\
      map Discovery.address wallets = map Discovery.owner fabricated /\
      forall h, In h fabricated ->
                Discovery.tracked (Discovery.owner h)
                  (fst (Discovery.discoverTopHolders random nodeEnv ledger limit k table))).
Proof.
  intros Hnothing fabricated.
  destruct (createSampleTokenHolders_spec random limit k) as (Hlen & Hall & Hsorted).
  assert (Htop : Discovery.getTopTokenHolders random nodeEnv ledger limit k
                 = Normal fabricated).
  { unfold Discovery.getTopTokenHolders, Discovery.getTopTokenHolders_try,
      Discovery.getTokenHoldersWithFallback.
    now rewrite (firstNonEmpty_nothing Hnothing). }
  split; [exact Htop|]. split; [exact Hlen|].
  split; [intros Hpos Hnil; fold fabricated in Hlen; rewrite Hnil in Hlen; simpl in Hlen; lia|].
  split.
  { exists (Discovery.sampleLoop random limit k []).
    split; [apply sortBy_perm | apply sampleLoop_drawn]. }
  split; [exact Hall|]. split; [exact Hsorted|]. split; [reflexivity|].
  split; [reflexivity|]. split.
  { intros Hother. unfold Discovery.getTopTokenHolders_catch.
    destruct nodeEnv as [env|]; [|reflexivity].
    destruct (String.eqb_spec env "development"); [subst; contradiction | reflexivity]. }
  unfold Discovery.discoverTopHolders. rewrite Htop.
  pose proof (storeHolders_spec fabricated 0 table []) as Hstore.
  destruct (Discovery.storeHolders fabricated 0 table []) as [table' wallets].
  destruct Hstore as (Hmap & _ & Htracked).
  exists wallets. cbn [fst snd]. auto.
Qed.

Lemma fabricated_holders_witness :
  Forall Discovery.yieldsNothing (Discovery.methods Discovery.emptyLedger 3) /\
  Discovery.getTopTokenHolders Discovery.lcg (Some "production"%string)
                               Discovery.emptyLedger 3 0
  = Normal (Discovery.createSampleTokenHolders Discovery.lcg 3 0) /\
  length (Discovery.createSampleTokenHolders Discovery.lcg 3 0) = 3 /\
  (exists generated,
      Permutation generated (Discovery.createSampleTokenHolders Discovery.lcg 3 0) /\
      Forall2 (fun i h => Discovery.drawnHolder Discovery.lcg (0 + 45 * i) h)
              [0; 1; 2] generated) /\
  map Discovery.amount (Discovery.createSampleTokenHolders Discovery.lcg 3 0)
  = [871055175; 554683125; 212869150]%Z /\
  map Discovery.amount (Discovery.createSampleTokenHolders Discovery.squares 3 0)
  = [17963; 7928; 1943]%Z.
Proof.
  assert (H : Forall Discovery.yieldsNothing (Discovery.methods Discovery.emptyLedger 3)).
  { repeat constructor. }
  split; [exact H|].
  destruct (@fabricated_holders_when_ledger_is_empty Discovery.lcg
              (Some "production"%string) Discovery.emptyLedger 3 0 [] DatabaseError H)
    as (Htop & Hlen & _ & Hdrawn & _).
  split; [exact Htop|]. split; [exact Hlen|]. split; [exact Hdrawn|].
  split; vm_compute; reflexivity.
Defined.

(** ** The server *)

Section ServerFacts.
Import Server.

(** Projections of updated worlds. *)
Ltac w_simpl :=
  cbn [wsConnections subscriptions isMonitoring sockets clock queries upstream outbox log
       set_wsConnections set_subscriptions set_isMonitoring count_query
       push_upstream push_outbox push_log fst snd].

Ltac w_simpl_in H :=
  cbn [wsConnections subscriptions isMonitoring sockets clock queries upstream outbox log
       set_wsConnections set_subscriptions set_isMonitoring count_query
       push_upstream push_outbox push_log fst snd] in H.

Lemma filter_filter (A : Type) (p q : A -> bool) (l : list A) :
  filter p (filter q l) = filter (fun x => q x && p x) l.
Proof.
  induction l as [|x l IH]; simpl; [reflexivity|].
  destruct (q x); simpl; [destruct (p x)|]; now rewrite IH.
Qed.

Lemma filter_all (A : Type) (p : A -> bool) (l : list A) :
  (forall x, In x l -> p x = true) -> filter p l = l.
Proof.
  induction l as [|x l IH]; intros H; simpl; [reflexivity|].
  rewrite (H x) by (left; reflexivity). f_equal. apply IH. intros y Hy. apply H. now right.
Qed.

(** When no send throws, the iteration visits all of [pending]: it sends to
    the open ones, deletes the others, and counts the sends. *)
Lemma forEachConnection_succeeds message : forall pending n w,
  (forall ws, In ws pending -> isOpen (readyState (sockets w ws)) = true ->
              sendThrows (sockets w ws) = false) ->
  let r := forEachConnection message pending n w in
  let sent := filter (fun ws => isOpen (readyState (sockets w ws))) pending in
  snd r = Normal (n + length sent) /\
  wsConnections (fst r)
  = filter (fun x => negb (existsb (Nat.eqb x) pending)
                     || isOpen (readyState (sockets w x))) (wsConnections w) /\
  outbox (fst r) = outbox w ++ map (fun ws => (ws, message)) sent /\
  log (fst r) = log w /\ sameMonitor w (fst r).
Proof.
  induction pending as [|ws rest IH]; intros n w Hok; cbn [forEachConnection].
  - unfold ret. cbn [fst snd filter map length]. rewrite Nat.add_0_r, app_nil_r.
    split; [reflexivity|]. split; [|repeat split].
    symmetry. apply filter_all. reflexivity.
  - cbn [filter]. destruct (isOpen (readyState (sockets w ws))) eqn:Hopen.
    + assert (E : (send ws message ;; forEachConnection message rest (S n)) w
                  = forEachConnection message rest (S n) (push_outbox ws message w)).
      { unfold bind, send. now rewrite (Hok ws (or_introl eq_refl) Hopen). }
      rewrite E. clear E.
      specialize (IH (S n) (push_outbox ws message w)). cbn zeta in IH.
      destruct IH as (Hc & Hconn & Hout & Hlog & Hsame).
      { w_simpl. intros x Hx. apply Hok. now right. }
      revert Hc Hconn Hout Hlog Hsame. w_simpl. intros Hc Hconn Hout Hlog Hsame.
      cbn zeta.
      split; [rewrite Hc; cbn [length]; f_equal; lia|].
      split.
      { rewrite Hconn. apply filter_ext. intros x. cbn [existsb].
        destruct (Nat.eqb_spec x ws) as [->|Hne]; cbn [orb negb]; [|reflexivity].
        rewrite Hopen. now rewrite orb_true_r. }
      split; [rewrite Hout, <- app_assoc; reflexivity|].
      split; [exact Hlog | exact Hsame].
    + assert (E : (modify (fun w0 => set_wsConnections (setDelete ws (wsConnections w0)) w0) ;;
                   forEachConnection message rest n) w
                  = forEachConnection message rest n
                      (set_wsConnections (setDelete ws (wsConnections w)) w)).
      { reflexivity. }
      rewrite E. clear E.
      specialize (IH n (set_wsConnections (setDelete ws (wsConnections w)) w)).
      cbn zeta in IH. destruct IH as (Hc & Hconn & Hout & Hlog & Hsame).
      { w_simpl. intros x Hx. apply Hok. now right. }
      revert Hc Hconn Hout Hlog Hsame. w_simpl. intros Hc Hconn Hout Hlog Hsame.
      cbn zeta.
      split; [exact Hc|].
      split.
      { rewrite Hconn. unfold setDelete. rewrite filter_filter. apply filter_ext.
        intros x. cbn [existsb].
        destruct (Nat.eqb_spec x ws) as [->|Hne]; cbn [orb negb andb]; [|reflexivity].
        now rewrite Hopen. }
      split; [exact Hout|]. split; [exact Hlog | exact Hsame].
Qed.

Lemma pruned_refl w : pruned w w.
Proof.
  exists []. split; [|intros d []]. symmetry. apply filter_all. reflexivity.
Qed.

Lemma pruned_delete w ws :
  isOpen (readyState (sockets w ws)) = false ->
  pruned w (set_wsConnections (setDelete ws (wsConnections w)) w).
Proof.
  intros Hclosed. exists [ws]. w_simpl. split.
  - unfold setDelete. apply filter_ext. intros x. cbn [existsb]. now rewrite orb_false_r.
  - intros d [<-|[]]. exact Hclosed.
Qed.

Lemma pruned_trans w1 w2 w3 :
  sockets w2 = sockets w1 -> pruned w1 w2 -> pruned w2 w3 -> pruned w1 w3.
Proof.
  intros Hs (d1 & H1 & C1) (d2 & H2 & C2). exists (d1 ++ d2). split.
  - rewrite H2, H1, filter_filter. apply filter_ext. intros x.
    rewrite existsb_app. now rewrite negb_orb.
  - intros d Hd. apply in_app_or in Hd. destruct Hd as [Hd|Hd]; [auto|].
    rewrite <- Hs. auto.
Qed.




Lemma sameMonitor_refl w : sameMonitor w w.
Proof. repeat split. Qed.

Lemma sameMonitor_trans w1 w2 w3 :
  sameMonitor w1 w2 -> sameMonitor w2 w3 -> sameMonitor w1 w3.
Proof.
  unfold sameMonitor. intros (A1 & A2 & A3 & A4 & A5 & A6) (B1 & B2 & B3 & B4 & B5 & B6).
  repeat split; congruence.
Qed.

(** Whether or not a send throws, the iteration touches nothing but the
    connection set and the outbox, and deletes only connections that are
    not open; what it throws is the error of a send. *)
Lemma forEachConnection_frame message : forall pending n w,
  let r := forEachConnection message pending n w in
  sameMonitor w (fst r) /\ pruned w (fst r) /\ log (fst r) = log w /\
  ((exists count, snd r = Normal count) \/ (exists ws, snd r = Throw (SendError ws))).
Proof.
  induction pending as [|ws rest IH]; intros n w; cbn [forEachConnection]; cbn zeta.
  - unfold ret. cbn [fst snd]. split; [apply sameMonitor_refl|].
    split; [apply pruned_refl|]. split; [reflexivity|]. left. eauto.
  - destruct (isOpen (readyState (sockets w ws))) eqn:Hopen.
    + unfold bind, send. destruct (sendThrows (sockets w ws)).
      * cbn [fst snd]. split; [apply sameMonitor_refl|].
        split; [apply pruned_refl|]. split; [reflexivity|]. right. eauto.
      * destruct (IH (S n) (push_outbox ws message w)) as (Hs & Hp & Hl & Hc).
        split; [exact Hs|]. split; [exact Hp|]. split; [exact Hl | exact Hc].
    + assert (E : (modify (fun w0 => set_wsConnections (setDelete ws (wsConnections w0)) w0) ;;
                   forEachConnection message rest n) w
                  = forEachConnection message rest n
                      (set_wsConnections (setDelete ws (wsConnections w)) w)).
      { reflexivity. }
      rewrite E. clear E.
      destruct (IH n (set_wsConnections (setDelete ws (wsConnections w)) w))
        as (Hs & Hp & Hl & Hc).
      split; [exact Hs|].
      split; [|split; [exact Hl | exact Hc]].
      eapply pruned_trans; [|apply pruned_delete; exact Hopen | exact Hp].
      reflexivity.
Qed.

(** [broadcastToClients] when no send throws. *)
Lemma broadcast_succeeds message w :
  sendsSucceed w ->
  broadcastToClients message w
  = (push_log info (Broadcasted (length (openConnections w)))
              (fst (forEachConnection message (wsConnections w) 0 w)),
     Normal tt) /\
  wsConnections (fst (broadcastToClients message w)) = openConnections w /\
  outbox (fst (broadcastToClients message w))
  = outbox w ++ map (fun ws => (ws, message)) (openConnections w) /\
  log (fst (broadcastToClients message w))
  = log w ++ [(info, Broadcasted (length (openConnections w)))] /\
  sameMonitor w (fst (broadcastToClients message w)).
Proof.
  intros Hok.
  destruct (@forEachConnection_succeeds message (wsConnections w) 0 w Hok)
    as (Hc & Hconn & Hout & Hlog & Hsame).
  assert (E : broadcastToClients message w
              = (push_log info (Broadcasted (length (openConnections w)))
                          (fst (forEachConnection message (wsConnections w) 0 w)),
                 Normal tt)).
  { unfold broadcastToClients, bind.
    destruct (forEachConnection message (wsConnections w) 0 w) as [w1 c].
    cbn [fst snd] in *. rewrite Hc. reflexivity. }
  rewrite E. w_simpl. split; [reflexivity|].
  split.
  { rewrite Hconn. unfold openConnections. apply filter_ext_in. intros x Hx.
    assert (Hex : existsb (Nat.eqb x) (wsConnections w) = true).
    { apply existsb_exists. exists x. split; [exact Hx | apply Nat.eqb_refl]. }
    now rewrite Hex. }
  split; [exact Hout|]. split; [now rewrite Hlog | exact Hsame].
Qed.

(** [broadcastToClients] in general. *)
Lemma broadcast_frame message w :
  let r := broadcastToClients message w in
  sameMonitor w (fst r) /\ pruned w (fst r) /\
  (snd r = Normal tt \/ exists ws, snd r = Throw (SendError ws)) /\
  (log (fst r) = log w \/ exists n, log (fst r) = log w ++ [(info, Broadcasted n)]).
Proof.
  cbn zeta. unfold broadcastToClients, bind.
  destruct (@forEachConnection_frame message (wsConnections w) 0 w) as (Hs & Hp & Hl & Hc).
  destruct (forEachConnection message (wsConnections w) 0 w) as [w1 c].
  cbn [fst snd] in *. destruct Hc as [(count & ->)|(ws & ->)].
  - unfold logger, modify. cbn [fst snd]. split; [exact Hs|].
    split; [|split; [now left|]].
    + destruct Hp as (deleted & Hconn & Hclosed). exists deleted. split; assumption.
    + right. exists count. w_simpl. now rewrite Hl.
  - cbn [fst snd]. split; [exact Hs|]. split; [exact Hp|].
    split; [right; eauto | now left].
Qed.

Lemma countIf_snoc (A : Type) (p : A -> bool) (l : list A) (x : A) :
  countIf p (l ++ [x]) = countIf p l + (if p x then 1 else 0).
Proof.
  unfold countIf. rewrite filter_app, length_app. cbn [filter].
  destruct (p x); reflexivity.
Qed.

(** One turn of the subscription loop. *)
Lemma subscribeEach_cons env wallet rest count w :
  subscribeEach env (wallet :: rest) count w
  = match onAccountChange env (upstream w) (Discovery.address wallet) with
    | Some id =>
        subscribeEach env rest (S count)
          (push_log info (SubscribedToWallet (Discovery.address wallet))
             (set_subscriptions
                (mapSet (Discovery.address wallet) id (subscriptions w))
                (push_log info (SubscribedToAccountChanges (Discovery.address wallet))
                   (push_upstream (Subscribed (Discovery.address wallet) id) w))))
    | None =>
        subscribeEach env rest count
          (push_log error_ (FailedToSubscribe (Discovery.address wallet))
             (push_log error_ (ErrorSubscribing (Discovery.address wallet))
                (push_upstream (SubscribeFailed (Discovery.address wallet)) w)))
    end.
Proof.
  cbn [subscribeEach]. unfold bind at 1. unfold tryCatch, bind, subscribeToAccountChanges.
  destruct (onAccountChange env (upstream w) (Discovery.address wallet)); reflexivity.
Qed.

(** The subscription loop never throws; it logs one failure per failed
    subscribe call and counts the others. *)
Lemma subscribeEach_counts env : forall wallets count w,
  let r := subscribeEach env wallets count w in
  exists k,
    k <= length wallets /\
    snd r = Normal (count + (length wallets - k)) /\
    countIf isFailedToSubscribe (log (fst r)) = countIf isFailedToSubscribe (log w) + k /\
    countIf isSubscribeFailed (upstream (fst r))
    = countIf isSubscribeFailed (upstream w) + k /\
    countIf isSubscribedCall (upstream (fst r))
    = countIf isSubscribedCall (upstream w) + (length wallets - k) /\
    wsConnections (fst r) = wsConnections w /\ sockets (fst r) = sockets w /\
    isMonitoring (fst r) = isMonitoring w /\ outbox (fst r) = outbox w.
Proof.
  induction wallets as [|wallet rest IH]; intros count w; cbn zeta.
  - exists 0. cbn [subscribeEach length]. unfold ret. cbn [fst snd].
    rewrite !Nat.add_0_r. repeat split; reflexivity.
  - rewrite subscribeEach_cons.
    destruct (onAccountChange env (upstream w) (Discovery.address wallet)) as [id|].
    + match goal with |- context [subscribeEach env rest (S count) ?w1] =>
        destruct (IH (S count) w1) as (k & Hk & Hc & Hl & Hf & Hs & Hconn & Hsock & Hmon & Hout)
      end.
      revert Hl Hf Hs Hconn Hsock Hmon Hout. w_simpl. rewrite !countIf_snoc. cbn [isFailedToSubscribe isSubscribeFailed isSubscribedCall].
      intros Hl Hf Hs Hconn Hsock Hmon Hout.
      exists k. cbn [length]. rewrite Hc, Hl, Hf, Hs.
      repeat split; try assumption; try lia; try (f_equal; lia).
    + match goal with |- context [subscribeEach env rest count ?w1] =>
        destruct (IH count w1) as (k & Hk & Hc & Hl & Hf & Hs & Hconn & Hsock & Hmon & Hout)
      end.
      revert Hl Hf Hs Hconn Hsock Hmon Hout. w_simpl. rewrite !countIf_snoc. cbn [isFailedToSubscribe isSubscribeFailed isSubscribedCall].
      intros Hl Hf Hs Hconn Hsock Hmon Hout.
      exists (S k). cbn [length]. rewrite Hc, Hl, Hf, Hs.
      repeat split; try assumption; try lia; try (f_equal; lia).
Qed.

Lemma mapSet_keys key value m k :
  In k (map fst (mapSet key value m)) <-> k = key \/ In k (map fst m).
Proof.
  induction m as [|[k0 v0] m IH]; cbn [mapSet map fst In].
  - intuition.
  - destruct (String.eqb_spec k0 key) as [->|Hne]; cbn [map fst In]; [intuition|].
    rewrite IH. intuition.
Qed.

Lemma mapSet_length_fresh key value m :
  ~ In key (map fst m) -> length (mapSet key value m) = S (length m).
Proof.
  induction m as [|[k0 v0] m IH]; cbn [mapSet map fst In length]; intros Hfresh;
    [reflexivity|].
  destruct (String.eqb_spec k0 key) as [->|Hne]; [tauto|].
  cbn [length]. rewrite IH; tauto.
Qed.

Lemma mapSet_length_present key value m :
  In key (map fst m) -> length (mapSet key value m) = length m.
Proof.
  induction m as [|[k0 v0] m IH]; cbn [mapSet map fst In length]; intros Hin;
    [destruct Hin|].
  destruct (String.eqb_spec k0 key) as [->|Hne]; [reflexivity|].
  cbn [length]. rewrite IH; [reflexivity|]. destruct Hin; [congruence | assumption].
Qed.

(** With distinct addresses that the registry does not hold yet, every
    successful subscription adds one entry. *)
Lemma subscribeEach_size env : forall wallets count w,
  NoDup (map Discovery.address wallets) ->
  (forall a, In a (map Discovery.address wallets) -> ~ In a (map fst (subscriptions w))) ->
  forall c, snd (subscribeEach env wallets count w) = Normal c ->
  length (subscriptions (fst (subscribeEach env wallets count w))) + count
  = length (subscriptions w) + c.
Proof.
  induction wallets as [|wallet rest IH]; intros count w Hnd Hfresh c Hc.
  - cbn [subscribeEach] in *. unfold ret in *. cbn [fst snd] in *.
    injection Hc as <-. reflexivity.
  - rewrite subscribeEach_cons in *. cbn [map] in Hnd, Hfresh.
    apply NoDup_cons_iff in Hnd. destruct Hnd as (Hnotin & Hnd).
    destruct (onAccountChange env (upstream w) (Discovery.address wallet)) as [id|].
    + match type of Hc with context [subscribeEach env rest (S count) ?w1] =>
        specialize (IH (S count) w1 Hnd)
      end.
      revert IH. w_simpl. intros IH.
      rewrite mapSet_length_fresh in IH by (apply Hfresh; left; reflexivity).
      specialize (IH (fun a Ha Hin =>
                        match proj1 (mapSet_keys _ _ _ _) Hin with
                        | or_introl E => Hnotin (eq_ind a (fun x => In x _) Ha _ E)
                        | or_intror Hin' => Hfresh a (or_intror Ha) Hin'
                        end) c Hc).
      lia.
    + match type of Hc with context [subscribeEach env rest count ?w1] =>
        specialize (IH count w1 Hnd)
      end.
      revert IH. w_simpl. intros IH.
      apply IH; [|exact Hc]. intros a Ha. apply Hfresh. now right.
Qed.

Lemma sendsSucceed_same w w' :
  wsConnections w' = wsConnections w -> sockets w' = sockets w ->
  sendsSucceed w -> sendsSucceed w'.
Proof.
  intros Hc Hs Hok ws. rewrite Hc, Hs. apply Hok.
Qed.

Lemma countIf_log_broadcast (w w' : World) :
  (log w' = log w \/ exists n, log w' = log w ++ [(info, Broadcasted n)]) ->
  countIf isFailedToSubscribe (log w') = countIf isFailedToSubscribe (log w).
Proof.
  intros [->|(n & ->)]; [reflexivity|]. rewrite countIf_snoc. cbn. lia.
Qed.

(** [startMonitoring] once the wallets are known: the registry and the
    upstream are as the subscription loop left them, the flag is set, and
    only the closing broadcast can throw. *)
Lemma startMonitoring_spec env w wallets :
  findWallets env (queries w) = Normal wallets ->
  let wS := fst (subscribeEach env wallets 0
                   (count_query (push_log info StartingMonitoring w))) in
  let r := startMonitoring env w in
  subscriptions (fst r) = subscriptions wS /\
  upstream (fst r) = upstream wS /\
  isMonitoring (fst r) = true /\
  sockets (fst r) = sockets w /\
  countIf isFailedToSubscribe (log (fst r)) = countIf isFailedToSubscribe (log wS) /\
  pruned w (fst r) /\
  (snd r = Normal tt \/ exists ws, snd r = Throw (SendError ws)) /\
  (sendsSucceed w -> snd r = Normal tt).
Proof.
  intros Hfind. cbn zeta.
  set (w0 := count_query (push_log info StartingMonitoring w)).
  destruct (@subscribeEach_counts env wallets 0 w0)
    as (k & Hk & Hc & Hl & Hf & Hs & Hconn & Hsock & Hmon & Hout).
  remember (startMonitoring env w) as r eqn:Hr.
  unfold startMonitoring, tryCatch, bind, logger, modify, getAllWallets, throw in Hr.
  w_simpl_in Hr. rewrite Hfind in Hr. fold w0 in Hr.
  destruct (length wallets =? 0)%nat eqn:Hlen.
  - apply Nat.eqb_eq in Hlen. destruct wallets; [|discriminate].
    cbn [subscribeEach] in *. unfold ret in *. cbn [fst snd] in *.
    match type of Hr with context [broadcastToClients ?m ?w1] =>
      destruct (@broadcast_frame m w1) as (Bs & Bp & Bc & Bl);
      pose proof (fun H => proj1 (@broadcast_succeeds m w1 H)) as Bok;
      destruct (broadcastToClients m w1) as [w2 c]
    end.
    cbn [fst snd] in *. destruct Bs as (B1 & B2 & B3 & B4 & B5 & B6).
    revert B1 B2 B3 B4 Bp Bok. w_simpl. intros B1 B2 B3 B4 Bp Bok.
    assert (Hp : pruned w w2).
    { destruct Bp as (deleted & Hd & Hclosed). exists deleted. split; assumption. }
    assert (Hcount : countIf isFailedToSubscribe (log w2) = countIf isFailedToSubscribe (log w0)).
    { rewrite (@countIf_log_broadcast _ _ Bl). w_simpl. rewrite ?countIf_snoc. cbn. lia. }
    destruct Bc as [->|(ws & ->)]; subst r; w_simpl.
    + repeat split; try assumption; try (now left).
    + rewrite countIf_snoc. cbn [isFailedToSubscribe]. rewrite Nat.add_0_r.
      repeat split; try assumption; try (right; eauto).
      intros Hok. specialize (Bok (sendsSucceed_same _ eq_refl eq_refl Hok)).
      congruence.
  - destruct (subscribeEach env wallets 0 w0) as [wS c0].
    cbn [fst snd] in *. subst c0.
    match type of Hr with context [broadcastToClients ?m ?w1] =>
      destruct (@broadcast_frame m w1) as (Bs & Bp & Bc & Bl);
      pose proof (fun H => proj1 (@broadcast_succeeds m w1 H)) as Bok;
      destruct (broadcastToClients m w1) as [w2 c]
    end.
    cbn [fst snd] in *. destruct Bs as (B1 & B2 & B3 & B4 & B5 & B6).
    revert B1 B2 B3 B4 Bp Bok. w_simpl. intros B1 B2 B3 B4 Bp Bok.
    assert (Hp : pruned w w2).
    { destruct Bp as (deleted & Hd & Hclosed). w_simpl_in Hd. w_simpl_in Hclosed.
      exists deleted.
      rewrite Hd, Hconn. rewrite Hsock in Hclosed. split; [reflexivity | assumption]. }
    assert (Hcount : countIf isFailedToSubscribe (log w2) = countIf isFailedToSubscribe (log wS)).
    { rewrite (@countIf_log_broadcast _ _ Bl). w_simpl. rewrite ?countIf_snoc. cbn. lia. }
    assert (Hsw : sockets w2 = sockets w) by (rewrite B4, Hsock; reflexivity).
    destruct Bc as [->|(ws & ->)]; subst r; w_simpl.
    + repeat split; try assumption; try (now left); try congruence.
    + rewrite countIf_snoc. cbn [isFailedToSubscribe]. rewrite Nat.add_0_r.
      repeat split; try assumption; try (right; eauto); try congruence.
      intros Hok.
      assert (Hok' : sendsSucceed wS) by (eapply sendsSucceed_same; eassumption).
      specialize (Bok (sendsSucceed_same _ eq_refl eq_refl Hok')). congruence.
Qed.

(** One turn of the unsubscription loop. *)
Lemma unsubscribeEach_cons env walletAddress subscriptionId rest w :
  unsubscribeEach env ((walletAddress, subscriptionId) :: rest) w
  = if removeAccountChangeListener env (upstream w) subscriptionId
    then unsubscribeEach env rest
           (push_log info (UnsubscribedFromWallet walletAddress)
              (push_log info (UnsubscribedFromAccountChanges subscriptionId)
                 (push_upstream (Unsubscribed subscriptionId) w)))
    else unsubscribeEach env rest
           (push_log error_ (FailedToUnsubscribe walletAddress)
              (push_log error_ ErrorUnsubscribing
                 (push_upstream (UnsubscribeFailed subscriptionId) w))).
Proof.
  cbn [unsubscribeEach]. unfold bind at 1. unfold tryCatch, bind, unsubscribeFromAccountChanges.
  destruct (removeAccountChangeListener env (upstream w) subscriptionId); reflexivity.
Qed.

(** The unsubscription loop never throws and makes one upstream call per
    entry, for the handle stored in it. *)
Lemma unsubscribeEach_spec env : forall entries w,
  let r := unsubscribeEach env entries w in
  snd r = Normal tt /\
  wsConnections (fst r) = wsConnections w /\ sockets (fst r) = sockets w /\
  outbox (fst r) = outbox w /\
  exists calls, upstream (fst r) = upstream w ++ calls /\
                map unsubscribedId calls = map (fun e => Some (snd e)) entries.
Proof.
  induction entries as [|[walletAddress subscriptionId] rest IH]; intros w; cbn zeta.
  - cbn [unsubscribeEach]. unfold ret. cbn [fst snd]. repeat split.
    exists []. now rewrite app_nil_r.
  - rewrite unsubscribeEach_cons.
    destruct (removeAccountChangeListener env (upstream w) subscriptionId).
    + match goal with |- context [unsubscribeEach env rest ?w1] =>
        destruct (IH w1) as (Hc & Hconn & Hsock & Hout & calls & Hup & Hids)
      end.
      revert Hconn Hsock Hout Hup. w_simpl. intros Hconn Hsock Hout Hup.
      repeat split; try assumption.
      exists (Unsubscribed subscriptionId :: calls).
      split; [rewrite Hup, <- app_assoc; reflexivity|].
      cbn [map unsubscribedId snd]. now rewrite Hids.
    + match goal with |- context [unsubscribeEach env rest ?w1] =>
        destruct (IH w1) as (Hc & Hconn & Hsock & Hout & calls & Hup & Hids)
      end.
      revert Hconn Hsock Hout Hup. w_simpl. intros Hconn Hsock Hout Hup.
      repeat split; try assumption.
      exists (UnsubscribeFailed subscriptionId :: calls).
      split; [rewrite Hup, <- app_assoc; reflexivity|].
      cbn [map unsubscribedId snd]. now rewrite Hids.
Qed.

(** [stopMonitoring]: the registry is emptied and the flag cleared whatever
    happens; the closing broadcast sees the connection set, and may prune
    it. *)
Lemma stopMonitoring_spec env w :
  let r := stopMonitoring env w in
  subscriptions (fst r) = [] /\
  isMonitoring (fst r) = false /\
  sockets (fst r) = sockets w /\
  pruned w (fst r) /\
  (snd r = Normal tt \/ exists ws, snd r = Throw (SendError ws)) /\
  (sendsSucceed w -> snd r = Normal tt) /\
  exists calls, upstream (fst r) = upstream w ++ calls /\
                map unsubscribedId calls = map (fun e => Some (snd e)) (subscriptions w).
Proof.
  cbn zeta.
  set (w0 := push_log info StoppingMonitoring w).
  destruct (@unsubscribeEach_spec env (subscriptions w) w0)
    as (Hc & Hconn & Hsock & Hout & calls & Hup & Hids).
  remember (stopMonitoring env w) as r eqn:Hr.
  unfold stopMonitoring, tryCatch, bind, logger, modify, throw in Hr.
  w_simpl_in Hr. fold w0 in Hr.
  destruct (unsubscribeEach env (subscriptions w) w0) as [wU cU].
  cbn [fst snd] in *. subst cU.
  match type of Hr with context [broadcastToClients ?m ?w1] =>
    destruct (@broadcast_frame m w1) as (Bs & Bp & Bc & Bl);
    pose proof (fun H => proj1 (@broadcast_succeeds m w1 H)) as Bok;
    destruct (broadcastToClients m w1) as [w2 c]
  end.
  cbn [fst snd] in *. destruct Bs as (B1 & B2 & B3 & B4 & B5 & B6).
  revert B1 B2 B3 B4 Bp Bok. w_simpl. intros B1 B2 B3 B4 Bp Bok.
  assert (Hp : pruned w w2).
  { destruct Bp as (deleted & Hd & Hclosed). w_simpl_in Hd. w_simpl_in Hclosed.
    exists deleted. rewrite Hd, Hconn. rewrite Hsock in Hclosed.
    split; [reflexivity | assumption]. }
  assert (Hsw : sockets w2 = sockets w) by (rewrite B4, Hsock; reflexivity).
  assert (Hcalls : exists calls, upstream w2 = upstream w ++ calls /\
                     map unsubscribedId calls
                     = map (fun e => Some (snd e)) (subscriptions w)).
  { exists calls. split; [rewrite B3, Hup; reflexivity | exact Hids]. }
  destruct Bc as [->|(ws & ->)]; subst r; w_simpl.
  - repeat split; try assumption; try (now left).
  - repeat split; try assumption; try (right; eauto).
    intros Hok.
    assert (Hok' : sendsSucceed wU) by (eapply sendsSucceed_same; eassumption).
    specialize (Bok (sendsSucceed_same _ eq_refl eq_refl Hok')). congruence.
Qed.



(** Starting the monitor when the store holds a single wallet. *)
Lemma startMonitoring_single env w x id :
  findWallets env (queries w) = Normal [walletAt x] ->
  onAccountChange env (upstream w) x = Some id ->
  subscriptions (fst (startMonitoring env w)) = mapSet x id (subscriptions w) /\
  upstream (fst (startMonitoring env w)) = upstream w ++ [Subscribed x id].
Proof.
  intros Hfind Hsub.
  destruct (startMonitoring_spec env w Hfind) as (Hs & Hu & _).
  rewrite Hs, Hu. rewrite subscribeEach_cons. w_simpl.
  cbn [walletAt Discovery.address]. rewrite Hsub.
  cbn [subscribeEach]. unfold ret. w_simpl. split; reflexivity.
Qed.

Lemma includes_append_r needle s1 s2 :
  includes needle s2 = true -> includes needle (String.append s1 s2) = true.
Proof.
  intros H. induction s1 as [|c s1 IH]; [exact H|].
  cbn [String.append includes].
  destruct (String.prefix needle (String c (String.append s1 s2))); [reflexivity|exact IH].
Qed.

(** The [default:] reply names every supported type. *)
Lemma unknownTypeText_lists_types given text :
  unknownTypeText given = Normal text ->
  Forall (fun label => includes label text = true) supportedTypes.
Proof.
  unfold unknownTypeText.
  destruct (toString given) as [converted|e]; intros H; [|discriminate H].
  match type of H with Normal ?made = _ => assert (E : made = text) by congruence end.
  rewrite <- E. unfold supportedTypes.
  repeat constructor;
    (apply includes_append_r; apply includes_append_r; vm_compute; reflexivity).
Qed.

(** *** Frames: sockets and outbox through the combinators *)

Lemma steady_ret (A : Type) (a : A) : steady (ret a).
Proof. intros w. split; [reflexivity|]. exists []. now rewrite app_nil_r. Qed.

Lemma steady_throw (A : Type) e : steady (@throw A e).
Proof. intros w. split; [reflexivity|]. exists []. now rewrite app_nil_r. Qed.

Lemma steady_lift (A : Type) (c : Completion A) : steady (lift c).
Proof. intros w. split; [reflexivity|]. exists []. now rewrite app_nil_r. Qed.

Lemma steady_modify (f : World -> World) :
  (forall w, sockets (f w) = sockets w /\ outbox (f w) = outbox w) -> steady (modify f).
Proof.
  intros Hf w. unfold modify. cbn [fst]. destruct (Hf w) as [Hs Ho].
  split; [exact Hs|]. exists []. now rewrite app_nil_r.
Qed.

Lemma steady_logger l m : steady (logger l m).
Proof. apply steady_modify. intros w. split; reflexivity. Qed.

Lemma steady_send ws m : steady (send ws m).
Proof.
  intros w. unfold send. destruct (sendThrows (sockets w ws)); cbn [fst].
  - split; [reflexivity|]. exists []. now rewrite app_nil_r.
  - split; [reflexivity|]. exists [(ws, m)]. reflexivity.
Qed.

Lemma steady_bind (A B : Type) (m : M A) (k : A -> M B) :
  steady m -> (forall a, steady (k a)) -> steady (bind m k).
Proof.
  intros Hm Hk w. unfold bind. destruct (Hm w) as (Hs & more & Ho).
  destruct (m w) as [w1 [a|e]]; cbn [fst] in *.
  - destruct (Hk a w1) as (Hs' & more' & Ho').
    split; [congruence|]. exists (more ++ more'). rewrite Ho', Ho. now rewrite app_assoc.
  - split; [exact Hs|]. exists more. exact Ho.
Qed.

Lemma steady_tryCatch (A : Type) (body : M A) (handler : JsError -> M A) :
  steady body -> (forall e, steady (handler e)) -> steady (tryCatch body handler).
Proof.
  intros Hm Hk w. unfold tryCatch. destruct (Hm w) as (Hs & more & Ho).
  destruct (body w) as [w1 [a|e]]; cbn [fst] in *.
  - split; [exact Hs|]. exists more. exact Ho.
  - destruct (Hk e w1) as (Hs' & more' & Ho').
    split; [congruence|]. exists (more ++ more'). rewrite Ho', Ho. now rewrite app_assoc.
Qed.

Lemma steady_detach (m : M unit) : steady m -> steady (detach m).
Proof. intros Hm w. unfold detach. cbn [fst]. apply Hm. Qed.

(** Code that first reads the world. *)
Lemma steady_reading (A B : Type) (read : World -> B) (m : B -> M A) :
  (forall b, steady (m b)) -> steady (fun w => m (read w) w).
Proof. intros Hm w. apply (Hm (read w)). Qed.

Lemma steady_query (A : Type) (ask : World -> Completion A) :
  steady (fun w => (count_query w, ask w)).
Proof. intros w. cbn [fst]. split; [reflexivity|]. exists []. now rewrite app_nil_r. Qed.

Ltac steady_step :=
  first [ apply steady_ret | apply steady_throw | apply steady_lift | apply steady_logger
        | apply steady_send | apply steady_query
        | apply steady_detach
        | apply steady_modify; intros ?; split; reflexivity
        | apply steady_bind; [|intros ?]
        | apply steady_tryCatch; [|intros ?] ].

Lemma steady_sendStamped ws make : steady (sendStamped ws make).
Proof. unfold sendStamped. apply (@steady_reading unit _ stamp (fun t => send ws (make t))).
       intros t. apply steady_send. Qed.

Lemma steady_forEachConnection message : forall pending n,
  steady (forEachConnection message pending n).
Proof.
  induction pending as [|ws rest IH]; intros n; cbn [forEachConnection].
  - apply steady_ret.
  - intros w. destruct (isOpen (readyState (sockets w ws))).
    + apply (@steady_bind _ _ (send ws message) (fun _ => forEachConnection message rest (S n)));
        [apply steady_send | intros _; apply IH].
    + apply (@steady_bind _ _
               (modify (fun w0 => set_wsConnections (setDelete ws (wsConnections w0)) w0))
               (fun _ => forEachConnection message rest n));
        [apply steady_modify; intros ?; split; reflexivity | intros _; apply IH].
Qed.

Lemma steady_broadcast message : steady (broadcastToClients message).
Proof.
  unfold broadcastToClients.
  apply (@steady_reading unit _ wsConnections
           (fun conns => clientCount <- forEachConnection message conns 0 ;;
                         logger info (Broadcasted clientCount))).
  intros conns. apply steady_bind; [apply steady_forEachConnection|].
  intros n. apply steady_logger.
Qed.

Lemma steady_subscribe env a : steady (subscribeToAccountChanges env a).
Proof.
  intros w. unfold subscribeToAccountChanges, bind, modify, logger, ret, throw.
  destruct (onAccountChange env (upstream w) a); w_simpl;
    (split; [reflexivity|]; exists []; now rewrite app_nil_r).
Qed.

Lemma steady_unsubscribe env id : steady (unsubscribeFromAccountChanges env id).
Proof.
  intros w. unfold unsubscribeFromAccountChanges, bind, modify, logger, ret, throw.
  destruct (removeAccountChangeListener env (upstream w) id); w_simpl;
    (split; [reflexivity|]; exists []; now rewrite app_nil_r).
Qed.

Lemma steady_getAllWallets env : steady (getAllWallets env).
Proof.
  intros w. unfold getAllWallets, bind, modify, logger, ret, throw.
  destruct (findWallets env (queries w)); w_simpl;
    (split; [reflexivity|]; exists []; now rewrite app_nil_r).
Qed.

Lemma steady_subscribeEach env : forall wallets count,
  steady (subscribeEach env wallets count).
Proof.
  induction wallets as [|wallet rest IH]; intros count; cbn [subscribeEach].
  - apply steady_ret.
  - apply steady_bind; [|intros c; apply IH].
    apply steady_tryCatch; [|intros e; repeat steady_step].
    apply steady_bind; [apply steady_subscribe|]. intros id. repeat steady_step.
Qed.

Lemma steady_unsubscribeEach env : forall entries, steady (unsubscribeEach env entries).
Proof.
  induction entries as [|[a id] rest IH]; cbn [unsubscribeEach].
  - apply steady_ret.
  - apply steady_bind; [|intros _; apply IH].
    apply steady_tryCatch; [|intros e; repeat steady_step].
    apply steady_bind; [apply steady_unsubscribe|]. intros _. apply steady_logger.
Qed.

Lemma steady_startMonitoring env : steady (startMonitoring env).
Proof.
  unfold startMonitoring.
  apply steady_tryCatch; [|intros e; repeat steady_step].
  apply steady_bind; [apply steady_logger|]. intros _.
  apply steady_bind; [apply steady_getAllWallets|]. intros wallets.
  destruct (length wallets =? 0)%nat.
  - apply steady_bind; [apply steady_logger|]. intros _.
    apply steady_bind; [apply steady_modify; intros ?; split; reflexivity|]. intros _.
    apply steady_broadcast.
  - apply steady_bind; [apply steady_subscribeEach|]. intros n.
    apply steady_bind; [apply steady_modify; intros ?; split; reflexivity|]. intros _.
    apply steady_bind; [apply steady_logger|]. intros _.
    apply steady_broadcast.
Qed.

Lemma steady_stopMonitoring env : steady (stopMonitoring env).
Proof.
  unfold stopMonitoring.
  apply steady_tryCatch; [|intros e; repeat steady_step].
  apply steady_bind; [apply steady_logger|]. intros _.
  apply steady_bind.
  { apply (@steady_reading unit _ subscriptions (fun entries => unsubscribeEach env entries)).
    apply steady_unsubscribeEach. }
  intros _.
  apply steady_bind; [apply steady_modify; intros ?; split; reflexivity|]. intros _.
  apply steady_bind; [apply steady_modify; intros ?; split; reflexivity|]. intros _.
  apply steady_bind; [apply steady_logger|]. intros _.
  apply steady_broadcast.
Qed.

(** *** Replies *)

Lemma answers_sendStamped ws make : answers ws (sendStamped ws make).
Proof.
  intros w Hsend. unfold sendStamped, send. rewrite Hsend. w_simpl.
  split; [reflexivity|]. split; [reflexivity|].
  exists [], (make (stamp w)), []. reflexivity.
Qed.

Lemma answers_reading (B : Type) ws (read : World -> B) (m : B -> M unit) :
  (forall b, answers ws (m b)) -> answers ws (fun w => m (read w) w).
Proof. intros Hm w. apply (Hm (read w)). Qed.

Lemma answers_after_log ws l x (m : M unit) :
  answers ws m -> answers ws (logger l x ;; m).
Proof.
  intros Hm w Hsend. unfold bind, logger, modify.
  apply (Hm (push_log l x w)). exact Hsend.
Qed.

Lemma answers_detach ws (m : M unit) : answers ws m -> answers ws (detach m).
Proof.
  intros Hm w Hsend. destruct (Hm w Hsend) as (_ & Hs & Ho).
  unfold detach. cbn [fst snd]. auto.
Qed.

Lemma answers_attempts ws (m : M unit) : answers ws m -> attempts ws m.
Proof.
  intros Hm w Hsend. destruct (Hm w Hsend) as (_ & Hs & before & reply & after & Ho).
  split; [exact Hs|]. split; [eauto|]. intros a _. eauto.
Qed.

Lemma attempts_after (A B : Type) ws (m : M A) (k : A -> M B) :
  steady m -> (forall a, attempts ws (k a)) -> attempts ws (bind m k).
Proof.
  intros Hm Hk w Hsend. unfold bind. destruct (Hm w) as (Hs & more & Ho).
  destruct (m w) as [w1 [a|e]]; cbn [fst snd] in *.
  - destruct (Hk a w1) as (Hs' & (more' & Ho') & Hr); [congruence|].
    split; [congruence|].
    split; [exists (more ++ more'); rewrite Ho', Ho; now rewrite app_assoc|].
    intros b Hb. destruct (Hr b Hb) as (before & reply & after & Ho'').
    exists (more ++ before), reply, after. rewrite Ho'', Ho. now rewrite <- !app_assoc.
  - split; [exact Hs|]. split; [eauto|]. intros b Hb. discriminate.
Qed.

Lemma attempts_before (A B : Type) ws (m : M A) (k : A -> M B) :
  attempts ws m -> (forall a, steady (k a)) -> attempts ws (bind m k).
Proof.
  intros Hm Hk w Hsend. unfold bind. destruct (Hm w Hsend) as (Hs & (more & Ho) & Hr).
  destruct (m w) as [w1 [a|e]]; cbn [fst snd] in *.
  - destruct (Hk a w1) as (Hs' & more' & Ho').
    split; [congruence|].
    split; [exists (more ++ more'); rewrite Ho', Ho; now rewrite app_assoc|].
    intros b _. destruct (Hr a eq_refl) as (before & reply & after & Ho'').
    exists before, reply, (after ++ more'). rewrite Ho', Ho''.
    rewrite <- !app_assoc. reflexivity.
  - split; [exact Hs|]. split; [eauto|]. intros b Hb. discriminate.
Qed.

(** A [try] that replies when it gets through, with a [catch] that always
    replies: a reply in every case, and no throw. *)
Lemma answers_tryCatch ws (body : M unit) (handler : JsError -> M unit) :
  attempts ws body -> (forall e, answers ws (handler e)) ->
  answers ws (tryCatch body handler).
Proof.
  intros Hm Hk w Hsend. unfold tryCatch. destruct (Hm w Hsend) as (Hs & (more & Ho) & Hr).
  destruct (body w) as [w1 [[]|e]]; cbn [fst snd] in *.
  - split; [reflexivity|]. split; [exact Hs|]. exact (Hr tt eq_refl).
  - destruct (Hk e w1) as (Hc & Hs' & before & reply & after & Ho'); [congruence|].
    split; [exact Hc|]. split; [congruence|].
    exists (more ++ before), reply, after. rewrite Ho', Ho. now rewrite <- !app_assoc.
Qed.

Lemma answers_handleActivityRequest env ws data :
  answers ws (handleActivityRequest env ws data).
Proof.
  unfold handleActivityRequest. apply answers_tryCatch.
  - apply attempts_after; [apply steady_lift|]. intros walletAddress.
    destruct (negb (truthy walletAddress)).
    + apply answers_attempts, answers_sendStamped.
    + apply attempts_after; [apply steady_query|]. intros txs.
      apply attempts_before;
        [|intros _; apply steady_bind; [apply steady_lift | intros text; apply steady_logger]].
      apply answers_attempts, answers_sendStamped.
  - intros e. apply answers_after_log, answers_sendStamped.
Qed.

Lemma answers_handleRecentTransactionsRequest env ws data :
  answers ws (handleRecentTransactionsRequest env ws data).
Proof.
  unfold handleRecentTransactionsRequest. apply answers_tryCatch.
  - apply attempts_after; [apply steady_lift|]. intros given. cbn zeta.
    apply attempts_after; [apply steady_query|]. intros txs.
    apply attempts_before; [|intros _; apply steady_logger].
    apply answers_attempts, answers_sendStamped.
  - intros e. apply answers_after_log, answers_sendStamped.
Qed.

Lemma answers_status ws kind :
  answers ws (fun w => sendStamped ws (fun t => statusMessage kind t w) w).
Proof.
  apply (@answers_reading World ws (fun w => w)
           (fun w0 => sendStamped ws (fun t => statusMessage kind t w0))).
  intros w0. apply answers_sendStamped.
Qed.

(** Whatever arrives, the handler returns normally, has sent a reply on the
    socket, and has changed no socket. *)
Lemma answers_onMessage env ws parsed : answers ws (onMessage env ws parsed).
Proof.
  unfold onMessage. apply answers_tryCatch.
  - apply attempts_after.
    { destruct parsed; [apply steady_ret | apply steady_throw]. }
    intros data.
    apply attempts_after; [apply steady_logger|]. intros _.
    apply attempts_after; [apply steady_lift|]. intros given.
    repeat match goal with |- attempts _ (if ?c then _ else _) => destruct c end.
    + apply answers_attempts, answers_sendStamped.
    + apply answers_attempts, answers_status.
    + apply answers_attempts, answers_detach, answers_handleActivityRequest.
    + apply answers_attempts, answers_detach, answers_handleRecentTransactionsRequest.
    + apply answers_attempts, answers_status.
    + apply answers_attempts, answers_detach, answers_tryCatch.
      * apply attempts_after; [apply steady_startMonitoring|]. intros _.
        apply answers_attempts, answers_status.
      * intros e. apply answers_sendStamped.
    + apply answers_attempts, answers_detach, answers_tryCatch.
      * apply attempts_after; [apply steady_stopMonitoring|]. intros _.
        apply answers_attempts, answers_status.
      * intros e. apply answers_sendStamped.
    + apply attempts_after; [apply steady_logger|]. intros _.
      apply attempts_after; [apply steady_lift|]. intros text.
      apply answers_attempts, answers_sendStamped.
  - intros e. apply answers_after_log, answers_sendStamped.
Qed.

End ServerFacts.

(** C1 as stated fails.  Five registered open connections, two of which
    throw on send: the first throwing send aborts the broadcast; only
    connection 1 was served, all five stay registered, and no count is
    produced -- not 3 deliveries and 3 registered connections. *)
Lemma broadcast_aborted_by_throwing_send :
  let r := Server.broadcastToClients Server.announcement
             (Server.newWorld [1; 2; 3; 4; 5] Server.twoThrowing) in
  snd r = Throw (SendError 2) /\
  Server.wsConnections (fst r) = [1; 2; 3; 4; 5] /\
  map fst (Server.outbox (fst r)) = [1] /\
  Server.log (fst r) = [] /\
  ~ (snd r = Normal tt /\ length (Server.wsConnections (fst r)) = 3).
Proof.
  vm_compute. repeat split; try reflexivity. intros [H _]. discriminate.
Qed.

(** C1 (as the code has it).  When no send throws, [broadcastToClients]
    attempts delivery to every registered connection: each open one is
    sent the message, each one that is not open is unregistered without
    stopping the iteration, and the number of sends is logged (the function
    returns nothing).  The monitor's state is left alone. *)
Theorem broadcast_prunes_closed_connections
        (message : Server.Message) (w : Server.World) :
  Server.sendsSucceed w ->
  let r := Server.broadcastToClients message w in
  snd r = Normal tt /\
  Server.wsConnections (fst r) = Server.openConnections w /\
  Server.outbox (fst r)
  = Server.outbox w ++ map (fun ws => (ws, message)) (Server.openConnections w) /\
  Server.log (fst r)
  = Server.log w ++ [(Server.info, Server.Broadcasted (length (Server.openConnections w)))] /\
  Server.sameMonitor w (fst r).
Proof.
  intros Hok. cbn zeta.
  destruct (broadcast_succeeds message Hok) as (E & Hconn & Hout & Hlog & Hsame).
  split; [now rewrite E|]. auto.
Qed.

(** Five registered connections of which two are closed: three sends, the
    count 3 in the log, three connections registered afterwards. *)
Lemma broadcast_prunes_closed_connections_witness :
  let w := Server.newWorld [1; 2; 3; 4; 5] Server.twoClosed in
  let r := Server.broadcastToClients Server.announcement w in
  Server.sendsSucceed w /\
  snd r = Normal tt /\
  Server.wsConnections (fst r) = [1; 3; 5] /\
  map fst (Server.outbox (fst r)) = [1; 3; 5] /\
  Server.log (fst r) = [(Server.info, Server.Broadcasted 3)].
Proof.
  cbn zeta.
  assert (Hok : Server.sendsSucceed (Server.newWorld [1; 2; 3; 4; 5] Server.twoClosed)).
  { intros ws Hin _. cbn in Hin.
    destruct Hin as [<-|[<-|[<-|[<-|[<-|[]]]]]]; reflexivity. }
  split; [exact Hok|].
  destruct (@broadcast_prunes_closed_connections Server.announcement
              (Server.newWorld [1; 2; 3; 4; 5] Server.twoClosed) Hok)
    as (Hc & Hconn & Hout & Hlog & _).
  split; [exact Hc|]. split; [rewrite Hconn; reflexivity|].
  split; [rewrite Hout; reflexivity | rewrite Hlog; reflexivity].
Defined.

(** Ten wallets of which two cannot be subscribed to. *)
Example ten_wallets_two_failures :
  let w := fst (Server.startMonitoring Server.tenWallets (Server.newWorld [1] (fun _ => Server.healthy))) in
  Server.getStatus w = {| Server.status_isMonitoring := true; Server.walletsCount := 8 |} /\
  map fst (Server.subscriptions w) = ["A"; "B"; "D"; "E"; "F"; "G"; "I"; "J"]%string /\
  filter Server.isFailedToSubscribe (Server.log w)
  = [(Server.error_, Server.FailedToSubscribe "C"); (Server.error_, Server.FailedToSubscribe "H")].
Proof. vm_compute. repeat split; reflexivity. Qed.

(** C9. Status consistency: on a monitor that watches nothing yet,
    [startMonitoring] over N wallets with distinct addresses, k of whose
    subscribe calls fail, logs each of the k failures, throws none of them,
    goes on to subscribe to the other N - k wallets, and afterwards the
    status reports N - k watched wallets. *)
Theorem monitoring_counts_successful_subscriptions
        (env : Server.Env) (w : Server.World) (wallets : list Discovery.Wallet) :
  Server.subscriptions w = [] ->
  Server.findWallets env (Server.queries w) = Normal wallets ->
  NoDup (map Discovery.address wallets) ->
  let r := Server.startMonitoring env w in
  exists k,
    k <= length wallets /\
    Server.countIf Server.isSubscribeFailed (Server.upstream (fst r))
    = Server.countIf Server.isSubscribeFailed (Server.upstream w) + k /\
    Server.countIf Server.isSubscribedCall (Server.upstream (fst r))
    = Server.countIf Server.isSubscribedCall (Server.upstream w) + (length wallets - k) /\
    Server.countIf Server.isFailedToSubscribe (Server.log (fst r))
    = Server.countIf Server.isFailedToSubscribe (Server.log w) + k /\
    (forall a, snd r <> Throw (SubscribeError a)) /\
    (Server.sendsSucceed w -> snd r = Normal tt) /\
    Server.walletsCount (Server.getStatus (fst r)) = length wallets - k /\
    Server.status_isMonitoring (Server.getStatus (fst r)) = true.
Proof.
  intros Hempty Hfind Hnd. cbn zeta.
  destruct (startMonitoring_spec env w Hfind)
    as (Hsubs & Hup & Hmon & _ & Hlog & _ & Hc & Hok).
  set (w0 := Server.count_query (Server.push_log Server.info Server.StartingMonitoring w)) in *.
  destruct (@subscribeEach_counts env wallets 0 w0)
    as (k & Hk & Hcount & Hl & Hf & Hs & _).
  assert (Hsize : length (Server.subscriptions (fst (Server.subscribeEach env wallets 0 w0))) + 0
                  = length (Server.subscriptions w0) + (0 + (length wallets - k))).
  { apply subscribeEach_size; [exact Hnd | | exact Hcount].
    intros a _. subst w0. cbn. rewrite Hempty. intros []. }
  exists k. split; [exact Hk|].
  split; [rewrite Hup; exact Hf|]. split; [rewrite Hup; exact Hs|].
  split.
  { rewrite Hlog, Hl. subst w0. cbn [Server.log Server.count_query Server.push_log].
    rewrite countIf_snoc. cbn. lia. }
  split; [intros a; destruct Hc as [->|(ws & ->)]; discriminate|].
  split; [exact Hok|].
  split; [|exact Hmon].
  unfold Server.getStatus. cbn [Server.walletsCount]. rewrite Hsubs.
  subst w0. cbn [Server.subscriptions Server.count_query Server.push_log] in Hsize.
  rewrite Hempty in Hsize. cbn [length] in Hsize. lia.
Qed.

Lemma monitoring_counts_witness :
  let w := Server.newWorld [1] (fun _ => Server.healthy) in
  Server.subscriptions w = [] /\
  NoDup (map Discovery.address (map Server.walletAt (Sync.sampleWorklist 10))) /\
  Server.walletsCount (Server.getStatus (fst (Server.startMonitoring Server.tenWallets w))) = 8.
Proof.
  cbn zeta.
  assert (Hnd : NoDup (map Discovery.address (map Server.walletAt (Sync.sampleWorklist 10)))).
  { cbn. repeat (constructor;
                 [intros H; cbn in H;
                  repeat (destruct H as [H|H]; [discriminate H|]); exact H|]).
    constructor. }
  split; [reflexivity|]. split; [exact Hnd|].
  destruct (@monitoring_counts_successful_subscriptions Server.tenWallets
              (Server.newWorld [1] (fun _ => Server.healthy))
              (map Server.walletAt (Sync.sampleWorklist 10)) eq_refl eq_refl Hnd)
    as (k & _ & Hfailed & _ & _ & _ & _ & Hstatus & _).
  rewrite Hstatus.
  assert (Hk : k = 2).
  { change (Server.countIf Server.isSubscribeFailed
              (Server.upstream (fst (Server.startMonitoring Server.tenWallets
                                       (Server.newWorld [1] (fun _ => Server.healthy)))))
            = 0 + k) in Hfailed.
    vm_compute in Hfailed. symmetry. exact Hfailed. }
  rewrite Hk. reflexivity.
Defined.

(** One wallet, every subscription succeeding: the second start subscribes
    again upstream and swaps the stored handle; stopping unsubscribes the
    latest handle only. *)
Example start_start_stop :
  let w1 := fst (Server.startMonitoring Server.oneWallet (Server.newWorld [] (fun _ => Server.healthy))) in
  let w2 := fst (Server.startMonitoring Server.oneWallet w1) in
  let w3 := fst (Server.stopMonitoring Server.oneWallet w2) in
  Server.subscriptions w1 = [("x"%string, 0)] /\
  Server.subscriptions w2 = [("x"%string, 1)] /\
  Server.subscriptions w3 = [] /\
  Server.upstream w3
  = [Server.Subscribed "x" 0; Server.Subscribed "x" 1; Server.Unsubscribed 1].
Proof. vm_compute. repeat split; reflexivity. Qed.

(** C3 as stated fails: the second start is not a no-op.  It opens a second
    upstream subscription for the same entity and replaces the handle that
    the registry held. *)
Lemma second_start_subscribes_again :
  let w1 := fst (Server.startMonitoring Server.oneWallet (Server.newWorld [] (fun _ => Server.healthy))) in
  let w2 := fst (Server.startMonitoring Server.oneWallet w1) in
  Server.countIf (Server.isSubscribed "x") (Server.upstream w1) = 1 /\
  Server.countIf (Server.isSubscribed "x") (Server.upstream w2) = 2 /\
  Server.subscriptions w1 <> Server.subscriptions w2 /\
  ~ (Server.upstream w2 = Server.upstream w1).
Proof.
  vm_compute. repeat split; try reflexivity; intros H; discriminate H.
Qed.

(** C3 (as the code has it).  With one wallet [x] in the store, starting
    the monitor twice in a row leaves one entry for [x] in the registry,
    so the status counts 1, and stopping then brings the count to 0.  The
    second start is not a no-op: it subscribes upstream again and the
    registry then holds the new handle; stopping unsubscribes that handle
    only. *)
Theorem start_twice_keeps_one_entry
        (env : Server.Env) (w : Server.World) (x : string) (id1 id2 : nat) :
  Server.subscriptions w = [] ->
  (forall q, Server.findWallets env q = Normal [Server.walletAt x]) ->
  Server.onAccountChange env (Server.upstream w) x = Some id1 ->
  Server.onAccountChange env (Server.upstream w ++ [Server.Subscribed x id1]) x = Some id2 ->
  let w1 := fst (Server.startMonitoring env w) in
  let w2 := fst (Server.startMonitoring env w1) in
  let w3 := fst (Server.stopMonitoring env w2) in
  Server.walletsCount (Server.getStatus w1) = 1 /\
  Server.subscriptions w2 = [(x, id2)] /\
  Server.walletsCount (Server.getStatus w2) = 1 /\
  Server.upstream w2
  = Server.upstream w ++ [Server.Subscribed x id1; Server.Subscribed x id2] /\
  Server.walletsCount (Server.getStatus w3) = 0 /\
  exists call, Server.upstream w3 = Server.upstream w2 ++ [call] /\
               Server.unsubscribedId call = Some id2.
Proof.
  intros Hempty Hfind Hsub1 Hsub2. cbn zeta.
  destruct (@startMonitoring_single env w x id1 (Hfind _) Hsub1) as (Hs1 & Hu1).
  rewrite Hempty in Hs1. cbn [Server.mapSet] in Hs1.
  rewrite <- Hu1 in Hsub2.
  destruct (@startMonitoring_single env (fst (Server.startMonitoring env w)) x id2
              (Hfind _) Hsub2) as (Hs2 & Hu2).
  rewrite Hs1 in Hs2. cbn [Server.mapSet] in Hs2. rewrite String.eqb_refl in Hs2.
  destruct (stopMonitoring_spec env (fst (Server.startMonitoring env
                                            (fst (Server.startMonitoring env w)))))
    as (Hs3 & _ & _ & _ & _ & _ & calls & Hu3 & Hids).
  rewrite Hs2 in Hids. cbn [map snd] in Hids.
  destruct calls as [|call [|call' calls]]; try discriminate.
  unfold Server.getStatus. cbn [Server.walletsCount]. rewrite Hs1, Hs2, Hs3.
  repeat split; try reflexivity.
  - rewrite Hu2, Hu1, <- app_assoc. reflexivity.
  - exists call. split; [exact Hu3|]. cbn [map] in Hids. congruence.
Qed.

Lemma start_twice_witness :
  let w := Server.newWorld [] (fun _ => Server.healthy) in
  let w2 := fst (Server.startMonitoring Server.oneWallet
                   (fst (Server.startMonitoring Server.oneWallet w))) in
  Server.walletsCount (Server.getStatus w2) = 1 /\
  Server.walletsCount (Server.getStatus (fst (Server.stopMonitoring Server.oneWallet w2))) = 0.
Proof.
  cbn zeta.
  destruct (@start_twice_keeps_one_entry Server.oneWallet
              (Server.newWorld [] (fun _ => Server.healthy)) "x"%string 0 1
              eq_refl (fun _ => eq_refl) eq_refl eq_refl)
    as (_ & _ & H2 & _ & H3 & _).
  split; [exact H2 | exact H3].
Defined.




(** A broadcast that a throwing send stops prunes nothing behind it:
    connection 1 is open and its send throws, connection 2 is closed;
    [stopMonitoring] throws the error of the send and both stay registered. *)
Example stop_monitoring_aborted_broadcast :
  let w := Server.newWorld [1; 2] Server.throwingThenClosed in
  let r := Server.stopMonitoring Server.oneWallet w in
  snd r = Throw (SendError 1) /\
  Server.wsConnections (fst r) = [1; 2] /\
  Server.subscriptions (fst r) = [] /\ Server.isMonitoring (fst r) = false.
Proof. vm_compute. repeat split; reflexivity. Qed.

(** C8 as stated fails: the message [{"type":{"toString":0}}] has a type
    that is none of the supported ones, but the template literal of the
    [default:] branch cannot convert it to text and throws; the [catch]
    block answers with the invalid-format error, which lists no supported
    type. *)
Lemma unprintable_type_gets_no_list :
  let w := Server.newWorld [7] (fun _ => Server.healthy) in
  let r := Server.onMessage Server.oneWallet 7 (Some Server.unprintableMessage) w in
  Server.getProp Server.unprintableMessage "type" = Normal (Server.Val Server.unprintableType) /\
  Forall (fun label => Server.isCase (Server.Val Server.unprintableType) label = false)
         Server.supportedTypes /\
  snd r = Normal tt /\
  Server.outbox (fst r)
  = [(7, Server.errorMessage "Invalid message format. Please send valid JSON." None
                             (Some 1700000000000%Z))] /\
  Forall (fun label =>
            includes label "Invalid message format. Please send valid JSON." = false)
         Server.supportedTypes.
Proof.
  cbn zeta. split; [reflexivity|]. split; [repeat constructor|].
  split; [reflexivity|]. split; [reflexivity|]. repeat constructor.
Qed.

(** C8 (as the code has it).  Protocol round-trip, on a socket whose send
    does not throw.  A message whose [type] is [ping] is answered by a
    [pong] carrying the time.  A message whose [type] is none of the
    supported ones is answered by an [error] whose text names every
    supported type, provided the type can be converted to text: a string
    (the text holds it as it came), any other primitive or a missing type
    always can, an object can unless it has an own member named [toString];
    when the conversion throws, the answer is the invalid-format [error].
    Input that [JSON.parse] rejects, or that parses to [null], is answered
    by the invalid-format [error].  In each case the handler returns
    normally, sends exactly that reply, and leaves the connection registered
    and its socket untouched.  For every input whatsoever the handler
    returns normally, having sent a reply on the socket and changed no
    socket. *)
Theorem message_handler_replies
        (env : Server.Env) (ws : Server.WsRef) (w : Server.World)
        (data : Server.Json) (given : Server.JsValue) :
  Server.sendThrows (Server.sockets w ws) = false ->
  let invalid :=
      Server.errorMessage "Invalid message format. Please send valid JSON." None
                          (Some (Server.clock w)) in
  (Server.getProp data "type" = Normal (Server.Val (Server.JString "ping")) ->
   Server.repliesWith w ws (Server.onMessage env ws (Some data) w)
                      (Server.pong (Some (Server.clock w)))) /\
  (Server.getProp data "type" = Normal given ->
   Forall (fun label => Server.isCase given label = false) Server.supportedTypes ->
   match Server.unknownTypeText given with
   | Normal text =>
       Server.repliesWith w ws (Server.onMessage env ws (Some data) w)
         (Server.errorMessage text None (Some (Server.clock w))) /\
       Forall (fun label => includes label text = true) Server.supportedTypes
   | Throw _ =>
       Server.repliesWith w ws (Server.onMessage env ws (Some data) w) invalid
   end) /\
  (forall s,
      Server.unknownTypeText (Server.Val (Server.JString s))
      = Normal (String.append "Unknown message type: "
                  (String.append s
                     ". Supported types: ping, subscribe, request_activity, get_recent_transactions, get_status, start_monitoring, stop_monitoring"))) /\
  (forall value,
      (forall members, value <> Server.Val (Server.JObject members)) ->
      (forall elements, value <> Server.Val (Server.JArray elements)) ->
      exists text, Server.toString value = Normal text) /\
  (forall members,
      Server.toString (Server.Val (Server.JObject members))
      = if Server.hasOwn "toString" members then Throw TypeError
        else Normal "[object Object]"%string) /\
  Server.repliesWith w ws (Server.onMessage env ws None w) invalid /\
  Server.repliesWith w ws (Server.onMessage env ws (Some Server.JNull) w) invalid /\
  (forall parsed,
      snd (Server.onMessage env ws parsed w) = Normal tt /\
      Server.sockets (fst (Server.onMessage env ws parsed w)) = Server.sockets w /\
      exists before reply after,
        Server.outbox (fst (Server.onMessage env ws parsed w))
        = Server.outbox w ++ before ++ (ws, reply) :: after).
Proof.
  intros Hsend. cbn zeta.
  split; [|split; [|split; [|split; [|split; [|split; [|split]]]]]];
    [| | | | | | |intros parsed; exact (@answers_onMessage env ws parsed w Hsend)].
  - intros Htype.
    unfold Server.onMessage, Server.tryCatch, Server.bind, Server.ret, Server.logger,
      Server.modify, Server.lift, Server.sendStamped, Server.send, Server.stamp.
    rewrite Htype. cbn. rewrite Hsend. repeat split.
  - intros Htype Hnone.
    pose proof (@unknownTypeText_lists_types given) as Hlists.
    unfold Server.supportedTypes in Hnone.
    repeat match goal with
           | H : Forall _ (_ :: _) |- _ =>
               let H1 := fresh "Hcase" in
               let H2 := fresh "Hrest" in
               apply Forall_cons_iff in H; destruct H as [H1 H2]
           end.
    unfold Server.onMessage, Server.tryCatch, Server.bind, Server.ret, Server.logger,
      Server.modify, Server.lift, Server.sendStamped, Server.send, Server.stamp,
      Server.invalidFormatText.
    rewrite Htype.
    rewrite Hcase, Hcase0, Hcase1, Hcase2, Hcase3, Hcase4, Hcase5.
    destruct (Server.unknownTypeText given) as [text|e];
      cbn [Server.sockets Server.push_log Server.clock fst snd];
      rewrite Hsend; [split; [repeat split | exact (Hlists text eq_refl)] | repeat split].
  - intros s. reflexivity.
  - intros value Hobject Harray.
    destruct value as [|[| [|] | n | s | elements | members]];
      try (eexists; reflexivity).
    + exfalso. exact (Harray elements eq_refl).
    + exfalso. exact (Hobject members eq_refl).
  - intros members. reflexivity.
  - unfold Server.onMessage, Server.tryCatch, Server.bind, Server.throw, Server.logger,
      Server.modify, Server.sendStamped, Server.send, Server.stamp,
      Server.invalidFormatText.
    cbn [Server.sockets Server.push_log Server.clock fst snd].
    rewrite Hsend. repeat split.
  - unfold Server.onMessage, Server.tryCatch, Server.bind, Server.ret, Server.logger,
      Server.modify, Server.lift, Server.sendStamped, Server.send, Server.stamp,
      Server.invalidFormatText.
    cbn [Server.getProp Server.sockets Server.push_log Server.clock fst snd].
    rewrite Hsend. repeat split.
Qed.

Lemma message_handler_witness :
  let w := Server.newWorld [7] (fun _ => Server.healthy) in
  Server.repliesWith w 7 (Server.onMessage Server.oneWallet 7 (Some Server.pingMessage) w)
                     (Server.pong (Some (Server.clock w))) /\
  Server.repliesWith w 7 (Server.onMessage Server.oneWallet 7 (Some Server.bogusMessage) w)
    (Server.errorMessage
       "Unknown message type: bogus. Supported types: ping, subscribe, request_activity, get_recent_transactions, get_status, start_monitoring, stop_monitoring"
       None (Some (Server.clock w))) /\
  Server.repliesWith w 7
    (Server.onMessage Server.oneWallet 7 (Some Server.unprintableMessage) w)
    (Server.errorMessage "Invalid message format. Please send valid JSON." None
                         (Some (Server.clock w))).
Proof.
  cbn zeta. split; [|split].
  - exact (proj1 (@message_handler_replies Server.oneWallet 7
                    (Server.newWorld [7] (fun _ => Server.healthy))
                    Server.pingMessage (Server.Val (Server.JString "ping")) eq_refl)
                 eq_refl).
  - refine (proj1 (proj1 (proj2 (@message_handler_replies Server.oneWallet 7
                    (Server.newWorld [7] (fun _ => Server.healthy))
                    Server.bogusMessage (Server.Val (Server.JString "bogus")) eq_refl))
                 eq_refl _)).
    repeat constructor.
  - refine (proj1 (proj2 (@message_handler_replies Server.oneWallet 7
                    (Server.newWorld [7] (fun _ => Server.healthy))
                    Server.unprintableMessage (Server.Val Server.unprintableType) eq_refl))
                 eq_refl _).
    repeat constructor.
Defined.

(* ===================================================================== *)
(** * Part III. Further properties of the code                           *)
(* ===================================================================== *)

(** ** The rate limiter: order, recovery, budget *)

Section RateLimiterMore.
Import RateLimiter.
Variable lag : nat -> nat.

(** What an attempt with its retries leaves alone, and how many upstream
    calls it can make. *)
Lemma executeWithRetry_aux_frame fn : forall fuel retries st st' result,
  executeWithRetry_aux lag fuel fn retries st = Some (st', result) ->
  queue st' = queue st /\ processing st' = processing st /\
  settlements (trace st') = settlements (trace st) /\
  invocations st < invocations st' /\
  (retries <= maxRetries -> invocations st' <= invocations st + S (maxRetries - retries)) /\
  length (dispatchTimes (trace st'))
  = length (dispatchTimes (trace st)) + (invocations st' - invocations st) /\
  S (length (backoffs (trace st')))
  = length (backoffs (trace st)) + (invocations st' - invocations st).
Proof.
  induction fuel as [|fuel IH]; intros retries st st' result H; [discriminate|].
  cbn [executeWithRetry_aux] in H.
  destruct (call lag fn (dispatch (pace lag st))) as [st1 r] eqn:Hcall.
  destruct (@attempt_spec lag _ _ _ _ Hcall) as (_ & Hd & Hb & Hs & _ & _ & Hi & Hq & Hp).
  assert (Hbase : queue st1 = queue st /\ processing st1 = processing st /\
                  settlements (trace st1) = settlements (trace st) /\
                  invocations st < invocations st1 /\
                  (retries <= maxRetries ->
                   invocations st1 <= invocations st + S (maxRetries - retries)) /\
                  length (dispatchTimes (trace st1))
                  = length (dispatchTimes (trace st)) + (invocations st1 - invocations st) /\
                  S (length (backoffs (trace st1)))
                  = length (backoffs (trace st)) + (invocations st1 - invocations st)).
  { rewrite Hd, Hb, Hi, length_app. cbn [length].
    repeat split; try assumption; try lia. }
  destruct r as [v|error].
  - injection H as <- <-. exact Hbase.
  - destruct (isRateLimit error); cbn [andb] in H; [|injection H as <- <-; exact Hbase].
    destruct (Nat.ltb_spec retries maxRetries) as [Hlt|Hge];
      [|injection H as <- <-; exact Hbase].
    apply IH in H. destruct H as (Hq' & Hp' & Hs' & Hi' & Hle' & Hd' & Hb').
    destruct (backoff_spec lag retries st1) as (Bd & Bb & Bs & _ & Bi & Bq & Bp).
    rewrite Bd in Hd'. rewrite Bb, length_app in Hb'. cbn [length] in Hb'.
    rewrite Bi in *. rewrite Bq in Hq'. rewrite Bp in Hp'. rewrite Bs in Hs'.
    rewrite Hd, length_app in Hd'. cbn [length] in Hd'.
    repeat split; try congruence; try lia.
Qed.

Lemma sched_seq retries j :
  map (fun k => (2 ^ Z.of_nat k * 1000)%Z) (seq retries (S j))
  = (2 ^ Z.of_nat retries * 1000)%Z
      :: map (fun k => (2 ^ Z.of_nat k * 1000)%Z) (seq (retries + 1) j).
Proof. cbn [seq map]. now rewrite Nat.add_1_r. Qed.

(** A function that is turned away [j] times and then served. *)
Lemma served_after_retries fn v : forall j retries st fuel,
  retries + j <= maxRetries -> j < fuel ->
  (forall i, i < j -> exists e, fn (invocations st + i) = Rejected e /\
                                isRateLimit e = true) ->
  fn (invocations st + j) = Resolved v ->
  exists st',
    executeWithRetry_aux lag fuel fn retries st = Some (st', Resolved v) /\
    backoffs (trace st')
    = backoffs (trace st) ++ map (fun k => (2 ^ Z.of_nat k * 1000)%Z) (seq retries j) /\
    invocations st' = invocations st + S j /\
    length (dispatchTimes (trace st')) = length (dispatchTimes (trace st)) + S j.
Proof.
  induction j as [|j IH]; intros retries st fuel Hr Hfuel Hlimited Hserved;
    (destruct fuel as [|fuel]; [lia|]); cbn [executeWithRetry_aux];
    destruct (call lag fn (dispatch (pace lag st))) as [st1 r] eqn:Hcall;
    destruct (@attempt_spec lag _ _ _ _ Hcall) as (Hres & Hd & Hb & Hs & _ & _ & Hi & _).
  - rewrite Nat.add_0_r in Hserved. rewrite Hres, Hserved.
    exists st1. cbn [seq map]. rewrite app_nil_r, Hd, length_app. cbn [length].
    repeat split; try assumption; lia.
  - destruct (Hlimited 0) as (e & He & Hrate); [lia|].
    rewrite Nat.add_0_r in He. rewrite Hres, He, Hrate. cbn [andb].
    destruct (Nat.ltb_spec retries maxRetries) as [_|Hge]; [|lia].
    destruct (backoff_spec lag retries st1) as (Bd & Bb & _ & _ & Bi & _).
    destruct (IH (retries + 1) (backoff lag retries st1) fuel) as (st' & Hrun & Hb' & Hi' & Hd');
      [lia | lia | | |].
    + intros i Hlt. rewrite Bi, Hi. replace (S (invocations st) + i) with (invocations st + S i) by lia.
      apply Hlimited. lia.
    + rewrite Bi, Hi. replace (S (invocations st) + j) with (invocations st + S j) by lia.
      exact Hserved.
    + exists st'. split; [exact Hrun|].
      split; [rewrite Hb', Bb, Hb, <- app_assoc, sched_seq; reflexivity|].
      split; [rewrite Hi', Bi, Hi; lia|].
      rewrite Hd', Bd, Hd, length_app. cbn [length]. lia.
Qed.

End RateLimiterMore.

(** X1. First in, first out, on the event loop.  Whatever the callers
    submit and in whatever turns, and whatever the clock reads: at every
    point, the callers whose promise has been settled, then the caller
    whose task the worker holds, then the callers still queued, are the
    callers that called [execute], in the order they called; so no task is
    lost, none is settled twice and none overtakes another.  Upstream calls
    and timers returning, the worker empties the queue: after at most 11
    resumptions for every task not yet settled, no activation is left, the
    queue is empty, [processing] is false again and every caller has been
    settled, in the order of the calls. *)
Theorem tasks_settle_in_submission_order (clock : nat -> Z) (turns : list EventLoop.Turn) :
  let st := EventLoop.run clock turns EventLoop.create in
  let callers := map RateLimiter.caller (EventLoop.submissions turns) in
  map fst (RateLimiter.settlements (EventLoop.trace st))
  ++ map RateLimiter.caller (EventLoop.inFlight st)
  ++ map RateLimiter.caller (EventLoop.queue st)
  = callers /\
  length (EventLoop.inFlight st) <= 1 /\
  exists n,
    n <= 11 * (length (EventLoop.inFlight st) + length (EventLoop.queue st)) /\
    let st' := EventLoop.run clock (EventLoop.resumes n) st in
    EventLoop.suspended st' = [] /\
    EventLoop.queue st' = [] /\
    EventLoop.processing st' = false /\
    map fst (RateLimiter.settlements (EventLoop.trace st')) = callers.
Proof.
  intros st callers.
  destruct (@run_served clock turns EventLoop.create create_single) as [Hs Hv].
  fold st in Hs, Hv. unfold EventLoop.served in Hv. cbn [app] in Hv.
  split; [exact Hv|]. split.
  { unfold EventLoop.inFlight. rewrite length_map.
    destruct Hs as [(_ & a & ->)|(_ & -> & _)]; cbn [length]; lia. }
  destruct (@worker_drains clock _ st Hs (le_n _)) as (n & Hn & Hdone).
  exists n. split.
  { unfold EventLoop.inFlight. rewrite length_map.
    pose proof (resumptions_bound st). lia. }
  cbn zeta.
  destruct (@run_served clock (EventLoop.resumes n) st Hs) as [Hs' Hv'].
  assert (Hnone : forall k, EventLoop.submissions (EventLoop.resumes k) = []).
  { unfold EventLoop.resumes. induction k as [|k IH]; [reflexivity | exact IH]. }
  rewrite Hnone in Hv'. cbn [map] in Hv'. rewrite app_nil_r in Hv'.
  destruct Hs' as [(_ & a & Ha)|(Hoff & _ & Hq)]; [congruence|].
  split; [exact Hdone|]. split; [exact Hq|]. split; [exact Hoff|].
  unfold EventLoop.served, EventLoop.inFlight in Hv'.
  rewrite Hdone, Hq in Hv'. cbn [map app] in Hv'. rewrite app_nil_r in Hv'.
  rewrite Hv'. exact Hv.
Qed.

(** X2. Recovery: a function that is turned away with a rate-limit error [j]
    times ([j <= maxRetries = 3]) and then resolves with [v] makes
    [executeWithRetry] resolve with [v] after [j + 1] upstream calls, having
    asked for the first [j] delays of the schedule 1000, 2000, 4000 ms in
    between. *)
Theorem rate_limited_call_recovers
        (lag : nat -> nat) (fn : RateLimiter.Fn) (v j : nat) (st : RateLimiter.State) :
  j <= RateLimiter.maxRetries ->
  (forall i, i < j ->
             exists e, fn (RateLimiter.invocations st + i) = RateLimiter.Rejected e /\
                       RateLimiter.isRateLimit e = true) ->
  fn (RateLimiter.invocations st + j) = RateLimiter.Resolved v ->
  exists st',
    RateLimiter.executeWithRetry lag fn 0 st = Some (st', RateLimiter.Resolved v) /\
    RateLimiter.backoffs (RateLimiter.trace st')
    = RateLimiter.backoffs (RateLimiter.trace st)
      ++ firstn j [1000; 2000; 4000]%Z /\
    RateLimiter.invocations st' = RateLimiter.invocations st + S j /\
    length (RateLimiter.dispatchTimes (RateLimiter.trace st'))
    = length (RateLimiter.dispatchTimes (RateLimiter.trace st)) + S j.
Proof.
  intros Hj Hlimited Hserved.
  destruct (@served_after_retries lag fn v j 0 st (S (RateLimiter.maxRetries - 0)))
    as (st' & Hrun & Hb & Hi & Hd); try assumption.
  - lia.
  - exists st'. split; [exact Hrun|]. split; [|split; assumption].
    rewrite Hb. f_equal. unfold RateLimiter.maxRetries in Hj.
    destruct j as [|[|[|[|j]]]]; try reflexivity. lia.
Qed.

Lemma rate_limited_call_recovers_witness :
  exists st',
    RateLimiter.executeWithRetry RateLimiter.late7
      (fun n => if n <? 2 then RateLimiter.tooManyRequests n else RateLimiter.Resolved 7)
      0 (RateLimiter.create 5000)
    = Some (st', RateLimiter.Resolved 7) /\
    RateLimiter.backoffs (RateLimiter.trace st') = [1000; 2000]%Z.
Proof.
  destruct (@rate_limited_call_recovers RateLimiter.late7
              (fun n => if n <? 2 then RateLimiter.tooManyRequests n else RateLimiter.Resolved 7)
              7 2 (RateLimiter.create 5000))
    as (st' & Hrun & Hb & _).
  - unfold RateLimiter.maxRetries. lia.
  - intros i Hi. exists (FetchError (Some "429 Too Many Requests"%string)).
    destruct i as [|[|i]]; [split; reflexivity | split; reflexivity | lia].
  - reflexivity.
  - exists st'. split; [exact Hrun | exact Hb].
Defined.

(** X3. Retry budget: whatever the function does, [executeWithRetry] comes
    back after at least one and at most [maxRetries + 1 = 4] upstream calls;
    it asks for one backoff less than it makes calls; it settles nothing
    itself and leaves the queue and the [processing] flag alone. *)
Theorem at_most_four_upstream_calls
        (lag : nat -> nat) (fn : RateLimiter.Fn) (st : RateLimiter.State) :
  exists st' result,
    RateLimiter.executeWithRetry lag fn 0 st = Some (st', result) /\
    RateLimiter.invocations st < RateLimiter.invocations st' /\
    RateLimiter.invocations st' <= RateLimiter.invocations st + 4 /\
    length (RateLimiter.dispatchTimes (RateLimiter.trace st'))
    = length (RateLimiter.dispatchTimes (RateLimiter.trace st))
      + (RateLimiter.invocations st' - RateLimiter.invocations st) /\
    S (length (RateLimiter.backoffs (RateLimiter.trace st')))
    = length (RateLimiter.backoffs (RateLimiter.trace st))
      + (RateLimiter.invocations st' - RateLimiter.invocations st) /\
    RateLimiter.settlements (RateLimiter.trace st')
    = RateLimiter.settlements (RateLimiter.trace st) /\
    RateLimiter.queue st' = RateLimiter.queue st /\
    RateLimiter.processing st' = RateLimiter.processing st.
Proof.
  destruct (@executeWithRetry_aux_total lag fn (S (RateLimiter.maxRetries - 0)) 0 st)
    as (st' & result & Hrun); [lia|].
  exists st', result. split; [exact Hrun|].
  destruct (executeWithRetry_aux_frame _ _ _ _ _ Hrun) as (Hq & Hp & Hs & Hlt & Hle & Hd & Hb).
  unfold RateLimiter.maxRetries in Hle.
  repeat split; try assumption. lia.
Qed.

(** ** Batch syncs: the pauses, and the batch size that is not checked *)

Section SyncMore.
Import Sync.
Variable ledger : nat -> string -> Z -> bool.

Lemma batches_lt (len w m : Z) :
  (0 < w)%Z -> (m * w < len <-> m < SyncApi.batches len w)%Z.
Proof.
  intros Hw. unfold SyncApi.batches.
  pose proof (Z.mul_div_le (len + w - 1) w Hw).
  pose proof (Z.mul_succ_div_gt (len + w - 1) w Hw).
  split; intros; nia.
Qed.

Lemma bulkBody_sleeps syncId worklist limit (w i : Z) r :
  sleeps (events (bulkBody ledger syncId worklist limit w i r))
  = sleeps (events r)
    ++ (if (i + w <? Z.of_nat (length worklist))%Z then [2000%Z] else []).
Proof.
  unfold bulkBody.
  pose proof (mapBatch_spec ledger limit (slice worklist i (i + w)) r) as Hm.
  destruct (mapBatch ledger limit (slice worklist i (i + w)) r) as [r1 items].
  destruct Hm as (_ & _ & _ & Hs & _).
  destruct (tallyBulk_spec (allSettled items) (record (allSettled items) r1))
    as (_ & _ & _ & _ & He).
  cbn [emit events]. rewrite sleeps_app. cbn [sleeps]. rewrite app_nil_r.
  destruct (i + w <? Z.of_nat (length worklist))%Z; cbn [emit events].
  - rewrite sleeps_app, He. cbn [record events sleeps]. now rewrite Hs.
  - rewrite He. cbn [record events]. now rewrite Hs, app_nil_r.
Qed.

Lemma allBody_sleeps worklist (i : Z) r :
  sleeps (events (allBody ledger worklist i r))
  = sleeps (events r)
    ++ (if (i + batchSizeAll <? Z.of_nat (length worklist))%Z then [2000%Z] else []).
Proof.
  unfold allBody.
  pose proof (mapBatch_spec ledger 5 (slice worklist i (i + batchSizeAll)) r) as Hm.
  destruct (mapBatch ledger 5 (slice worklist i (i + batchSizeAll)) r) as [r1 items].
  destruct Hm as (_ & _ & _ & Hs & _).
  destruct (tallyAll_spec (allSettled items) (record (allSettled items) r1))
    as (_ & _ & _ & _ & He).
  destruct (i + batchSizeAll <? Z.of_nat (length worklist))%Z; cbn [emit events].
  - rewrite sleeps_app, He. cbn [record events sleeps]. now rewrite Hs.
  - rewrite He. cbn [record events]. now rewrite Hs, app_nil_r.
Qed.

(** A loop whose body pauses exactly when another batch follows pauses once
    less than it has batches. *)
Lemma pauses_between_batches (len w : Z) (body : Z -> Run -> Run) :
  (0 < w)%Z -> (0 <= len)%Z ->
  (forall i r, sleeps (events (body i r))
               = sleeps (events r) ++ (if (i + w <? len)%Z then [2000%Z] else [])) ->
  forall fuel r0 r,
    forStep fuel len w body 0%Z r0 = Some r ->
    sleeps (events r)
    = sleeps (events r0) ++ repeat 2000%Z (Z.to_nat (SyncApi.batches len w - 1)).
Proof.
  intros Hw Hlen Hbody fuel r0 r Hrun.
  set (Inv := fun (i : Z) (s : Run) =>
                exists j, (0 <= j)%Z /\ i = (j * w)%Z /\
                          sleeps (events s)
                          = sleeps (events r0)
                            ++ repeat 2000%Z
                                 (Z.to_nat (Z.min j (SyncApi.batches len w - 1)))).
  destruct (@forStep_rule Run Inv len w body Hw) with
    (fuel := S (Z.to_nat len + fuel)) (i := 0%Z) (s := r0)
    as (j & r' & Hrun' & Hj & (m & Hm & -> & Hs)).
  - intros i s Hi (m & Hm & -> & Hs). exists (m + 1)%Z.
    split; [lia|]. split; [lia|]. rewrite Hbody, Hs, <- app_assoc. f_equal.
    pose proof (proj1 (batches_lt len m Hw)) as Hlt.
    destruct (Z.ltb_spec (m * w + w) len) as [Hmore|Hlast].
    + assert (m + 1 < SyncApi.batches len w)%Z by (apply batches_lt; [exact Hw | lia]).
      rewrite !Z.min_l by lia. rewrite Z2Nat.inj_add by lia.
      rewrite repeat_app. reflexivity.
    + assert (~ (m + 1 < SyncApi.batches len w)%Z)
        by (intros Hc; apply batches_lt in Hc; [lia | exact Hw]).
      assert (m < SyncApi.batches len w)%Z by (apply Hlt; lia).
      rewrite Z.min_r by lia. rewrite Z.min_r by lia. now rewrite app_nil_r.
  - lia.
  - lia.
  - exists 0%Z. split; [lia|]. split; [lia|].
    destruct (Z.min_spec 0 (SyncApi.batches len w - 1)) as [[_ ->]|[Hle ->]].
    + now rewrite app_nil_r.
    + replace (Z.to_nat (SyncApi.batches len w - 1)) with 0 by lia. now rewrite app_nil_r.
  - apply forStep_fuel_mono with (fuel' := S (Z.to_nat len + fuel)) in Hrun; [|lia].
    rewrite Hrun in Hrun'. injection Hrun' as <-. rewrite Hs. f_equal. f_equal.
    assert (~ (m < SyncApi.batches len w)%Z)
      by (intros Hc; apply batches_lt in Hc; [lia | exact Hw]).
    rewrite Z.min_r by lia. reflexivity.
Qed.

End SyncMore.

(** X4. Pauses between batches: a batch sync waits 2000 ms after every batch
    but the last and at no other time, so the number of pauses is the
    number of batches less one (none for an empty worklist);
    [performBulkSync] in batches of any positive size,
    [syncAllWalletTransactions] in batches of 5. *)
Theorem one_pause_between_batches
        (ledger : nat -> string -> Z -> bool) (worklist : list string)
        (syncId : string) (transactionsPerWallet batchSize : Z) (fuel : nat) :
  (0 < batchSize)%Z ->
  (forall r, Sync.performBulkSync ledger fuel syncId worklist
                                  transactionsPerWallet batchSize = Some r ->
             Sync.sleeps (Sync.events r)
             = repeat 2000%Z
                 (Z.to_nat (SyncApi.batches (Z.of_nat (length worklist)) batchSize - 1)))
  /\
  (forall r c, Sync.syncAllWalletTransactions ledger fuel (Some worklist) = Some (r, c) ->
               Sync.sleeps (Sync.events r)
               = repeat 2000%Z
                   (Z.to_nat (SyncApi.batches (Z.of_nat (length worklist)) 5 - 1))).
Proof.
  intros Hw. split.
  - intros r. unfold Sync.performBulkSync.
    destruct (forStep fuel _ batchSize _ 0%Z _) as [r1|] eqn:Hrun; [|discriminate].
    intros [= <-]. cbn [Sync.emit Sync.events]. rewrite sleeps_app.
    cbn [Sync.sleeps]. rewrite app_nil_r.
    apply pauses_between_batches in Hrun; [exact Hrun | exact Hw | lia |].
    intros i r. apply bulkBody_sleeps.
  - intros r c. unfold Sync.syncAllWalletTransactions.
    destruct (forStep fuel _ Sync.batchSizeAll _ 0%Z _) as [r1|] eqn:Hrun; [|discriminate].
    intros [= <- _]. cbn [Sync.emit Sync.events]. rewrite sleeps_app.
    cbn [Sync.sleeps]. rewrite app_nil_r.
    apply pauses_between_batches in Hrun; [exact Hrun | reflexivity | lia |].
    intros i r. apply allBody_sleeps.
Qed.

Lemma one_pause_between_batches_witness :
  option_map (fun r => Sync.sleeps (Sync.events r))
             (Sync.performBulkSync Sync.ledger_3_9_20 24 "sync_1"
                                   (Sync.sampleWorklist 23) 100 5)
  = Some [2000; 2000; 2000; 2000]%Z.
Proof.
  destruct (Sync.performBulkSync Sync.ledger_3_9_20 24 "sync_1"
                                 (Sync.sampleWorklist 23) 100 5) as [r|] eqn:Hrun.
  - cbn [option_map]. f_equal.
    exact (proj1 (@one_pause_between_batches Sync.ledger_3_9_20 (Sync.sampleWorklist 23)
                    "sync_1"%string 100%Z 5%Z 24 eq_refl) r Hrun).
  - vm_compute in Hrun. discriminate.
Defined.

(** X5. The batch size of a historical sync is not checked: a request that
    names at least one wallet and a batch size of zero or less is answered
    'Historical sync started', and the job it schedules never ends: however
    long it is run, [performBulkSync] does not return. *)
Theorem nonpositive_batch_size_never_ends
        (ledger : nat -> string -> Z -> bool) (now : Z)
        (getAllWallets : Completion (list Discovery.Wallet))
        (transactionsPerWallet : option Z) (batchSize : Z)
        (address : string) (others : list string) :
  (batchSize <= 0)%Z ->
  exists job,
    SyncApi.syncHistoricalData now getAllWallets
      {| SyncApi.transactionsPerWallet := transactionsPerWallet;
         SyncApi.batchSize := Some batchSize;
         SyncApi.walletAddresses := Some (address :: others) |}
    = (SyncApi.Started (SyncApi.syncIdAt now) (S (length others)), Some job, false) /\
    SyncApi.job_walletAddresses job = address :: others /\
    SyncApi.job_batchSize job = batchSize /\
    forall fuel, SyncApi.run ledger fuel job = None.
Proof.
  intros Hw.
  exists {| SyncApi.job_syncId := SyncApi.syncIdAt now;
            SyncApi.job_walletAddresses := address :: others;
            SyncApi.job_transactionsPerWallet := SyncApi.orDefault 100%Z transactionsPerWallet;
            SyncApi.job_batchSize := batchSize |}.
  split; [reflexivity|]. split; [reflexivity|].
  split; [reflexivity|]. intros fuel.
  unfold SyncApi.run, Sync.performBulkSync.
  cbn [SyncApi.job_syncId SyncApi.job_walletAddresses SyncApi.job_transactionsPerWallet
       SyncApi.job_batchSize].
  rewrite forStep_stuck; [reflexivity | exact Hw | cbn [length]; lia].
Qed.

Lemma nonpositive_batch_size_never_ends_witness :
  exists job,
    SyncApi.syncHistoricalData 1700000000000 (Normal [])
      {| SyncApi.transactionsPerWallet := None;
         SyncApi.batchSize := Some 0%Z;
         SyncApi.walletAddresses := Some ["A"; "B"]%string |}
    = (SyncApi.Started (SyncApi.syncIdAt 1700000000000) 2, Some job, false) /\
    forall fuel, SyncApi.run Sync.ledger_3_9_20 fuel job = None.
Proof.
  destruct (@nonpositive_batch_size_never_ends Sync.ledger_3_9_20 1700000000000
              (Normal []) None 0 "A"%string ["B"%string])
    as (job & Hreply & _ & _ & Hnever); [lia|].
  exists job. split; [exact Hreply | exact Hnever].
Defined.

(** X6. A historical sync accounts for the wallets it reports.  With a
    positive batch size (5 when the field is absent), a request is answered
    'Historical sync started' with a positive [walletsCount] and a job whose
    worklist is the addresses named in the request, in which case the
    store is not asked, or else the addresses of the wallets that
    [getAllWallets] returns, in that order; run long enough, the job
    attempts exactly that worklist and its success and failure counts add
    up to [walletsCount].  Otherwise no job is scheduled: 400 when there is
    no wallet either way, 500 when the store fails. *)
Theorem historical_sync_accounts_for_reported_wallets
        (ledger : nat -> string -> Z -> bool) (now : Z)
        (getAllWallets : Completion (list Discovery.Wallet)) (body : SyncApi.Body) :
  (0 < SyncApi.orDefault 5 (SyncApi.batchSize body))%Z ->
  let named := SyncApi.orDefault [] (SyncApi.walletAddresses body) in
  match SyncApi.syncHistoricalData now getAllWallets body with
  | (SyncApi.Started syncId walletsCount, Some job, asked) =>
      0 < walletsCount /\
      (named <> [] /\ asked = false /\ SyncApi.job_walletAddresses job = named \/
       named = [] /\ asked = true /\
       exists wallets, getAllWallets = Normal wallets /\
                       SyncApi.job_walletAddresses job = map Discovery.address wallets) /\
      forall fuel, walletsCount < fuel ->
        exists r, SyncApi.run ledger fuel job = Some r /\
                  Sync.attempted (Sync.events r) = SyncApi.job_walletAddresses job /\
                  Sync.successCount r + Sync.failedCount r = walletsCount
  | (SyncApi.NoWalletsFound, None, asked) =>
      named = [] /\ asked = true /\ getAllWallets = Normal []
  | (SyncApi.FailedToStart, None, asked) =>
      named = [] /\ asked = true /\ exists e, getAllWallets = Throw e
  | _ => False
  end.
Proof.
  intros Hw named.
  assert (Hjob : forall worklist fuel,
             length worklist < fuel ->
             exists r,
               SyncApi.run ledger fuel
                 {| SyncApi.job_syncId := SyncApi.syncIdAt now;
                    SyncApi.job_walletAddresses := worklist;
                    SyncApi.job_transactionsPerWallet :=
                      SyncApi.orDefault 100%Z (SyncApi.transactionsPerWallet body);
                    SyncApi.job_batchSize := SyncApi.orDefault 5%Z (SyncApi.batchSize body) |}
               = Some r /\
               Sync.attempted (Sync.events r) = worklist /\
               Sync.successCount r + Sync.failedCount r = length worklist).
  { intros worklist fuel Hfuel. unfold SyncApi.run.
    cbn [SyncApi.job_syncId SyncApi.job_walletAddresses
         SyncApi.job_transactionsPerWallet SyncApi.job_batchSize].
    destruct (@performBulkSync_returns ledger (SyncApi.syncIdAt now) worklist
                (SyncApi.orDefault 100%Z (SyncApi.transactionsPerWallet body))
                _ fuel Hw Hfuel) as (r & Hrun).
    exists r. split; [exact Hrun|].
    apply performBulkSync_complete, processed_all in Hrun.
    destruct Hrun as (_ & Ha & Hsum & _). auto. }
  unfold SyncApi.syncHistoricalData. fold named.
  destruct named as [|a named'] eqn:Hnamed.
  - cbn [length Nat.ltb Nat.leb].
    destruct getAllWallets as [[|w ws]|e]; cbn [map length Nat.eqb].
    + auto.
    + split; [lia|]. split.
      * right. split; [reflexivity|]. split; [reflexivity|].
        exists (w :: ws). split; reflexivity.
      * intros fuel Hfuel.
        destruct (Hjob (map Discovery.address (w :: ws)) fuel) as (r & Hrun & Ha & Hsum);
          [cbn [map length]; lia|].
        exists r. split; [exact Hrun|]. split; [exact Ha|]. exact Hsum.
    + repeat split. now exists e.
  - cbn [length Nat.ltb Nat.leb Nat.eqb].
    split; [lia|]. split.
    + left. split; [discriminate|]. split; reflexivity.
    + intros fuel Hfuel.
      destruct (Hjob (a :: named') fuel) as (r & Hrun & Ha & Hsum); [exact Hfuel|].
      exists r. auto.
Qed.

Lemma historical_sync_accounts_for_reported_wallets_witness :
  exists job r,
    snd (fst (SyncApi.syncHistoricalData 1700000000000 (Throw DatabaseError)
                {| SyncApi.transactionsPerWallet := None;
                   SyncApi.batchSize := Some 2%Z;
                   SyncApi.walletAddresses := Some ["A"; "B"; "C"]%string |}))
    = Some job /\
    SyncApi.run Sync.ledger_3_9_20 4 job = Some r /\
    Sync.successCount r + Sync.failedCount r = 3.
Proof.
  pose proof (@historical_sync_accounts_for_reported_wallets Sync.ledger_3_9_20
                1700000000000 (Throw DatabaseError)
                {| SyncApi.transactionsPerWallet := None;
                   SyncApi.batchSize := Some 2%Z;
                   SyncApi.walletAddresses := Some ["A"; "B"; "C"]%string |}
                eq_refl) as H.
  cbv zeta in H.
  destruct (SyncApi.syncHistoricalData 1700000000000 (Throw DatabaseError) _)
    as [[reply job] asked] eqn:Hreply.
  vm_compute in Hreply. injection Hreply as <- <- <-.
  destruct H as (_ & _ & Hrun). destruct (Hrun 4) as (r & Hr & _ & Hsum); [lia|].
  eexists. exists r. split; [reflexivity|]. split; [exact Hr | exact Hsum].
Defined.

(** ** Holder discovery: what the fallbacks return, what the store keeps *)

Section DiscoveryMore.
Import Discovery WalletService.
Variable random : nat -> Z.

Lemma slice_prefix (A : Type) (l : list A) (n : nat) :
  slice l 0 (Z.of_nat n) = firstn n l.
Proof.
  unfold slice, relativeIndex.
  destruct (Z.ltb_spec 0 0); [lia|]. destruct (Z.ltb_spec (Z.of_nat n) 0); [lia|].
  rewrite (Z.min_l 0) by lia. cbn [Z.to_nat skipn].
  destruct (Nat.le_gt_cases n (length l)) as [Hle|Hgt].
  - f_equal. lia.
  - rewrite (firstn_all2 (n := n)) by lia. apply firstn_all2. lia.
Qed.

(** What [firstNonEmpty] returns is empty, or the non-empty result of the
    first method that had one. *)
Lemma firstNonEmpty_first methods :
  firstNonEmpty methods = [] \/
  exists before rest,
    methods = before ++ Normal (firstNonEmpty methods) :: rest /\
    Forall yieldsNothing before /\ firstNonEmpty methods <> [].
Proof.
  induction methods as [|c methods IH]; [now left|].
  destruct c as [[|h l]|e]; cbn [firstNonEmpty length Nat.ltb Nat.leb].
  - destruct IH as [IH|(before & rest & Hm & Hb & Hne)]; [now left|right].
    exists (Normal [] :: before), rest. rewrite Hm at 1.
    split; [reflexivity|]. split; [constructor; [exact I | exact Hb] | exact Hne].
  - right. exists [], methods. split; [reflexivity|]. split; [constructor | discriminate].
  - destruct IH as [IH|(before & rest & Hm & Hb & Hne)]; [now left|right].
    exists (Throw e :: before), rest. rewrite Hm at 1.
    split; [reflexivity|]. split; [constructor; [exact I | exact Hb] | exact Hne].
Qed.

Lemma parsedHolders_length accounts : length (parsedHolders accounts) <= length accounts.
Proof.
  induction accounts as [|[info|] accounts IH]; cbn [parsedHolders length]; lia.
Qed.

Lemma parsedHolders_In accounts h :
  In h (parsedHolders accounts) <-> In (Some h) accounts.
Proof.
  induction accounts as [|[info|] accounts IH]; cbn [parsedHolders In].
  - tauto.
  - rewrite IH. split; (intros [H|H]; [left; congruence | now right]).
  - rewrite IH. split; [now right | intros [H|H]; [discriminate | exact H]].
Qed.

(** Every method returns at most [limit] holders. *)
Lemma methods_bounded ledger limit result :
  In (Normal result) (methods ledger limit) -> length result <= limit.
Proof.
  unfold methods, getTokenHoldersViaTokenAccounts, getTokenHoldersViaLargestAccounts,
    getTokenHoldersViaProgramAccounts.
  intros [H|[H|[H|[]]]].
  - destruct (getTokenLargestAccounts ledger); [|discriminate].
    injection H as <-. rewrite slice_prefix, length_firstn. lia.
  - destruct (getTokenSupply ledger); [|discriminate]. injection H as <-. cbn. lia.
  - destruct (getProgramAccounts ledger); [|discriminate]. injection H as <-.
    rewrite !slice_prefix, length_firstn. lia.
Qed.

(** The program-accounts method: its second [slice] never drops a holder. *)
Lemma viaProgramAccounts_result ledger limit accounts :
  getProgramAccounts ledger = Normal accounts ->
  getTokenHoldersViaProgramAccounts ledger limit
  = Normal (sortBy byAmountDescending (parsedHolders (firstn limit accounts))).
Proof.
  intros H. unfold getTokenHoldersViaProgramAccounts. rewrite H.
  rewrite !slice_prefix. f_equal. apply firstn_all2.
  rewrite sortBy_length.
  pose proof (parsedHolders_length (firstn limit accounts)).
  rewrite length_firstn in *. lia.
Qed.

Lemma getTopTokenHolders_total nodeEnv ledger limit k :
  getTopTokenHolders random nodeEnv ledger limit k
  = Normal (if (length (getTokenHoldersWithFallback ledger limit) =? 0)%nat
            then createSampleTokenHolders random limit k
            else getTokenHoldersWithFallback ledger limit).
Proof.
  unfold getTopTokenHolders, getTopTokenHolders_try.
  now destruct (length (getTokenHoldersWithFallback ledger limit) =? 0)%nat.
Qed.

Lemma getTopTokenHolders_bounds nodeEnv ledger limit k :
  exists holders,
    getTopTokenHolders random nodeEnv ledger limit k = Normal holders /\
    length holders <= limit /\
    (0 < limit -> holders <> []).
Proof.
  rewrite getTopTokenHolders_total. eexists. split; [reflexivity|].
  unfold getTokenHoldersWithFallback.
  destruct (createSampleTokenHolders_spec random limit k) as (Hlen & _).
  destruct (firstNonEmpty_first (methods ledger limit))
    as [Hnil|(before & rest & Hm & _ & Hne)].
  - rewrite Hnil. cbn [length Nat.eqb]. rewrite Hlen. split; [lia|].
    intros Hpos Hc. rewrite Hc in Hlen. cbn in Hlen. lia.
  - remember (firstNonEmpty (methods ledger limit)) as result eqn:Hresult.
    destruct (Nat.eqb_spec (length result) 0) as [Hz|Hnz].
    + apply length_zero_iff_nil in Hz. contradiction.
    + split; [|intros _; exact Hne].
      apply (@methods_bounded ledger limit). rewrite Hm.
      apply in_or_app. right. now left.
Qed.

End DiscoveryMore.

(** *** The store *)

Section StoreFacts.
Import Discovery WalletService.

Lemma upsert_returns holder rnk table : snd (upsert holder rnk table) = rowOf holder rnk.
Proof.
  induction table as [|w table IH]; cbn [upsert]; [reflexivity|].
  destruct (address w =? owner holder)%string; [reflexivity|].
  destruct (upsert holder rnk table) as [rest' stored]. exact IH.
Qed.

Lemma upsert_lookup holder rnk table a :
  getWalletByAddress a (fst (upsert holder rnk table))
  = if (owner holder =? a)%string then Some (rowOf holder rnk)
    else getWalletByAddress a table.
Proof.
  unfold getWalletByAddress.
  induction table as [|w table IH]; cbn [upsert fst find].
  - cbn [address]. now destruct (owner holder =? a)%string.
  - destruct (String.eqb_spec (address w) (owner holder)) as [Heq|Hne]; cbn [fst find].
    + cbn [address]. rewrite Heq. now destruct (owner holder =? a)%string.
    + destruct (upsert holder rnk table) as [rest' stored]. cbn [fst find] in *.
      destruct (String.eqb_spec (address w) a) as [Ha|Ha].
      * destruct (String.eqb_spec (owner holder) a); [congruence | reflexivity].
      * exact IH.
Qed.

Lemma upsert_addresses holder rnk table :
  map address (fst (upsert holder rnk table))
  = if existsb (fun w => (address w =? owner holder)%string) table
    then map address table
    else map address table ++ [owner holder].
Proof.
  induction table as [|w table IH]; cbn [upsert fst map existsb app]; [reflexivity|].
  destruct (String.eqb_spec (address w) (owner holder)) as [Heq|Hne]; cbn [fst map orb].
  - cbn [address]. now rewrite Heq.
  - destruct (upsert holder rnk table) as [rest' stored]. cbn [fst map] in *.
    rewrite IH. now destruct (existsb _ table).
Qed.

Lemma existsb_address table a :
  existsb (fun w => (address w =? a)%string) table = true <-> In a (map address table).
Proof.
  rewrite existsb_exists, in_map_iff. split; intros (w & H1 & H2).
  - exists w. split; [|exact H1]. now apply String.eqb_eq.
  - exists w. split; [exact H2|]. now apply String.eqb_eq.
Qed.

Lemma upsert_nodup holder rnk table :
  NoDup (map address table) -> NoDup (map address (fst (upsert holder rnk table))).
Proof.
  intros Hnd. rewrite upsert_addresses.
  destruct (existsb _ table) eqn:He; [exact Hnd|].
  apply NoDup_app; [exact Hnd | repeat constructor; intros [] |].
  intros a Hin [<-|[]]. apply existsb_address in Hin. congruence.
Qed.

Lemma storeHolders_wallets : forall topHolders i table wallets,
  snd (storeHolders topHolders i table wallets)
  = wallets ++ map (fun p => rowOf (fst p) (snd p))
                   (combine topHolders (seq (i + 1) (length topHolders))).
Proof.
  induction topHolders as [|holder rest IH]; intros i table wallets;
    cbn [storeHolders length seq combine map].
  - now rewrite app_nil_r.
  - pose proof (upsert_returns holder (i + 1) table) as Hr.
    destruct (upsert holder (i + 1) table) as [table1 wallet]. cbn [snd] in Hr.
    rewrite IH, Hr, <- app_assoc. cbn [app fst snd].
    now replace (S i + 1) with (S (i + 1)) by lia.
Qed.

Lemma storeHolders_table : forall topHolders i table wallets,
  let table' := fst (storeHolders topHolders i table wallets) in
  (NoDup (map address table) -> NoDup (map address table')) /\
  (forall a, In a (map address table') <->
             In a (map address table) \/ In a (map owner topHolders)) /\
  (forall a, ~ In a (map owner topHolders) ->
             getWalletByAddress a table' = getWalletByAddress a table).
Proof.
  induction topHolders as [|holder rest IH]; intros i table wallets;
    cbn [storeHolders map In fst].
  - split; [auto|]. split; [tauto | reflexivity].
  - pose proof (upsert_nodup holder (i + 1) table) as Hnd.
    pose proof (upsert_addresses holder (i + 1) table) as Haddr.
    pose proof (upsert_lookup holder (i + 1) table) as Hlook.
    destruct (upsert holder (i + 1) table) as [table1 wallet].
    cbn [fst] in *.
    destruct (IH (S i) table1 (wallets ++ [wallet])) as (IHnd & IHin & IHlook).
    split; [auto|]. split.
    + intros a. rewrite IHin, Haddr.
      destruct (existsb _ table) eqn:He.
      * apply existsb_address in He. split; [tauto|].
        intros [H|[<-|H]]; auto.
      * rewrite in_app_iff. cbn [In]. tauto.
    + intros a Hnot. rewrite IHlook by tauto. rewrite Hlook.
      destruct (String.eqb_spec (owner holder) a); [tauto | reflexivity].
Qed.

Lemma storeHolders_lookup : forall topHolders i table wallets n h,
  NoDup (map owner topHolders) ->
  nth_error topHolders n = Some h ->
  getWalletByAddress (owner h) (fst (storeHolders topHolders i table wallets))
  = Some (rowOf h (i + n + 1)).
Proof.
  induction topHolders as [|holder rest IH]; intros i table wallets n h Hnd Hn;
    [destruct n; discriminate|].
  cbn [storeHolders]. cbn [map] in Hnd. inversion Hnd as [|? ? Hnotin Hnd']; subst.
  pose proof (upsert_lookup holder (i + 1) table (owner holder)) as Hlook.
  destruct (upsert holder (i + 1) table) as [table1 wallet]. cbn [fst] in Hlook.
  destruct n as [|n]; cbn [nth_error] in Hn.
  - injection Hn as <-.
    destruct (storeHolders_table rest (S i) table1 (wallets ++ [wallet])) as (_ & _ & Hkeep).
    rewrite Hkeep by exact Hnotin. rewrite Hlook, String.eqb_refl.
    now rewrite Nat.add_0_r.
  - rewrite (IH (S i) table1 (wallets ++ [wallet]) n h Hnd' Hn). do 2 f_equal. lia.
Qed.

(** *** Updates by address *)

Lemma update_missing a data table :
  getWalletByAddress a table = None -> update a data table = (table, Throw DatabaseError).
Proof.
  unfold getWalletByAddress.
  induction table as [|w table IH]; cbn [find update]; [reflexivity|].
  destruct (address w =? a)%string; [discriminate|]. intros H. now rewrite IH.
Qed.

Lemma deleteWallet_missing a table :
  getWalletByAddress a table = None -> deleteWallet a table = (table, Throw DatabaseError).
Proof.
  unfold getWalletByAddress.
  induction table as [|w table IH]; cbn [find deleteWallet]; [reflexivity|].
  destruct (address w =? a)%string; [discriminate|]. intros H. now rewrite IH.
Qed.

Lemma update_found a data table w :
  (forall x, address (data x) = address x) ->
  getWalletByAddress a table = Some w ->
  snd (update a data table) = Normal (data w) /\
  getWalletByAddress a (fst (update a data table)) = Some (data w) /\
  (forall b, b <> a ->
             getWalletByAddress b (fst (update a data table)) = getWalletByAddress b table) /\
  map address (fst (update a data table)) = map address table /\
  (forall data', data' (data w) = w ->
                 update a data' (fst (update a data table)) = (table, Normal w)).
Proof.
  intros Hdata. unfold getWalletByAddress.
  induction table as [|x table IH]; cbn [find update]; [discriminate|].
  destruct (String.eqb_spec (address x) a) as [Heq|Hne].
  - intros [= <-]. cbn [fst snd find update map]. rewrite Hdata.
    destruct (String.eqb_spec (address x) a) as [_|Hc]; [|contradiction].
    split; [reflexivity|]. split; [reflexivity|]. split.
    + intros b Hb. destruct (String.eqb_spec (address x) b); [congruence | reflexivity].
    + split; [reflexivity|]. intros data' Hinv. now rewrite Hinv.
  - intros Hfind. destruct (IH Hfind) as (Hs & Hl & Ho & Hm & Hr).
    destruct (update a data table) as [rest' updated]. cbn [fst snd find map update] in *.
    destruct (String.eqb_spec (address x) a) as [Hc|_]; [contradiction|].
    split; [exact Hs|]. split; [exact Hl|]. split.
    + intros b Hb. destruct (address x =? b)%string; [reflexivity | now apply Ho].
    + split; [now rewrite Hm|]. intros data' Hinv. now rewrite (Hr data' Hinv).
Qed.

Lemma getWalletByAddress_In a table w :
  getWalletByAddress a table = Some w -> In w table /\ address w = a.
Proof.
  unfold getWalletByAddress. intros H. apply find_some in H.
  destruct H as (Hin & Heq). split; [exact Hin | now apply String.eqb_eq].
Qed.

(** With unique addresses, an update touches the row of its address only. *)
Lemma update_rows a data table w0 :
  (forall x, address (data x) = address x) ->
  NoDup (map address table) ->
  getWalletByAddress a table = Some w0 ->
  forall w, In w (fst (update a data table)) <->
            w = data w0 \/ (In w table /\ address w <> a).
Proof.
  intros Hdata. unfold getWalletByAddress.
  induction table as [|x table IH]; cbn [find update map]; [discriminate|].
  intros Hnd Hfind w. inversion Hnd as [|? ? Hnotin Hnd']; subst.
  destruct (String.eqb_spec (address x) a) as [Heq|Hne].
  - injection Hfind as <-. cbn [fst In]. split.
    + intros [<-|Hin]; [now left|right]. split; [now right|].
      intros Hc. apply Hnotin. rewrite Heq, <- Hc. now apply in_map.
    + intros [->|([<-|Hin] & Hw)]; [now left | contradiction | now right].
  - specialize (IH Hnd' Hfind w).
    destruct (update a data table) as [rest' updated]. cbn [fst In] in *.
    rewrite IH. split.
    + intros [<-|[->|(Hin & Hw)]]; [right; split; [now left | exact Hne] | now left |].
      right. split; [now right | exact Hw].
    + intros [->|([<-|Hin] & Hw)]; [right; now left | now left | right; right; auto].
Qed.

Lemma getAllWallets_In table w :
  In w (getAllWallets table) <-> In w table /\ isActive w = true.
Proof.
  unfold getAllWallets. rewrite <- filter_In. split; intros H.
  - eapply Permutation_in; [symmetry; apply sortBy_perm | exact H].
  - eapply Permutation_in; [apply sortBy_perm | exact H].
Qed.

Lemma deactivate_count a table w0 :
  getWalletByAddress a table = Some w0 ->
  getWalletCount (fst (deactivateWallet a table)) + (if isActive w0 then 1 else 0)
  = getWalletCount table.
Proof.
  unfold getWalletByAddress, getWalletCount, deactivateWallet.
  induction table as [|x table IH]; cbn [find update]; [discriminate|].
  destruct (String.eqb_spec (address x) a) as [Heq|Hne].
  - intros [= <-]. cbn [fst filter set_isActive isActive].
    destruct (isActive x); cbn [length]; lia.
  - intros Hfind. specialize (IH Hfind).
    destruct (update a (set_isActive false) table) as [rest' updated].
    cbn [fst filter] in *. destruct (isActive x); cbn [length]; lia.
Qed.

End StoreFacts.

(** X7. [getTopTokenHolders] never throws, whatever the ledger answers and
    whatever the environment: the errors of the three fetch methods are
    swallowed by the fallback loop, so the [catch] block is never entered.
    It returns at most [limit] holders, and at least one when [limit] is
    positive. *)
Theorem top_holders_never_throws
        (random : nat -> Z) (nodeEnv : option string) (ledger : Discovery.Ledger)
        (limit k : nat) :
  exists holders,
    Discovery.getTopTokenHolders random nodeEnv ledger limit k = Normal holders /\
    length holders <= limit /\
    (0 < limit -> holders <> []).
Proof.
  apply getTopTokenHolders_bounds.
Qed.

(** X8. The largest-accounts method comes first: when
    [getTokenLargestAccounts] answers with at least one account and
    [limit] is positive, the holders returned are its first [limit]
    accounts in the order in which the ledger gave them; the other methods
    and the sample data play no part. *)
Theorem largest_accounts_come_first
        (random : nat -> Z) (nodeEnv : option string) (ledger : Discovery.Ledger)
        (limit k : nat) (accounts : list Discovery.TokenHolderInfo) :
  Discovery.getTokenLargestAccounts ledger = Normal accounts ->
  accounts <> [] -> 0 < limit ->
  Discovery.getTopTokenHolders random nodeEnv ledger limit k
  = Normal (firstn limit accounts).
Proof.
  intros Hledger Hne Hlimit. rewrite getTopTokenHolders_total.
  unfold Discovery.getTokenHoldersWithFallback, Discovery.methods,
    Discovery.getTokenHoldersViaTokenAccounts.
  rewrite Hledger, slice_prefix. cbn [Discovery.firstNonEmpty].
  destruct accounts as [|a accounts]; [contradiction|].
  destruct limit as [|limit]; [lia|]. reflexivity.
Qed.

Lemma largest_accounts_come_first_witness :
  Discovery.getTopTokenHolders Discovery.lcg None
    {| Discovery.getTokenLargestAccounts :=
         Normal [WalletService.holderOf "H1" 10; WalletService.holderOf "H2" 30;
                 WalletService.holderOf "H3" 20];
       Discovery.getTokenSupply := Throw (FetchError None);
       Discovery.getProgramAccounts := Normal [Some (WalletService.holderOf "H4" 99)] |}
    2 0
  = Normal [WalletService.holderOf "H1" 10; WalletService.holderOf "H2" 30].
Proof.
  apply (@largest_accounts_come_first Discovery.lcg None _ 2 0
           [WalletService.holderOf "H1" 10; WalletService.holderOf "H2" 30;
            WalletService.holderOf "H3" 20]);
    [reflexivity | discriminate | lia].
Defined.

(** X9. The program-accounts fallback: when the largest-accounts method
    yields nothing and at least one of the first [limit] program accounts
    can be parsed, the holders returned are exactly the parsed ones among
    those first [limit] accounts, by descending amount; accounts beyond the
    first [limit] are never looked at, whatever they hold, and the token
    supply call does not matter. *)
Theorem program_accounts_fallback
        (random : nat -> Z) (nodeEnv : option string) (ledger : Discovery.Ledger)
        (limit k : nat) (accounts : list (option Discovery.TokenHolderInfo)) :
  Discovery.yieldsNothing (Discovery.getTokenHoldersViaTokenAccounts ledger limit) ->
  Discovery.getProgramAccounts ledger = Normal accounts ->
  Discovery.parsedHolders (firstn limit accounts) <> [] ->
  exists holders,
    Discovery.getTopTokenHolders random nodeEnv ledger limit k = Normal holders /\
    holders = Discovery.sortBy Discovery.byAmountDescending
                (Discovery.parsedHolders (firstn limit accounts)) /\
    Sorted Discovery.amountsDescending holders /\
    Permutation (Discovery.parsedHolders (firstn limit accounts)) holders /\
    (forall h, In h holders <-> In (Some h) (firstn limit accounts)).
Proof.
  intros Hfirst Hledger Hparsed. rewrite getTopTokenHolders_total.
  unfold Discovery.getTokenHoldersWithFallback, Discovery.methods.
  rewrite (viaProgramAccounts_result ledger limit Hledger).
  set (holders := Discovery.sortBy Discovery.byAmountDescending
                    (Discovery.parsedHolders (firstn limit accounts))).
  assert (Hne : holders <> []).
  { intros Hc. apply Hparsed. apply length_zero_iff_nil.
    rewrite <- (sortBy_length Discovery.byAmountDescending). fold holders.
    now rewrite Hc. }
  assert (Hfb : Discovery.firstNonEmpty
                  [Discovery.getTokenHoldersViaTokenAccounts ledger limit;
                   Discovery.getTokenHoldersViaLargestAccounts ledger limit;
                   Normal holders] = holders).
  { cbn [Discovery.firstNonEmpty].
    assert (Hlast : (if 0 <? length holders then holders else []) = holders)
      by (destruct holders; [contradiction | reflexivity]).
    unfold Discovery.getTokenHoldersViaLargestAccounts.
    destruct (Discovery.getTokenHoldersViaTokenAccounts ledger limit) as [[|h l]|e];
      [| destruct Hfirst |];
      destruct (Discovery.getTokenSupply ledger); cbn [length Nat.ltb Nat.leb]; exact Hlast. }
  rewrite Hfb. exists holders.
  destruct (Nat.eqb_spec (length holders) 0) as [Hz|_];
    [apply length_zero_iff_nil in Hz; contradiction|].
  split; [reflexivity|]. split; [reflexivity|].
  split; [apply sortBy_sorted|]. split; [apply sortBy_perm|].
  intros h. rewrite <- parsedHolders_In. split; intros Hin.
  - eapply Permutation_in; [symmetry; apply sortBy_perm | exact Hin].
  - eapply Permutation_in; [apply sortBy_perm | exact Hin].
Qed.

Lemma program_accounts_fallback_witness :
  Discovery.getTopTokenHolders Discovery.lcg None
    {| Discovery.getTokenLargestAccounts := Throw (FetchError None);
       Discovery.getTokenSupply := Normal tt;
       Discovery.getProgramAccounts :=
         Normal [Some (WalletService.holderOf "H1" 10); None;
                 Some (WalletService.holderOf "H2" 30);
                 Some (WalletService.holderOf "H3" 99)] |}
    3 0
  = Normal [WalletService.holderOf "H2" 30; WalletService.holderOf "H1" 10].
Proof.
  destruct (@program_accounts_fallback Discovery.lcg None
              {| Discovery.getTokenLargestAccounts := Throw (FetchError None);
                 Discovery.getTokenSupply := Normal tt;
                 Discovery.getProgramAccounts :=
                   Normal [Some (WalletService.holderOf "H1" 10); None;
                           Some (WalletService.holderOf "H2" 30);
                           Some (WalletService.holderOf "H3" 99)] |}
              3 0 _ I eq_refl)
    as (holders & Hrun & Heq & _); [discriminate|].
  rewrite Hrun, Heq. reflexivity.
Defined.

(** X10. What discovery returns: [discoverTopHolders] returns one wallet
    per holder that [getTopTokenHolders] gave, in the same order; the
    wallet at position [i] has the holder's address, the holder's
    [uiAmount] as both balance and token amount, rank [i + 1], and is
    active.  There are at most [limit] of them. *)
Theorem discovery_ranks_holders_in_order
        (random : nat -> Z) (nodeEnv : option string) (ledger : Discovery.Ledger)
        (limit k : nat) (table : list Discovery.Wallet) :
  exists holders,
    Discovery.getTopTokenHolders random nodeEnv ledger limit k = Normal holders /\
    snd (Discovery.discoverTopHolders random nodeEnv ledger limit k table)
    = Normal (map (fun p => WalletService.rowOf (fst p) (snd p))
                  (combine holders (seq 1 (length holders)))) /\
    length holders <= limit.
Proof.
  destruct (getTopTokenHolders_bounds random nodeEnv ledger limit k)
    as (holders & Hrun & Hlen & _).
  exists holders. split; [exact Hrun|].
  unfold Discovery.discoverTopHolders. rewrite Hrun.
  pose proof (storeHolders_wallets holders 0 table []) as Hw.
  destruct (Discovery.storeHolders holders 0 table []) as [table' wallets].
  cbn [snd app] in *. split; [now rewrite Hw | exact Hlen].
Qed.

(** X11. Discovery keeps the wallet table well formed: addresses stay
    unique; no row is ever removed; and a wallet that is not among the
    holders just found is left exactly as it was, with its old rank and
    still active if it was. *)
Theorem discovery_keeps_the_table_well_formed
        (random : nat -> Z) (nodeEnv : option string) (ledger : Discovery.Ledger)
        (limit k : nat) (table : list Discovery.Wallet) :
  NoDup (map Discovery.address table) ->
  let table' := fst (Discovery.discoverTopHolders random nodeEnv ledger limit k table) in
  exists holders,
    Discovery.getTopTokenHolders random nodeEnv ledger limit k = Normal holders /\
    NoDup (map Discovery.address table') /\
    (forall a, In a (map Discovery.address table') <->
               In a (map Discovery.address table) \/ In a (map Discovery.owner holders)) /\
    (forall a, ~ In a (map Discovery.owner holders) ->
               WalletService.getWalletByAddress a table'
               = WalletService.getWalletByAddress a table).
Proof.
  intros Hnd.
  destruct (getTopTokenHolders_bounds random nodeEnv ledger limit k)
    as (holders & Hrun & _).
  exists holders. split; [exact Hrun|].
  unfold Discovery.discoverTopHolders. rewrite Hrun.
  destruct (storeHolders_table holders 0 table []) as (Hn & Hin & Hkeep).
  destruct (Discovery.storeHolders holders 0 table []) as [table' wallets].
  cbn [fst] in *. auto.
Qed.

Lemma discovery_keeps_the_table_well_formed_witness :
  NoDup (map Discovery.address
             (fst (Discovery.discoverTopHolders Discovery.lcg None Discovery.emptyLedger
                     3 0 WalletService.sampleTable))).
Proof.
  destruct (@discovery_keeps_the_table_well_formed Discovery.lcg None Discovery.emptyLedger
              3 0 WalletService.sampleTable)
    as (holders & _ & Hnd & _); [|exact Hnd].
  repeat constructor; cbn; intuition discriminate.
Defined.

(** X12. Store and look up: when the holders found have distinct addresses,
    then after [discoverTopHolders] the wallet looked up by the address of
    the holder at position [n] is the row written for it: that address, the
    holder's [uiAmount] as balance and token amount, rank [n + 1], active;
    whatever the table held for that address before. *)
Theorem discovered_holder_is_found_by_address
        (random : nat -> Z) (nodeEnv : option string) (ledger : Discovery.Ledger)
        (limit k : nat) (table : list Discovery.Wallet)
        (holders : list Discovery.TokenHolderInfo) (n : nat)
        (h : Discovery.TokenHolderInfo) :
  Discovery.getTopTokenHolders random nodeEnv ledger limit k = Normal holders ->
  NoDup (map Discovery.owner holders) ->
  nth_error holders n = Some h ->
  WalletService.getWalletByAddress (Discovery.owner h)
    (fst (Discovery.discoverTopHolders random nodeEnv ledger limit k table))
  = Some {| Discovery.address := Discovery.owner h;
            Discovery.balance := Discovery.uiAmount h;
            Discovery.tokenAmount := Discovery.uiAmount h;
            Discovery.rank := Some (n + 1);
            Discovery.isActive := true |}.
Proof.
  intros Hrun Hnd Hn. unfold Discovery.discoverTopHolders. rewrite Hrun.
  pose proof (storeHolders_lookup holders 0 table [] n Hnd Hn) as Hl.
  destruct (Discovery.storeHolders holders 0 table []) as [table' wallets].
  cbn [fst] in *. exact Hl.
Qed.

Lemma discovered_holder_is_found_by_address_witness :
  WalletService.getWalletByAddress "W2"
    (fst (Discovery.discoverTopHolders Discovery.lcg None
            {| Discovery.getTokenLargestAccounts :=
                 Normal [WalletService.holderOf "W9" 70; WalletService.holderOf "W2" 40];
               Discovery.getTokenSupply := Normal tt;
               Discovery.getProgramAccounts := Normal [] |}
            5 0 WalletService.sampleTable))
  = Some {| Discovery.address := "W2";
            Discovery.balance := Qmake 40 1000000000;
            Discovery.tokenAmount := Qmake 40 1000000000;
            Discovery.rank := Some 2;
            Discovery.isActive := true |}.
Proof.
  apply (@discovered_holder_is_found_by_address Discovery.lcg None _ 5 0
           WalletService.sampleTable
           [WalletService.holderOf "W9" 70; WalletService.holderOf "W2" 40] 1
           (WalletService.holderOf "W2" 40)).
  - reflexivity.
  - repeat constructor; cbn; intuition discriminate.
  - reflexivity.
Defined.

(** X13. Updates by address.  For an address that has no row,
    [activateWallet], [deactivateWallet], [updateWalletBalance] and
    [deleteWallet] all reject and leave the table as it is.  For an
    address that has a row, [deactivateWallet] returns that row with
    [isActive] false, the row is what a lookup then finds, and every other
    address looks up as before; [activateWallet] afterwards returns a row
    with the address, balance, token amount and rank that the row had
    before both updates and with [isActive] true, that row is what a lookup
    then finds, and every other address still looks up as at the start.
    (Both updates also set the row's [updatedAt] to the time of the update;
    the rows of this development do not keep that field, so nothing is
    said of it.) *)
Theorem wallet_updates_by_address (a : string) (table : list Discovery.Wallet) (bal amt : Q) :
  match WalletService.getWalletByAddress a table with
  | None =>
      WalletService.activateWallet a table = (table, Throw DatabaseError) /\
      WalletService.deactivateWallet a table = (table, Throw DatabaseError) /\
      WalletService.updateWalletBalance a bal amt table = (table, Throw DatabaseError) /\
      WalletService.deleteWallet a table = (table, Throw DatabaseError)
  | Some w =>
      let table' := fst (WalletService.deactivateWallet a table) in
      let table'' := fst (WalletService.activateWallet a table') in
      snd (WalletService.deactivateWallet a table)
      = Normal (WalletService.set_isActive false w) /\
      WalletService.getWalletByAddress a table'
      = Some (WalletService.set_isActive false w) /\
      (forall b, b <> a -> WalletService.getWalletByAddress b table'
                           = WalletService.getWalletByAddress b table) /\
      exists back,
        snd (WalletService.activateWallet a table') = Normal back /\
        Discovery.address back = Discovery.address w /\
        Discovery.balance back = Discovery.balance w /\
        Discovery.tokenAmount back = Discovery.tokenAmount w /\
        Discovery.rank back = Discovery.rank w /\
        Discovery.isActive back = true /\
        WalletService.getWalletByAddress a table'' = Some back /\
        (forall b, b <> a -> WalletService.getWalletByAddress b table''
                             = WalletService.getWalletByAddress b table)
  end.
Proof.
  destruct (WalletService.getWalletByAddress a table) as [w|] eqn:Hfind.
  - destruct (@update_found a (WalletService.set_isActive false) table w)
      as (Hs & Hl & Ho & _ & _); [reflexivity | exact Hfind |].
    cbv zeta. split; [exact Hs|]. split; [exact Hl|]. split; [exact Ho|].
    destruct (@update_found a (WalletService.set_isActive true)
                (fst (WalletService.deactivateWallet a table))
                (WalletService.set_isActive false w))
      as (Hs' & Hl' & Ho' & _ & _); [reflexivity | exact Hl |].
    exists (WalletService.set_isActive true (WalletService.set_isActive false w)).
    split; [exact Hs'|]. do 5 (split; [reflexivity|]). split; [exact Hl'|].
    intros b Hb. unfold WalletService.activateWallet.
    rewrite (Ho' b Hb). exact (Ho b Hb).
  - unfold WalletService.activateWallet, WalletService.deactivateWallet,
      WalletService.updateWalletBalance.
    rewrite !update_missing by exact Hfind. rewrite deleteWallet_missing by exact Hfind.
    auto.
Qed.

(** X14. A deactivated wallet is no longer monitored, and only it: when
    addresses are unique, after [deactivateWallet] of an address that has a
    row, [getAllWallets] returns exactly the wallets it returned before
    that have another address, and [getWalletCount] is one less if the
    wallet was active and unchanged if it was not. *)
Theorem deactivated_wallet_leaves_the_monitored_set
        (a : string) (table : list Discovery.Wallet) (w0 : Discovery.Wallet) :
  NoDup (map Discovery.address table) ->
  WalletService.getWalletByAddress a table = Some w0 ->
  let table' := fst (WalletService.deactivateWallet a table) in
  (forall w, In w (WalletService.getAllWallets table') <->
             In w (WalletService.getAllWallets table) /\ Discovery.address w <> a) /\
  WalletService.getWalletCount table' + (if Discovery.isActive w0 then 1 else 0)
  = WalletService.getWalletCount table /\
  length (WalletService.getAllWallets table') = WalletService.getWalletCount table'.
Proof.
  intros Hnd Hfind table'. split; [|split].
  - intros w. rewrite !getAllWallets_In. unfold table', WalletService.deactivateWallet.
    rewrite (@update_rows a (WalletService.set_isActive false) table w0)
      by (assumption || reflexivity).
    split.
    + intros [[-> | (Hin & Hne)] Hact]; [discriminate | auto].
    + intros ((Hin & Hact) & Hne). auto.
  - now apply deactivate_count.
  - unfold WalletService.getAllWallets, WalletService.getWalletCount.
    apply sortBy_length.
Qed.

Lemma deactivated_wallet_leaves_the_monitored_set_witness :
  map Discovery.address
      (WalletService.getAllWallets
         (fst (WalletService.deactivateWallet "W1" WalletService.sampleTable)))
  = ["W2"%string] /\
  WalletService.getWalletCount
    (fst (WalletService.deactivateWallet "W1" WalletService.sampleTable)) + 1
  = WalletService.getWalletCount WalletService.sampleTable.
Proof.
  split; [reflexivity|].
  refine (proj1 (proj2 (@deactivated_wallet_leaves_the_monitored_set "W1"%string
                          WalletService.sampleTable _ _ eq_refl))).
  repeat constructor; cbn; intuition discriminate.
Defined.

(** ** The server: connections, requests, starting and stopping *)

Section ServerMore.
Import Server Monitor.

Ltac world_simpl :=
  cbn [wsConnections subscriptions isMonitoring sockets clock queries upstream outbox log
       set_wsConnections set_subscriptions set_isMonitoring count_query
       push_upstream push_outbox push_log fst snd].

Lemma setAdd_In ws s x : In x (setAdd ws s) <-> x = ws \/ In x s.
Proof.
  unfold setAdd. destruct (existsb (Nat.eqb ws) s) eqn:He.
  - apply existsb_exists in He. destruct He as (y & Hy & Heq).
    apply Nat.eqb_eq in Heq. subst y. split; [now right | intros [->|H]; assumption].
  - rewrite in_app_iff. cbn [In]. intuition.
Qed.

Lemma setAdd_NoDup ws s : NoDup s -> NoDup (setAdd ws s).
Proof.
  intros Hnd. unfold setAdd. destruct (existsb (Nat.eqb ws) s) eqn:He; [exact Hnd|].
  apply NoDup_app; [exact Hnd | repeat constructor; intros [] |].
  intros x Hin [<-|[]].
  assert (existsb (Nat.eqb ws) s = true) by (apply existsb_exists; exists ws; split;
    [exact Hin | apply Nat.eqb_refl]).
  congruence.
Qed.

Lemma setDelete_In ws s x : In x (setDelete ws s) <-> x <> ws /\ In x s.
Proof.
  unfold setDelete. rewrite filter_In.
  destruct (Nat.eqb_spec x ws); cbn [negb]; intuition congruence.
Qed.

Lemma setDelete_NoDup ws s : NoDup s -> NoDup (setDelete ws s).
Proof. apply NoDup_filter. Qed.

Lemma setDelete_absent ws s : ~ In ws s -> setDelete ws s = s.
Proof.
  intros Hnot. unfold setDelete. apply filter_all. intros x Hx.
  destruct (Nat.eqb_spec x ws); [subst; contradiction | reflexivity].
Qed.

Lemma setDelete_setAdd ws s : setDelete ws (setAdd ws s) = setDelete ws s.
Proof.
  unfold setAdd. destruct (existsb (Nat.eqb ws) s); [reflexivity|].
  unfold setDelete. rewrite filter_app. cbn [filter]. rewrite Nat.eqb_refl. cbn [negb].
  apply app_nil_r.
Qed.

Lemma onConnection_registers ws w :
  wsConnections (fst (onConnection ws w)) = setAdd ws (wsConnections w) /\
  sockets (fst (onConnection ws w)) = sockets w /\
  sameMonitor w (fst (onConnection ws w)).
Proof.
  unfold onConnection, bind, logger, modify, sendStamped, send. world_simpl.
  destruct (sendThrows (sockets w ws)); world_simpl; repeat split.
Qed.

Lemma onConnection_completes ws w :
  snd (onConnection ws w)
  = if sendThrows (sockets w ws) then Throw (SendError ws) else Normal tt.
Proof.
  unfold onConnection, bind, logger, modify, sendStamped, send. world_simpl.
  destruct (sendThrows (sockets w ws)); reflexivity.
Qed.

Lemma onClose_unregisters ws w :
  onClose ws w
  = (push_log info ConnectionClosed
       (set_wsConnections (setDelete ws (wsConnections w)) w), Normal tt).
Proof. reflexivity. Qed.

(** A fresh key goes to the end of a [Map]. *)
Lemma mapSet_fresh key value m :
  ~ In key (map fst m) -> mapSet key value m = m ++ [(key, value)].
Proof.
  induction m as [|[k0 v0] m IH]; cbn [mapSet map fst In app]; intros Hfresh;
    [reflexivity|].
  destruct (String.eqb_spec k0 key) as [->|Hne]; [tauto|].
  rewrite IH; tauto.
Qed.

Lemma subscribedPairs_app l1 l2 :
  subscribedPairs (l1 ++ l2) = subscribedPairs l1 ++ subscribedPairs l2.
Proof.
  induction l1 as [|[a id|a|id|id] l1 IH]; cbn [app subscribedPairs];
    [reflexivity | now rewrite IH | exact IH | exact IH | exact IH].
Qed.

Lemma subscribeAttempts_app l1 l2 :
  subscribeAttempts (l1 ++ l2) = subscribeAttempts l1 ++ subscribeAttempts l2.
Proof.
  induction l1 as [|[a id|a|id|id] l1 IH]; cbn [app subscribeAttempts];
    [reflexivity | now rewrite IH | now rewrite IH | exact IH | exact IH].
Qed.

(** The subscription loop on wallets that the registry does not hold yet:
    one subscribe call per wallet, in order, and one registry entry per call
    that returned an id, holding that id. *)
Lemma subscribeEach_registry env : forall wallets count w,
  NoDup (map Discovery.address wallets) ->
  (forall a, In a (map Discovery.address wallets) -> ~ In a (map fst (subscriptions w))) ->
  exists calls,
    upstream (fst (subscribeEach env wallets count w)) = upstream w ++ calls /\
    subscribeAttempts calls = map Discovery.address wallets /\
    subscriptions (fst (subscribeEach env wallets count w))
    = subscriptions w ++ subscribedPairs calls /\
    (forall c, In c calls -> unsubscribedId c = None).
Proof.
  induction wallets as [|wallet rest IH]; intros count w Hnd Hfresh.
  - exists []. cbn [subscribeEach]. unfold ret. cbn [fst subscribedPairs map subscribeAttempts].
    rewrite !app_nil_r. repeat split. intros c [].
  - rewrite subscribeEach_cons. cbn [map] in Hnd, Hfresh.
    apply NoDup_cons_iff in Hnd. destruct Hnd as (Hnotin & Hnd).
    destruct (onAccountChange env (upstream w) (Discovery.address wallet)) as [id|].
    + match goal with |- context [subscribeEach env rest (S count) ?w1] =>
        destruct (IH (S count) w1 Hnd) as (calls & Hup & Hatt & Hsubs & Hnone)
      end.
      { world_simpl. intros a Ha Hin. apply mapSet_keys in Hin.
        destruct Hin as [->|Hin]; [contradiction|]. apply (Hfresh a); [now right | exact Hin]. }
      revert Hup Hsubs. world_simpl.
      rewrite mapSet_fresh by (apply Hfresh; now left). intros Hup Hsubs.
      exists (Subscribed (Discovery.address wallet) id :: calls).
      split; [rewrite Hup, <- app_assoc; reflexivity|].
      split; [cbn [subscribeAttempts map]; now rewrite Hatt|].
      split; [rewrite Hsubs, <- app_assoc; reflexivity|].
      intros c [<-|Hc]; [reflexivity | now apply Hnone].
    + match goal with |- context [subscribeEach env rest count ?w1] =>
        destruct (IH count w1 Hnd) as (calls & Hup & Hatt & Hsubs & Hnone)
      end.
      { world_simpl. intros a Ha. apply Hfresh. now right. }
      revert Hup Hsubs. world_simpl. intros Hup Hsubs.
      exists (SubscribeFailed (Discovery.address wallet) :: calls).
      split; [rewrite Hup, <- app_assoc; reflexivity|].
      split; [cbn [subscribeAttempts map]; now rewrite Hatt|].
      split; [exact Hsubs|].
      intros c [<-|Hc]; [reflexivity | now apply Hnone].
Qed.

(** [startMonitoring] when the store cannot be read. *)
Lemma startMonitoring_store_down env w e :
  findWallets env (queries w) = Throw e ->
  startMonitoring env w
  = (push_log error_ ErrorStartingMonitoring
       (push_log error_ ErrorFetchingWallets
          (count_query (push_log info StartingMonitoring w))),
     Throw e).
Proof.
  intros Hfind.
  unfold startMonitoring, tryCatch, bind, logger, modify, getAllWallets, throw.
  world_simpl. rewrite Hfind. reflexivity.
Qed.

End ServerMore.

(** X15. The set of connections: starting from a set without duplicates,
    a new connection is registered once, also when it was registered
    already and also when sending the welcome throws, and the set never
    holds a connection twice.  The 'close' listener of a socket exists only
    if the welcome did not throw.  With a listener, a socket that closes is
    unregistered and nothing else is, so that a connection that opens and
    then closes leaves the set as it was before.  When the welcome throws,
    the socket has no listener: its closing changes nothing and it stays
    registered.  Neither handler touches the monitor. *)
Theorem connections_are_registered_once (ws : Server.WsRef) (hub : Monitor.Hub) :
  NoDup (Server.wsConnections (Monitor.world hub)) ->
  let connections h := Server.wsConnections (Monitor.world h) in
  let opened := Monitor.connect ws hub in
  let closed := Monitor.close ws opened in
  NoDup (connections opened) /\
  (forall x, In x (connections opened) <-> x = ws \/ In x (connections hub)) /\
  connections (Monitor.connect ws opened) = connections opened /\
  NoDup (connections closed) /\
  (In ws (Monitor.listening hub) ->
   forall x, In x (connections (Monitor.close ws hub))
             <-> x <> ws /\ In x (connections hub)) /\
  (~ In ws (Monitor.listening hub) -> Monitor.close ws hub = hub) /\
  (Server.sendThrows (Server.sockets (Monitor.world hub) ws) = false ->
   In ws (Monitor.listening opened) /\
   (forall x, In x (connections closed) <-> x <> ws /\ In x (connections hub)) /\
   (~ In ws (connections hub) -> connections closed = connections hub)) /\
  (Server.sendThrows (Server.sockets (Monitor.world hub) ws) = true ->
   ~ In ws (Monitor.listening hub) ->
   ~ In ws (Monitor.listening opened) /\ closed = opened /\ In ws (connections closed)) /\
  Server.sameMonitor (Monitor.world hub) (Monitor.world opened) /\
  Server.sameMonitor (Monitor.world hub) (Monitor.world closed).
Proof.
  intros Hnd connections opened closed.
  destruct (onConnection_registers ws (Monitor.world hub)) as (Hc & _ & Hsame).
  pose proof (onConnection_completes ws (Monitor.world hub)) as Hdone.
  assert (Hopened : connections opened = Server.setAdd ws (connections hub)) by exact Hc.
  assert (Hlisten : forall h, In ws (Monitor.listening h) ->
                      existsb (Nat.eqb ws) (Monitor.listening h) = true).
  { intros h Hin. apply existsb_exists. exists ws. split; [exact Hin | apply Nat.eqb_refl]. }
  assert (Hdeaf : forall h, ~ In ws (Monitor.listening h) ->
                    existsb (Nat.eqb ws) (Monitor.listening h) = false).
  { intros h Hnot. destruct (existsb (Nat.eqb ws) (Monitor.listening h)) eqn:He;
      [|reflexivity].
    apply existsb_exists in He. destruct He as (y & Hy & Heq).
    apply Nat.eqb_eq in Heq. subst y. contradiction. }
  assert (Hclose : forall h, connections (Monitor.close ws h) = connections h \/
                             connections (Monitor.close ws h)
                             = Server.setDelete ws (connections h)).
  { intros h. unfold Monitor.close.
    destruct (existsb (Nat.eqb ws) (Monitor.listening h)); [right | left]; reflexivity. }
  assert (Hnd1 : NoDup (connections opened)).
  { rewrite Hopened. now apply setAdd_NoDup. }
  split; [exact Hnd1|].
  split; [intros x; rewrite Hopened; apply setAdd_In|].
  split.
  { destruct (onConnection_registers ws (Monitor.world opened)) as (Hc2 & _).
    change (connections (Monitor.connect ws opened))
      with (Server.wsConnections (fst (Server.onConnection ws (Monitor.world opened)))).
    rewrite Hc2. fold (connections opened). rewrite Hopened.
    unfold Server.setAdd at 1.
    assert (He : existsb (Nat.eqb ws) (Server.setAdd ws (connections hub)) = true).
    { apply existsb_exists. exists ws. split; [apply setAdd_In; now left | apply Nat.eqb_refl]. }
    now rewrite He. }
  split.
  { subst closed. destruct (Hclose opened) as [-> | ->];
      [exact Hnd1 | now apply setDelete_NoDup]. }
  split.
  { intros Hin x. unfold Monitor.close. rewrite (Hlisten hub Hin).
    apply setDelete_In. }
  split.
  { intros Hnot. unfold Monitor.close. now rewrite (Hdeaf hub Hnot). }
  split; [|split].
  - intros Hsend. rewrite Hsend in Hdone.
    assert (Hin : In ws (Monitor.listening opened)).
    { subst opened. unfold Monitor.connect. cbn [Monitor.listening]. rewrite Hdone.
      apply setAdd_In. now left. }
    assert (Hclosed : connections closed = Server.setDelete ws (connections hub)).
    { subst closed. unfold Monitor.close. rewrite (Hlisten opened Hin).
      change (Server.setDelete ws (connections opened)
              = Server.setDelete ws (connections hub)).
      rewrite Hopened. apply setDelete_setAdd. }
    split; [exact Hin|]. split.
    + intros x. rewrite Hclosed. apply setDelete_In.
    + intros Hnot. rewrite Hclosed. now apply setDelete_absent.
  - intros Hsend Hnot. rewrite Hsend in Hdone.
    assert (Hstill : ~ In ws (Monitor.listening opened)).
    { subst opened. unfold Monitor.connect. cbn [Monitor.listening]. rewrite Hdone.
      exact Hnot. }
    assert (Hsame' : closed = opened).
    { subst closed. unfold Monitor.close. now rewrite (Hdeaf opened Hstill). }
    split; [exact Hstill|]. split; [exact Hsame'|].
    rewrite Hsame', Hopened. apply setAdd_In. now left.
  - split; [exact Hsame|]. subst closed. unfold Monitor.close.
    destruct (existsb (Nat.eqb ws) (Monitor.listening opened)); [|exact Hsame].
    cbn [Monitor.world]. rewrite onClose_unregisters. cbn [fst].
    destruct Hsame as (A1 & A2 & A3 & A4 & A5 & A6). repeat split; assumption.
Qed.

Lemma connections_are_registered_once_witness :
  let hub := Monitor.newHub [1; 2; 3] Server.twoThrowing in
  Server.wsConnections (Monitor.world (Monitor.connect 2 hub)) = [1; 2; 3] /\
  Server.wsConnections (Monitor.world (Monitor.close 7 (Monitor.connect 7 hub))) = [1; 2; 3] /\
  Server.sendThrows (Server.twoThrowing 4) = true /\
  Server.wsConnections (Monitor.world (Monitor.close 4 (Monitor.connect 4 hub)))
  = [1; 2; 3; 4].
Proof.
  cbn zeta.
  assert (Hnd : NoDup [1; 2; 3]) by (repeat constructor; cbn; intuition discriminate).
  destruct (@connections_are_registered_once 7
              (Monitor.newHub [1; 2; 3] Server.twoThrowing) Hnd)
    as (_ & _ & _ & _ & _ & _ & Hround & _).
  destruct (@connections_are_registered_once 4
              (Monitor.newHub [1; 2; 3] Server.twoThrowing) Hnd)
    as (_ & _ & _ & _ & _ & _ & _ & Hleak & _).
  split; [reflexivity|]. split.
  - apply (Hround eq_refl). cbn. intuition discriminate.
  - split; [reflexivity|].
    destruct (Hleak eq_refl) as (_ & -> & _); [cbn; intuition discriminate | reflexivity].
Defined.

(** X16. A request for a wallet's activity, on a socket whose send does not
    throw.  Without a [walletAddress] (absent, null, empty, zero or false)
    the reply is the error 'walletAddress is required for activity request'
    and the store is not queried.  Otherwise the store is asked once, for 10
    transactions of that address: when it fails, the reply is the error
    'Failed to fetch wallet activity'; when it answers, the reply is a
    [wallet_activity] message with that address and the transactions, each
    with its slot as a string.  The log line written after that reply
    converts the address to text: for an address that cannot be converted
    (an object with an own member [toString]) the conversion throws and the
    [catch] block sends the error 'Failed to fetch wallet activity' as a
    second message.  In every other case exactly one message is sent; in
    every case the handler returns normally. *)
Theorem activity_request_replies
        (env : Server.Env) (ws : Server.WsRef) (w : Server.World)
        (data : Server.Json) (walletAddress : Server.JsValue) :
  Server.sendThrows (Server.sockets w ws) = false ->
  Server.getProp data "walletAddress" = Normal walletAddress ->
  let r := Server.handleActivityRequest env ws data w in
  let failed := Server.errorMessage "Failed to fetch wallet activity" None
                                    (Some (Server.clock w)) in
  if Server.truthy walletAddress then
    Server.queries (fst r) = S (Server.queries w) /\
    match Server.getTransactions env (Server.queries w) walletAddress 10 with
    | Normal recentTransactions =>
        let activity :=
            {| Server.type := "wallet_activity";
               Server.data := Some (Server.ActivityData walletAddress
                                      (map Server.serializeTransaction recentTransactions));
               Server.message := None; Server.error := None;
               Server.timestamp := Some (Server.clock w) |} in
        match Server.toString walletAddress with
        | Normal _ => Server.repliesWith w ws r activity
        | Throw _ =>
            snd r = Normal tt /\
            Server.outbox (fst r) = Server.outbox w ++ [(ws, activity); (ws, failed)] /\
            Server.wsConnections (fst r) = Server.wsConnections w /\
            Server.sockets (fst r) = Server.sockets w
        end
    | Throw _ => Server.repliesWith w ws r failed
    end
  else
    Server.queries (fst r) = Server.queries w /\
    Server.repliesWith w ws r
      (Server.errorMessage "walletAddress is required for activity request" None
                           (Some (Server.clock w))).
Proof.
  intros Hsend Hprop. cbn zeta.
  unfold Server.handleActivityRequest, Server.tryCatch, Server.bind, Server.lift,
    Server.sendStamped, Server.send, Server.logger, Server.modify, Server.stamp,
    Server.repliesWith.
  rewrite Hprop. destruct (Server.truthy walletAddress); cbn [negb].
  - cbn [Server.sockets Server.count_query Server.queries Server.clock fst snd].
    destruct (Server.getTransactions env (Server.queries w) walletAddress 10)
      as [recentTransactions|e];
      cbn [Server.sockets Server.count_query Server.push_log]; rewrite Hsend;
      [|repeat split].
    cbn [fst snd]. destruct (Server.toString walletAddress) as [text|e];
      cbn [fst snd Server.sockets Server.push_outbox Server.push_log Server.clock
           Server.queries Server.outbox Server.wsConnections Server.count_query];
      rewrite ?Hsend;
      cbn [fst snd Server.sockets Server.push_outbox Server.push_log Server.clock
           Server.queries Server.outbox Server.wsConnections Server.count_query];
      rewrite <- ?app_assoc; repeat split.
  - rewrite Hsend. repeat split.
Qed.

Lemma activity_request_replies_witness :
  let w := Server.newWorld [1] (fun _ => Server.healthy) in
  Server.repliesWith w 1
    (Server.handleActivityRequest Monitor.storeDown 1
       (Monitor.activityRequest (Server.JString EmptyString)) w)
    (Server.errorMessage "walletAddress is required for activity request" None
                         (Some 1700000000000%Z)) /\
  map (fun sent => Server.type (snd sent))
      (Server.outbox
         (fst (Server.handleActivityRequest Server.oneWallet 1
                 (Monitor.activityRequest Server.unprintableType) w)))
  = ["wallet_activity"; "error"]%string.
Proof.
  cbn zeta. split.
  - exact (proj2 (@activity_request_replies Monitor.storeDown 1
                    (Server.newWorld [1] (fun _ => Server.healthy))
                    (Monitor.activityRequest (Server.JString EmptyString))
                    (Server.Val (Server.JString EmptyString)) eq_refl eq_refl)).
  - pose proof (@activity_request_replies Server.oneWallet 1
                  (Server.newWorld [1] (fun _ => Server.healthy))
                  (Monitor.activityRequest Server.unprintableType)
                  (Server.Val Server.unprintableType) eq_refl eq_refl) as H.
    cbv zeta in H. destruct H as (_ & _ & Hout & _). rewrite Hout. reflexivity.
Defined.

(** X17. A request for the recent transactions, on a socket whose send does
    not throw.  The limit handed to the store is the [limit] of the message
    as it came, unchecked, unless that is absent or falsy (null, 0, the
    empty string, false), in which case it is 20.  When the store answers,
    the reply is a [recent_transactions] message holding the transactions
    and their number; when it fails, the reply is the error 'Failed to fetch
    recent transactions'.  The store is asked exactly once. *)
Theorem recent_transactions_request_replies
        (env : Server.Env) (ws : Server.WsRef) (w : Server.World)
        (data : Server.Json) (given : Server.JsValue) :
  Server.sendThrows (Server.sockets w ws) = false ->
  Server.getProp data "limit" = Normal given ->
  let limit := if Server.truthy given then given else Server.Val (Monitor.number 20) in
  let r := Server.handleRecentTransactionsRequest env ws data w in
  Server.queries (fst r) = S (Server.queries w) /\
  match Server.getRecentTransactions env (Server.queries w) limit with
  | Normal recentTransactions =>
      Server.repliesWith w ws r
        {| Server.type := "recent_transactions";
           Server.data := Some (Server.RecentData
                                  (map Server.serializeTransaction recentTransactions)
                                  (length recentTransactions));
           Server.message := None; Server.error := None;
           Server.timestamp := Some (Server.clock w) |}
  | Throw _ =>
      Server.repliesWith w ws r
        (Server.errorMessage "Failed to fetch recent transactions" None
                             (Some (Server.clock w)))
  end.
Proof.
  intros Hsend Hprop. cbn zeta.
  unfold Server.handleRecentTransactionsRequest, Server.tryCatch, Server.bind, Server.lift,
    Server.sendStamped, Server.send, Server.logger, Server.modify, Server.stamp,
    Server.repliesWith.
  rewrite Hprop.
  change (Server.Val (Server.JNumber {| Server.numberValue := 20; Server.numberText := "20" |}))
    with (Server.Val (Monitor.number 20)).
  cbn [Server.sockets Server.count_query Server.queries Server.clock fst snd].
  destruct (Server.getRecentTransactions env (Server.queries w)
              (if Server.truthy given then given else Server.Val (Monitor.number 20)))
    as [recentTransactions|e];
    cbn [Server.sockets Server.count_query Server.push_log]; rewrite Hsend;
    rewrite ?length_map; repeat split.
Qed.

Lemma recent_transactions_request_replies_witness :
  let env := {| Server.findWallets := fun _ => Throw DatabaseError;
                Server.onAccountChange := fun _ _ => None;
                Server.removeAccountChangeListener := fun _ _ => true;
                Server.getTransactions := fun _ _ _ => Throw DatabaseError;
                Server.getRecentTransactions := fun _ limit =>
                  match Server.toString limit with
                  | Normal "20"%string =>
                      Normal [ {| Server.signature := "sig"; Server.slot := Some 7%Z |} ]
                  | _ => Throw DatabaseError
                  end |} in
  let w := Server.newWorld [1] (fun _ => Server.healthy) in
  map snd (Server.outbox
             (fst (Server.handleRecentTransactionsRequest env 1
                     (Monitor.recentRequest (Monitor.number 0)) w)))
  = [ {| Server.type := "recent_transactions";
         Server.data := Some (Server.RecentData
                                [ {| Server.s_signature := "sig"; Server.s_slot := "7" |} ] 1);
         Server.message := None; Server.error := None;
         Server.timestamp := Some 1700000000000%Z |} ].
Proof.
  intros env w.
  destruct (@recent_transactions_request_replies env 1 w
              (Monitor.recentRequest (Monitor.number 0)) (Server.Val (Monitor.number 0))
              eq_refl eq_refl) as (_ & Hreply).
  cbv zeta in Hreply.
  change (Server.getRecentTransactions env (Server.queries w)
            (if Server.truthy (Server.Val (Monitor.number 0))
             then Server.Val (Monitor.number 0) else Server.Val (Monitor.number 20)))
    with (Normal [ {| Server.signature := "sig"%string; Server.slot := Some 7%Z |} ])
    in Hreply.
  destruct Hreply as (_ & Hout & _). rewrite Hout. reflexivity.
Defined.

(** X18. A start that cannot read the wallets changes nothing: when the
    store fails, [startMonitoring] throws the store's error; the monitor is
    not set to monitoring, its registry is as before, no subscribe call was
    made and nothing was broadcast.  A client that asked through a
    [start_monitoring] message is sent the error 'Failed to start
    monitoring' with the text of the store's error, and nothing else. *)
Theorem failed_start_changes_nothing
        (env : Server.Env) (ws : Server.WsRef) (w : Server.World) (e : JsError)
        (data : Server.Json) :
  Server.findWallets env (Server.queries w) = Throw e ->
  (let r := Server.startMonitoring env w in
   snd r = Throw e /\
   Server.isMonitoring (fst r) = Server.isMonitoring w /\
   Server.subscriptions (fst r) = Server.subscriptions w /\
   Server.upstream (fst r) = Server.upstream w /\
   Server.outbox (fst r) = Server.outbox w /\
   Server.wsConnections (fst r) = Server.wsConnections w /\
   Server.getStatus (fst r) = Server.getStatus w) /\
  (Server.sendThrows (Server.sockets w ws) = false ->
   Server.getProp data "type" = Normal (Server.Val (Server.JString "start_monitoring")) ->
   Server.repliesWith w ws (Server.onMessage env ws (Some data) w)
     (Server.errorMessage "Failed to start monitoring" (error_message e)
                          (Some (Server.clock w))) /\
   Server.getStatus (fst (Server.onMessage env ws (Some data) w)) = Server.getStatus w).
Proof.
  intros Hfind. split.
  - cbn zeta. rewrite (startMonitoring_store_down env w Hfind). repeat split.
  - intros Hsend Htype.
    assert (E : Server.onMessage env ws (Some data) w
                = (Server.push_outbox ws
                     (Server.errorMessage "Failed to start monitoring" (error_message e)
                                          (Some (Server.clock w)))
                     (Server.push_log Server.error_ Server.ErrorStartingMonitoring
                        (Server.push_log Server.error_ Server.ErrorFetchingWallets
                           (Server.count_query
                              (Server.push_log Server.info Server.StartingMonitoring
                                 (Server.push_log Server.info Server.MessageReceived w))))),
                   Normal tt)).
    { unfold Server.onMessage.
      unfold Server.tryCatch at 1. unfold Server.bind at 1. unfold Server.ret.
      unfold Server.bind at 1. unfold Server.logger at 1. unfold Server.modify at 1.
      unfold Server.bind at 1. unfold Server.lift. rewrite Htype.
      cbn [Server.isCase String.eqb Ascii.eqb Bool.eqb].
      unfold Server.detach, Server.tryCatch at 1, Server.bind at 1.
      rewrite (@startMonitoring_store_down env _ e)
        by (cbn [Server.queries Server.push_log]; exact Hfind).
      unfold Server.sendStamped, Server.send, Server.stamp.
      cbn [Server.sockets Server.push_log Server.count_query Server.clock fst].
      rewrite Hsend. reflexivity. }
    rewrite E. unfold Server.repliesWith. repeat split.
Qed.

Lemma failed_start_changes_nothing_witness :
  let w := Server.newWorld [1] (fun _ => Server.healthy) in
  snd (Server.startMonitoring Monitor.storeDown w) = Throw DatabaseError /\
  Server.isMonitoring (fst (Server.startMonitoring Monitor.storeDown w)) = false.
Proof.
  intros w.
  destruct (@failed_start_changes_nothing Monitor.storeDown 1 w DatabaseError
              Monitor.startMessage eq_refl) as ((Hthrow & Hmon & _) & _).
  split; [exact Hthrow | exact Hmon].
Defined.

(** X19. Nothing leaks when a fresh monitor is started and then stopped:
    if the registry is empty and the wallets have distinct addresses,
    [startMonitoring] makes one subscribe call per wallet, in the order of
    the wallets, and then [stopMonitoring] makes one unsubscribe call for
    each subscription id that came back, in the same order, and for nothing
    else, whether or not those calls succeed; afterwards the registry is
    empty. *)
Theorem start_then_stop_unsubscribes_everything
        (env : Server.Env) (w : Server.World) (wallets : list Discovery.Wallet) :
  Server.subscriptions w = [] ->
  Server.findWallets env (Server.queries w) = Normal wallets ->
  NoDup (map Discovery.address wallets) ->
  let w1 := fst (Server.startMonitoring env w) in
  let w2 := fst (Server.stopMonitoring env w1) in
  exists opened closed,
    Server.upstream w1 = Server.upstream w ++ opened /\
    Monitor.subscribeAttempts opened = map Discovery.address wallets /\
    Server.subscriptions w1 = Monitor.subscribedPairs opened /\
    Server.upstream w2 = Server.upstream w1 ++ closed /\
    map Server.unsubscribedId closed
    = map (fun entry => Some (snd entry)) (Monitor.subscribedPairs opened) /\
    Server.subscriptions w2 = [].
Proof.
  intros Hempty Hfind Hnd. cbn zeta.
  destruct (startMonitoring_spec env w Hfind) as (Hsubs & Hup & _).
  set (w0 := Server.count_query (Server.push_log Server.info Server.StartingMonitoring w)) in *.
  destruct (@subscribeEach_registry env wallets 0 w0 Hnd) as (opened & Ho & Hatt & Hs & _).
  { intros a _. subst w0. cbn. rewrite Hempty. intros []. }
  destruct (stopMonitoring_spec env (fst (Server.startMonitoring env w)))
    as (Hs2 & _ & _ & _ & _ & _ & closed & Hc & Hids).
  exists opened, closed.
  assert (Hreg : Server.subscriptions (fst (Server.startMonitoring env w))
                 = Monitor.subscribedPairs opened).
  { rewrite Hsubs, Hs. subst w0. cbn. now rewrite Hempty. }
  split; [rewrite Hup, Ho; reflexivity|]. split; [exact Hatt|].
  split; [exact Hreg|]. split; [exact Hc|].
  split; [now rewrite Hids, Hreg | exact Hs2].
Qed.

Lemma start_then_stop_unsubscribes_everything_witness :
  let w := Server.newWorld [] (fun _ => Server.healthy) in
  let w1 := fst (Server.startMonitoring (Monitor.stuckListeners ["A"; "B"]%string) w) in
  let w2 := fst (Server.stopMonitoring (Monitor.stuckListeners ["A"; "B"]%string) w1) in
  exists closed,
    Server.upstream w2 = Server.upstream w1 ++ closed /\
    map Server.unsubscribedId closed = [Some 0; Some 1] /\
    Server.subscriptions w2 = [].
Proof.
  intros w w1 w2.
  destruct (@start_then_stop_unsubscribes_everything
              (Monitor.stuckListeners ["A"; "B"]%string) w
              (map Server.walletAt ["A"; "B"]%string) eq_refl eq_refl)
    as (opened & closed & Ho & _ & _ & Hc & Hids & Hs).
  { repeat constructor; cbn; intuition discriminate. }
  exists closed. split; [exact Hc|]. split; [|exact Hs].
  rewrite Hids.
  assert (Hopened : opened = [Server.Subscribed "A" 0; Server.Subscribed "B" 1]).
  { apply (app_inv_head (Server.upstream w)). rewrite <- Ho. reflexivity. }
  rewrite Hopened. reflexivity.
Defined.

(** ** The transaction store *)

Section TransactionFacts.
Import Transactions.
Variable random : nat -> Q.

Lemma findUnique_In sig table : findUnique sig table <> None <-> In sig (map signature table).
Proof.
  unfold findUnique. induction table as [|tx table IH]; cbn [find map In]; [tauto|].
  destruct (String.eqb_spec (signature tx) sig) as [Heq|Hne].
  - split; [now left | discriminate].
  - rewrite IH. tauto.
Qed.

Lemma findUnique_Some sig table tx :
  findUnique sig table = Some tx -> In tx table /\ signature tx = sig.
Proof.
  unfold findUnique. intros H. apply find_some in H. destruct H as (Hin & Heq).
  split; [exact Hin | now apply String.eqb_eq].
Qed.

Lemma findUnique_app sig table more :
  findUnique sig (table ++ more)
  = match findUnique sig table with
    | Some tx => Some tx
    | None => findUnique sig more
    end.
Proof.
  unfold findUnique. induction table as [|tx table IH]; cbn [app find]; [reflexivity|].
  destruct (signature tx =? sig)%string; [reflexivity | exact IH].
Qed.

Lemma sync_step chain sig w :
  let p := parseTransaction random chain sig w in
  Dealt chain sig w
        (match snd p with
         | Some info => fst (storeTransaction info (fst p))
         | None => fst p
         end)
        (match snd p with
         | Some info => Some (snd (storeTransaction info (fst p)))
         | None => None
         end).
Proof.
  cbn zeta. unfold parseTransaction.
  destruct (getParsedTransaction chain sig) as [[transaction|]|e] eqn:Hget;
    [| apply NotParsed; unfold parses; now rewrite Hget..].
  destruct (meta_fee transaction) as [lamports|] eqn:Hmeta;
    [| apply NotParsed; unfold parses; now rewrite Hget, Hmeta].
  assert (Hparses : parses chain sig = Some (feePayer transaction))
    by (unfold parses; now rewrite Hget, Hmeta).
  cbn [fst snd]. unfold storeTransaction.
  cbn [info_walletAddress info_signature wallets draw transactions].
  destruct (WalletService.getWalletByAddress (feePayer transaction) (wallets w))
    as [wallet|] eqn:Hwallet.
  - destruct (findUnique sig (transactions w)) as [row|] eqn:Hfind; cbn [fst snd].
    + eapply Known; eassumption.
    + eapply Stored; try eassumption; reflexivity.
  - cbn [fst snd]. now apply Orphan.
Qed.

Lemma storable_cases chain sig w w' outcome :
  Dealt chain sig w w' outcome ->
  wallets w' = wallets w /\ clock w' = clock w /\ pauses w' = pauses w /\
  (NoDup (signatures w) -> NoDup (signatures w')) /\
  (exists more, transactions w' = transactions w ++ more /\
                (stored sig w -> more = []) /\
                Forall (fun tx => signature tx = sig) more /\
                length more <= 1) /\
  (storable chain (wallets w) sig = true ->
   stored sig w' /\ exists row, outcome = Some (Returned row)) /\
  (storable chain (wallets w) sig = false ->
   transactions w' = transactions w /\ forall row, outcome <> Some (Returned row)) /\
  (orphaned chain (wallets w) sig = true <-> exists e, outcome = Some (Threw e)).
Proof.
  unfold storable, orphaned, stored, signatures.
  intros [Hparse|payer Hparse Hwallet|payer wallet row Hparse Hwallet Hfind
          |payer wallet row Hparse Hwallet Hfind Hsig Hpayer];
    rewrite Hparse; try rewrite Hwallet;
    cbn [wallets clock pauses transactions draw insert];
    (split; [reflexivity|]); (split; [reflexivity|]); (split; [reflexivity|]).
  - split; [auto|]. split; [exists []; rewrite app_nil_r; auto 6|].
    split; [discriminate|]. split; [split; [reflexivity | discriminate]|].
    split; [discriminate | intros (e & He); discriminate].
  - split; [auto|]. split; [exists []; rewrite app_nil_r; auto 6|].
    split; [discriminate|]. split; [split; [reflexivity | discriminate]|].
    split; [eauto | reflexivity].
  - split; [auto|]. split; [exists []; rewrite app_nil_r; auto 6|].
    split; [intros _; split; [rewrite Hfind; discriminate | eauto]|].
    split; [discriminate|]. split; [discriminate | intros (e & He); discriminate].
  - split.
    { intros Hnd. rewrite map_app. apply NoDup_app; [exact Hnd | repeat constructor; intros [] |].
      intros x Hx [<-|[]]. apply findUnique_In in Hx. rewrite Hsig in Hx. contradiction. }
    split.
    { exists [row]. split; [reflexivity|]. split; [intros Hst; contradiction|].
      split; [repeat constructor; exact Hsig | cbn; lia]. }
    split.
    { intros _. split; [|eauto]. rewrite findUnique_app, Hfind. unfold findUnique.
      cbn [find]. rewrite Hsig, String.eqb_refl. discriminate. }
    split; [discriminate|]. split; [discriminate | intros (e & He); discriminate].
Qed.

Lemma syncLoop_cons chain sig rest count w :
  syncLoop random chain (sig :: rest) count w
  = let p := parseTransaction random chain sig w in
    syncLoop random chain rest
      (match snd p with
       | Some info => match snd (storeTransaction info (fst p)) with
                      | Returned _ => S count
                      | Threw _ => count
                      end
       | None => count
       end)
      (sleep 100 (match snd p with
                  | Some info => fst (storeTransaction info (fst p))
                  | None => fst p
                  end)).
Proof.
  cbn [syncLoop]. cbv zeta.
  destruct (parseTransaction random chain sig w) as [w1 [info|]]; cbn [fst snd];
    [|reflexivity].
  destruct (storeTransaction info w1) as [w2 [row|e]]; reflexivity.
Qed.

Lemma stored_app sig w w' more :
  transactions w' = transactions w ++ more -> stored sig w -> stored sig w'.
Proof.
  unfold stored. intros -> H. rewrite findUnique_app.
  destruct (findUnique sig (transactions w)); [discriminate | contradiction].
Qed.

(** The loop of [syncWalletTransactions]. *)
Lemma syncLoop_spec chain : forall sigs count w,
  let r := syncLoop random chain sigs count w in
  wallets (fst r) = wallets w /\
  snd r = count + length (filter (storable chain (wallets w)) sigs) /\
  pauses (fst r) = pauses w ++ repeat 100%Z (length sigs) /\
  (NoDup (signatures w) -> NoDup (signatures (fst r))) /\
  (exists more,
      transactions (fst r) = transactions w ++ more /\
      Forall (fun tx => In (signature tx) sigs) more /\
      length more <= length (filter (storable chain (wallets w)) sigs) /\
      ((forall sig, In sig sigs -> storable chain (wallets w) sig = true -> stored sig w) ->
       more = [])) /\
  (forall sig, In sig sigs -> storable chain (wallets w) sig = true -> stored sig (fst r)).
Proof.
  induction sigs as [|sig rest IH]; intros count w; cbv zeta.
  - cbn [syncLoop fst snd filter length repeat]. rewrite Nat.add_0_r, app_nil_r.
    split; [reflexivity|]. split; [reflexivity|]. split; [reflexivity|].
    split; [auto|]. split; [|intros sig []].
    exists []. rewrite app_nil_r. auto.
  - rewrite syncLoop_cons. cbv zeta.
    pose proof (sync_step chain sig w) as Hstep. cbv zeta in Hstep.
    set (p := parseTransaction random chain sig w) in *.
    set (w2 := match snd p with
               | Some info => fst (storeTransaction info (fst p))
               | None => fst p
               end) in *.
    set (outcome := match snd p with
                    | Some info => Some (snd (storeTransaction info (fst p)))
                    | None => None
                    end) in *.
    set (count' := match snd p with
                   | Some info => match snd (storeTransaction info (fst p)) with
                                  | Returned _ => S count
                                  | Threw _ => count
                                  end
                   | None => count
                   end).
    destruct (storable_cases Hstep)
      as (Hw & _ & Hp & Hnd & (more1 & Ht & Hsame & Hsigs & Hlen) & Hyes & Hno & _).
    assert (Hcount : count' = count + (if storable chain (wallets w) sig then 1 else 0)).
    { subst count' outcome. destruct (storable chain (wallets w) sig) eqn:Hst.
      - destruct Hyes as (_ & row & Hrow); [reflexivity|].
        destruct (snd p) as [info|]; [|discriminate]. injection Hrow as ->. lia.
      - destruct Hno as (_ & Hnone); [reflexivity|].
        destruct (snd p) as [info|]; [|lia].
        destruct (snd (storeTransaction info (fst p))) as [row|e]; [|lia].
        now destruct (Hnone row). }
    destruct (IH count' (sleep 100 w2)) as (Iw & Ic & Ip & Ind & (more2 & It & Isigs & Ilen & Isame) & Ist).
    revert Iw Ic Ip Ind It Ilen Isame Ist.
    unfold signatures. cbn [sleep wallets pauses transactions]. rewrite Hw, Hp, Ht.
    intros Iw Ic Ip Ind It Ilen Isame Ist.
    split; [exact Iw|]. split.
    { rewrite Ic, Hcount. cbn [filter].
      destruct (storable chain (wallets w) sig); cbn [length]; lia. }
    split.
    { rewrite Ip. cbn [length repeat]. rewrite <- app_assoc. reflexivity. }
    split.
    { intros H. apply Ind. rewrite <- Ht. now apply Hnd. }
    split.
    { exists (more1 ++ more2). split; [rewrite It, app_assoc; reflexivity|].
      split.
      { apply Forall_app. split.
        - eapply Forall_impl; [|exact Hsigs]. intros tx ->. now left.
        - eapply Forall_impl; [|exact Isigs]. intros tx Hin. now right. }
      split.
      { rewrite length_app. cbn [filter].
        destruct (storable chain (wallets w) sig) eqn:Hst; cbn [length]; [lia|].
        destruct Hno as (Hsame' & _); [reflexivity|].
        rewrite Ht in Hsame'. rewrite <- (app_nil_r (transactions w)) in Hsame' at 2.
        apply app_inv_head in Hsame'. subst more1. cbn [length]. lia. }
      intros Hall.
      assert (H1 : more1 = []).
      { destruct (storable chain (wallets w) sig) eqn:Hst.
        - apply Hsame. apply Hall; [now left | exact Hst].
        - destruct Hno as (Hsame' & _); [reflexivity|].
          rewrite Ht in Hsame'. rewrite <- (app_nil_r (transactions w)) in Hsame' at 2.
          now apply app_inv_head in Hsame'. }
      rewrite H1. cbn [app]. apply Isame.
      intros sig' Hin Hst. unfold stored. cbn [transactions].
      change (stored sig' w2). eapply stored_app; [exact Ht|].
      apply Hall; [now right | exact Hst]. }
    intros sig' [<-|Hin] Hst.
    + destruct Hyes as (Hstored & _); [exact Hst|].
      apply (@stored_app sig w2 _ more2); [rewrite It, Ht; reflexivity | exact Hstored].
    + now apply Ist.
Qed.

(** The loop of [createSampleTransactions]. *)
Lemma sampleTransactionsLoop_spec a now : forall remaining i count w,
  let r := sampleLoop random remaining i a now count w in
  wallets (fst r) = wallets w /\ clock (fst r) = clock w /\ pauses (fst r) = pauses w /\
  (NoDup (signatures w) -> NoDup (signatures (fst r))) /\
  exists added,
    transactions (fst r) = transactions w ++ added /\
    snd r = count + length added /\
    length added <= remaining /\
    Forall (fun tx => walletAddress tx = a /\ blockTime tx = Some (timestamp tx) /\
                      exists j, (i <= j < i + Z.of_nat remaining)%Z /\
                                timestamp tx = (now - j * 3600000)%Z) added.
Proof.
  induction remaining as [|remaining IH]; intros i count w; cbv zeta.
  - cbn [sampleLoop fst snd]. do 3 (split; [reflexivity|]). split; [auto|].
    exists []. rewrite app_nil_r, Nat.add_0_r. auto.
  - cbn [sampleLoop]. cbv zeta. cbn [draw transactions draws].
    destruct (findUnique (generateRandomSignature random (draws w)) (transactions w))
      as [existing|] eqn:Hfind.
    + destruct (IH (i + 1)%Z count (draw 88 w))
        as (Iw & Ic & Ip & Ind & added & It & Is & Il & Iall).
      do 3 (split; [assumption|]). split; [exact Ind|].
      exists added. split; [exact It|]. split; [exact Is|]. split; [lia|].
      eapply Forall_impl; [|exact Iall].
      intros tx (Ha & Hb & j & Hj & Ht). split; [exact Ha|]. split; [exact Hb|].
      exists j. split; [lia | exact Ht].
    + match goal with |- context [sampleLoop random remaining (i + 1)%Z a now (S count) ?w1] =>
        destruct (IH (i + 1)%Z (S count) w1)
          as (Iw & Ic & Ip & Ind & added & It & Is & Il & Iall)
      end.
      revert Iw Ic Ip Ind It Is. unfold signatures, insert, draw.
      cbn [wallets clock pauses transactions draws]. intros Iw Ic Ip Ind It Is.
      do 3 (split; [assumption|]). split.
      { intros Hnd. apply Ind. rewrite map_app.
        apply NoDup_app; [exact Hnd | repeat constructor; intros [] |].
        intros x Hx [<-|[]]. cbn [signature] in Hx.
        apply findUnique_In in Hx. contradiction. }
      eexists (_ :: added). split; [rewrite It, <- app_assoc; reflexivity|].
      split; [rewrite Is; cbn [length]; lia|]. split; [cbn [length]; lia|].
      constructor.
      * cbn [walletAddress blockTime timestamp]. split; [reflexivity|].
        split; [reflexivity|]. exists i. split; [lia | reflexivity].
      * eapply Forall_impl; [|exact Iall].
        intros tx (Ha & Hb & j & Hj & Ht). split; [exact Ha|]. split; [exact Hb|].
        exists j. split; [lia | exact Ht].
Qed.

Lemma createSampleTransactions_adds a count w :
  let r := createSampleTransactions random a count w in
  wallets (fst r) = wallets w /\ clock (fst r) = clock w /\ pauses (fst r) = pauses w /\
  (NoDup (signatures w) -> NoDup (signatures (fst r))) /\
  exists added,
    transactions (fst r) = transactions w ++ added /\
    snd r = length added /\
    length added <= Z.to_nat count /\
    (WalletService.getWalletByAddress a (wallets w) = None -> added = []) /\
    Forall (fun tx => walletAddress tx = a /\ blockTime tx = Some (timestamp tx) /\
                      exists j, (0 <= j < Z.of_nat (Z.to_nat count))%Z /\
                                timestamp tx = (clock w - j * 3600000)%Z) added.
Proof.
  cbv zeta. unfold createSampleTransactions.
  destruct (WalletService.getWalletByAddress a (wallets w)) as [wallet|].
  - destruct (sampleTransactionsLoop_spec a (clock w) (Z.to_nat count) 0 0 w)
      as (Hw & Hc & Hp & Hnd & added & Ht & Hs & Hl & Hall).
    do 3 (split; [assumption|]). split; [exact Hnd|].
    exists added. split; [exact Ht|]. split; [exact Hs|]. split; [exact Hl|].
    split; [discriminate | exact Hall].
  - cbn [fst snd]. do 3 (split; [reflexivity|]). split; [auto|].
    exists []. rewrite app_nil_r. cbn [length]. repeat split; auto. lia.
Qed.

Lemma enhancedLoop_cons chain sig rest i total report w :
  enhancedLoop random chain (sig :: rest) i total report w
  = let p := parseTransaction random chain sig w in
    enhancedLoop random chain rest (S i) total
      (match snd p with
       | Some info =>
           match snd (storeTransaction info (fst p)) with
           | Returned _ =>
               {| processed := S (processed report); errors := errors report;
                  progress := progress report ++ [(i + 1, total)] |}
           | Threw e =>
               {| processed := processed report;
                  errors := errors report ++ [FailedToProcess sig e];
                  progress := progress report |}
           end
       | None =>
           {| processed := processed report; errors := errors report;
              progress := progress report ++ [(i + 1, total)] |}
       end)
      (let w2 := match snd p with
                 | Some info => fst (storeTransaction info (fst p))
                 | None => fst p
                 end in
       if ((i mod 10 =? 0) && (0 <? i))%nat then sleep 200 w2 else w2).
Proof.
  cbn [enhancedLoop]. cbv zeta.
  destruct (parseTransaction random chain sig w) as [w1 [info|]]; cbn [fst snd];
    [|reflexivity].
  destruct (storeTransaction info w1) as [w2 [row|e]]; reflexivity.
Qed.

(** The loop of [syncWalletTransactionsEnhanced]. *)
Lemma enhancedLoop_spec chain total : forall sigs i report w,
  let r := enhancedLoop random chain sigs i total report w in
  wallets (fst r) = wallets w /\
  (NoDup (signatures w) -> NoDup (signatures (fst r))) /\
  (exists more, transactions (fst r) = transactions w ++ more) /\
  processed (snd r) = processed report + length (filter (storable chain (wallets w)) sigs) /\
  map failedSignature (errors (snd r))
  = map failedSignature (errors report)
    ++ map Some (filter (orphaned chain (wallets w)) sigs) /\
  exists news,
    progress (snd r) = progress report ++ news /\
    length news + length (filter (orphaned chain (wallets w)) sigs) = length sigs /\
    Forall (fun call => snd call = total /\ i < fst call <= i + length sigs) news.
Proof.
  induction sigs as [|sig rest IH]; intros i report w; cbv zeta.
  - cbn [enhancedLoop fst snd filter length map]. rewrite Nat.add_0_r, !app_nil_r.
    split; [reflexivity|]. split; [auto|]. split; [exists []; now rewrite app_nil_r|].
    split; [reflexivity|]. split; [reflexivity|].
    exists []. rewrite app_nil_r. auto.
  - rewrite enhancedLoop_cons. cbv zeta.
    pose proof (sync_step chain sig w) as Hstep. cbv zeta in Hstep.
    set (p := parseTransaction random chain sig w) in *.
    set (w2 := match snd p with
               | Some info => fst (storeTransaction info (fst p))
               | None => fst p
               end) in *.
    set (outcome := match snd p with
                    | Some info => Some (snd (storeTransaction info (fst p)))
                    | None => None
                    end) in *.
    set (w3 := if ((i mod 10 =? 0) && (0 <? i))%nat then sleep 200 w2 else w2).
    match goal with |- context [enhancedLoop random chain rest (S i) total ?rep w3] =>
      set (report' := rep)
    end.
    destruct (storable_cases Hstep)
      as (Hw & _ & _ & Hnd & (more1 & Ht & _) & Hyes & Hno & Horph).
    assert (Hw3 : wallets w3 = wallets w /\ transactions w3 = transactions w2).
    { subst w3. destruct ((i mod 10 =? 0) && (0 <? i))%nat; cbn [sleep wallets transactions];
        auto. }
    destruct Hw3 as (Hw3 & Ht3).
    assert (Hreport :
              processed report'
              = processed report + (if storable chain (wallets w) sig then 1 else 0) /\
              map failedSignature (errors report')
              = map failedSignature (errors report)
                ++ (if orphaned chain (wallets w) sig then [Some sig] else []) /\
              progress report'
              = progress report
                ++ (if orphaned chain (wallets w) sig then [] else [(i + 1, total)])).
    { subst report'.
      destruct (orphaned chain (wallets w) sig) eqn:Ho.
      - destruct (proj1 Horph eq_refl) as (e & He). subst outcome.
        destruct (snd p) as [info|]; [|discriminate]. injection He as ->.
        assert (Hst : storable chain (wallets w) sig = false).
        { revert Ho. unfold storable, orphaned.
          destruct (parses chain sig); [|discriminate].
          destruct (WalletService.getWalletByAddress _ _); [discriminate | reflexivity]. }
        rewrite Hst. cbn [processed errors progress]. rewrite map_app, Nat.add_0_r, app_nil_r.
        auto.
      - assert (Hne : forall e, outcome <> Some (Threw e)).
        { intros e He. assert (Hex : exists e, outcome = Some (Threw e)) by eauto.
          apply Horph in Hex. congruence. }
        subst outcome.
        destruct (storable chain (wallets w) sig) eqn:Hst.
        + destruct Hyes as (_ & row & Hrow); [reflexivity|].
          destruct (snd p) as [info|]; [|discriminate]. injection Hrow as ->.
          cbn [processed errors progress]. rewrite app_nil_r.
          repeat split; lia.
        + destruct Hno as (_ & Hnone); [reflexivity|].
          destruct (snd p) as [info|].
          * destruct (snd (storeTransaction info (fst p))) as [row|e].
            -- now destruct (Hnone row).
            -- now destruct (Hne e).
          * cbn [processed errors progress]. rewrite app_nil_r, Nat.add_0_r. auto. }
    destruct Hreport as (Rp & Re & Rg).
    destruct (IH (S i) report' w3)
      as (Iw & Ind & (more2 & It) & Ipr & Ier & news & Ig & Ilen & Iall).
    rewrite Hw3 in *. unfold signatures in *. rewrite Ht3 in *.
    split; [exact Iw|]. split.
    { intros H. apply Ind. now apply Hnd. }
    split; [exists (more1 ++ more2); rewrite It, Ht, app_assoc; reflexivity|].
    split.
    { rewrite Ipr, Rp. cbn [filter].
      destruct (storable chain (wallets w) sig); cbn [length]; lia. }
    split.
    { rewrite Ier, Re. cbn [filter].
      destruct (orphaned chain (wallets w) sig); cbn [map]; rewrite <- app_assoc; reflexivity. }
    exists ((if orphaned chain (wallets w) sig then [] else [(i + 1, total)]) ++ news).
    split; [rewrite Ig, Rg, <- app_assoc; reflexivity|].
    split.
    { rewrite length_app. cbn [filter].
      destruct (orphaned chain (wallets w) sig); cbn [length]; lia. }
    apply Forall_app. split.
    + destruct (orphaned chain (wallets w) sig); constructor; [|constructor].
      cbn [fst snd length]. split; [reflexivity | lia].
    + eapply Forall_impl; [|exact Iall]. intros call (H1 & H2). cbn [length].
      split; [exact H1 | lia].
Qed.

End TransactionFacts.

Section ArchiveFacts.
Import Transactions.
Variable fields : Transaction -> list string.

Lemma split_length sep s : length (split sep s) = S (occurrences sep s).
Proof.
  induction s as [|c s IH]; cbn [split occurrences length]; [reflexivity|].
  destruct (Ascii.eqb c sep); cbn [length Nat.add]; [now rewrite IH|].
  destruct (split sep s) as [|first others]; cbn [length] in *; [discriminate | exact IH].
Qed.

Lemma occurrences_append c s1 s2 :
  occurrences c (String.append s1 s2) = occurrences c s1 + occurrences c s2.
Proof.
  induction s1 as [|c' s1 IH]; cbn [String.append occurrences]; [reflexivity|].
  rewrite IH. lia.
Qed.

Lemma noNewline_occurrences s : noNewline s -> occurrences (ascii_of_nat 10) s = 0.
Proof.
  unfold noNewline. induction s as [|c s IH]; cbn [list_ascii_of_string In occurrences];
    [reflexivity|].
  intros Hnot. destruct (Ascii.eqb_spec c (ascii_of_nat 10)) as [->|Hne]; [tauto|].
  rewrite IH; tauto.
Qed.

Lemma join_occurrences c sep parts :
  occurrences c sep = 0 ->
  Forall (fun part => occurrences c part = 0) parts ->
  occurrences c (join sep parts) = 0.
Proof.
  intros Hsep. induction 1 as [|part parts Hpart _ IH]; [reflexivity|].
  cbn [join]. destruct parts as [|next parts]; [exact Hpart|].
  rewrite !occurrences_append, Hpart, Hsep, IH. reflexivity.
Qed.

Lemma csvRow_one_line tx :
  Forall noNewline (fields tx) -> occurrences (ascii_of_nat 10) (csvRow fields tx) = 0.
Proof.
  intros Hall. unfold csvRow. apply join_occurrences; [reflexivity|].
  apply Forall_map. eapply Forall_impl; [|exact Hall].
  intros field Hfield. rewrite !occurrences_append, (noNewline_occurrences Hfield).
  reflexivity.
Qed.

Lemma lines_occurrences rows :
  Forall (fun row => occurrences (ascii_of_nat 10) row = 0) rows ->
  occurrences (ascii_of_nat 10) (join newline rows) = length rows - 1.
Proof.
  induction 1 as [|row rows Hrow _ IH]; [reflexivity|].
  cbn [join]. destruct rows as [|next rows]; [rewrite Hrow; reflexivity|].
  rewrite !occurrences_append, Hrow, IH. cbn [length newline occurrences].
  rewrite Ascii.eqb_refl. lia.
Qed.

Lemma In_firstn_In (A : Type) (x : A) : forall n l, In x (firstn n l) -> In x l.
Proof.
  induction n as [|n IH]; intros [|y l]; cbn [firstn In]; try tauto.
  intros [H|H]; [now left | right; now apply IH].
Qed.

Lemma exported_subset endDate table tx :
  In tx (exported endDate table) -> In tx table /\ (timestamp tx <= endDate)%Z.
Proof.
  unfold exported. intros Hin. apply In_firstn_In in Hin.
  apply (Permutation_in _ (Permutation_sym (sortBy_perm byTimestampDescending _))) in Hin.
  apply filter_In in Hin. destruct Hin as (Hin & Hle). split; [exact Hin | lia].
Qed.

Lemma exported_length endDate table :
  length (exported endDate table)
  = Nat.min (Z.to_nat 50000)
            (length (filter (fun tx => (timestamp tx <=? endDate)%Z) table)).
Proof.
  unfold exported. now rewrite length_firstn, sortBy_length.
Qed.

(** The number of lines of an archive. *)
Lemma archive_lines endDate w :
  Forall (fun tx => Forall noNewline (fields tx)) (transactions w) ->
  length (split (ascii_of_nat 10) (exportHistoricalTransactions fields endDate w))
  = 2 + (length (exported endDate (transactions w)) - 1).
Proof.
  intros Hall. rewrite split_length. unfold exportHistoricalTransactions.
  rewrite occurrences_append, lines_occurrences.
  - rewrite length_map. reflexivity.
  - apply Forall_map. apply Forall_forall. intros tx Hin.
    apply csvRow_one_line. rewrite Forall_forall in Hall. apply Hall.
    now apply exported_subset in Hin.
Qed.

Lemma filter_length_mono (A : Type) (p q : A -> bool) (l : list A) :
  (forall x, In x l -> p x = true -> q x = true) ->
  length (filter p l) <= length (filter q l).
Proof.
  induction l as [|x l IH]; intros Himp; cbn [filter]; [lia|].
  assert (IH' : length (filter p l) <= length (filter q l))
    by (apply IH; intros y Hy; apply Himp; now right).
  destruct (p x) eqn:Hp.
  - rewrite (Himp x (or_introl eq_refl) Hp). cbn [length]. lia.
  - destruct (q x); cbn [length]; lia.
Qed.

End ArchiveFacts.

(** X20. A signature is stored once.  [storeTransaction] rejects a
    transaction whose wallet is not in the table, and stores nothing.
    Otherwise it returns the row that the table holds for the signature
    afterwards; rows already there are left as they are, and signatures stay
    unique.  Storing any transaction with the same signature again, even
    one that differs in everything else, returns that same row and changes
    nothing. *)
Theorem a_signature_is_stored_once
        (info again : Transactions.TransactionInfo) (w : Transactions.World) :
  NoDup (Transactions.signatures w) ->
  let r := Transactions.storeTransaction info w in
  NoDup (Transactions.signatures (fst r)) /\
  Transactions.wallets (fst r) = Transactions.wallets w /\
  match WalletService.getWalletByAddress (Transactions.info_walletAddress info)
                                         (Transactions.wallets w) with
  | None =>
      r = (w, Transactions.Threw
                (Transactions.WalletNotFound (Transactions.info_walletAddress info)))
  | Some _ =>
      exists row more,
        snd r = Transactions.Returned row /\
        Transactions.signature row = Transactions.info_signature info /\
        Transactions.transactions (fst r) = Transactions.transactions w ++ more /\
        Transactions.findUnique (Transactions.info_signature info)
                                (Transactions.transactions (fst r)) = Some row /\
        (Transactions.info_signature again = Transactions.info_signature info ->
         WalletService.getWalletByAddress (Transactions.info_walletAddress again)
                                          (Transactions.wallets w) <> None ->
         Transactions.storeTransaction again (fst r) = (fst r, Transactions.Returned row))
  end.
Proof.
  intros Hnd. cbv zeta.
  destruct (Transactions.storeTransaction info w) as [w' res] eqn:Hr. cbn [fst snd].
  unfold Transactions.storeTransaction in Hr.
  destruct (WalletService.getWalletByAddress (Transactions.info_walletAddress info)
                                             (Transactions.wallets w)) as [wallet|];
    [|injection Hr as <- <-; auto].
  destruct (Transactions.findUnique (Transactions.info_signature info)
                                    (Transactions.transactions w)) as [existing|] eqn:Hfind;
    injection Hr as <- <-.
  - split; [exact Hnd|]. split; [reflexivity|].
    destruct (findUnique_Some _ _ Hfind) as (_ & Hsig).
    exists existing, []. rewrite app_nil_r.
    split; [reflexivity|]. split; [exact Hsig|]. split; [reflexivity|].
    split; [exact Hfind|]. intros Hsame Hwallet. unfold Transactions.storeTransaction.
    destruct (WalletService.getWalletByAddress (Transactions.info_walletAddress again)
                                               (Transactions.wallets w));
      [|contradiction].
    now rewrite Hsame, Hfind.
  - unfold Transactions.signatures, Transactions.insert.
    cbn [Transactions.transactions Transactions.wallets].
    split.
    { rewrite map_app. apply NoDup_app; [exact Hnd | repeat constructor; intros [] |].
      intros x Hx [<-|[]]. apply findUnique_In in Hx. contradiction. }
    split; [reflexivity|].
    eexists. eexists [_]. split; [reflexivity|]. split; [reflexivity|].
    split; [reflexivity|].
    match goal with |- Transactions.findUnique ?sig ?table = Some ?row /\ _ =>
      assert (Hnow : Transactions.findUnique sig table = Some row)
    end.
    { rewrite findUnique_app, Hfind. unfold Transactions.findUnique.
      cbn [find Transactions.signature]. rewrite String.eqb_refl. reflexivity. }
    split; [exact Hnow|]. intros Hsame Hwallet. unfold Transactions.storeTransaction.
    cbn [Transactions.wallets Transactions.transactions].
    destruct (WalletService.getWalletByAddress (Transactions.info_walletAddress again)
                                               (Transactions.wallets w));
      [|contradiction].
    now rewrite Hsame, Hnow.
Qed.

Lemma a_signature_is_stored_once_witness :
  Transactions.storeTransaction (Transactions.infoFor "s1" "W2" Transactions.SELL)
    (fst (Transactions.storeTransaction (Transactions.infoFor "s1" "W1" Transactions.BUY)
                                        Transactions.sampleWorld))
  = (fst (Transactions.storeTransaction (Transactions.infoFor "s1" "W1" Transactions.BUY)
                                        Transactions.sampleWorld),
     snd (Transactions.storeTransaction (Transactions.infoFor "s1" "W1" Transactions.BUY)
                                        Transactions.sampleWorld)).
Proof.
  pose proof (@a_signature_is_stored_once
                (Transactions.infoFor "s1" "W1" Transactions.BUY)
                (Transactions.infoFor "s1" "W2" Transactions.SELL)
                Transactions.sampleWorld (NoDup_nil _)) as H.
  cbv zeta in H. destruct H as (_ & _ & H).
  change (WalletService.getWalletByAddress
            (Transactions.info_walletAddress
               (Transactions.infoFor "s1" "W1" Transactions.BUY))
            (Transactions.wallets Transactions.sampleWorld))
    with (Some (nth 0 WalletService.sampleTable (Server.walletAt "W1"))) in H.
  destruct H as (row & more & Hret & _ & _ & _ & Hagain).
  rewrite Hret. apply Hagain; [reflexivity | discriminate].
Defined.

(** X21. What a sync counts.  With real data and a ledger that lists the
    signatures, [syncWalletTransactions] returns the number of listed
    signatures that parse and whose fee payer is a wallet of the table,
    whichever wallet was asked for; it never throws on a transaction that it
    cannot store.  Afterwards each of those signatures is in the table;
    every row added carries one of the listed signatures; rows that were
    there stay; signatures stay unique; wallets are untouched; and it has
    waited 100 ms once per listed signature. *)
Theorem sync_counts_the_storable_signatures
        (random : nat -> Q) (settings : Transactions.Settings) (chain : Transactions.Chain)
        (walletAddress : string) (limit : Z) (w : Transactions.World)
        (sigs : list string) :
  Transactions.useSampleData settings = false ->
  Transactions.getSignaturesForAddress chain walletAddress limit = Normal sigs ->
  let r := Transactions.syncWalletTransactions random settings chain walletAddress limit w in
  let count := length (filter (Transactions.storable chain (Transactions.wallets w)) sigs) in
  snd r = Transactions.Returned count /\ count <= length sigs /\
  Transactions.wallets (fst r) = Transactions.wallets w /\
  Transactions.pauses (fst r) = Transactions.pauses w ++ repeat 100%Z (length sigs) /\
  (NoDup (Transactions.signatures w) -> NoDup (Transactions.signatures (fst r))) /\
  (exists more,
      Transactions.transactions (fst r) = Transactions.transactions w ++ more /\
      Forall (fun tx => In (Transactions.signature tx) sigs) more /\
      length more <= count) /\
  (forall sig, In sig sigs ->
               Transactions.storable chain (Transactions.wallets w) sig = true ->
               Transactions.stored sig (fst r)).
Proof.
  intros Hreal Hsigs. cbv zeta. unfold Transactions.syncWalletTransactions.
  rewrite Hreal, Hsigs.
  destruct (syncLoop_spec random chain sigs 0 w)
    as (Hw & Hc & Hp & Hnd & (more & Ht & Hall & Hlen & _) & Hst).
  destruct (Transactions.syncLoop random chain sigs 0 w) as [w' count]. cbn [fst snd] in *.
  split; [now rewrite Hc|]. split; [apply filter_length_le|].
  split; [exact Hw|]. split; [exact Hp|]. split; [exact Hnd|].
  split; [exists more; auto | exact Hst].
Qed.

Lemma sync_counts_the_storable_signatures_witness :
  let r := Transactions.syncWalletTransactions Transactions.halves Transactions.realData
             Transactions.sampleChain "W2" 50 Transactions.sampleWorld in
  snd r = Transactions.Returned 2 /\
  Transactions.signatures (fst r) = ["s1"; "s4"]%string.
Proof.
  cbv zeta. split; [|reflexivity].
  exact (proj1 (@sync_counts_the_storable_signatures Transactions.halves
                  Transactions.realData Transactions.sampleChain "W2"%string 50%Z
                  Transactions.sampleWorld ["s1"; "s2"; "s3"; "s4"]%string
                  eq_refl eq_refl)).
Defined.

(** X22. A second sync stores nothing and reports the same number: when
    [syncWalletTransactions] is run again on the same answers of the
    ledger, the table of transactions is left exactly as the first run left
    it, and the number returned is that of the first run; the number counts
    the transactions found, not the transactions added. *)
Theorem a_second_sync_stores_nothing
        (random : nat -> Q) (settings : Transactions.Settings) (chain : Transactions.Chain)
        (walletAddress : string) (limit : Z) (w : Transactions.World)
        (sigs : list string) :
  Transactions.useSampleData settings = false ->
  Transactions.getSignaturesForAddress chain walletAddress limit = Normal sigs ->
  let first := Transactions.syncWalletTransactions random settings chain
                 walletAddress limit w in
  let second := Transactions.syncWalletTransactions random settings chain
                  walletAddress limit (fst first) in
  snd second = snd first /\
  Transactions.transactions (fst second) = Transactions.transactions (fst first) /\
  Transactions.wallets (fst second) = Transactions.wallets w.
Proof.
  intros Hreal Hsigs. cbv zeta. unfold Transactions.syncWalletTransactions.
  rewrite Hreal, Hsigs.
  destruct (syncLoop_spec random chain sigs 0 w) as (Hw & Hc & _ & _ & _ & Hst).
  destruct (Transactions.syncLoop random chain sigs 0 w) as [w1 count1]. cbn [fst snd] in *.
  destruct (syncLoop_spec random chain sigs 0 w1)
    as (Hw2 & Hc2 & _ & _ & (more & Ht & _ & _ & Hnone) & _).
  destruct (Transactions.syncLoop random chain sigs 0 w1) as [w2 count2].
  cbn [fst snd] in *. rewrite Hw in *.
  split; [congruence|]. split; [|congruence].
  rewrite Ht, Hnone; [apply app_nil_r | exact Hst].
Qed.

Lemma a_second_sync_stores_nothing_witness :
  let first := Transactions.syncWalletTransactions Transactions.halves Transactions.realData
                 Transactions.sampleChain "W2" 50 Transactions.sampleWorld in
  let second := Transactions.syncWalletTransactions Transactions.halves Transactions.realData
                  Transactions.sampleChain "W2" 50 (fst first) in
  snd second = Transactions.Returned 2 /\
  length (Transactions.transactions (fst second)) = 2.
Proof.
  cbv zeta.
  destruct (@a_second_sync_stores_nothing Transactions.halves Transactions.realData
              Transactions.sampleChain "W2"%string 50%Z Transactions.sampleWorld
              ["s1"; "s2"; "s3"; "s4"]%string eq_refl eq_refl) as (Hc & Ht & _).
  rewrite Hc, Ht. split; reflexivity.
Defined.



(** X24. When a sync throws: [syncWalletTransactions] throws only with real
    data, outside development, when the ledger fails to list the
    signatures; it then rethrows the ledger's error and has changed
    nothing.  With sample data it returns a number of at most 10, and as a
    fallback in development a number of at most 5.  In every case the
    wallets are untouched, the rows that were there stay, and signatures
    stay unique. *)
Theorem sync_throws_only_when_the_ledger_fails
        (random : nat -> Q) (settings : Transactions.Settings) (chain : Transactions.Chain)
        (walletAddress : string) (limit : Z) (w : Transactions.World) :
  let r := Transactions.syncWalletTransactions random settings chain walletAddress limit w in
  Transactions.wallets (fst r) = Transactions.wallets w /\
  (NoDup (Transactions.signatures w) -> NoDup (Transactions.signatures (fst r))) /\
  (exists more, Transactions.transactions (fst r) = Transactions.transactions w ++ more) /\
  (forall e, snd r = Transactions.Threw e ->
             Transactions.useSampleData settings = false /\
             Transactions.development settings = false /\
             fst r = w /\
             exists cause,
               Transactions.getSignaturesForAddress chain walletAddress limit = Throw cause /\
               e = Transactions.Rejected cause) /\
  (Transactions.useSampleData settings = true ->
   exists created, snd r = Transactions.Returned created /\ created <= 10) /\
  (Transactions.useSampleData settings = false ->
   Transactions.development settings = true ->
   forall cause,
     Transactions.getSignaturesForAddress chain walletAddress limit = Throw cause ->
     exists created, snd r = Transactions.Returned created /\ created <= 5).
Proof.
  cbv zeta. unfold Transactions.syncWalletTransactions.
  destruct (Transactions.useSampleData settings).
  - destruct (createSampleTransactions_adds random walletAddress (Z.min limit 10) w)
      as (Hw & _ & _ & Hnd & added & Ht & Hs & Hl & _).
    destruct (Transactions.createSampleTransactions random walletAddress (Z.min limit 10) w)
      as [w' created]. cbn [fst snd] in *.
    split; [exact Hw|]. split; [exact Hnd|]. split; [eauto|].
    split; [intros e He; discriminate|].
    split; [|discriminate]. intros _. exists created. split; [reflexivity | lia].
  - destruct (Transactions.getSignaturesForAddress chain walletAddress limit)
      as [sigs|cause].
    + destruct (syncLoop_spec random chain sigs 0 w)
        as (Hw & _ & _ & Hnd & (more & Ht & _) & _).
      destruct (Transactions.syncLoop random chain sigs 0 w) as [w' count].
      cbn [fst snd] in *.
      split; [exact Hw|]. split; [exact Hnd|]. split; [eauto|].
      split; [intros e He; discriminate|].
      split; [discriminate|]. intros _ _ cause Hc. discriminate.
    + destruct (Transactions.development settings).
      * destruct (createSampleTransactions_adds random walletAddress 5 w)
          as (Hw & _ & _ & Hnd & added & Ht & Hs & Hl & _).
        destruct (Transactions.createSampleTransactions random walletAddress 5 w)
          as [w' created]. cbn [fst snd] in *.
        split; [exact Hw|]. split; [exact Hnd|]. split; [eauto|].
        split; [intros e He; discriminate|].
        split; [discriminate|]. intros _ _ cause' _.
        exists created. split; [reflexivity | lia].
      * cbn [fst snd]. split; [reflexivity|]. split; [auto|].
        split; [exists []; now rewrite app_nil_r|].
        split.
        { intros e [= <-]. repeat split. now exists cause. }
        split; discriminate.
Qed.

(** X25. The report of an enhanced sync.  With real data and a ledger that
    lists the signatures, [syncWalletTransactionsEnhanced] reports as
    processed the signatures that parse and whose fee payer is a wallet of
    the table, and as errors, in order, exactly the signatures that parse
    but whose fee payer is not; it calls [onProgress] first with 0 and then
    once for every signature that is not an error, each time with the
    number of listed signatures as the total and a current value between 1
    and that total.  When the ledger fails to list the signatures, the
    report holds no processed transaction, that one error and no progress,
    and nothing has changed. *)
Theorem enhanced_sync_reports_every_signature
        (random : nat -> Q) (settings : Transactions.Settings) (chain : Transactions.Chain)
        (walletAddress : string) (limit : Z) (w : Transactions.World) :
  Transactions.useSampleData settings = false ->
  let r := Transactions.syncWalletTransactionsEnhanced random settings chain
             walletAddress limit w in
  match Transactions.getSignaturesForAddress chain walletAddress limit with
  | Normal sigs =>
      let orphans := filter (Transactions.orphaned chain (Transactions.wallets w)) sigs in
      Transactions.processed (snd r)
      = length (filter (Transactions.storable chain (Transactions.wallets w)) sigs) /\
      map Transactions.failedSignature (Transactions.errors (snd r)) = map Some orphans /\
      Transactions.processed (snd r) + length (Transactions.errors (snd r)) <= length sigs /\
      (exists calls,
          Transactions.progress (snd r) = (0, length sigs) :: calls /\
          length calls + length orphans = length sigs /\
          Forall (fun call => snd call = length sigs /\ 1 <= fst call <= length sigs) calls) /\
      Transactions.wallets (fst r) = Transactions.wallets w /\
      (NoDup (Transactions.signatures w) -> NoDup (Transactions.signatures (fst r)))
  | Throw cause =>
      r = (w, {| Transactions.processed := 0;
                 Transactions.errors := [Transactions.FailedToFetch walletAddress cause];
                 Transactions.progress := [] |})
  end.
Proof.
  intros Hreal. cbv zeta. unfold Transactions.syncWalletTransactionsEnhanced.
  rewrite Hreal.
  destruct (Transactions.getSignaturesForAddress chain walletAddress limit)
    as [sigs|cause]; [|reflexivity].
  match goal with |- context [Transactions.enhancedLoop random chain sigs 0 _ ?rep w] =>
    destruct (enhancedLoop_spec random chain (length sigs) sigs 0 rep w)
      as (Hw & Hnd & _ & Hp & He & calls & Hg & Hlen & Hall);
    destruct (Transactions.enhancedLoop random chain sigs 0 (length sigs) rep w)
      as [w' report]
  end.
  cbn [fst snd Transactions.processed Transactions.errors Transactions.progress map app
       Nat.add] in *.
  split; [exact Hp|]. split; [exact He|].
  split.
  { rewrite Hp. apply (f_equal (@length _)) in He. rewrite !length_map in He. rewrite He.
    clear. induction sigs as [|sig sigs IH]; cbn [filter length]; [lia|].
    unfold Transactions.storable at 1, Transactions.orphaned at 1.
    destruct (Transactions.parses chain sig); [|lia].
    destruct (WalletService.getWalletByAddress _ _); cbn [length]; lia. }
  split; [|split; [exact Hw | exact Hnd]].
  exists calls. split; [exact Hg|]. split; [exact Hlen|].
  eapply Forall_impl; [|exact Hall]. intros call (H1 & H2). split; [exact H1 | lia].
Qed.

Lemma enhanced_sync_reports_every_signature_witness :
  let r := Transactions.syncWalletTransactionsEnhanced Transactions.halves
             Transactions.realData Transactions.sampleChain "W2" 50
             Transactions.sampleWorld in
  Transactions.processed (snd r) = 2 /\
  map Transactions.failedSignature (Transactions.errors (snd r)) = [Some "s3"%string] /\
  Transactions.progress (snd r) = [(0, 4); (1, 4); (2, 4); (4, 4)].
Proof.
  cbv zeta.
  pose proof (@enhanced_sync_reports_every_signature Transactions.halves
                Transactions.realData Transactions.sampleChain "W2"%string 50%Z
                Transactions.sampleWorld eq_refl) as H.
  cbv zeta in H.
  change (Transactions.getSignaturesForAddress Transactions.sampleChain "W2" 50)
    with (Normal ["s1"; "s2"; "s3"; "s4"]%string) in H.
  destruct H as (Hp & He & _).
  split; [exact Hp|]. split; [exact He | reflexivity].
Defined.

(** X26. The archive count is one short.  When the fields of the rows hold
    no line break and the file can be written, a cleanup with archive
    deletes the transactions strictly older than the cutoff, and reports as
    [archived] one less than the number of rows it wrote to the archive (0
    when it wrote none): the archive holds the header and the rows, with no
    empty last line.  The rows written are the at most 50000 most recent
    ones at or before the cutoff.  So when the table has no more than 50000
    rows and none dated exactly at the cutoff, every deleted row is in the
    archive and [archived] is [deleted - 1].  When the file cannot be
    written, nothing is deleted. *)
Theorem archive_count_is_one_short
        (fields : Transactions.Transaction -> list string)
        (daysToKeep : Z) (w : Transactions.World) :
  Forall (fun tx => Forall Transactions.noNewline (fields tx))
         (Transactions.transactions w) ->
  let cutoffDate := (Transactions.clock w - daysToKeep * Transactions.millisPerDay)%Z in
  let rows := Transactions.exported cutoffDate (Transactions.transactions w) in
  let older := filter (fun tx => (Transactions.timestamp tx <? cutoffDate)%Z)
                      (Transactions.transactions w) in
  (exists w' result,
      Transactions.cleanupOldTransactionsWithArchive fields daysToKeep true true w
      = (w', Transactions.Returned result) /\
      Transactions.archived result = Z.of_nat (length rows - 1) /\
      Transactions.deleted result = length older /\
      Transactions.transactions w'
      = filter (fun tx => (cutoffDate <=? Transactions.timestamp tx)%Z)
               (Transactions.transactions w) /\
      (length (Transactions.transactions w) <= Z.to_nat 50000 ->
       (forall tx, In tx (Transactions.transactions w) ->
                   Transactions.timestamp tx <> cutoffDate) ->
       length rows = length older /\
       Transactions.archived result = Z.of_nat (Transactions.deleted result - 1))) /\
  Transactions.cleanupOldTransactionsWithArchive fields daysToKeep true false w
  = (w, Transactions.Threw (Transactions.Rejected (FetchError None))).
Proof.
  intros Hall. cbv zeta. split; [|reflexivity].
  unfold Transactions.cleanupOldTransactionsWithArchive, Transactions.deleteOlderThan.
  set (cutoffDate := (Transactions.clock w - daysToKeep * Transactions.millisPerDay)%Z).
  eexists. eexists. split; [reflexivity|].
  cbn [Transactions.archived Transactions.deleted Transactions.transactions
       Transactions.set_transactions].
  rewrite (@archive_lines fields cutoffDate w Hall).
  split; [lia|]. split; [reflexivity|]. split; [reflexivity|].
  intros Hsmall Hnone.
  assert (Hrows : length (Transactions.exported cutoffDate (Transactions.transactions w))
                  = length (filter (fun tx => (Transactions.timestamp tx <? cutoffDate)%Z)
                                   (Transactions.transactions w))).
  { rewrite exported_length.
    assert (Hsame : filter (fun tx => (Transactions.timestamp tx <=? cutoffDate)%Z)
                           (Transactions.transactions w)
                    = filter (fun tx => (Transactions.timestamp tx <? cutoffDate)%Z)
                             (Transactions.transactions w)).
    { apply filter_ext_in. intros tx Hin. specialize (Hnone tx Hin).
      destruct (Z.leb_spec (Transactions.timestamp tx) cutoffDate);
        destruct (Z.ltb_spec (Transactions.timestamp tx) cutoffDate); try reflexivity; lia. }
    rewrite Hsame. apply Nat.min_r.
    etransitivity; [apply filter_length_mono with (q := fun _ => true); reflexivity|].
    rewrite filter_all by reflexivity. exact Hsmall. }
  split; [exact Hrows|]. rewrite Hrows. lia.
Qed.

Lemma archive_count_is_one_short_witness :
  let w := {| Transactions.wallets := WalletService.sampleTable;
              Transactions.transactions :=
                [Transactions.rowAt "a" 1000; Transactions.rowAt "b" 2000;
                 Transactions.rowAt "c" 3000;
                 Transactions.rowAt "d" (1700000000000 - Transactions.millisPerDay)];
              Transactions.clock := 1700000000000; Transactions.draws := 0;
              Transactions.pauses := [] |} in
  exists w' result,
    Transactions.cleanupOldTransactionsWithArchive Transactions.signatureOnly 1 true true w
    = (w', Transactions.Returned result) /\
    Transactions.deleted result = 3 /\ Transactions.archived result = 3%Z /\
    map Transactions.signature (Transactions.transactions w') = ["d"%string].
Proof.
  intros w.
  destruct (@archive_count_is_one_short Transactions.signatureOnly 1 w)
    as ((w' & result & Hrun & Ha & Hd & Ht & _) & _).
  { repeat (apply Forall_cons;
              [apply Forall_cons;
               [unfold Transactions.noNewline; cbn; intros [H|[]]; discriminate H
               |apply Forall_nil]|]).
    apply Forall_nil. }
  exists w', result. split; [exact Hrun|]. split; [exact Hd|].
  split; [rewrite Ha | rewrite Ht]; reflexivity.
Defined.

(** ** Queries on the transaction table *)

Section QueryFacts.
Import Discovery Transactions.

Lemma insertBy_newestFirst x l :
  Sorted newestFirst l -> Sorted newestFirst (insertBy byTimestampDescending x l).
Proof.
  induction 1 as [|y l Hs IH Hhd]; cbn [insertBy]; [repeat constructor|].
  unfold byTimestampDescending at 1.
  destruct (Z.leb_spec (timestamp y - timestamp x) 0) as [Hle|Hgt].
  - constructor; [now constructor|]. constructor. unfold newestFirst. lia.
  - constructor; [exact IH|].
    destruct l as [|z l]; cbn [insertBy].
    + constructor. unfold newestFirst. lia.
    + destruct (byTimestampDescending x z <=? 0)%Z; constructor.
      * unfold newestFirst. lia.
      * now inversion Hhd.
Qed.

Lemma sortBy_newestFirst l : Sorted newestFirst (sortBy byTimestampDescending l).
Proof.
  induction l as [|x l IH]; cbn [sortBy fold_right]; [constructor|].
  now apply insertBy_newestFirst.
Qed.

Lemma newestFirst_strongly l : Sorted newestFirst l -> StronglySorted newestFirst l.
Proof.
  apply Sorted_StronglySorted. intros a b c Hab Hbc. unfold newestFirst in *. lia.
Qed.

Lemma StronglySorted_skipn (A : Type) (R : A -> A -> Prop) : forall n l,
  StronglySorted R l -> StronglySorted R (skipn n l).
Proof.
  induction n as [|n IH]; intros l Hs; [exact Hs|].
  destruct l as [|x l]; [exact Hs|]. cbn [skipn]. apply IH. now inversion Hs.
Qed.

Lemma StronglySorted_firstn (A : Type) (R : A -> A -> Prop) : forall n l,
  StronglySorted R l -> StronglySorted R (firstn n l).
Proof.
  induction n as [|n IH]; intros l Hs; [constructor|].
  destruct l as [|x l]; [constructor|]. cbn [firstn]. inversion Hs as [|? ? Hl Hall]; subst.
  constructor; [now apply IH|].
  rewrite Forall_forall in *. intros y Hy. apply Hall. eapply In_firstn_In. exact Hy.
Qed.

(** In a sorted list, what [firstn] keeps comes before what it drops. *)
Lemma StronglySorted_split (A : Type) (R : A -> A -> Prop) : forall n l x y,
  StronglySorted R l -> In x (firstn n l) -> In y (skipn n l) -> R x y.
Proof.
  induction n as [|n IH]; intros l x y Hs Hx Hy; [destruct Hx|].
  destruct l as [|z l]; [destruct Hx|]. cbn [firstn skipn In] in *.
  inversion Hs as [|? ? Hl Hall]; subst. destruct Hx as [<-|Hx].
  - rewrite Forall_forall in Hall. apply Hall.
    rewrite <- (firstn_skipn n l). apply in_or_app. now right.
  - now apply (IH l).
Qed.

Lemma matches_spec filters tx :
  matches filters tx = true <->
  (forall a, f_walletAddress filters = Some a -> a <> EmptyString -> walletAddress tx = a) /\
  (forall kind, f_type filters = Some kind -> type tx = kind) /\
  (forall p, f_protocol filters = Some p -> p <> EmptyString -> protocol tx = p) /\
  (forall startDate, f_startDate filters = Some startDate -> (startDate <= timestamp tx)%Z) /\
  (forall endDate, f_endDate filters = Some endDate -> (timestamp tx <= endDate)%Z).
Proof.
  unfold matches, givenText. rewrite !andb_true_iff.
  assert (Htype : forall a b, typeEqb a b = true <-> a = b)
    by (intros [] []; cbn; split; congruence).
  split.
  - intros ((((Hw & Ht) & Hp) & Hs) & He).
    split; [|split; [|split; [|split]]].
    + intros a Ha Hne. rewrite Ha in Hw.
      destruct (String.eqb_spec a EmptyString); [contradiction|]. now apply String.eqb_eq.
    + intros kind Hk. rewrite Hk in Ht. now apply Htype.
    + intros p Hp' Hne. rewrite Hp' in Hp.
      destruct (String.eqb_spec p EmptyString); [contradiction|]. now apply String.eqb_eq.
    + intros d Hd. rewrite Hd in Hs. now apply Z.leb_le.
    + intros d Hd. rewrite Hd in He. now apply Z.leb_le.
  - intros (Hw & Ht & Hp & Hs & He).
    repeat split.
    + destruct (f_walletAddress filters) as [a|]; [|reflexivity].
      destruct (String.eqb_spec a EmptyString); [reflexivity|].
      apply String.eqb_eq. now apply Hw.
    + destruct (f_type filters) as [kind|]; [|reflexivity]. apply Htype. now apply Ht.
    + destruct (f_protocol filters) as [p|]; [|reflexivity].
      destruct (String.eqb_spec p EmptyString); [reflexivity|].
      apply String.eqb_eq. now apply Hp.
    + destruct (f_startDate filters) as [d|]; [|reflexivity]. apply Z.leb_le. now apply Hs.
    + destruct (f_endDate filters) as [d|]; [|reflexivity]. apply Z.leb_le. now apply He.
Qed.

Lemma getTransactions_spec filters w :
  let found := filter (matches filters) (transactions w) in
  let rows := getTransactions filters w in
  (forall tx, In tx rows -> In tx (transactions w) /\ matches filters tx = true) /\
  Sorted newestFirst rows /\
  length rows <= takeOf filters /\
  (skipOf filters = 0 ->
   (length found <= takeOf filters -> Permutation found rows) /\
   (forall kept dropped, In kept rows -> In dropped found -> ~ In dropped rows ->
                         (timestamp dropped <= timestamp kept)%Z)).
Proof.
  cbv zeta. unfold getTransactions.
  set (found := filter (matches filters) (transactions w)).
  set (sorted := sortBy byTimestampDescending found).
  assert (Hperm : Permutation found sorted) by apply sortBy_perm.
  assert (Hss : StronglySorted newestFirst sorted)
    by (apply newestFirst_strongly, sortBy_newestFirst).
  split.
  { intros tx Hin. apply In_firstn_In in Hin.
    assert (Hin' : In tx sorted).
    { rewrite <- (firstn_skipn (skipOf filters) sorted). apply in_or_app. now right. }
    apply (Permutation_in _ (Permutation_sym Hperm)) in Hin'.
    now apply filter_In in Hin'. }
  split; [apply StronglySorted_Sorted, StronglySorted_firstn, StronglySorted_skipn, Hss|].
  split; [rewrite length_firstn; lia|].
  intros ->. cbn [skipn]. split.
  - intros Hfit. rewrite firstn_all2; [exact Hperm|].
    rewrite <- (Permutation_length Hperm). exact Hfit.
  - intros kept dropped Hkept Hdropped Hnot.
    apply (Permutation_in _ Hperm) in Hdropped.
    rewrite <- (firstn_skipn (takeOf filters) sorted) in Hdropped.
    apply in_app_or in Hdropped. destruct Hdropped as [Hd|Hd]; [contradiction|].
    change (newestFirst kept dropped). eapply StronglySorted_split; eassumption.
Qed.

End QueryFacts.

(** Three rows, asked for without filters, with an empty wallet address,
    and for the single newest one. *)
Example queries_on_three_rows :
  let w := Transactions.set_transactions
             [Transactions.rowAt "a" 1000; Transactions.rowAt "b" 3000;
              Transactions.rowAt "c" 2000] Transactions.sampleWorld in
  map Transactions.signature (Transactions.getTransactions Transactions.noFilters w)
  = ["b"; "c"; "a"]%string /\
  Transactions.getTransactions
    {| Transactions.f_walletAddress := Some EmptyString; Transactions.f_type := None;
       Transactions.f_protocol := None; Transactions.f_startDate := None;
       Transactions.f_endDate := None; Transactions.f_limit := Some 0;
       Transactions.f_offset := None |} w
  = Transactions.getTransactions Transactions.noFilters w /\
  map Transactions.signature (Transactions.getRecentTransactions (Some 1) w)
  = ["b"%string] /\
  map Transactions.signature
      (Transactions.transactions (fst (Transactions.cleanupOldTransactions 0
         (Transactions.set_transactions
            [Transactions.rowAt "a" 1000; Transactions.rowAt "z" 1700000000000]
            Transactions.sampleWorld))))
  = ["z"%string].
Proof. vm_compute. repeat split; reflexivity. Qed.

(** X27. What a query returns.  Every row that [getTransactions] returns is
    a row of the table that meets each filter given (a wallet address or
    protocol given as the empty string counts as not given); the rows come
    newest first; there are at most [limit] of them, and at most 100 when
    [limit] is absent or 0.  Without an offset, if all matching rows fit the
    limit they are all returned, and otherwise no matching row that was
    left out is newer than a row that was returned.
    [getRecentTransactions] returns at most 20 rows when called without a
    limit, but up to 100 when called with 0. *)
Theorem queries_return_the_newest_matching_rows
        (filters : Transactions.Filters) (limit : option nat) (w : Transactions.World) :
  let found := filter (Transactions.matches filters) (Transactions.transactions w) in
  let rows := Transactions.getTransactions filters w in
  (forall tx, In tx rows ->
     In tx (Transactions.transactions w) /\
     (forall a, Transactions.f_walletAddress filters = Some a -> a <> EmptyString ->
                Transactions.walletAddress tx = a) /\
     (forall kind, Transactions.f_type filters = Some kind -> Transactions.type tx = kind) /\
     (forall p, Transactions.f_protocol filters = Some p -> p <> EmptyString ->
                Transactions.protocol tx = p) /\
     (forall startDate, Transactions.f_startDate filters = Some startDate ->
                        (startDate <= Transactions.timestamp tx)%Z) /\
     (forall endDate, Transactions.f_endDate filters = Some endDate ->
                      (Transactions.timestamp tx <= endDate)%Z)) /\
  Sorted Transactions.newestFirst rows /\
  length rows <= match Transactions.f_limit filters with
                 | Some (S n) => S n
                 | _ => 100
                 end /\
  (Transactions.f_offset filters = None \/ Transactions.f_offset filters = Some 0 ->
   (length found <= Transactions.takeOf filters -> Permutation found rows) /\
   (forall kept dropped, In kept rows -> In dropped found -> ~ In dropped rows ->
      (Transactions.timestamp dropped <= Transactions.timestamp kept)%Z)) /\
  length (Transactions.getRecentTransactions limit w)
  <= match limit with
     | None => 20
     | Some 0 => 100
     | Some n => n
     end.
Proof.
  cbv zeta.
  destruct (getTransactions_spec filters w) as (Hin & Hsorted & Hlen & Hzero).
  split.
  { intros tx Htx. destruct (Hin tx Htx) as (Htable & Hm).
    split; [exact Htable|]. now apply matches_spec. }
  split; [exact Hsorted|]. split; [exact Hlen|]. split.
  { intros Hoff. apply Hzero. unfold Transactions.skipOf. now destruct Hoff as [->| ->]. }
  unfold Transactions.getRecentTransactions.
  match goal with |- length (Transactions.getTransactions ?f w) <= _ =>
    destruct (getTransactions_spec f w) as (_ & _ & Hl & _); revert Hl
  end.
  unfold Transactions.takeOf. cbn [Transactions.f_limit].
  destruct limit as [[|n]|]; auto.
Qed.

(** ** Serialization *)

Section SerializationFacts.
Import Serialization.

(** Induction on values, with the induction hypothesis for every item of an
    array and every member of an object. *)
Lemma Value_nested_ind (P : Value -> Prop) :
  P Null -> P Undefined -> (forall b, P (Bool b)) -> (forall n, P (Number n)) ->
  (forall s, P (Text s)) -> (forall n, P (BigInt n)) -> (forall t, P (DateTime t)) ->
  (forall items, Forall P items -> P (Array items)) ->
  (forall members, Forall (fun member => P (snd member)) members -> P (Object members)) ->
  forall v, P v.
Proof.
  intros HNull HUndefined HBool HNumber HText HBigInt HDate HArray HObject.
  fix IH 1. intros [| |b|n|s|n|t|items|members].
  - exact HNull.
  - exact HUndefined.
  - apply HBool.
  - apply HNumber.
  - apply HText.
  - apply HBigInt.
  - apply HDate.
  - apply HArray. induction items as [|item items IHitems]; constructor;
      [apply IH | exact IHitems].
  - apply HObject. induction members as [|[key value] members IHmembers]; constructor;
      [apply IH | exact IHmembers].
Qed.

Lemma traverse_cons (A B : Type) (f : A -> Completion B) x rest :
  traverse f (x :: rest)
  = match f x with
    | Throw e => Throw e
    | Normal y => match traverse f rest with
                  | Throw e => Throw e
                  | Normal ys => Normal (y :: ys)
                  end
    end.
Proof. reflexivity. Qed.

(** A loop that ends normally has run its body on every element. *)
Lemma traverse_normal (A B : Type) (f : A -> Completion B) : forall l l',
  traverse f l = Normal l' <-> Forall2 (fun x y => f x = Normal y) l l'.
Proof.
  induction l as [|x rest IH]; intros l'.
  - cbn [traverse]. split.
    + intros [= <-]. constructor.
    + intros H. inversion H. reflexivity.
  - rewrite traverse_cons. split.
    + destruct (f x) as [y|e] eqn:Hx; [|discriminate].
      destruct (traverse f rest) as [ys|e] eqn:Hrest; [|discriminate].
      intros [= <-]. constructor; [exact Hx | now apply IH].
    + intros H. inversion H as [|x0 y l0 ys Hx Hrest]; subst.
      rewrite Hx. apply IH in Hrest. now rewrite Hrest.
Qed.

(** A loop that throws has run its body on an element that threw. *)
Lemma traverse_throw (A B : Type) (f : A -> Completion B) : forall l e,
  traverse f l = Throw e -> exists x, In x l /\ f x = Throw e.
Proof.
  induction l as [|x rest IH]; intros e; [discriminate|].
  rewrite traverse_cons. destruct (f x) as [y|e0] eqn:Hx.
  - destruct (traverse f rest) as [ys|e1] eqn:Hrest; [discriminate|].
    intros [= <-]. destruct (IH _ eq_refl) as (x0 & Hin & Hthrow).
    exists x0. split; [now right | exact Hthrow].
  - intros [= <-]. exists x. split; [now left | exact Hx].
Qed.

Lemma serializeBigInt_Array items :
  serializeBigInt (Array items)
  = match traverse serializeBigInt items with
    | Normal items' => Normal (Array items')
    | Throw e => Throw e
    end.
Proof. reflexivity. Qed.

Lemma serializeBigInt_Object members :
  serializeBigInt (Object members)
  = if shadowsHasOwnProperty members then Throw TypeError
    else match traverse (serializeMember serializeBigInt) members with
         | Normal members' => Normal (Object members')
         | Throw e => Throw e
         end.
Proof. reflexivity. Qed.

(** The members of a serialized object: the same keys, each with its
    serialized value. *)
Lemma members_normal members members' :
  traverse (serializeMember serializeBigInt) members = Normal members' ->
  map fst members' = map fst members /\
  Forall2 (fun member member' => serializeBigInt (snd member) = Normal (snd member'))
          members members'.
Proof.
  intros H. apply traverse_normal in H.
  induction H as [|member member' members members' Hm _ IH];
    [split; constructor|].
  destruct IH as (Hkeys & Hvalues).
  unfold serializeMember in Hm.
  destruct (serializeBigInt (snd member)) as [value|e] eqn:Hv; [|discriminate].
  injection Hm as <-. cbn [map fst snd]. split; [now rewrite Hkeys|].
  constructor; [exact Hv | exact Hvalues].
Qed.

(** Whether an object shadows [hasOwnProperty] is a matter of its keys. *)
Lemma shadows_keys : forall members members' : list (Key * Value),
  map fst members' = map fst members ->
  shadowsHasOwnProperty members' = shadowsHasOwnProperty members.
Proof.
  induction members as [|[k v] members IH]; intros [|[k' v'] members'];
    cbn [map fst]; try discriminate; [reflexivity|].
  intros [= -> Hrest]. unfold shadowsHasOwnProperty in *. cbn [existsb fst].
  now rewrite (IH _ Hrest).
Qed.

(** What comes back holds no bigint, no [Date] and no object that shadows
    [hasOwnProperty]. *)
Lemma serializeBigInt_clean : forall v v',
  serializeBigInt v = Normal v' ->
  anywhere isBigInt v' = false /\ anywhere isDate v' = false /\
  anywhere isShadowing v' = false.
Proof.
  induction v as [| |b|n|s|n|t|items IH|members IH] using Value_nested_ind;
    intros v'; try (intros [= <-]; repeat split; reflexivity).
  - rewrite serializeBigInt_Array.
    destruct (traverse serializeBigInt items) as [items'|e] eqn:Ht; [|discriminate].
    intros [= <-]. apply traverse_normal in Ht.
    cbn [anywhere isBigInt isDate isShadowing orb].
    induction Ht as [|item item' items items' Hitem _ IHitems];
      [repeat split; reflexivity|].
    apply Forall_cons_iff in IH. destruct IH as (IHitem & IH).
    destruct (IHitem _ Hitem) as (H1 & H2 & H3).
    destruct (IHitems IH) as (R1 & R2 & R3).
    cbn [existsb]. rewrite H1, H2, H3. repeat split; assumption.
  - rewrite serializeBigInt_Object.
    destruct (shadowsHasOwnProperty members) eqn:Hshadow; [discriminate|].
    destruct (traverse (serializeMember serializeBigInt) members) as [members'|e] eqn:Ht;
      [|discriminate].
    intros [= <-]. apply members_normal in Ht. destruct Ht as (Hkeys & Hvalues).
    assert (Hshadow' : shadowsHasOwnProperty members' = false).
    { rewrite <- Hshadow. now apply shadows_keys. }
    cbn [anywhere isBigInt isDate isShadowing orb]. rewrite Hshadow'. cbn [orb].
    clear Hkeys Hshadow Hshadow'.
    induction Hvalues as [|[k value] [k' value'] members members' Hvalue _ IHmembers];
      [repeat split; reflexivity|].
    apply Forall_cons_iff in IH. destruct IH as (IHvalue & IH).
    cbn [snd] in *.
    destruct (IHvalue _ Hvalue) as (H1 & H2 & H3).
    destruct (IHmembers IH) as (R1 & R2 & R3).
    cbn [existsb]. rewrite H1, H2, H3. repeat split; assumption.
Qed.

(** A value that holds no bigint, no [Date] and no object that shadows
    [hasOwnProperty] comes back as it was. *)
Lemma serializeBigInt_fixed : forall v,
  anywhere isBigInt v = false -> anywhere isDate v = false ->
  anywhere isShadowing v = false -> serializeBigInt v = Normal v.
Proof.
  induction v as [| |b|n|s|n|t|items IH|members IH] using Value_nested_ind;
    cbn [anywhere isBigInt isDate isShadowing orb]; try reflexivity; try discriminate.
  - intros Hb Hd Hs. rewrite serializeBigInt_Array.
    assert (Ht : traverse serializeBigInt items = Normal items).
    { induction IH as [|item items Hitem _ IHitems]; [reflexivity|].
      cbn [existsb] in *. apply orb_false_iff in Hb, Hd, Hs.
      destruct Hb as (Hb1 & Hb2), Hd as (Hd1 & Hd2), Hs as (Hs1 & Hs2).
      rewrite traverse_cons, Hitem by assumption. now rewrite IHitems. }
    now rewrite Ht.
  - intros Hb Hd Hs. rewrite serializeBigInt_Object.
    apply orb_false_iff in Hs. destruct Hs as (Hshadow & Hs). rewrite Hshadow.
    assert (Ht : traverse (serializeMember serializeBigInt) members = Normal members).
    { clear Hshadow.
      induction IH as [|[k value] members Hvalue _ IHmembers]; [reflexivity|].
      cbn [existsb snd] in *. apply orb_false_iff in Hb, Hd, Hs.
      destruct Hb as (Hb1 & Hb2), Hd as (Hd1 & Hd2), Hs as (Hs1 & Hs2).
      rewrite traverse_cons. unfold serializeMember at 1. cbn [snd fst].
      rewrite Hvalue by assumption. now rewrite IHmembers. }
    now rewrite Ht.
Qed.

(** [serializeBigInt] throws exactly on a value that holds an object with
    an own property named [hasOwnProperty], and then a [TypeError]. *)
Lemma serializeBigInt_throws : forall v,
  match serializeBigInt v with
  | Normal _ => anywhere isShadowing v = false
  | Throw e => e = TypeError /\ anywhere isShadowing v = true
  end.
Proof.
  induction v as [| |b|n|s|n|t|items IH|members IH] using Value_nested_ind;
    try reflexivity.
  - rewrite serializeBigInt_Array. cbn [anywhere isShadowing orb].
    induction IH as [|item items Hitem _ IHitems]; [reflexivity|].
    rewrite traverse_cons. cbn [existsb].
    destruct (serializeBigInt item) as [item'|e].
    + rewrite Hitem. cbn [orb].
      destruct (traverse serializeBigInt items) as [items'|e]; exact IHitems.
    + destruct Hitem as (-> & ->). split; reflexivity.
  - rewrite serializeBigInt_Object. cbn [anywhere isShadowing].
    destruct (shadowsHasOwnProperty members); [split; reflexivity|]. cbn [orb].
    induction IH as [|[k value] members Hvalue _ IHmembers]; [reflexivity|].
    rewrite traverse_cons. unfold serializeMember at 1. cbn [existsb snd fst] in *.
    destruct (serializeBigInt value) as [value'|e].
    + rewrite Hvalue. cbn [orb].
      destruct (traverse (serializeMember serializeBigInt) members) as [members'|e];
        exact IHmembers.
    + destruct Hvalue as (-> & ->). split; reflexivity.
Qed.

End SerializationFacts.

(** A row on its way out of [getWalletStats]: the slot becomes text, the
    timestamp an empty object. *)
Example sample_row_serialized :
  Serialization.serializeBigInt Serialization.sampleRow
  = Normal
      (Serialization.Object
         [(Serialization.key "signature" eq_refl, Serialization.Text "5Kd3");
          (Serialization.key "slot" eq_refl, Serialization.Text "250000001");
          (Serialization.key "timestamp" eq_refl, Serialization.Object []);
          (Serialization.key "wallet" eq_refl,
           Serialization.Object
             [(Serialization.key "address" eq_refl, Serialization.Text "W1");
              (Serialization.key "rank" eq_refl, Serialization.Number 1)])]).
Proof. vm_compute. reflexivity. Qed.

(** A row with a column named [hasOwnProperty] is not serialized. *)
Example shadowing_row_throws :
  Serialization.serializeBigInt Serialization.shadowingRow = Throw TypeError.
Proof. reflexivity. Qed.

(** X28. What [serializeBigInt] does to a value made of primitives, bigints,
    [Date]s, arrays and ordinary objects that have no key named
    [__proto__].  It throws, a [TypeError], exactly when the value holds at
    some depth an object with an own property named [hasOwnProperty]: the
    test [obj.hasOwnProperty(key)] then calls a value that is no function.
    Otherwise it returns a value that holds no bigint at any depth, each
    one having become its decimal text, and no [Date], each one having
    become an object without properties, so the time is lost; applying the
    function to its result returns the result as it is; a value that holds
    neither bigint nor [Date] comes back as it was; arrays keep their
    length and objects their keys, in order. *)
Theorem serialization_removes_bigints_and_dates (v : Serialization.Value) :
  match Serialization.serializeBigInt v with
  | Normal v' =>
      Serialization.anywhere Serialization.isShadowing v = false /\
      Serialization.anywhere Serialization.isBigInt v' = false /\
      Serialization.anywhere Serialization.isDate v' = false /\
      Serialization.serializeBigInt v' = Normal v' /\
      (Serialization.anywhere Serialization.isBigInt v = false ->
       Serialization.anywhere Serialization.isDate v = false -> v' = v) /\
      (forall items, v = Serialization.Array items ->
                     exists items', v' = Serialization.Array items' /\
                                    length items' = length items) /\
      (forall members, v = Serialization.Object members ->
                       exists members', v' = Serialization.Object members' /\
                                        map fst members' = map fst members)
  | Throw e =>
      e = TypeError /\ Serialization.anywhere Serialization.isShadowing v = true
  end /\
  (forall n, Serialization.serializeBigInt (Serialization.BigInt n)
             = Normal (Serialization.Text (Serialization.bigintToString n))) /\
  (forall t, Serialization.serializeBigInt (Serialization.DateTime t)
             = Normal (Serialization.Object [])) /\
  (forall members, Serialization.shadowsHasOwnProperty members = true ->
                   Serialization.serializeBigInt (Serialization.Object members)
                   = Throw TypeError).
Proof.
  split; [|split; [reflexivity|split; [reflexivity|]]].
  - pose proof (serializeBigInt_throws v) as Hthrows.
    destruct (Serialization.serializeBigInt v) as [v'|e] eqn:Hrun; [|exact Hthrows].
    destruct (serializeBigInt_clean v Hrun) as (Hb & Hd & Hs).
    split; [exact Hthrows|]. split; [exact Hb|]. split; [exact Hd|].
    split; [now apply serializeBigInt_fixed|]. split; [|split].
    + intros Hb0 Hd0. pose proof (serializeBigInt_fixed v Hb0 Hd0 Hthrows) as Hfix.
      congruence.
    + intros items ->. rewrite serializeBigInt_Array in Hrun.
      destruct (Serialization.traverse Serialization.serializeBigInt items)
        as [items'|e] eqn:Ht; [|discriminate].
      injection Hrun as <-. exists items'. split; [reflexivity|].
      apply traverse_normal in Ht. symmetry. exact (Forall2_length Ht).
    + intros members ->. rewrite serializeBigInt_Object in Hrun.
      destruct (Serialization.shadowsHasOwnProperty members); [discriminate|].
      destruct (Serialization.traverse
                  (Serialization.serializeMember Serialization.serializeBigInt) members)
        as [members'|e] eqn:Ht; [|discriminate].
      injection Hrun as <-. exists members'. split; [reflexivity|].
      exact (proj1 (members_normal _ Ht)).
  - intros members Hshadow. rewrite serializeBigInt_Object, Hshadow. reflexivity.
Qed.

(** ** Populating sample data *)

Section PopulateFacts.
Import Transactions.
Variable random : nat -> Q.




End PopulateFacts.


(** ** Account changes *)

(** X30. An account change never breaks the monitor: whatever the sync, the
    store and the sockets do, [handleAccountChange] completes normally and
    leaves the subscriptions, the monitoring flag and every socket as they
    were; connections are only ever removed from the set, and only ones
    that are not open.  When the sync or the fetch of the wallet's 5 most
    recent transactions fails, nothing is sent and the error is logged.
    When both succeed and no send throws, every open connection is sent one
    [wallet_activity] message with the wallet's address and those
    transactions, and the connections that are not open are unregistered. *)
Theorem account_change_never_breaks_the_monitor
        (env : Server.Env) (syncWalletTransactions : string -> Z -> Completion nat)
        (walletAddress : string) (w : Server.World) :
  let r := AccountChanges.handleAccountChange env syncWalletTransactions walletAddress w in
  (exists logged, snd r = Normal logged /\
                  In (AccountChanges.AccountChangeDetected walletAddress) logged) /\
  Server.subscriptions (fst r) = Server.subscriptions w /\
  Server.isMonitoring (fst r) = Server.isMonitoring w /\
  Server.upstream (fst r) = Server.upstream w /\
  Server.sockets (fst r) = Server.sockets w /\
  Server.pruned w (fst r) /\
  match syncWalletTransactions walletAddress 5%Z with
  | Throw _ =>
      fst r = w /\
      snd r = Normal [AccountChanges.AccountChangeDetected walletAddress;
                      AccountChanges.ErrorHandlingAccountChange walletAddress]
  | Normal _ =>
      match Server.getTransactions env (Server.queries w)
                                   (Server.Val (Server.JString walletAddress)) 5 with
      | Throw _ =>
          fst r = Server.count_query w /\
          snd r = Normal [AccountChanges.AccountChangeDetected walletAddress;
                          AccountChanges.ErrorHandlingAccountChange walletAddress]
      | Normal recentTransactions =>
          Server.sendsSucceed w ->
          snd r = Normal [AccountChanges.AccountChangeDetected walletAddress] /\
          Server.outbox (fst r)
          = Server.outbox w
            ++ map (fun ws => (ws, AccountChanges.walletActivity walletAddress
                                     recentTransactions))
                   (Server.openConnections w) /\
          Server.wsConnections (fst r) = Server.openConnections w
      end
  end.
Proof.
  cbv zeta.
  unfold AccountChanges.handleAccountChange, Server.tryCatch, Server.bind, Server.lift,
    Server.ret.
  destruct (syncWalletTransactions walletAddress 5%Z) as [count|e]; cbn [fst snd].
  2:{ split; [eexists; split; [reflexivity | now left]|].
      do 4 (split; [reflexivity|]). split; [apply pruned_refl | split; reflexivity]. }
  destruct (Server.getTransactions env (Server.queries w)
              (Server.Val (Server.JString walletAddress)) 5) as [recentTransactions|e];
    cbn [fst snd].
  2:{ split; [eexists; split; [reflexivity | now left]|].
      do 4 (split; [reflexivity|]).
      split; [|split; reflexivity].
      exists []. split; [|intros d []].
      cbn [Server.wsConnections Server.count_query]. symmetry. apply filter_all. reflexivity. }
  set (m := AccountChanges.walletActivity walletAddress recentTransactions).
  destruct (@broadcast_frame m (Server.count_query w)) as (Bs & Bp & Bc & _).
  pose proof (@broadcast_succeeds m (Server.count_query w)) as Bok.
  destruct (Server.broadcastToClients m (Server.count_query w)) as [w' c] eqn:Hb.
  cbn [fst snd] in *.
  destruct Bs as (B1 & B2 & B3 & B4 & _).
  cbn [Server.subscriptions Server.isMonitoring Server.upstream Server.sockets
       Server.count_query] in B1, B2, B3, B4.
  assert (Hp : Server.pruned w w').
  { destruct Bp as (deleted & Hd & Hclosed). exists deleted. split; assumption. }
  destruct c as [[]|e]; cbn [fst snd].
  - split; [eexists; split; [reflexivity | now left]|].
    do 4 (split; [assumption|]). split; [exact Hp|].
    intros Hok. split; [reflexivity|].
    destruct Bok as (_ & Hconn & Hout & _).
    { intros ws Hin Hopen. apply Hok; assumption. }
    cbn [fst] in Hconn, Hout. split; [exact Hout | exact Hconn].
  - split; [eexists; split; [reflexivity | now left]|].
    do 4 (split; [assumption|]). split; [exact Hp|].
    intros Hok. exfalso.
    destruct Bok as (E & _); [intros ws Hin Hopen; apply Hok; assumption|].
    discriminate E.
Qed.
